(** * Gunrock: frontier-driven graph traversal engine

    A shallow embedding of the parts of the engine that the specification
    makes claims about:

    - [edge_map_partitioned]: the load-balanced advance kernels
      ([GetNeighborListLength], [GetEdgeCounts], [RelaxLightEdges],
      [RelaxPartitionedEdges2]);
    - [cc]: the connected-components enactor ([Expand_Incoming_BothWay],
      [CCIteration], [EnactCC]) and the C entry point [cc];
    - [bc]: the betweenness-centrality enactor ([Forward_Iteration],
      [Backward_Iteration]);

    and of the code around them:

    - [grid], [cc_output], [bc_expand], [bc_forward]: the grid-stride
      kernels of the two enactors ([Mark_Difference_Queue],
      [Make_Difference_Queue], [Make_Output], [Expand_Incoming_Backward],
      [Expand_Incoming_Forward]);
    - [partition_sizes], [light_output]: [MarkPartitionSizes] and the
      output frontier of [RelaxLightEdges];
    - [test_utils]: [CommandLineArgs];
    - [enactor_entry], [bc_start], [bc_thread], [handshake]: [Enact] and
      [Init], [EnactBC], [BCThread] and [CCThread] on the host.

    Conventions.  [VertexId], [SizeT] and [Value] are the 32-bit [int] of the
    only instantiation the C interface dispatches to; they are carried as [Z]
    and every arithmetic result the kernels compute is passed through
    [Int32.wrap].  A device array is a [list Z] whose length is its
    capacity; an access outside of it has no defined result in the source
    and is [None] here.  A kernel is run one thread after the other, in
    the order of the global thread index. *)

From Stdlib Require Import ZArith List Lia Bool.
From stdpp Require Import base tactics option list numbers.
Import ListNotations.

Local Open Scope Z_scope.

(** ** Machine integers *)

Module Int32.

Definition INT_MIN : Z := -2147483648.
Definition INT_MAX : Z := 2147483647.

(** Two's complement wrap-around of a 32-bit signed integer. *)
Definition wrap (z : Z) : Z := (z + 2147483648) mod 4294967296 - 2147483648.

Definition in_range (z : Z) : Prop := INT_MIN <= z <= INT_MAX.

End Int32.

(** ** Device arrays *)

Module Array1D.

(** [a[i]]: defined inside the array only. *)
Definition read {A : Type} (a : list A) (i : Z) : option A :=
  if i <? 0 then None else a !! Z.to_nat i.

(** [a[i] = x]: defined inside the array only. *)
Definition write {A : Type} (a : list A) (i : Z) (x : A) : option (list A) :=
  if (0 <=? i) && (i <? Z.of_nat (length a))
  then Some (<[Z.to_nat i := x]> a)
  else None.

(** The number of elements the array has room for. *)
Definition GetSize {A : Type} (a : list A) : Z := Z.of_nat (length a).

(** A loop [for (x = first; x < first + n; x++) if (hit x) return true;]
    that falls through to [false]. *)
Fixpoint any_index (hit : Z -> option bool) (first : Z) (n : nat)
  : option bool :=
  match n with
  | O => Some false
  | S n' =>
      match hit first with
      | Some true => Some true
      | Some false => any_index hit (first + 1) n'
      | None => None
      end
  end.

(** Threads [0 .. n-1] of a kernel, one after the other; each thread is
    a partial state transformer. *)
Fixpoint run_threads {St : Type} (body : Z -> St -> option St)
         (first : Z) (n : nat) (s : St) : option St :=
  match n with
  | O => Some s
  | S n' =>
      match body first s with
      | Some s' => run_threads body (first + 1) n' s'
      | None => None
      end
  end.

End Array1D.

(** ** gunrock::oprtr::advance enumerators *)

Module advance.

Inductive TYPE := V2V | V2E | E2V | E2E.

Inductive REDUCE_TYPE := EMPTY | VERTEX | EDGE.

Inductive REDUCE_OP :=
  NONE | PLUS | MULTIPLIES | MAXIMUM | MINIMUM | BIT_OR | BIT_AND | BIT_XOR.

Definition is_vertex_input (t : TYPE) : bool :=
  match t with V2V | V2E => true | E2V | E2E => false end.

End advance.

(** ** gunrock::oprtr::edge_map_partitioned *)

Module edge_map_partitioned.

Import Int32 Array1D advance.

(** [Dispatch::GetNeighborListLength].  The two offsets are selected by
    comparing the vertex id (and its successor) with [max_vertex]; an
    offset that is not the [max_edge] sentinel is read from
    [d_row_offsets]. *)
Definition GetNeighborListLength
           (d_row_offsets : list Z) (d_vertex_id max_vertex max_edge : Z)
  : option Z :=
  first ← (if max_vertex <=? d_vertex_id then Some max_edge
           else read d_row_offsets d_vertex_id);
  second ← (if max_vertex <=? wrap (d_vertex_id + 1) then Some max_edge
            else read d_row_offsets (wrap (d_vertex_id + 1)));
  Some (if first <? second then wrap (second - first) else 0).

Section GetEdgeCounts.

Variables d_row_offsets d_column_indices : list Z.
Variables d_column_offsets d_row_indices : list Z.
Variable d_queue : list Z.
Variables num_elements max_vertex max_edge : Z.
Variable ADVANCE_TYPE : TYPE.
Variables in_inv out_inv : bool.

(** [Dispatch::GetEdgeCounts], the thread whose global index is
    [my_id], acting on [d_scanned_edges]. *)
Definition GetEdgeCounts (my_id : Z) (d_scanned_edges : list Z)
  : option (list Z) :=
  if (num_elements <? my_id) || (max_edge <=? my_id)
  then Some d_scanned_edges
  else
    column_index ←
      read (if in_inv then d_row_indices else d_column_indices) my_id;
    v_id ← (if is_vertex_input ADVANCE_TYPE
            then (if num_elements <=? my_id then Some (-1)
                  else read d_queue my_id)
            else Some (if num_elements <=? my_id then -1
                       else column_index));
    if (v_id <? 0) || (max_vertex <? v_id)
    then write d_scanned_edges my_id 0
    else
      ncount ← (if negb out_inv
                then GetNeighborListLength d_row_offsets v_id
                                           max_vertex max_edge
                else GetNeighborListLength d_column_offsets v_id
                                           max_vertex max_edge);
      let num_edges := if my_id =? num_elements then 0 else ncount in
      write d_scanned_edges my_id num_edges.

(** The kernel launched on [num_threads] threads. *)
Definition GetEdgeCounts_kernel (num_threads : nat)
           (d_scanned_edges : list Z) : option (list Z) :=
  run_threads GetEdgeCounts 0 num_threads d_scanned_edges.

End GetEdgeCounts.

(** *** The store of one relaxed edge *)

(** The two kernels that relax edges. *)
Inductive KERNEL := LightEdges | PartitionedEdges2.

(** The value each [switch (R_OP)] stores into the reduce frontier for
    an edge the predicate rejects.  [RelaxLightEdges] has the same
    switch in both of its branches, and so has the branch of
    [RelaxPartitionedEdges2] without predecessors; the switch of its
    [MARK_PREDECESSORS] branch has four cases and a default. *)
Definition absent_reduce_value (k : KERNEL) (MARK_PREDECESSORS : bool)
           (R_OP : REDUCE_OP) : Z :=
  match k, MARK_PREDECESSORS with
  | PartitionedEdges2, true =>
      match R_OP with
      | PLUS => 0
      | MULTIPLIES => 1
      | MAXIMUM => INT_MIN
      | MINIMUM => INT_MAX
      | _ => 0
      end
  | _, _ =>
      match R_OP with
      | PLUS => 0
      | MULTIPLIES => 1
      | MAXIMUM => INT_MIN
      | MINIMUM => INT_MAX
      | BIT_OR => 0
      | BIT_AND => wrap 4294967295
      | BIT_XOR => 0
      | NONE => 0
      end
  end.

(** One call of the functor pair, as the kernels issue it. *)
Record EdgeVisit := {
  visit_src : Z;
  visit_dst : Z;
  visit_edge : Z;
  visit_slot : Z;
  visit_out : Z;
  visit_cond : bool
}.

(** The arguments of a call of the functor pair, with the output
    position of the edge, apart from what [CondEdge] answered. *)
Record Relaxation := {
  r_src : Z;
  r_dst : Z;
  r_edge : Z;
  r_slot : Z;
  r_out : Z
}.

Definition relaxation_of (vis : EdgeVisit) : Relaxation :=
  {| r_src := visit_src vis; r_dst := visit_dst vis;
     r_edge := visit_edge vis; r_slot := visit_slot vis;
     r_out := visit_out vis |}.

Section Functor.

(** The functor pair of the algorithm and the problem it acts on. *)
Variable Problem : Type.
Variable CondEdge : Z -> Z -> Problem -> Z -> Z -> bool.
Variable ApplyEdge : Z -> Z -> Problem -> Z -> Z -> Problem.

(** What a relax kernel changes: the problem, the output frontier
    ([None] when [d_out] is [NULL]), the reduce frontier, and the
    functor calls issued so far, latest first. *)
Record AdvanceState := {
  problem : Problem;
  d_out : option (list Z);
  d_reduce_frontier : list Z;
  visits : list EdgeVisit
}.

Section RelaxEdge.

Variable k : KERNEL.
Variable MARK_PREDECESSORS : bool.
Variable ADVANCE_TYPE : TYPE.
Variable R_TYPE : REDUCE_TYPE.
Variable R_OP : REDUCE_OP.
Variable d_value_to_reduce : option (list Z).

(** The body both kernels run for the edge [lookup] from [s_id] to
    [u], whose output position is [out_index]. *)
Definition relax_edge (s_id u lookup e_id_in out_index : Z)
           (st : AdvanceState) : option AdvanceState :=
  let cond := CondEdge s_id u (problem st) lookup e_id_in in
  let visit := {| visit_src := s_id; visit_dst := u;
                  visit_edge := lookup; visit_slot := e_id_in;
                  visit_out := out_index; visit_cond := cond |} in
  if cond then
    out' ← match d_out st with
           | None => Some None
           | Some out =>
               match ADVANCE_TYPE with
               | V2V => Some <$> write out out_index u
               | V2E | E2E => Some <$> write out out_index lookup
               | E2V => Some (Some out)
               end
           end;
    red' ← match d_value_to_reduce with
           | None => Some (d_reduce_frontier st)
           | Some values =>
               match R_TYPE with
               | VERTEX =>
                   x ← read values u;
                   write (d_reduce_frontier st) out_index x
               | EDGE =>
                   x ← read values lookup;
                   write (d_reduce_frontier st) out_index x
               | EMPTY => Some (d_reduce_frontier st)
               end
           end;
    Some {| problem := ApplyEdge s_id u (problem st) lookup e_id_in;
            d_out := out'; d_reduce_frontier := red';
            visits := visit :: visits st |}
  else
    out' ← match d_out st with
           | None => Some None
           | Some out => Some <$> write out out_index (-1)
           end;
    red' ← match d_value_to_reduce with
           | None => Some (d_reduce_frontier st)
           | Some _ =>
               write (d_reduce_frontier st) out_index
                     (absent_reduce_value k MARK_PREDECESSORS R_OP)
           end;
    Some {| problem := problem st;
            d_out := out'; d_reduce_frontier := red';
            visits := visit :: visits st |}.

(** Edges relaxed one after the other. *)
Fixpoint relax_all (calls : list Relaxation) (st : AdvanceState)
  : option AdvanceState :=
  match calls with
  | [] => Some st
  | c :: calls' =>
      st' ← relax_edge (r_src c) (r_dst c) (r_edge c) (r_slot c) (r_out c)
                       st;
      relax_all calls' st'
  end.

End RelaxEdge.

(** *** RelaxLightEdges *)

(** Modelled from the spec: [BinarySearch<THREADS>] is declared in
    cta.cuh, which is not part of the sources.  It is the
    "threads-wide binary search" that maps a flat edge index back to
    the frontier slot that owns it: the position of the first entry of
    the scanned array that is greater than [i], and the length of the
    array when there is none. *)
Fixpoint BinarySearch_from (i : Z) (queue : list Z) (mid : Z) : Z :=
  match queue with
  | [] => mid
  | x :: queue' =>
      if i <? x then mid else BinarySearch_from i queue' (mid + 1)
  end.

Definition BinarySearch (i : Z) (queue : list Z) : Z :=
  BinarySearch_from i queue 0.

Section RelaxLightEdges.

(** [KernelPolicy::THREADS] is [1 << LOG_THREADS]. *)
Variable LOG_THREADS : nat.
Variable MARK_PREDECESSORS : bool.

Variable label : Z.
Variables d_row_offsets d_inverse_row_offsets : list Z.
Variables d_column_indices d_inverse_column_indices : list Z.
Variable d_scanned_edges : list Z.
Variable d_queue : list Z.
Variable input_queue_len : Z.
Variables max_vertices max_edges : Z.
Variable ADVANCE_TYPE : TYPE.
Variables input_inverse_graph output_inverse_graph : bool.
Variable R_TYPE : REDUCE_TYPE.
Variable R_OP : REDUCE_OP.
Variable d_value_to_reduce : option (list Z).

Definition THREADS : Z := 2 ^ Z.of_nat LOG_THREADS.

(** The shared arrays of a block and the scalars every thread of it
    computes alike.  The arrays are declared [unsigned int]; the
    model keeps the [int] that was stored, which is the same number
    for the non-negative entries and reads back as the same
    [VertexId] for the others. *)
Record SmemStorage := {
  s_edges : list Z;
  s_vertices : list Z;
  s_edge_ids : list Z;
  offset : Z;
  size : Z
}.

Definition load_smem (bid : Z) : option SmemStorage :=
  let range := input_queue_len in
  offset ← (if 0 <? wrap (THREADS * bid - 1)
            then read d_scanned_edges (wrap (THREADS * bid - 1))
            else Some 0);
  let end_id :=
    Z.rem (if range <=? THREADS * (bid + 1) then range - 1
           else THREADS * (bid + 1) - 1) THREADS in
  let my_id tid := wrap (bid * THREADS + tid) in
  s_edges ← mapM (fun tid =>
               if my_id tid <? range
               then x ← read d_scanned_edges (my_id tid);
                    Some (wrap (x - offset))
               else Some max_edges) (seqZ 0 THREADS);
  s_vertices ← mapM (fun tid =>
               if my_id tid <? range
               then q ← read d_queue (my_id tid);
                    if is_vertex_input ADVANCE_TYPE then Some q
                    else if input_inverse_graph
                         then read d_inverse_column_indices q
                         else read d_column_indices q
               else Some max_vertices) (seqZ 0 THREADS);
  s_edge_ids ← mapM (fun tid =>
               if is_vertex_input ADVANCE_TYPE then Some 0
               else if my_id tid <? range
                    then read d_queue (my_id tid)
                    else Some max_vertices) (seqZ 0 THREADS);
  size ← read s_edges end_id;
  Some {| s_edges := s_edges; s_vertices := s_vertices;
          s_edge_ids := s_edge_ids; offset := offset; size := size |}.

(** What a thread holds about the frontier slot it is working on.
    [v] and [e_id] are fetched from the shared arrays ahead of the
    loop, also when the search ran off their end; such a value is
    undefined and the thread is undefined once it uses it. *)
Record Cursor := {
  v_index : Z;
  v : option Z;
  e_id : option Z;
  end_last : Z
}.

Definition seek (sm : SmemStorage) (i : Z) : option Cursor :=
  let v_index := BinarySearch i (s_edges sm) in
  end_last ← (if v_index <? THREADS then read (s_edges sm) v_index
              else Some max_vertices);
  Some {| v_index := v_index;
          v := read (s_vertices sm) v_index;
          e_id := read (s_edge_ids sm) v_index;
          end_last := end_last |}.

(** The loop [for (i = tid; i < size; i += THREADS)]; [fuel] bounds
    the number of rounds. *)
Fixpoint light_loop (sm : SmemStorage) (fuel : nat) (i : Z)
         (c : Cursor) (st : AdvanceState) : option AdvanceState :=
  match fuel with
  | O => Some st
  | S fuel' =>
      if size sm <=? i then Some st
      else
        c ← (if end_last c <=? i then seek sm i else Some c);
        internal_offset ← (if 0 <? v_index c
                           then read (s_edges sm) (v_index c - 1)
                           else Some 0);
        let e := wrap (i - internal_offset) in
        v ← v c;
        e_id ← e_id c;
        row ← read (if output_inverse_graph then d_inverse_row_offsets
                    else d_row_offsets) v;
        let lookup := wrap (row + e) in
        u ← read (if output_inverse_graph then d_inverse_column_indices
                  else d_column_indices) lookup;
        st' ← relax_edge LightEdges MARK_PREDECESSORS ADVANCE_TYPE
                         R_TYPE R_OP d_value_to_reduce
                         (if MARK_PREDECESSORS then v else label)
                         u lookup
                         (if MARK_PREDECESSORS then v_index c else e_id)
                         (wrap (offset sm + i)) st;
        light_loop sm fuel' (i + THREADS) c st'
  end.

(** [Dispatch::RelaxLightEdges], thread [tid] of block [bid] after
    the barrier.  The loop makes at most [size] rounds. *)
Definition RelaxLightEdges_thread (sm : SmemStorage) (tid : Z)
           (st : AdvanceState) : option AdvanceState :=
  c ← seek sm tid;
  light_loop sm (Z.to_nat (size sm)) tid c st.

Definition RelaxLightEdges_block (bid : Z) (st : AdvanceState)
  : option AdvanceState :=
  sm ← load_smem bid;
  run_threads (RelaxLightEdges_thread sm) 0 (Z.to_nat THREADS) st.

(** The kernel launched on [num_blocks] blocks.  The queue-length
    counters of [work_progress] and the kernel statistics are left
    out; [input_queue_len] is the length the launch was given. *)
Definition RelaxLightEdges (num_blocks : nat) (st : AdvanceState)
  : option AdvanceState :=
  run_threads RelaxLightEdges_block 0 num_blocks st.

End RelaxLightEdges.

(** *** RelaxPartitionedEdges2 *)

Section RelaxPartitionedEdges2.

Variable LOG_THREADS : nat.
Variable MARK_PREDECESSORS : bool.

Variable label : Z.
Variable d_row_offsets : list Z.
Variables d_column_indices d_inverse_column_indices : list Z.
Variable d_scanned_edges : list Z.
Variable partition_starts : list Z.
Variable d_queue : list Z.
Variables input_queue_len output_queue_len partition_size : Z.
Variables max_vertices max_edges : Z.
Variable ADVANCE_TYPE : TYPE.
Variable inverse_graph : bool.
Variable R_TYPE : REDUCE_TYPE.
Variable R_OP : REDUCE_OP.
Variable d_value_to_reduce : option (list Z).

(** What the threads of a block share in one round of the [while] loop:
    the window of [THREADS] frontier slots from [my_start_partition] on,
    and the number [e_last] of edges of the round. *)
Record Window := {
  w_edges : list Z;
  w_vertices : list Z;
  w_edge_ids : list Z;
  e_last : Z
}.

(** [min (a, b)] for an [unsigned int] [a] and an [int] [b], stored in
    an [int]: [s_edges] is an array of [unsigned int], so the difference
    [s_edges[last] - e_offset] is unsigned and the comparison is made
    between unsigned values. *)
Definition unsigned_min (a b : Z) : Z :=
  wrap (Z.min (a mod 4294967296) (b mod 4294967296)).

Definition load_window (my_start_partition my_end_partition : Z)
           (e_offset my_work_size edges_processed : Z) : option Window :=
  let inside tid := my_start_partition + tid <? my_end_partition in
  pre_offset ← (if 0 <? my_start_partition
                then read d_scanned_edges (my_start_partition - 1)
                else Some 0);
  w_edges ← mapM (fun tid =>
               if inside tid
               then x ← read d_scanned_edges (my_start_partition + tid);
                    Some (wrap (x - pre_offset))
               else Some max_edges) (seqZ 0 (THREADS LOG_THREADS));
  w_vertices ← mapM (fun tid =>
               if inside tid
               then q ← read d_queue (my_start_partition + tid);
                    if is_vertex_input ADVANCE_TYPE then Some q
                    else if inverse_graph
                         then read d_inverse_column_indices q
                         else read d_column_indices q
               else Some (-1)) (seqZ 0 (THREADS LOG_THREADS));
  w_edge_ids ← mapM (fun tid =>
               if is_vertex_input ADVANCE_TYPE then Some 0
               else if inside tid
                    then read d_queue (my_start_partition + tid)
                    else Some (-1)) (seqZ 0 (THREADS LOG_THREADS));
  let last := if my_end_partition <=? my_start_partition
                                      + THREADS LOG_THREADS
              then my_end_partition - my_start_partition - 1
              else THREADS LOG_THREADS - 1 in
  s_last ← read w_edges last;
  Some {| w_edges := w_edges; w_vertices := w_vertices;
          w_edge_ids := w_edge_ids;
          e_last := unsigned_min (s_last - e_offset)
                                 (my_work_size - edges_processed) |}.

(** What a thread holds about the frontier slot it is working on.  All
    of it is fetched ahead of the [for] loop, also when the search ran
    off the window or the slot holds no vertex; such a value is
    undefined and the thread is undefined once it uses it. *)
Record Position := {
  p_index : Z;
  p_vertex : option Z;
  p_edge_id : option Z;
  p_end_last : option Z;
  p_internal_offset : option Z;
  p_lookup_offset : option Z
}.

(** The statements ahead of the [for] loop. *)
Definition first_position (w : Window) (my_end_partition : Z) (i : Z)
  : Position :=
  let v_index := BinarySearch i (w_edges w) in
  let v := read (w_vertices w) v_index in
  {| p_index := v_index;
     p_vertex := v;
     p_edge_id := read (w_edge_ids w) v_index;
     p_end_last := if v_index <? my_end_partition
                   then read (w_edges w) v_index else Some max_edges;
     p_internal_offset := if 0 <? v_index
                          then read (w_edges w) (v_index - 1) else Some 0;
     p_lookup_offset := v ≫= read d_row_offsets |}.

(** The statements under [if (i >= end_last)] in the loop. *)
Definition next_position (w : Window) (i : Z) : Position :=
  let v_index := BinarySearch i (w_edges w) in
  let slot := read (w_vertices w) v_index in
  let v := if is_vertex_input ADVANCE_TYPE then slot
           else slot ≫= read (if inverse_graph
                              then d_inverse_column_indices
                              else d_column_indices) in
  {| p_index := v_index;
     p_vertex := v;
     p_edge_id := if is_vertex_input ADVANCE_TYPE then Some 0 else slot;
     p_end_last := if v_index <? THREADS LOG_THREADS
                   then read (w_edges w) v_index else Some max_edges;
     p_internal_offset := if 0 <? v_index
                          then read (w_edges w) (v_index - 1) else Some 0;
     p_lookup_offset := v ≫= read d_row_offsets |}.

(** The loop [for (i = tid + e_offset; i < e_last + e_offset;
    i += THREADS)]; [fuel] bounds the number of rounds. *)
Fixpoint partitioned_loop (w : Window) (out_offset e_offset : Z)
         (edges_processed : Z) (fuel : nat) (i : Z) (p : Position)
         (st : AdvanceState) : option AdvanceState :=
  match fuel with
  | O => Some st
  | S fuel' =>
      if wrap (e_last w + e_offset) <=? i then Some st
      else
        end_last ← p_end_last p;
        let p := if end_last <=? i then next_position w i else p in
        internal_offset ← p_internal_offset p;
        lookup_offset ← p_lookup_offset p;
        v ← p_vertex p;
        e_id ← p_edge_id p;
        let e := wrap (i - internal_offset) in
        let lookup := wrap (lookup_offset + e) in
        u ← read d_column_indices lookup;
        let out_index :=
          wrap (out_offset + edges_processed + (i - e_offset)) in
        st' ← relax_edge PartitionedEdges2 MARK_PREDECESSORS ADVANCE_TYPE
                         R_TYPE R_OP d_value_to_reduce
                         (if MARK_PREDECESSORS then v else label)
                         u lookup e_id out_index st;
        partitioned_loop w out_offset e_offset edges_processed fuel'
                         (i + THREADS LOG_THREADS) p st'
  end.

(** The [while] loop of a block; every thread of the block makes the
    same rounds, and after the barrier of a round the threads run their
    [for] loops.  A round moves [my_start_partition] on by [THREADS], so
    [fuel] rounds are enough when [fuel] is the number of slots up to
    [my_end_partition]. *)
Fixpoint partitioned_rounds (my_end_partition my_work_size out_offset : Z)
         (fuel : nat) (my_start_partition e_offset edges_processed : Z)
         (st : AdvanceState) : option AdvanceState :=
  match fuel with
  | O => Some st
  | S fuel' =>
      if (edges_processed <? my_work_size)
         && (my_start_partition <? my_end_partition)
      then
        w ← load_window my_start_partition my_end_partition
                        e_offset my_work_size edges_processed;
        st' ← run_threads
                (fun tid =>
                   partitioned_loop
                     w out_offset e_offset edges_processed
                     (Z.to_nat (e_last w)) (tid + e_offset)
                     (first_position w my_end_partition (tid + e_offset)))
                0 (Z.to_nat (THREADS LOG_THREADS)) st;
        partitioned_rounds my_end_partition my_work_size out_offset fuel'
                           (wrap (my_start_partition + THREADS LOG_THREADS))
                           0 (wrap (edges_processed + e_last w)) st'
      else Some st
  end.

(** [Dispatch::RelaxPartitionedEdges2], block [bid]. *)
Definition RelaxPartitionedEdges2_block (bid : Z) (st : AdvanceState)
  : option AdvanceState :=
  let my_thread_start := wrap (bid * partition_size) in
  let my_thread_end :=
    if wrap ((bid + 1) * partition_size) <? output_queue_len
    then wrap ((bid + 1) * partition_size) else output_queue_len in
  if output_queue_len <=? my_thread_start then Some st
  else
    my_start_partition ← read partition_starts bid;
    next_start ← read partition_starts (bid + 1);
    let my_end_partition :=
      if input_queue_len <? next_start then next_start
      else input_queue_len in
    let my_work_size := wrap (my_thread_end - my_thread_start) in
    let out_offset := wrap (bid * partition_size) in
    pre_offset ← (if 0 <? my_start_partition
                  then read d_scanned_edges (my_start_partition - 1)
                  else Some 0);
    let e_offset := wrap (my_thread_start - pre_offset) in
    partitioned_rounds my_end_partition my_work_size out_offset
                       (Z.to_nat (my_end_partition - my_start_partition))
                       my_start_partition e_offset 0 st.

(** The kernel launched on [num_blocks] blocks; as for
    [RelaxLightEdges], the counters of [work_progress] are left out. *)
Definition RelaxPartitionedEdges2 (num_blocks : nat) (st : AdvanceState)
  : option AdvanceState :=
  run_threads RelaxPartitionedEdges2_block 0 num_blocks st.

End RelaxPartitionedEdges2.

(** *** One load-balanced advance step, light path *)

(** Modelled from the spec: the inclusive prefix sum ("scanned
    edges") over the first [count] entries; the scan primitive is
    not part of the sources. *)
Fixpoint scan_from (sum : Z) (l : list Z) : list Z :=
  match l with
  | [] => []
  | x :: l' => wrap (sum + x) :: scan_from (wrap (sum + x)) l'
  end.

Definition Scan (count : Z) (a : list Z) : list Z :=
  scan_from 0 (take (Z.to_nat count) a) ++ drop (Z.to_nat count) a.

(** Modelled from the spec: the launcher [LaunchKernel] of
    advance/kernel.cuh is not part of the sources.  A load-balanced
    step "computes a prefix sum of per-frontier-element neighbor-list
    lengths" with [GetEdgeCounts] and the scan, into the
    [partitioned_scanned_edges] buffer it is handed, and on the
    light path runs [RelaxLightEdges] over it; both kernels run on
    [num_blocks] blocks of [THREADS] threads. *)
Definition LaunchKernel_light
           (LOG_THREADS : nat) (MARK_PREDECESSORS : bool) (label : Z)
           (d_row_offsets d_column_indices : list Z)
           (d_column_offsets d_row_indices : list Z)
           (d_in_key_queue : list Z) (queue_length : Z)
           (max_in max_out : Z) (ADVANCE_TYPE : TYPE)
           (in_inv out_inv : bool)
           (R_TYPE : REDUCE_TYPE) (R_OP : REDUCE_OP)
           (d_value_to_reduce : option (list Z))
           (num_blocks : nat)
           (partitioned_scanned_edges : list Z) (st : AdvanceState)
  : option AdvanceState :=
  counts ← GetEdgeCounts_kernel
             d_row_offsets d_column_indices d_column_offsets
             d_row_indices d_in_key_queue queue_length max_in max_out
             ADVANCE_TYPE in_inv out_inv
             (num_blocks * Z.to_nat (THREADS LOG_THREADS))
             partitioned_scanned_edges;
  RelaxLightEdges
    LOG_THREADS MARK_PREDECESSORS label
    d_row_offsets d_column_offsets d_column_indices d_row_indices
    (Scan queue_length counts) d_in_key_queue queue_length
    max_in max_out ADVANCE_TYPE in_inv out_inv
    R_TYPE R_OP d_value_to_reduce num_blocks st.

End Functor.

End edge_map_partitioned.

(** ** Enactor bookkeeping shared by the algorithms *)

Module enactor.

Import Int32 Array1D.

(** [cudaError_t]; [cudaSuccess] is 0. *)
Definition cudaError_t := Z.
Definition cudaSuccess : cudaError_t := 0.
Definition cudaErrorMemoryAllocation : cudaError_t := 2.

(** The fields of [EnactorStats] the iteration structures read. *)
Record EnactorStats := {
  retval : cudaError_t;
  iteration : Z
}.

(** The multi-device bookkeeping of a [DataSlice]: [in_length[i][peer]]
    for the two buffers [i], [out_length[peer]], and the turn counter
    of connected components. *)
Record DataSlice := {
  turn : Z;
  in_length : list (list Z);
  out_length : list Z
}.

(** The shape of the bookkeeping of [num_gpus] devices. *)
Definition slices_of (num_gpus : Z) (data_slice : list DataSlice) : Prop :=
  GetSize data_slice = num_gpus
  /\ Forall (fun d => 0 <= turn d
                      /\ GetSize (in_length d) = 2
                      /\ Forall (fun row => GetSize row = num_gpus)
                                (in_length d)
                      /\ GetSize (out_length d) = num_gpus) data_slice.

(** The loop that opens every [Stop_Condition]:
    [for (gpu = 0; gpu < num_gpus*num_gpus; gpu++)
       if (enactor_stats[gpu].retval != cudaSuccess) return true;] *)
Definition any_fault (enactor_stats : list EnactorStats) (num_gpus : Z)
  : option bool :=
  any_index (fun gpu => s ← read enactor_stats gpu;
                        Some (negb (retval s =? cudaSuccess)))
            0 (Z.to_nat (num_gpus * num_gpus)).

(** The loop that closes [EnactCC] and [EnactBC]:
    [for (gpu = 0; gpu < num_gpus; gpu++)
       if (enactor_stats[gpu].retval != cudaSuccess)
         { retval = enactor_stats[gpu].retval; break; }] *)
Fixpoint collect_retval (enactor_stats : list EnactorStats)
         (gpu : Z) (n : nat) : option cudaError_t :=
  match n with
  | O => Some cudaSuccess
  | S n' =>
      s ← read enactor_stats gpu;
      if negb (retval s =? cudaSuccess) then Some (retval s)
      else collect_retval enactor_stats (gpu + 1) n'
  end.

(** A frontier [DoubleBuffer]: the two [keys] slots and the two [values]
    slots, each an array whose length is its capacity, and the
    buffer's own [selector]. *)
Record DoubleBuffer := {
  keys : list (list Z);
  values : list (list Z);
  buffer_selector : Z
}.

(** The fields of [FrontierAttribute] the iteration structures use. *)
Record FrontierAttribute := {
  queue_index : Z;
  queue_length : Z;
  selector : Z;
  queue_reset : bool
}.

Section Check_Size.

(** The device allocator: [None] when memory is exhausted, otherwise
    the content the new array happens to have, by position. *)
Variable device_alloc : Z -> option (Z -> Z).

(** Modelled from the spec: [Check_Size] is defined in
    enactor_base.cuh, which is not part of the sources.  It is the
    "EnsureCapacity(n)" of the frontier queue: it "grows a buffer,
    preserving no content guarantee", and "fails with an allocation
    error if the device is out of memory"; with size checking
    disabled "a fixed over-allocation is used instead", that is, the
    array stays as it is.  An array that is large enough is left
    alone.  The call sites pass [keep_content] last; when it is set
    the grown array starts with the old elements. *)
Definition Check_Size (SIZE_CHECK : bool) (target_length : Z)
           (array : list Z) (keep_content : bool)
  : cudaError_t * list Z :=
  if GetSize array <? target_length then
    if SIZE_CHECK then
      match device_alloc target_length with
      | Some content =>
          (cudaSuccess,
           if keep_content
           then array ++ (content <$> seqZ (GetSize array)
                                      (target_length - GetSize array))
           else content <$> seqZ 0 target_length)
      | None => (cudaErrorMemoryAllocation, array)
      end
    else (cudaSuccess, array)
  else (cudaSuccess, array).

(** [Check_Size] applied to slot [slot] of a family of arrays. *)
Definition Check_Size_slot (SIZE_CHECK : bool) (target_length : Z)
           (arrays : list (list Z)) (slot : Z) (keep_content : bool)
  : option (cudaError_t * list (list Z)) :=
  array ← read arrays slot;
  let r := Check_Size SIZE_CHECK target_length array keep_content in
  arrays' ← write arrays slot (snd r);
  Some (fst r, arrays').

End Check_Size.

(** Modelled from the spec: [MemsetCopyVectorKernel] is defined in
    memset_kernel.cuh, which is not part of the sources.  It copies the
    first [length] elements of [d_src] over [d_dst]; here [d_dst] is the
    array [dst] from position [dst_offset] on. *)
Definition MemsetCopyVectorKernel (dst : list Z) (dst_offset : Z)
           (d_src : list Z) (length : Z) : option (list Z) :=
  if length <=? 0 then Some dst
  else if (0 <=? dst_offset) && (dst_offset + length <=? GetSize dst)
          && (length <=? GetSize d_src)
       then Some (take (Z.to_nat dst_offset) dst
                  ++ take (Z.to_nat length) d_src
                  ++ drop (Z.to_nat (dst_offset + length)) dst)
       else None.

End enactor.

(** ** gunrock::app::cc *)

Module cc.

Import Int32 Array1D enactor.

(** *** Expand_Incoming_BothWay *)

(** The accesses that the round of the kernel's loop for the incoming
    element [x] makes to the component ids of the device,
    [s_vertex_associate_org[0]]: the test
    [if (s_vertex_associate_in[0][x] < s_vertex_associate_org[0][key])]
    loads the stored id, and under it
    [s_vertex_associate_org[0][key] = s_vertex_associate_in[0][x]] stores
    the incoming one.  Both are plain accesses: the threads of other
    elements get at the ids between the two. *)
Inductive Access : Type :=
| Compare (x : Z)
| Store (x : Z).

#[global] Instance Access_eq_dec : EqDecision Access.
Proof. solve_decision. Defined.





(** The accesses of a launch: every [x < num_elements] is handled in one
    round of the loop of one thread. *)
Definition element (a : Access) : Z :=
  match a with
  | Compare x => x
  | Store x => x
  end.






(** *** CCIteration *)

(** [CCIteration::Check_Queue_Size]: the body is empty. *)
Definition Check_Queue_Size (request_length : Z)
           (frontier_queue : DoubleBuffer)
           (frontier_attribute : FrontierAttribute)
           (enactor_stats : EnactorStats) (graph_slice_nodes : Z)
  : DoubleBuffer * EnactorStats :=
  (frontier_queue, enactor_stats).

(** [CCIteration::Stop_Condition]. *)
Definition Stop_Condition (enactor_stats : list EnactorStats)
           (data_slice : list DataSlice) (num_gpus : Z) : option bool :=
  fault ← any_fault enactor_stats num_gpus;
  if (fault : bool) then Some true
  else
    single ← (if num_gpus <? 2
              then d ← read data_slice 0; Some (0 <? turn d)
              else Some false);
    if (single : bool) then Some true
    else
      idle ← any_index (fun gpu => d ← read data_slice gpu;
                                   Some (turn d =? 0))
                       0 (Z.to_nat num_gpus);
      if (idle : bool) then Some false
      else
        incoming ←
          any_index (fun gpu =>
            any_index (fun peer =>
              any_index (fun i =>
                d ← read data_slice gpu;
                row ← read (in_length d) i;
                len ← read row peer;
                Some (negb (len =? 0)))
                0 2)
              1 (Z.to_nat (num_gpus - 1)))
            0 (Z.to_nat num_gpus);
        if (incoming : bool) then Some false
        else
          outgoing ←
            any_index (fun gpu =>
              any_index (fun peer =>
                d ← read data_slice gpu;
                len ← read (out_length d) peer;
                Some (negb (len =? 0)))
                0 (Z.to_nat num_gpus))
              0 (Z.to_nat num_gpus);
          Some (negb outgoing).

(** [CCEnactor::EnactCC], once every device thread has finished:
    [enactor_stats] is what the threads left behind. *)
Definition EnactCC (enactor_stats : list EnactorStats) (num_gpus : Z)
  : option cudaError_t :=
  collect_retval enactor_stats 0 (Z.to_nat num_gpus).

End cc.

(** ** The C entry point of connected components (cc_app.cu) *)

Module cc_app.

Import Int32 Array1D.

(** Where a pointer of the entry point leads: into a block obtained
    from [new] or [malloc], or to the local variable of an activation
    of a function. *)
Inductive pointer :=
| NULL
| heap_block (block : nat)
| local_of (activation : nat).

(** The heap blocks, and the activations that have not returned yet,
    each with the value of the one local whose address is taken. *)
Record Memory := {
  heap : list (list Z);
  live : list (nat * Z);
  activations : nat
}.

Definition empty_memory : Memory :=
  {| heap := []; live := []; activations := O |}.

Fixpoint find_local (activation : nat) (l : list (nat * Z)) : option Z :=
  match l with
  | [] => None
  | (a, x) :: l' =>
      if Nat.eqb a activation then Some x else find_local activation l'
  end.

(** [*p] for an [int *p]: defined while the storage [p] leads to
    exists. *)
Definition load (m : Memory) (p : pointer) : option Z :=
  match p with
  | NULL => None
  | heap_block b => block ← heap m !! b; block !! O
  | local_of a => find_local a (live m)
  end.

(** [memcpy (dst, p, n * sizeof (int))]: the [n] elements [p] leads
    to. *)
Definition load_array (m : Memory) (p : pointer) (n : Z)
  : option (list Z) :=
  match p with
  | heap_block b =>
      block ← heap m !! b;
      if n <=? GetSize block then Some (take (Z.to_nat n) block) else None
  | _ => None
  end.

(** The fields of [GRGraph] the entry point uses. *)
Record GRGraph := {
  num_nodes : Z;
  num_edges : Z;
  row_offsets : list Z;
  col_indices : list Z;
  node_value1 : pointer;
  aggregation : pointer
}.

Section Problem.

(** cc_problem.cuh and the run of the enactor are not part of the
    sources: what [CCProblem::Extract] copies out and the
    [num_components] field of the problem, for a graph given by its
    node count, edge count, row offsets and column indices. *)
Variable Extract : Z -> Z -> list Z -> list Z -> list Z.
Variable problem_num_components : Z -> Z -> list Z -> list Z -> Z.

(** [runCC] up to its clean-up: [h_component_ids] is a new heap
    array, [num_components] a local of this activation, and the
    output structure receives the address of both. *)
Definition runCC_body (graphi : GRGraph) (output : GRGraph)
           (m : Memory) : GRGraph * Memory :=
  let h_component_ids :=
    Extract (num_nodes graphi) (num_edges graphi)
            (row_offsets graphi) (col_indices graphi) in
  let num_components :=
    problem_num_components (num_nodes graphi) (num_edges graphi)
                           (row_offsets graphi) (col_indices graphi) in
  let here := activations m in
  ({| num_nodes := num_nodes output; num_edges := num_edges output;
      row_offsets := row_offsets output;
      col_indices := col_indices output;
      node_value1 := heap_block (length (heap m));
      aggregation := local_of here |},
   {| heap := heap m ++ [h_component_ids];
      live := (here, num_components) :: live m;
      activations := S here |}).

(** The return of an activation ends the life of its locals. *)
Definition leave (activation : nat) (m : Memory) : Memory :=
  {| heap := heap m;
     live := List.filter (fun l => negb (Nat.eqb (fst l) activation))
                        (live m);
     activations := activations m |}.

Definition runCC (graphi : GRGraph) (output : GRGraph) (m : Memory)
  : GRGraph * Memory :=
  let here := activations m in
  let r := runCC_body graphi output m in
  (fst r, leave here (snd r)).

(** [gunrock_cc], for the [int] types [cc] asks for: through
    [dispatch_cc], [instrumentedCC], [debugCC] and [sizeCheckCC] it
    comes down to one call of [runCC]. *)
Definition gunrock_cc (grapho graphi : GRGraph) (m : Memory)
  : GRGraph * Memory :=
  runCC graphi grapho m.

(** [cc]: the array [component] after the call, and the value
    returned; the latter is [None] when it is read from storage that
    no longer exists. *)
Definition cc (num_nodes num_edges : Z) (row_offsets col_indices : list Z)
  : option (list Z) * option Z :=
  let graphi := {| num_nodes := num_nodes; num_edges := num_edges;
                   row_offsets := row_offsets;
                   col_indices := col_indices;
                   node_value1 := NULL; aggregation := NULL |} in
  let grapho := {| num_nodes := 0; num_edges := 0;
                   row_offsets := []; col_indices := [];
                   node_value1 := NULL; aggregation := NULL |} in
  let r := gunrock_cc grapho graphi empty_memory in
  let num_components := aggregation (fst r) in
  let component := load_array (snd r) (node_value1 (fst r)) num_nodes in
  (component, load (snd r) num_components).

End Problem.

End cc_app.

(** ** gunrock::app::bc *)

Module bc.

Import Int32 Array1D enactor.

(** What the iteration structures of one device act on, for one peer:
    the statistics and frontier of the peer, and the log of the forward
    phase, [forward_queue_offsets[peer_]] (a [std::vector]) with
    [forward_output[peer_]]. *)
Record IterationState := {
  enactor_stats : EnactorStats;
  frontier_attribute : FrontierAttribute;
  frontier_queue : DoubleBuffer;
  forward_queue_offsets : list Z;
  forward_output : list Z
}.

(** [std::vector::back], undefined on an empty vector, and
    [std::vector::pop_back]. *)
Definition back (v : list Z) : option Z := list.last v.
Definition pop_back (v : list Z) : list Z := removelast v.

Definition set_retval (r : cudaError_t) (s : IterationState) :=
  {| enactor_stats := {| retval := r;
                         iteration := iteration (enactor_stats s) |};
     frontier_attribute := frontier_attribute s;
     frontier_queue := frontier_queue s;
     forward_queue_offsets := forward_queue_offsets s;
     forward_output := forward_output s |}.

Definition set_log (offsets output : list Z) (s : IterationState) :=
  {| enactor_stats := enactor_stats s;
     frontier_attribute := frontier_attribute s;
     frontier_queue := frontier_queue s;
     forward_queue_offsets := offsets;
     forward_output := output |}.

Definition set_frontier (a : FrontierAttribute) (q : DoubleBuffer)
           (s : IterationState) :=
  {| enactor_stats := enactor_stats s;
     frontier_attribute := a;
     frontier_queue := q;
     forward_queue_offsets := forward_queue_offsets s;
     forward_output := forward_output s |}.

Definition set_keys (k : list (list Z)) (q : DoubleBuffer) :=
  {| keys := k; values := values q;
     buffer_selector := buffer_selector q |}.

Definition set_values (v : list (list Z)) (q : DoubleBuffer) :=
  {| keys := keys q; values := v;
     buffer_selector := buffer_selector q |}.

Section Iterations.

Variable device_alloc : Z -> option (Z -> Z).
Variable SIZE_CHECK : bool.
Variable USE_DOUBLE_BUFFER : bool.

(** [Forward_Iteration::FullQueue_Gather]. *)
Definition Forward_FullQueue_Gather (s : IterationState)
  : option IterationState :=
  if iteration (enactor_stats s) <=? 0 then Some s
  else
    cur_offset ← back (forward_queue_offsets s);
    let len := queue_length (frontier_attribute s) in
    let r := Check_Size device_alloc SIZE_CHECK
                        (wrap (cur_offset + len))
                        (forward_output s) false in
    let s := set_retval (fst r) s in
    if negb (fst r =? cudaSuccess) then Some s
    else
      src ← read (keys (frontier_queue s))
                 (selector (frontier_attribute s));
      out ← MemsetCopyVectorKernel (snd r) cur_offset src len;
      Some (set_log (forward_queue_offsets s ++ [wrap (len + cur_offset)])
                    out s).

(** [Forward_Iteration::Check_Queue_Size]. *)
Definition Forward_Check_Queue_Size (request_length : Z)
           (graph_slice_nodes : Z) (s : IterationState)
  : option IterationState :=
  let sel := selector (frontier_attribute s) in
  let q := frontier_queue s in
  '(r, k) ← Check_Size_slot device_alloc true request_length
                            (keys q) (Z.lxor sel 1) false;
  let s := set_frontier (frontier_attribute s) (set_keys k q)
                        (set_retval r s) in
  if negb (r =? cudaSuccess) then Some s
  else
    let q := frontier_queue s in
    '(r, k) ← Check_Size_slot device_alloc true
                              (wrap (graph_slice_nodes + 2))
                              (keys q) sel true;
    let s := set_frontier (frontier_attribute s) (set_keys k q)
                          (set_retval r s) in
    if negb (r =? cudaSuccess) then Some s
    else if USE_DOUBLE_BUFFER then
      let q := frontier_queue s in
      '(r, v) ← Check_Size_slot device_alloc true request_length
                                (values q) (Z.lxor sel 1) false;
      let s := set_frontier (frontier_attribute s) (set_values v q)
                            (set_retval r s) in
      if negb (r =? cudaSuccess) then Some s
      else
        let q := frontier_queue s in
        '(r, v) ← Check_Size_slot device_alloc true
                                  (wrap (graph_slice_nodes + 2))
                                  (values q) sel true;
        Some (set_frontier (frontier_attribute s) (set_values v q)
                           (set_retval r s))
    else Some s.

(** [Backward_Iteration::FullQueue_Gather]. *)
Definition Backward_FullQueue_Gather (s : IterationState)
  : option IterationState :=
  cur_pos ← back (forward_queue_offsets s);
  let offsets := pop_back (forward_queue_offsets s) in
  pre_pos ← back offsets;
  let s := set_log offsets (forward_output s) s in
  let a := frontier_attribute s in
  let q := frontier_queue s in
  if (0 <? iteration (enactor_stats s)) && (0 <? wrap (cur_pos - pre_pos))
  then
    let len := wrap (cur_pos - pre_pos) in
    let a := {| queue_index := queue_index a; queue_length := len;
                selector := 0; queue_reset := true |} in
    '(r, k) ← Check_Size_slot device_alloc SIZE_CHECK len
                              (keys q) (buffer_selector q) false;
    let s := set_frontier a (set_keys k q) (set_retval r s) in
    if negb (r =? cudaSuccess) then Some s
    else
      dst ← read k (buffer_selector q);
      out ← MemsetCopyVectorKernel
              dst 0 (drop (Z.to_nat pre_pos) (forward_output s)) len;
      k ← write k (buffer_selector q) out;
      Some (set_frontier a (set_keys k q) s)
  else
    Some (set_frontier {| queue_index := queue_index a;
                          queue_length := 0;
                          selector := 0; queue_reset := true |} q s).

(** [Backward_Iteration::Check_Queue_Size]: [return;] ahead of a body
    that is commented out. *)
Definition Backward_Check_Queue_Size (request_length : Z)
           (graph_slice_nodes : Z) (s : IterationState)
  : option IterationState :=
  Some s.

(** [Backward_Iteration::Iteration_Change]; [iterations] is a
    [long long]. *)
Definition Backward_Iteration_Change (iterations : Z) : Z :=
  (iterations - 1 + 9223372036854775808) mod 18446744073709551616
  - 9223372036854775808.

(** *** The two phases *)

Definition set_iteration (i : Z) (s : IterationState) :=
  {| enactor_stats := {| retval := retval (enactor_stats s);
                         iteration := i |};
     frontier_attribute := frontier_attribute s;
     frontier_queue := frontier_queue s;
     forward_queue_offsets := forward_queue_offsets s;
     forward_output := forward_output s |}.

(** The frontier an iteration starts from: [frontier], in the slot
    [selector] of the keys, which has room for it. *)
Definition load_frontier (frontier : list Z) (s : IterationState)
  : option IterationState :=
  let a := frontier_attribute s in
  let q := frontier_queue s in
  slot ← read (keys q) (selector a);
  if GetSize frontier <=? GetSize slot then
    k ← write (keys q) (selector a)
              (frontier ++ drop (length frontier) slot);
    Some (set_frontier {| queue_index := queue_index a;
                          queue_length := GetSize frontier;
                          selector := selector a;
                          queue_reset := queue_reset a |}
                       (set_keys k q) s)
  else None.

(** The queue the advance of an iteration reads: the first
    [queue_length] keys of the slot [selector]. *)
Definition issued_queue (s : IterationState) : option (list Z) :=
  slot ← read (keys (frontier_queue s)) (selector (frontier_attribute s));
  Some (take (Z.to_nat (queue_length (frontier_attribute s))) slot).

(** Modelled from the spec: [Iteration_Loop] is defined in
    enactor_base.cuh, which is not part of the sources.  The forward
    phase runs "Gather" at every iteration on the frontier of that
    iteration and then moves its iteration counter up by one; the
    backward phase runs its own gather and then [Iteration_Change], which
    moves the counter down.  What the other steps of an iteration do is
    not part of the model; [frontiers] are the frontiers the forward
    iterations start from, and the backward phase is followed through
    [rounds] iterations, collecting the queue each of them issues. *)
Fixpoint forward_phase (frontiers : list (list Z)) (s : IterationState)
  : option IterationState :=
  match frontiers with
  | [] => Some s
  | frontier :: frontiers' =>
      s ← load_frontier frontier s;
      s ← Forward_FullQueue_Gather s;
      forward_phase frontiers'
                    (set_iteration (iteration (enactor_stats s) + 1) s)
  end.

Fixpoint backward_phase (rounds : nat) (s : IterationState)
  : option (list (list Z) * IterationState) :=
  match rounds with
  | O => Some ([], s)
  | S rounds' =>
      s ← Backward_FullQueue_Gather s;
      issued ← issued_queue s;
      '(rest, s') ←
        backward_phase rounds'
          (set_iteration
             (Backward_Iteration_Change (iteration (enactor_stats s))) s);
      Some (issued :: rest, s')
  end.

End Iterations.

(** The offsets the log gains when [frontiers] are appended behind the
    offset [cur_offset]. *)
Fixpoint offsets_behind (cur_offset : Z) (frontiers : list (list Z))
  : list Z :=
  match frontiers with
  | [] => []
  | frontier :: frontiers' =>
      cur_offset + GetSize frontier
      :: offsets_behind (cur_offset + GetSize frontier) frontiers'
  end.

(** [Backward_Iteration::Stop_Condition].  [All_Done] is defined in
    enactor_base.cuh, which is not part of the sources; its result is
    taken as given. *)
Definition Backward_Stop_Condition (All_Done : bool)
           (enactor_stats : list EnactorStats) (num_gpus : Z)
  : option bool :=
  fault ← any_fault enactor_stats num_gpus;
  if (fault : bool) then Some true
  else if All_Done then
    late ← any_index (fun gpu => s ← read enactor_stats gpu;
                                 Some (1 <? iteration s))
                     0 (Z.to_nat (num_gpus * num_gpus));
    Some (negb late)
  else Some false.

(** [BCEnactor::EnactBC], once every device thread has finished. *)
Definition EnactBC (enactor_stats : list EnactorStats) (num_gpus : Z)
  : option cudaError_t :=
  collect_retval enactor_stats 0 (Z.to_nat num_gpus).

End bc.

(** ** What the specification asks for, in its own words *)

Module spec.

Import Int32 Array1D advance enactor edge_map_partitioned.

(** "each operator's identity element": 0 for sum, 1 for product,
    [INT_MIN] for max, [INT_MAX] for min, 0 for bitwise or, all ones
    for bitwise and, 0 for bitwise xor. *)
Definition reduce_identity (R_OP : REDUCE_OP) : Z :=
  match R_OP with
  | PLUS => 0
  | MULTIPLIES => 1
  | MAXIMUM => INT_MIN
  | MINIMUM => INT_MAX
  | BIT_OR => 0
  | BIT_AND => -1
  | BIT_XOR => 0
  | NONE => 0
  end.

(** "all devices report zero queued work and zero pending cross-device
    in/out transfers": every device has completed a turn, no incoming
    length of a peer and no outgoing length is left. *)
Definition quiescent (data_slice : list DataSlice) : Prop :=
  forall gpu d, data_slice !! gpu = Some d ->
    0 < turn d
    /\ (forall i row peer len,
          in_length d !! i = Some row -> (1 <= peer)%nat ->
          row !! peer = Some len -> len = 0)
    /\ (forall peer len, out_length d !! peer = Some len -> len = 0).

(** "capacity must always be >= the maximum possible output size for
    the step about to run": of the two slots [arrays], the one to be
    written has room for [request_length] elements and the one to be
    read for [nodes + 2]. *)
Definition room_for (request_length nodes : Z) (arrays : list (list Z))
           (selector : Z) : Prop :=
  exists output input,
    read arrays (Z.lxor selector 1) = Some output
    /\ request_length <= GetSize output
    /\ read arrays selector = Some input
    /\ nodes + 2 <= GetSize input.

(** "the neighbor-list length of frontier element d_queue[i], and a
    zero-length entry at the sentinel position i = num_elements". *)
Definition edge_count (offsets d_queue : list Z)
           (num_elements max_vertex max_edge : Z) (i : Z) : Z :=
  if i =? num_elements then 0
  else default 0 (v ← read d_queue i;
                  GetNeighborListLength offsets v max_vertex max_edge).

(** "every outgoing edge of every input frontier element": the vertex
    an element stands for is the element itself in a vertex frontier
    and the destination of the edge in an edge frontier; its outgoing
    edges are those of its neighbor list, in the order of the frontier. *)
Definition frontier_vertex (ADVANCE_TYPE : TYPE)
           (d_column_indices : list Z) (element : Z) : option Z :=
  if is_vertex_input ADVANCE_TYPE then Some element
  else read d_column_indices element.

Definition outgoing_edges (ADVANCE_TYPE : TYPE)
           (d_row_offsets d_column_indices : list Z) (frontier : list Z)
  : option (list Z) :=
  lists ← mapM (fun element =>
                  v ← frontier_vertex ADVANCE_TYPE d_column_indices element;
                  first ← read d_row_offsets v;
                  second ← read d_row_offsets (v + 1);
                  Some (seqZ first (second - first))) frontier;
  Some (concat lists).

(** "row_offsets is non-decreasing, row_offsets[nodes] == edges;
    column_indices[row_offsets[v] .. row_offsets[v+1]) are v's
    out-neighbors", for a graph of 32-bit sizes. *)
Definition csr (d_row_offsets d_column_indices : list Z) (nodes edges : Z)
  : Prop :=
  0 <= nodes < INT_MAX
  /\ GetSize d_row_offsets = nodes + 1
  /\ GetSize d_column_indices = edges
  /\ edges <= INT_MAX
  /\ read d_row_offsets nodes = Some edges
  /\ (forall v x, read d_row_offsets v = Some x -> 0 <= x)
  /\ (forall v w x y, 0 <= v <= w ->
        read d_row_offsets v = Some x -> read d_row_offsets w = Some y ->
        x <= y).

(** The element of a vertex frontier at slot [j] and the first of its
    outgoing edges. *)
Definition element (d_queue : list Z) (j : Z) : Z :=
  default 0 (read d_queue j).

Definition first_edge (d_row_offsets d_queue : list Z) (j : Z) : Z :=
  default 0 (read d_row_offsets (element d_queue j)).

(** "that edge's position in the output frontier": the edges of a
    frontier slot follow those of the slots in front of it;
    [edges_before len j] is the number of edges of the slots in front of
    slot [j], when slot [k] has [len k] edges. *)
Definition edges_before (len : Z -> Z) (j : Z) : Z :=
  foldr Z.add 0 (len <$> seqZ 0 j).

Section Owed.

Variable LOG_THREADS : nat.
Variable MARK_PREDECESSORS : bool.
Variable label : Z.
Variable d_column_indices : list Z.
Variable ADVANCE_TYPE : TYPE.

(** The frontier, slot by slot: the element, the vertex it stands for,
    the first outgoing edge of that vertex and the number of its
    outgoing edges. *)
Variables element vert first len : Z -> Z.

(** The call owed to the edge number [e] of the frontier slot [j]. *)
Definition relaxation (j e : Z) : Relaxation :=
  {| r_src := if MARK_PREDECESSORS then vert j else label;
     r_dst := default 0 (read d_column_indices (first j + e));
     r_edge := first j + e;
     r_slot := if MARK_PREDECESSORS then j mod THREADS LOG_THREADS
               else if is_vertex_input ADVANCE_TYPE then 0 else element j;
     r_out := edges_before len j + e |}.

(** The calls owed to the [count] frontier slots from slot [from] on. *)
Definition relaxations (from count : Z) : list Relaxation :=
  seqZ from count ≫= fun j => relaxation j <$> seqZ 0 (len j).

End Owed.

Section Calls.

Variable Problem : Type.
Variable CondEdge : Z -> Z -> Problem -> Z -> Z -> bool.
Variable ApplyEdge : Z -> Z -> Problem -> Z -> Z -> Problem.

(** "for each edge where CondEdge returns true it applies ApplyEdge
    exactly once": the problem after the calls [calls], latest first,
    and what it means that each of them was answered by [CondEdge] on
    the problem of its time. *)
Fixpoint replay (p : Problem) (calls : list EdgeVisit) : Problem :=
  match calls with
  | [] => p
  | vis :: older =>
      let p' := replay p older in
      if visit_cond vis
      then ApplyEdge (visit_src vis) (visit_dst vis) p'
                     (visit_edge vis) (visit_slot vis)
      else p'
  end.

Fixpoint answered (p : Problem) (calls : list EdgeVisit) : Prop :=
  match calls with
  | [] => True
  | vis :: older =>
      visit_cond vis
      = CondEdge (visit_src vis) (visit_dst vis) (replay p older)
                 (visit_edge vis) (visit_slot vis)
      /\ answered p older
  end.

End Calls.

(** "writes the neighbor vertex (V2V mode) or the edge index (V2E/E2E
    modes) at that edge's position in the output frontier; for each
    edge where CondEdge returns false it writes -1": what the position
    of a call is owed, if anything. *)
Definition stored (ADVANCE_TYPE : TYPE) (vis : EdgeVisit) : option Z :=
  if visit_cond vis
  then match ADVANCE_TYPE with
       | V2V => Some (visit_dst vis)
       | V2E | E2E => Some (visit_edge vis)
       | E2V => None
       end
  else Some (-1).

(** The status the caller is owed: the first one that is not
    [cudaSuccess] among the [num_gpus * num_gpus] slots of the devices,
    and [cudaSuccess] when there is none. *)
Fixpoint first_failure (enactor_stats : list EnactorStats) : cudaError_t :=
  match enactor_stats with
  | [] => cudaSuccess
  | s :: rest =>
      if retval s =? cudaSuccess then first_failure rest else retval s
  end.






End spec.

(** ** A block of [RelaxLightEdges] in closed form *)

Module light_block.

Import Int32 Array1D advance edge_map_partitioned.

Section Block.

Variable LOG_THREADS : nat.
Variable MARK_PREDECESSORS : bool.
Variable label : Z.
Variable d_column_indices : list Z.
Variable input_queue_len : Z.
Variables max_vertices max_edges : Z.
Variable ADVANCE_TYPE : TYPE.
Variables element vert first len : Z -> Z.

(** The number of frontier slots of block [bid] and of edges they have. *)
Definition window (bid : Z) : Z :=
  Z.min (THREADS LOG_THREADS) (input_queue_len - bid * THREADS LOG_THREADS).

Definition block_size (bid : Z) : Z :=
  spec.edges_before len (bid * THREADS LOG_THREADS + window bid)
  - spec.edges_before len (bid * THREADS LOG_THREADS).

(** What [s_edges], [s_vertices] and [s_edge_ids] hold in block [bid]
    when [d_scanned_edges] holds the scanned lengths [len]. *)
Definition window_edges (bid : Z) : list Z :=
  (fun tid => if bid * THREADS LOG_THREADS + tid <? input_queue_len
              then spec.edges_before len (bid * THREADS LOG_THREADS + tid + 1)
                   - spec.edges_before len (bid * THREADS LOG_THREADS)
              else max_edges) <$> seqZ 0 (THREADS LOG_THREADS).

Definition vertices_of (bid : Z) : list Z :=
  (fun tid => if bid * THREADS LOG_THREADS + tid <? input_queue_len
              then vert (bid * THREADS LOG_THREADS + tid)
              else max_vertices) <$> seqZ 0 (THREADS LOG_THREADS).

Definition ids_of (bid : Z) : list Z :=
  (fun tid => if is_vertex_input ADVANCE_TYPE then 0
              else if bid * THREADS LOG_THREADS + tid <? input_queue_len
                   then element (bid * THREADS LOG_THREADS + tid)
                   else max_vertices) <$> seqZ 0 (THREADS LOG_THREADS).

(** What a thread of block [bid] holds while it works on slot [m] of
    the window. *)
Definition cursor_of (bid m : Z) : Cursor :=
  {| v_index := m;
     v := Some (vert (bid * THREADS LOG_THREADS + m));
     e_id := Some (if is_vertex_input ADVANCE_TYPE then 0
                   else element (bid * THREADS LOG_THREADS + m));
     end_last := spec.edges_before len (bid * THREADS LOG_THREADS + m + 1)
                 - spec.edges_before len (bid * THREADS LOG_THREADS) |}.

(** The call a thread of block [bid] issues at the position [i] of the
    block. *)
Definition relaxation_at (bid i : Z) : Relaxation :=
  let j := bid * THREADS LOG_THREADS + BinarySearch i (window_edges bid) in
  spec.relaxation LOG_THREADS MARK_PREDECESSORS label d_column_indices
                  ADVANCE_TYPE element vert first len j
                  (i - (spec.edges_before len j
                        - spec.edges_before len (bid * THREADS LOG_THREADS))).

(** The positions [i], [i + THREADS], ... below [size] a thread goes
    through, and the positions of a block in the order of its threads. *)
Fixpoint stride (size : Z) (fuel : nat) (i : Z) : list Z :=
  match fuel with
  | O => []
  | S fuel' =>
      if size <=? i then []
      else i :: stride size fuel' (i + THREADS LOG_THREADS)
  end.

Definition block_order (bid : Z) : list Z :=
  seqZ 0 (THREADS LOG_THREADS)
  ≫= stride (block_size bid) (Z.to_nat (block_size bid)).

End Block.

End light_block.

(** ** Inputs the properties below are evaluated at *)

Module scenario.

Import Int32 Array1D advance enactor edge_map_partitioned.

(** Three vertices and the single edge 2 -> 0. *)
Definition sparse_row_offsets : list Z := [0; 0; 0; 1].
Definition sparse_column_indices : list Z := [0].
Definition all_vertices : list Z := [0; 1; 2].

(** Three vertices and the edges 0 -> 1, 0 -> 2, 1 -> 2. *)
Definition wedge_row_offsets : list Z := [0; 2; 3; 3].
Definition wedge_column_indices : list Z := [1; 2; 2].

(** Four vertices and the edges 0 -> 1, 0 -> 2, 1 -> 0, 2 -> 3, 2 -> 0,
    numbered 0 to 4 in this order. *)
Definition square_row_offsets : list Z := [0; 2; 3; 5; 5].
Definition square_column_indices : list Z := [1; 2; 0; 3; 0].

(** A functor that accepts every edge and counts its calls. *)
Definition count_CondEdge (s d : Z) (p : nat) (e e_in : Z) : bool := true.
Definition count_ApplyEdge (s d : Z) (p : nat) (e e_in : Z) : nat := S p.

(** A functor that rejects every edge. *)
Definition reject_CondEdge (s d : Z) (p : nat) (e e_in : Z) : bool := false.

(** No functor call yet, and output arrays that hold [stale]. *)
Definition fresh_state (out_capacity : nat) (stale : Z)
  : AdvanceState nat :=
  {| problem := O;
     d_out := Some (replicate out_capacity stale);
     d_reduce_frontier := replicate out_capacity stale;
     visits := [] |}.

(** What is looked at after an advance: the edges the functor was
    called on, first call first, the output frontier and the number of
    [ApplyEdge] calls. *)
Definition advance_outcome (st : AdvanceState nat)
  : list Z * option (list Z) * nat :=
  (rev (map visit_edge (visits nat st)), d_out nat st, problem nat st).

Definition ok : EnactorStats := {| retval := cudaSuccess; iteration := 0 |}.
Definition failed : EnactorStats := {| retval := 77; iteration := 0 |}.




(** Two devices, the second of which recorded a failure: its slots are
    the third and the fourth. *)
Definition second_device_failed : list EnactorStats := [ok; ok; failed; ok].

Definition idle_slice (n : nat) : DataSlice :=
  {| turn := 1;
     in_length := [replicate n 0; replicate n 0];
     out_length := replicate n 0 |}.

(** A single device that has completed a turn and still has an
    outgoing length set. *)
Definition busy_single : list DataSlice :=
  [{| turn := 1; in_length := [[0]; [0]]; out_length := [1] |}].

(** An allocator that never fails and hands out zeroed arrays. *)
Definition zeroed (n : Z) : option (Z -> Z) := Some (fun _ => 0).

Definition empty_queue : DoubleBuffer :=
  {| keys := [[]; []]; values := [[]; []]; buffer_selector := 0 |}.

Definition attribute (len : Z) : FrontierAttribute :=
  {| queue_index := 0; queue_length := len; selector := 0;
     queue_reset := false |}.

End scenario.

(** ** Kernels that stride over their elements *)

Module grid.

Import Int32 Array1D.

(** The loop of the thread of global index [x]:
    [while (x < num_elements) { body; x += STRIDE; }] with [x] a 32-bit
    [int], followed through [fuel] rounds at most. *)
Fixpoint stride_loop {St : Type} (body : Z -> St -> option St)
         (STRIDE num_elements : Z) (fuel : nat) (x : Z) (s : St)
  : option St :=
  match fuel with
  | O => if x <? num_elements then None else Some s
  | S fuel' =>
      if x <? num_elements then
        s' ← body x s;
        stride_loop body STRIDE num_elements fuel' (wrap (x + STRIDE)) s'
      else Some s
  end.

(** A launch [<<<grid_size, block_size>>>] of a kernel that is such a
    loop: the threads have the global indices
    [blockIdx.x * blockDim.x + threadIdx.x] from 0 to
    [grid_size * block_size - 1], and [STRIDE] is
    [gridDim.x * blockDim.x]. *)
Definition launch {St : Type} (body : Z -> St -> option St)
           (grid_size block_size num_elements : Z) (s : St) : option St :=
  run_threads
    (stride_loop body (wrap (grid_size * block_size)) num_elements
                 (Z.to_nat num_elements))
    0 (Z.to_nat (grid_size * block_size)) s.

(** The elements a thread goes through, and the elements of a launch in
    the order of its threads. *)
Fixpoint thread_elements (STRIDE num_elements : Z) (fuel : nat) (x : Z)
  : list Z :=
  match fuel with
  | O => []
  | S fuel' =>
      if x <? num_elements
      then x :: thread_elements STRIDE num_elements fuel' (x + STRIDE)
      else []
  end.

Definition schedule (STRIDE num_elements : Z) : list Z :=
  seqZ 0 STRIDE
  ≫= thread_elements STRIDE num_elements (Z.to_nat num_elements).

(** The bodies of the elements [l], one after the other. *)
Fixpoint run_all {St : Type} (body : Z -> St -> option St)
         (l : list Z) (s : St) : option St :=
  match l with
  | [] => Some s
  | x :: l' => s' ← body x s; run_all body l' s'
  end.

End grid.

(** ** The output of a turn of connected components (cc_enactor.cuh) *)

Module cc_output.

Import Int32 Array1D enactor edge_map_partitioned grid.

(** The round of [Mark_Difference_Queue] for the element [x]. *)
Definition Mark_Difference_Queue_element (old_CID new_CID : list Z)
           (x : Z) (marker : list Z) : option (list Z) :=
  old ← read old_CID x;
  new ← read new_CID x;
  write marker x (if negb (old =? new) then 1 else 0).

Definition Mark_Difference_Queue (grid_size block_size num_elements : Z)
           (old_CID new_CID marker : list Z) : option (list Z) :=
  launch (Mark_Difference_Queue_element old_CID new_CID)
         grid_size block_size num_elements marker.

(** The round of [Make_Difference_Queue] for the element [x]; the state
    is [keys_out] with [c_ids_out]. *)
Definition Make_Difference_Queue_element (marker c_ids : list Z)
           (x : Z) (out : list Z * list Z) : option (list Z * list Z) :=
  Mx ← read marker x;
  differs ← (if negb (x =? 0)
             then prev ← read marker (wrap (x - 1));
                  Some (negb (prev =? Mx))
             else Some (Mx =? 1));
  if (differs : bool) then
    keys_out ← write (fst out) (wrap (Mx - 1)) x;
    c_id ← read c_ids x;
    c_ids_out ← write (snd out) (wrap (Mx - 1)) c_id;
    Some (keys_out, c_ids_out)
  else Some out.

Definition Make_Difference_Queue (grid_size block_size num_elements : Z)
           (marker c_ids keys_out c_ids_out : list Z)
  : option (list Z * list Z) :=
  launch (Make_Difference_Queue_element marker c_ids)
         grid_size block_size num_elements (keys_out, c_ids_out).

(** The fields of the [DataSlice] of connected components that
    [Make_Output] uses; [keys_out] is [keys_out[1]] and
    [vertex_associate_out] is [vertex_associate_out[1][0]]. *)
Record DataSlice := {
  old_c_ids : list Z;
  component_ids : list Z;
  CID_markers : list Z;
  keys_out : list Z;
  vertex_associate_out : list Z;
  out_length : list Z;
  has_change : bool
}.

(** [for (peer_ = 0; peer_ < num_gpus; peer_++) out_length[peer_] = x;] *)
Definition fill_out_length (num_gpus x : Z) (out_length : list Z)
  : option (list Z) :=
  run_threads (fun peer_ a => write a peer_ x) 0 (Z.to_nat num_gpus)
              out_length.

(** [CCIteration::Make_Output]; [nodes] is [graph_slice->nodes].  The
    inclusive scan of the markers, in place, is the scan primitive the
    load-balanced advance uses as well. *)
Definition Make_Output (num_gpus nodes : Z)
           (frontier_attribute : FrontierAttribute) (d : DataSlice)
  : option (FrontierAttribute * DataSlice) :=
  let num_elements := nodes in
  let block_size := 256 in
  let grid_size := Z.quot num_elements block_size in
  let grid_size := if negb (Z.rem num_elements block_size =? 0)
                   then grid_size + 1 else grid_size in
  let grid_size := if 512 <? grid_size then 512 else grid_size in
  lengths ← fill_out_length num_gpus 1 (out_length d);
  marker ← Mark_Difference_Queue grid_size block_size num_elements
              (old_c_ids d) (component_ids d) (CID_markers d);
  let marker := Scan num_elements marker in
  '(keys, ids) ← Make_Difference_Queue grid_size block_size num_elements
                    marker (component_ids d)
                    (keys_out d) (vertex_associate_out d);
  queue_length ← read marker (nodes - 1);
  lengths ← fill_out_length num_gpus queue_length lengths;
  lengths ← (if negb (queue_length =? 0) then write lengths 0 1
             else Some lengths);
  Some ({| queue_index := queue_index frontier_attribute;
           queue_length := queue_length;
           selector := 0;
           queue_reset := true |},
        {| old_c_ids := old_c_ids d;
           component_ids := component_ids d;
           CID_markers := marker;
           keys_out := keys;
           vertex_associate_out := ids;
           out_length := lengths;
           has_change := 0 <? queue_length |}).

(** 1 for a vertex whose component id is not the old one, 0 for the
    others. *)
Definition mark_of (old_CID new_CID : list Z) (x : Z) : Z :=
  if decide (read old_CID x = read new_CID x) then 0 else 1.

(** The elements below [num_elements] that carry the mark 1, in
    increasing order, and the vertices whose component id changed. *)
Definition marked (mark : Z -> Z) (num_elements : Z) : list Z :=
  filter (fun x => mark x = 1) (seqZ 0 num_elements).

Definition changed (old_CID new_CID : list Z) (nodes : Z) : list Z :=
  filter (fun x => read old_CID x <> read new_CID x) (seqZ 0 nodes).

End cc_output.

(** ** The needles of the partitions (edge_map_partitioned) *)

Module partition_sizes.

Import Int32 Array1D.

(** The value of a 32-bit [unsigned int]. *)
Definition unsigned (z : Z) : Z := z mod 4294967296.

(** [Dispatch::MarkPartitionSizes] in the thread of global index
    [my_id].  [split_val] and the needles are [unsigned int], so the
    product, the comparison and the result are unsigned. *)
Definition MarkPartitionSizes (split_val num_elements output_queue_len : Z)
           (my_id : Z) (d_needles : list Z) : option (list Z) :=
  if num_elements <=? my_id then Some d_needles
  else
    write d_needles my_id
          (if unsigned output_queue_len <? unsigned (split_val * my_id)
           then unsigned output_queue_len
           else unsigned (split_val * my_id)).

(** The kernel on [threads] threads. *)
Definition MarkPartitionSizes_kernel
           (split_val num_elements output_queue_len : Z)
           (threads : nat) (d_needles : list Z) : option (list Z) :=
  run_threads (MarkPartitionSizes split_val num_elements output_queue_len)
              0 threads d_needles.

End partition_sizes.

(** ** The output frontier of the light path *)

Module light_output.

Import Int32 Array1D advance edge_map_partitioned.

(** A functor that accepts every edge. *)
Definition accept_CondEdge {Problem : Type}
           (s d : Z) (p : Problem) (e e_in : Z) : bool := true.

(** The neighbor lists of the first [n] frontier slots, one after the
    other: slot [j] has the edges [first j .. first j + len j). *)
Definition neighbor_lists (d_column_indices : list Z) (first len : Z -> Z)
           (n : Z) : list Z :=
  seqZ 0 n ≫= fun j => (fun e => default 0 (read d_column_indices e))
                       <$> seqZ (first j) (len j).

End light_output.

(** ** Command-line arguments (test_utils.h) *)

From Stdlib Require Ascii String.

Module std_map.

Import Ascii String.

(** [std::map<std::string, std::string>] through the operations
    [CommandLineArgs] uses: [find], [operator[]] followed by an
    assignment, and [size]; every key is held once. *)
Definition map := list (string * string).

Fixpoint find (key : string) (pairs : map) : option string :=
  match pairs with
  | [] => None
  | (k, v) :: rest => if String.eqb k key then Some v else find key rest
  end.

Fixpoint assign (key val : string) (pairs : map) : map :=
  match pairs with
  | [] => [(key, val)]
  | (k, v) :: rest =>
      if String.eqb k key then (key, val) :: rest
      else (k, v) :: assign key val rest
  end.

Definition size (pairs : map) : Z := Z.of_nat (List.length pairs).

End std_map.

Module test_utils.

Import Ascii String Int32 Array1D.

(** [std::string::find (char)]: the position of the first occurrence. *)
Fixpoint find_char (c : ascii) (s : string) : option nat :=
  match s with
  | EmptyString => None
  | String x s' =>
      if Ascii.eqb x c then Some O else S <$> find_char c s'
  end.

(** The key and the value the constructor takes from the argument
    [arg]; [None] for an argument it skips.  The positions handed to
    the [std::string] constructor lie inside [arg], which starts with
    two dashes. *)
Definition key_value (arg : string) : option (string * string) :=
  match arg with
  | String "-" (String "-" _) =>
      match find_char "=" arg with
      | None => Some (substring 2 (String.length arg - 2) arg, EmptyString)
      | Some pos =>
          Some (substring 2 (pos - 2) arg,
                substring (pos + 1) (String.length arg - 1) arg)
      end
  | _ => None
  end.

(** The round of the loop of the constructor for the argument [arg]. *)
Definition take_argument (pairs : std_map.map) (arg : string)
  : std_map.map :=
  match key_value arg with
  | Some (key, val) => std_map.assign key val pairs
  | None => pairs
  end.

Record CommandLineArgs := {
  argc : Z;
  argv : list string;
  pairs : std_map.map
}.

(** The constructor; [argv] holds the [argc] arguments, the name of the
    program first, and the loop starts behind that name. *)
Definition construct (argv : list string) : CommandLineArgs :=
  {| argc := Z.of_nat (List.length argv);
     argv := argv;
     pairs := foldl take_argument [] (drop 1 argv) |}.

Definition CheckCmdLineFlag (args : CommandLineArgs) (arg_name : string)
  : bool :=
  bool_decide (is_Some (std_map.find arg_name (pairs args))).

Definition ParsedArgc (args : CommandLineArgs) : Z :=
  wrap (std_map.size (pairs args)).

Definition GetCmdLineArgvGraphType (args : CommandLineArgs)
  : option string :=
  argv args !! 1%nat.

(** [GetCmdLineArgvDataset]; [graph_args] is a [size_t], and [None] is
    the [NULL] the function returns. *)
Definition GetCmdLineArgvDataset (args : CommandLineArgs)
  : option string :=
  let graph_args :=
    (argc args - std_map.size (pairs args) - 1) mod 18446744073709551616 in
  if graph_args =? 2 then argv args !! 2%nat else None.

(** How a flag is spelled on the command line, with a value and
    without one. *)
Definition spelled (key : string) (val : option string) : string :=
  match val with
  | Some v => ("--" ++ key ++ "=" ++ v)%string
  | None => ("--" ++ key)%string
  end.

(** A string without the character [c]. *)
Fixpoint without (c : ascii) (s : string) : Prop :=
  match s with
  | EmptyString => True
  | String x s' => x <> c /\ without c s'
  end.

End test_utils.

(** ** The entries [Enact] and [Init] of the enactors *)

Module enactor_entry.

Import Int32 Array1D enactor.

Definition cudaErrorInvalidDeviceFunction : cudaError_t := 8.

(** The loop that opens [Enact] and [Init] of both enactors:
    [int min_sm_version = -1;
     for (i = 0; i < num_gpus; i++)
       if (min_sm_version == -1 ||
           cuda_props[i].device_sm_version < min_sm_version)
         min_sm_version = cuda_props[i].device_sm_version;]
    [device_sm_version] lists the versions of the [num_gpus] devices. *)
Definition lower (min_sm_version version : Z) : Z :=
  if (min_sm_version =? -1) || (version <? min_sm_version)
  then version else min_sm_version.

Definition min_sm_version (device_sm_version : list Z) : Z :=
  foldl lower (-1) device_sm_version.

(** [Enact] and [Init]: [enact] is what [EnactCC], [EnactBC], [InitCC]
    or [InitBC] returns when it is called, [refuse] the return behind
    the [if]. *)
Definition Enact {R : Type} (device_sm_version : list Z)
           (enact refuse : R) : R :=
  if 300 <=? min_sm_version device_sm_version then enact else refuse.

(** [CCEnactor::Enact], once the device threads have finished. *)
Definition cc_Enact (device_sm_version : list Z)
           (enactor_stats : list EnactorStats) (num_gpus : Z)
  : option cudaError_t :=
  Enact device_sm_version (cc.EnactCC enactor_stats num_gpus)
        (Some cudaErrorInvalidDeviceFunction).

End enactor_entry.

(** ** The thread of a device of betweenness centrality (bc_enactor.cuh) *)

Module bc_start.

Import Int32 Array1D enactor.

(** [EnactBC]: the [init_size] it hands to the thread of device [gpu];
    [partition_table] is [problem->partition_tables[0]]. *)
Definition init_size (num_gpus : Z) (partition_table : list Z)
           (src gpu : Z) : option Z :=
  if num_gpus =? 1 then Some 1
  else owner ← read partition_table src;
       Some (if gpu =? owner then 1 else 0).

(** [BCThread], the round of its first loop for the peer [peer_]: the
    slots of the thread start at [thread_num * num_gpus]. *)
Definition reset_peer (num_gpus thread_num init_size peer_ : Z)
           (st : list FrontierAttribute * list EnactorStats)
  : option (list FrontierAttribute * list EnactorStats) :=
  let slot := thread_num * num_gpus + peer_ in
  let queued := if peer_ =? 0 then init_size else 0 in
  frontier_attribute ←
    write (fst st) slot
          {| queue_index := 0;
             queue_length := queued;
             selector := if queued =? 0 then 0 else 1;
             queue_reset := true |};
  s ← read (snd st) slot;
  enactor_stats ← write (snd st) slot
                        {| retval := retval s; iteration := 0 |};
  Some (frontier_attribute, enactor_stats).

(** [BCThread] up to the forward phase.  [set_device] is what
    [util::SetDevice (gpu_idx)] returns; it is stored in the status of
    the first slot of the thread, and an error ends the thread there.
    The thread then sets its [stats] to 1 and waits in
    [while (thread_data->stats != 2) sleep (0);]: it goes on to reset
    its slots when [EnactBC] lets it go, which is what [released]
    says, and waits there with its slots as they are when not. *)
Definition BCThread_begin (num_gpus thread_num : Z)
           (set_device : cudaError_t) (released : bool) (init_size : Z)
           (st : list FrontierAttribute * list EnactorStats)
  : option (list FrontierAttribute * list EnactorStats) :=
  s ← read (snd st) (thread_num * num_gpus);
  enactor_stats ← write (snd st) (thread_num * num_gpus)
                        {| retval := set_device; iteration := iteration s |};
  if (set_device =? cudaSuccess) && released
  then run_threads (reset_peer num_gpus thread_num init_size)
                   0 (Z.to_nat num_gpus) (fst st, enactor_stats)
  else Some (fst st, enactor_stats).

(** [EnactBC] lets the threads go in the order of the devices,
    [while (thread_slices[gpu].stats != 1) sleep (0);
     thread_slices[gpu].stats = 2;],
    and a thread whose [SetDevice] failed never sets its [stats] to 1:
    the thread of [gpu] is let go when [SetDevice] succeeded in the
    threads of all devices before it. *)
Definition released (SetDevice : Z -> cudaError_t) (gpu : Z) : bool :=
  forallb (fun g => SetDevice g =? cudaSuccess) (seqZ 0 gpu).

(** The thread of [gpu] gets as far as the reset of its slots. *)
Definition resets (SetDevice : Z -> cudaError_t) (gpu : Z) : bool :=
  (SetDevice gpu =? cudaSuccess) && released SetDevice gpu.

(** What [EnactBC] and the threads of the devices leave behind when
    every thread has got as far as it gets before the forward phase;
    every thread works on the slots of its own.  [SetDevice gpu] is what
    [util::SetDevice] returns in the thread of device [gpu]. *)
Definition start (num_gpus : Z) (partition_table : list Z) (src : Z)
           (SetDevice : Z -> cudaError_t)
           (st : list FrontierAttribute * list EnactorStats)
  : option (list FrontierAttribute * list EnactorStats) :=
  run_threads (fun gpu st =>
                 size ← init_size num_gpus partition_table src gpu;
                 BCThread_begin num_gpus gpu (SetDevice gpu)
                                (released SetDevice gpu) size st)
              0 (Z.to_nat num_gpus) st.

(** The frontier attribute of a slot that starts with [queued]
    elements. *)
Definition initial (queued : Z) : FrontierAttribute :=
  {| queue_index := 0; queue_length := queued;
     selector := if queued =? 0 then 0 else 1; queue_reset := true |}.

(** The first [peer_] slots of the thread [thread_num] are reset, and
    the other slots are as in [st0]. *)
Definition reset_upto (num_gpus thread_num init_size : Z)
           (st0 : list FrontierAttribute * list EnactorStats) (peer_ : Z)
           (st : list FrontierAttribute * list EnactorStats) : Prop :=
  GetSize (fst st) = GetSize (fst st0)
  /\ GetSize (snd st) = GetSize (snd st0)
  /\ (forall p, 0 <= p < peer_ ->
        read (fst st) (thread_num * num_gpus + p)
        = Some (initial (if p =? 0 then init_size else 0))
        /\ exists s, read (snd st0) (thread_num * num_gpus + p) = Some s
                     /\ read (snd st) (thread_num * num_gpus + p)
                        = Some {| retval := retval s; iteration := 0 |})
  /\ (forall slot,
        ~ (thread_num * num_gpus <= slot < thread_num * num_gpus + peer_) ->
        read (fst st) slot = read (fst st0) slot
        /\ read (snd st) slot = read (snd st0) slot).

(** The slot [gpu * num_gpus + peer_] once the thread of its device has
    begun: [a] and [s] are what it held before. *)
Definition begun (SetDevice : Z -> cudaError_t) (owner gpu peer_ : Z)
           (a : FrontierAttribute) (s : EnactorStats)
  : FrontierAttribute * EnactorStats :=
  (if resets SetDevice gpu
   then initial (if (gpu =? owner) && (peer_ =? 0) then 1 else 0)
   else a,
   {| retval := if peer_ =? 0 then SetDevice gpu else retval s;
      iteration := if resets SetDevice gpu then 0 else iteration s |}).

End bc_start.

Module bc_thread.

Import Int32 Array1D enactor.

(** [BCThread] between the phases, with more than one device:
    [long max_iteration = 0;
     for (gpu = 0; gpu < num_gpus; gpu++)
       if (s_enactor_stats[gpu*num_gpus].iteration > max_iteration)
         max_iteration = s_enactor_stats[gpu*num_gpus].iteration;] *)
Definition raise (s_enactor_stats : list EnactorStats) (num_gpus : Z)
           (gpu max_iteration : Z) : option Z :=
  s ← read s_enactor_stats (gpu * num_gpus);
  Some (if max_iteration <? iteration s then iteration s
        else max_iteration).

Definition max_iteration (s_enactor_stats : list EnactorStats)
           (num_gpus : Z) : option Z :=
  run_threads (raise s_enactor_stats num_gpus) 0 (Z.to_nat num_gpus) 0.

(** [while (forward_queue_offsets[0].size() < max_iteration)
       forward_queue_offsets[0].push_back
         (forward_queue_offsets[0].back());]
    followed through [fuel] rounds at most. *)
Fixpoint pad (max_iteration : Z) (fuel : nat) (offsets : list Z)
  : option (list Z) :=
  match fuel with
  | O => if GetSize offsets <? max_iteration then None else Some offsets
  | S fuel' =>
      if GetSize offsets <? max_iteration then
        last ← bc.back offsets;
        pad max_iteration fuel' (offsets ++ [last])
      else Some offsets
  end.

(** What [BCThread] does to the iteration state of its device between
    the forward and the backward phase; the copies of [sigmas] and
    [labels] to the peers are left out.  [s_enactor_stats] are the
    statistics of all devices. *)
Definition between_phases (num_gpus : Z)
           (s_enactor_stats : list EnactorStats) (s : bc.IterationState)
  : option bc.IterationState :=
  if 1 <? num_gpus then
    m ← max_iteration s_enactor_stats num_gpus;
    offsets ← pad m (Z.to_nat m) (bc.forward_queue_offsets s);
    Some (bc.set_iteration m (bc.set_log offsets (bc.forward_output s) s))
  else Some s.

End bc_thread.

Module bc_expand.

Import Int32 Array1D enactor grid.

Section Backward.

(** [Value]: the kernel only copies values. *)
Variable Value : Type.

(** What [Expand_Incoming_Backward] writes: [keys_out] and the two value
    arrays [s_value__associate_org[0]] and [s_value__associate_org[1]]
    of the device. *)
Record Received := {
  keys_out : list Z;
  value_org_0 : list Value;
  value_org_1 : list Value
}.

(** The round of the kernel for the incoming element [x], with the
    table of array addresses in shared memory. *)
Definition Expand_Incoming_Backward_element
           (keys_in : list Z) (value_in_0 value_in_1 : list Value)
           (x : Z) (r : Received) : option Received :=
  key ← read keys_in x;
  keys ← write (keys_out r) x key;
  v0 ← read value_in_0 x;
  org0 ← write (value_org_0 r) key v0;
  v1 ← read value_in_1 x;
  org1 ← write (value_org_1 r) key v1;
  Some {| keys_out := keys; value_org_0 := org0; value_org_1 := org1 |}.

(** The kernel.  The table of array addresses has [array_size] bytes;
    every thread of a block copies the byte of its own index into
    shared memory, once ([if (x < array_size)], where the other kernels
    have [while]), so a block of fewer threads than bytes works with a
    table that is not complete: the model stops there. *)
Definition Expand_Incoming_Backward
           (grid_size block_size num_elements array_size : Z)
           (keys_in : list Z) (value_in_0 value_in_1 : list Value)
           (r : Received) : option Received :=
  if array_size <=? block_size then
    launch (Expand_Incoming_Backward_element keys_in value_in_0 value_in_1)
           grid_size block_size num_elements r
  else None.

End Backward.

End bc_expand.

(** ** The hand-over between [Enact] and the threads of the devices *)

Module handshake.

Import Int32 Array1D enactor.

(** The routine that [InitCC] and [InitBC] start a thread with. *)
Inductive Routine :=
| CCThread
| BCThread.

(** [BCThread] goes through [cpu_barrier[0]] and [cpu_barrier[1]]
    [if (num_gpus > 1)]; [CCThread] has no barrier. *)
Definition barriers (routine : Routine) (num_gpus : Z) : bool :=
  match routine with
  | CCThread => false
  | BCThread => 1 <? num_gpus
  end.

(** Where the thread of a device stands in [CCThread] or [BCThread]. *)
Inductive thread_pc :=
| at_SetDevice  (* [if (enactor_stats[0].retval = util::SetDevice (gpu_idx)) break;] *)
| at_ready      (* [thread_data->stats = 1;] *)
| at_wait       (* [while (thread_data->stats != 2) sleep (0);] *)
| at_running    (* [thread_data->stats = 3;] *)
| at_loop       (* the reset of the slots and the iteration loops; with the
                   barriers, the forward loop, up to the increment of
                   [IncrementnWaitBarrier (&cpu_barrier[0], thread_num)] *)
| at_barrier_0  (* the wait of [IncrementnWaitBarrier (&cpu_barrier[0], thread_num)] *)
| at_between    (* [max_iteration] and the copies to the peers, up to the
                   increment of
                   [IncrementnWaitBarrier (&cpu_barrier[1], thread_num)] *)
| at_barrier_1  (* the wait of [IncrementnWaitBarrier (&cpu_barrier[1], thread_num)] *)
| at_backward   (* the backward iteration loop *)
| at_finish     (* [thread_data->stats = 4;] *)
| ended.

(** Where [EnactCC] or [EnactBC] stands. *)
Inductive main_pc :=
| waits_ready (gpu : Z)  (* [while (thread_slices[gpu].stats != 1) sleep (0);] *)
| releases (gpu : Z)     (* [thread_slices[gpu].stats = 2;] *)
| waits_end (gpu : Z)    (* [while (thread_slices[gpu].stats != 4) sleep (0);] *)
| returned.

(** [thread_slices[gpu].stats] of every device, the places of the
    threads and of [Enact], and the two barriers: [barrier_0] and
    [barrier_1] hold the threads that have counted themselves in at
    [cpu_barrier[0]] and at [cpu_barrier[1]], the last one first.  The
    reads and writes of [stats] and of the barriers happen one at a
    time, in the order of the steps. *)
Record State := {
  stats : list Z;
  threads : list thread_pc;
  barrier_0 : list Z;
  barrier_1 : list Z;
  main : main_pc
}.

Definition store (gpu v : Z) (s : State) : option State :=
  stats' ← write (stats s) gpu v;
  Some {| stats := stats'; threads := threads s;
          barrier_0 := barrier_0 s; barrier_1 := barrier_1 s;
          main := main s |}.

Definition move (gpu : Z) (pc : thread_pc) (s : State) : option State :=
  threads' ← write (threads s) gpu pc;
  Some {| stats := stats s; threads := threads';
          barrier_0 := barrier_0 s; barrier_1 := barrier_1 s;
          main := main s |}.

Definition goto (pc : main_pc) (s : State) : State :=
  {| stats := stats s; threads := threads s;
     barrier_0 := barrier_0 s; barrier_1 := barrier_1 s; main := pc |}.

(** Modelled from the spec: [util::cpu_mt::IncrementnWaitBarrier] and
    [CreateBarrier] are not among the sources.  "a hard barrier across
    all device-controllers is required before the *backward* phase
    begins": a thread counts itself in at the barrier, which [InitBC]
    creates for [num_gpus] threads, and goes on when that many threads
    have counted themselves in. *)
Definition increment_0 (thread_num : Z) (s : State) : State :=
  {| stats := stats s; threads := threads s;
     barrier_0 := thread_num :: barrier_0 s; barrier_1 := barrier_1 s;
     main := main s |}.

Definition increment_1 (thread_num : Z) (s : State) : State :=
  {| stats := stats s; threads := threads s;
     barrier_0 := barrier_0 s; barrier_1 := thread_num :: barrier_1 s;
     main := main s |}.

Definition open (num_gpus : Z) (barrier : list Z) : bool :=
  num_gpus <=? GetSize barrier.

(** A step of the thread of device [gpu].  [SetDevice gpu] is what
    [util::SetDevice] returns there: an error takes the thread out of
    its [do ... while (0)], to the last assignment.  The iteration
    loops are taken to come to an end. *)
Definition thread_step (routine : Routine) (num_gpus : Z)
           (SetDevice : Z -> cudaError_t) (gpu : Z) (s : State)
  : option State :=
  pc ← read (threads s) gpu;
  match pc with
  | at_SetDevice =>
      move gpu (if SetDevice gpu =? cudaSuccess then at_ready else at_finish) s
  | at_ready => s' ← store gpu 1 s; move gpu at_wait s'
  | at_wait =>
      v ← read (stats s) gpu;
      if v =? 2 then move gpu at_running s else Some s
  | at_running => s' ← store gpu 3 s; move gpu at_loop s'
  | at_loop =>
      if barriers routine num_gpus
      then move gpu at_barrier_0 (increment_0 gpu s)
      else move gpu at_finish s
  | at_barrier_0 =>
      if open num_gpus (barrier_0 s) then move gpu at_between s else Some s
  | at_between => move gpu at_barrier_1 (increment_1 gpu s)
  | at_barrier_1 =>
      if open num_gpus (barrier_1 s) then move gpu at_backward s else Some s
  | at_backward => move gpu at_finish s
  | at_finish => s' ← store gpu 4 s; move gpu ended s'
  | ended => Some s
  end.

(** A step of [EnactCC] or [EnactBC]: the two loops over the devices;
    behind them nothing waits any more. *)
Definition main_step (num_gpus : Z) (s : State) : option State :=
  match main s with
  | waits_ready gpu =>
      v ← read (stats s) gpu;
      Some (if v =? 1 then goto (releases gpu) s else s)
  | releases gpu =>
      s' ← store gpu 2 s;
      Some (goto (if gpu + 1 <? num_gpus then waits_ready (gpu + 1)
                  else waits_end 0) s')
  | waits_end gpu =>
      v ← read (stats s) gpu;
      Some (if v =? 4
            then goto (if gpu + 1 <? num_gpus then waits_end (gpu + 1)
                       else returned) s
            else s)
  | returned => Some s
  end.

Inductive Actor :=
| Main
| Thread (gpu : Z).

Definition step (routine : Routine) (num_gpus : Z)
           (SetDevice : Z -> cudaError_t) (a : Actor) (s : State)
  : option State :=
  match a with
  | Main => main_step num_gpus s
  | Thread gpu => thread_step routine num_gpus SetDevice gpu s
  end.

(** The steps in the order of [schedule]. *)
Fixpoint run (routine : Routine) (num_gpus : Z)
         (SetDevice : Z -> cudaError_t)
         (schedule : list Actor) (s : State) : option State :=
  match schedule with
  | [] => Some s
  | a :: rest =>
      s' ← step routine num_gpus SetDevice a s;
      run routine num_gpus SetDevice rest s'
  end.

(** Where [Enact] starts: without a device both loops are empty. *)
Definition enter (num_gpus : Z) : main_pc :=
  if 0 <? num_gpus then waits_ready 0 else returned.

(** What [InitCC] and [InitBC] leave behind: [stats = -1] and a thread
    started for every device, and nobody at the barriers. *)
Definition started (num_gpus : Z) : State :=
  {| stats := replicate (Z.to_nat num_gpus) (-1);
     threads := replicate (Z.to_nat num_gpus) at_SetDevice;
     barrier_0 := [];
     barrier_1 := [];
     main := enter num_gpus |}.

(** [Enact] entered once more, with the threads as they are. *)
Definition again (num_gpus : Z) (s : State) : State :=
  goto (enter num_gpus) s.

(** How far [Enact] is with the device [gpu]. *)
Inductive phase := before | seen | released | joined.

Definition phase_of (pc : main_pc) (gpu : Z) : phase :=
  match pc with
  | waits_ready g => if gpu <? g then released else before
  | releases g =>
      if gpu <? g then released else if gpu =? g then seen else before
  | waits_end g => if gpu <? g then joined else released
  | returned => joined
  end.

(** What belongs together for one device: the place of its thread, its
    [stats], and how far [Enact] is with it; [r] is what [SetDevice]
    returns in the thread. *)
Definition slot_ok (r : cudaError_t) (ph : phase) (pc : thread_pc) (v : Z)
  : Prop :=
  match pc with
  | at_SetDevice => v = -1 /\ ph = before
  | at_ready => r = cudaSuccess /\ v = -1 /\ ph = before
  | at_wait =>
      r = cudaSuccess
      /\ ((v = 1 /\ (ph = before \/ ph = seen)) \/ (v = 2 /\ ph = released))
  | at_running => r = cudaSuccess /\ v = 2 /\ ph = released
  | at_loop | at_barrier_0 | at_between | at_barrier_1 | at_backward =>
      r = cudaSuccess /\ v = 3 /\ ph = released
  | at_finish =>
      (r <> cudaSuccess /\ v = -1 /\ ph = before)
      \/ (r = cudaSuccess /\ v = 3 /\ ph = released)
  | ended =>
      v = 4
      /\ ((r <> cudaSuccess /\ ph = before)
          \/ (r = cudaSuccess /\ (ph = released \/ ph = joined)))
  end.

(** The place of a thread and the barriers: [in_0] and [in_1] say
    whether the thread has counted itself in; [with_barriers] is
    [barriers] of the routine. *)
Definition barrier_ok (with_barriers : bool) (r : cudaError_t)
           (pc : thread_pc) (in_0 in_1 : bool) : Prop :=
  match pc with
  | at_SetDevice | at_ready | at_wait | at_running | at_loop =>
      in_0 = false /\ in_1 = false
  | at_barrier_0 | at_between =>
      with_barriers = true /\ in_0 = true /\ in_1 = false
  | at_barrier_1 | at_backward =>
      with_barriers = true /\ in_0 = true /\ in_1 = true
  | at_finish | ended =>
      in_0 = with_barriers && (r =? cudaSuccess)
      /\ in_1 = with_barriers && (r =? cudaSuccess)
  end.

Definition main_ok (num_gpus : Z) (pc : main_pc) : Prop :=
  match pc with
  | waits_ready g | releases g | waits_end g => 0 <= g < num_gpus
  | returned => True
  end.

Definition invariant (routine : Routine) (num_gpus : Z)
           (SetDevice : Z -> cudaError_t) (s : State) : Prop :=
  GetSize (stats s) = num_gpus
  /\ GetSize (threads s) = num_gpus
  /\ main_ok num_gpus (main s)
  /\ forall gpu, 0 <= gpu < num_gpus ->
       exists pc v,
         read (threads s) gpu = Some pc
         /\ read (stats s) gpu = Some v
         /\ slot_ok (SetDevice gpu) (phase_of (main s) gpu) pc v
         /\ barrier_ok (barriers routine num_gpus) (SetDevice gpu) pc
                       (bool_decide (gpu ∈ barrier_0 s))
                       (bool_decide (gpu ∈ barrier_1 s)).

(** Every thread has ended and [Enact] waits for the first device. *)
Definition stuck (num_gpus : Z) (s : State) : Prop :=
  GetSize (stats s) = num_gpus
  /\ GetSize (threads s) = num_gpus
  /\ main s = waits_ready 0
  /\ forall gpu, 0 <= gpu < num_gpus ->
       read (threads s) gpu = Some ended /\ read (stats s) gpu = Some 4.

(** The thread is past its wait for [stats = 2] and inside its
    [do ... while (0)]. *)
Definition let_go (pc : thread_pc) : bool :=
  match pc with
  | at_running | at_loop | at_barrier_0 | at_between | at_barrier_1
  | at_backward => true
  | at_SetDevice | at_ready | at_wait | at_finish | ended => false
  end.

(** The next step of a thread at [pc] takes it further: it is not held
    back by [stats], which is [v], or by a barrier. *)
Definition free (num_gpus : Z) (pc : thread_pc) (v : Z) (s : State) : bool :=
  match pc with
  | at_wait => v =? 2
  | at_barrier_0 => open num_gpus (barrier_0 s)
  | at_barrier_1 => open num_gpus (barrier_1 s)
  | ended => false
  | at_SetDevice | at_ready | at_running | at_loop | at_between
  | at_backward | at_finish => true
  end.

(** The steps a thread has before it, and those of [Enact]. *)
Definition steps_left (pc : thread_pc) : Z :=
  match pc with
  | at_SetDevice => 10
  | at_ready => 9
  | at_wait => 8
  | at_running => 7
  | at_loop => 6
  | at_barrier_0 => 5
  | at_between => 4
  | at_barrier_1 => 3
  | at_backward => 2
  | at_finish => 1
  | ended => 0
  end.

Definition main_steps_left (num_gpus : Z) (pc : main_pc) : Z :=
  match pc with
  | waits_ready g => 2 * (num_gpus - g) + num_gpus
  | releases g => 2 * (num_gpus - g) - 1 + num_gpus
  | waits_end g => num_gpus - g
  | returned => 0
  end.

Definition total (l : list Z) : Z := foldr Z.add 0 l.

Definition all_steps_left (num_gpus : Z) (s : State) : Z :=
  main_steps_left num_gpus (main s) + total (steps_left <$> threads s).

End handshake.

(** ** Labels, predecessors and sigmas that come in (forward phase) *)

Module bc_forward.

Import Int32 Array1D enactor grid.

(** [atomicCAS (a + i, compare, val)]: the old value, and the array
    with [val] at [i] if the old value was [compare]. *)
Definition atomicCAS (a : list Z) (i compare val : Z)
  : option (Z * list Z) :=
  old ← read a i;
  a' ← write a i (if old =? compare then val else old);
  Some (old, a').

Section Forward.

(** [Value] and its addition, as [atomicAdd] performs it. *)
Variable Value : Type.
Variable add : Value -> Value -> Value.

Definition atomicAdd (a : list Value) (i : Z) (val : Value)
  : option (list Value) :=
  old ← read a i;
  write a i (add old val).

(** What [Expand_Incoming_Forward] writes: [keys_out], the vertex
    arrays [s_vertex_associate_org[0]] (labels) and
    [s_vertex_associate_org[1]] (predecessors), and the value array
    [s_value__associate_org[0]] (sigmas) of the device. *)
Record Received := {
  keys_out : list Z;
  vertex_org_0 : list Z;
  vertex_org_1 : list Z;
  value_org_0 : list Value
}.

(** The round of the kernel for the incoming element [x]. *)
Definition Expand_Incoming_Forward_element
           (keys_in vertex_in_0 vertex_in_1 : list Z)
           (value_in_0 : list Value)
           (x : Z) (r : Received) : option Received :=
  key ← read keys_in x;
  in_1 ← read vertex_in_1 x;
  cas_1 ← atomicCAS (vertex_org_1 r) key (-2) in_1;
  if fst cas_1 =? -2 then
    in_0 ← read vertex_in_0 x;
    org_0 ← write (vertex_org_0 r) key in_0;
    keys ← write (keys_out r) x key;
    val ← read value_in_0 x;
    values ← atomicAdd (value_org_0 r) key val;
    Some {| keys_out := keys; vertex_org_0 := org_0;
            vertex_org_1 := snd cas_1; value_org_0 := values |}
  else
    in_0 ← read vertex_in_0 x;
    cas_0 ← atomicCAS (vertex_org_0 r) key (-1) in_0;
    now_0 ← read (snd cas_0) key;
    if negb (now_0 =? in_0) then
      keys ← write (keys_out r) x (-1);
      Some {| keys_out := keys; vertex_org_0 := snd cas_0;
              vertex_org_1 := snd cas_1; value_org_0 := value_org_0 r |}
    else
      keys ← write (keys_out r) x (if fst cas_0 =? -1 then key else -1);
      val ← read value_in_0 x;
      values ← atomicAdd (value_org_0 r) key val;
      Some {| keys_out := keys; vertex_org_0 := snd cas_0;
              vertex_org_1 := snd cas_1; value_org_0 := values |}.

(** The kernel, the threads one after the other.  Every thread loads
    the table of array addresses in full ([while (x < array_size)]). *)
Definition Expand_Incoming_Forward
           (grid_size block_size num_elements : Z)
           (keys_in vertex_in_0 vertex_in_1 : list Z)
           (value_in_0 : list Value)
           (r : Received) : option Received :=
  launch (Expand_Incoming_Forward_element keys_in vertex_in_0 vertex_in_1
                                          value_in_0)
         grid_size block_size num_elements r.

(** What becomes of the vertex [key] when the label [in_0], the
    predecessor [in_1] and the value [val] come in for it: the entry
    of [keys_out], the label, the predecessor and the value. *)
Definition merged (key old_0 old_1 : Z) (old_val : Value)
           (in_0 in_1 : Z) (val : Value) : Z * Z * Z * Value :=
  if old_1 =? -2 then (key, in_0, in_1, add old_val val)
  else if old_0 =? -1 then (key, in_0, old_1, add old_val val)
  else if old_0 =? in_0 then (-1, old_0, old_1, add old_val val)
  else (-1, old_0, old_1, old_val).

End Forward.

End bc_forward.

(** ** Further inputs the properties below are evaluated at *)

Module examples.

Import Int32 Array1D enactor.

(** A device slice of five vertices after a turn in which the vertices
    1, 3 and 4 took a smaller component id; three devices' worth of
    [out_length]. *)
Definition after_turn : cc_output.DataSlice :=
  {| cc_output.old_c_ids := [0; 1; 2; 3; 4];
     cc_output.component_ids := [0; 0; 2; 2; 2];
     cc_output.CID_markers := [9; 9; 9; 9; 9];
     cc_output.keys_out := [7; 7; 7; 7];
     cc_output.vertex_associate_out := [8; 8; 8; 8];
     cc_output.out_length := [6; 6; 6];
     cc_output.has_change := false |}.

(** The statistics of two devices: the first is at iteration 2, the
    second at iteration 4. *)
Definition two_devices : list EnactorStats :=
  [{| retval := cudaSuccess; iteration := 2 |};
   {| retval := cudaSuccess; iteration := 0 |};
   {| retval := cudaSuccess; iteration := 4 |};
   {| retval := cudaSuccess; iteration := 0 |}].

(** The first of them after the forward phase: a frontier of three
    vertices is logged. *)
Definition after_forward : bc.IterationState :=
  {| bc.enactor_stats := {| retval := cudaSuccess; iteration := 2 |};
     bc.frontier_attribute :=
       {| queue_index := 0; queue_length := 0; selector := 0;
          queue_reset := false |};
     bc.frontier_queue :=
       {| keys := [[0; 0; 0]; [0; 0; 0]]; values := [[]; []];
          buffer_selector := 0 |};
     bc.forward_queue_offsets := [0; 3];
     bc.forward_output := [5; 6; 7] |}.

(** Steps of two threads and of [Enact], each getting as far as it can
    before the next one goes on. *)
Definition in_turn : list handshake.Actor :=
  [handshake.Thread 0; handshake.Thread 0;
   handshake.Thread 1; handshake.Thread 1;
   handshake.Main; handshake.Main; handshake.Main; handshake.Main;
   handshake.Thread 0; handshake.Thread 0;
   handshake.Thread 0; handshake.Thread 0;
   handshake.Thread 1; handshake.Thread 1;
   handshake.Thread 1; handshake.Thread 1;
   handshake.Main; handshake.Main].

(** Steps of two threads of [BCThread] and of [EnactBC]: the threads
    get ready, [EnactBC] lets them go, they meet at the two barriers
    and run to their ends, and [EnactBC] returns. *)
Definition through_barriers : list handshake.Actor :=
  [handshake.Thread 0; handshake.Thread 0;
   handshake.Thread 1; handshake.Thread 1;
   handshake.Main; handshake.Main; handshake.Main; handshake.Main;
   handshake.Thread 0; handshake.Thread 0; handshake.Thread 0;
   handshake.Thread 1; handshake.Thread 1; handshake.Thread 1;
   handshake.Thread 0; handshake.Thread 0;
   handshake.Thread 1; handshake.Thread 1; handshake.Thread 1;
   handshake.Thread 1; handshake.Thread 1;
   handshake.Thread 0; handshake.Thread 0; handshake.Thread 0;
   handshake.Main; handshake.Main].

(** Two threads that have ended, and [Enact] that has returned. *)
Definition all_ended (barrier : list Z) : handshake.State :=
  {| handshake.stats := [4; 4];
     handshake.threads := [handshake.ended; handshake.ended];
     handshake.barrier_0 := barrier;
     handshake.barrier_1 := barrier;
     handshake.main := handshake.returned |}.

End examples.

(* ================================================================== *)
(** * Properties *)
(* ================================================================== *)

Import Int32 Array1D advance enactor edge_map_partitioned.

(** ** Arrays and integers *)

Lemma read_Some {A : Type} (a : list A) (i : Z) (x : A) :
  read a i = Some x <-> 0 <= i /\ a !! Z.to_nat i = Some x.
Proof.
  unfold read. destruct (Z.ltb_spec i 0); split.
  - discriminate.
  - intros [? _]; lia.
  - intros; split; [lia | assumption].
  - intros [_ ?]; assumption.
Qed.

Lemma any_index_spec (hit : Z -> option bool) (n : nat) : forall first,
  (forall k, 0 <= k < Z.of_nat n -> is_Some (hit (first + k))) ->
  exists b, any_index hit first n = Some b
    /\ (b = true <->
        exists k, 0 <= k < Z.of_nat n /\ hit (first + k) = Some true).
Proof.
  induction n as [|n IH]; intros first Hdef.
  - exists false. split; [reflexivity|]. split; [discriminate|].
    intros (k & Hk & _). lia.
  - cbn [any_index].
    destruct (Hdef 0 ltac:(lia)) as [b0 Hb0].
    rewrite Z.add_0_r in Hb0. rewrite Hb0.
    destruct b0.
    + exists true. split; [reflexivity|]. split; [|reflexivity].
      intros _. exists 0. rewrite Z.add_0_r. split; [lia|assumption].
    + destruct (IH (first + 1)) as (b & Hb & Hiff).
      { intros k Hk. replace (first + 1 + k) with (first + (k + 1)) by lia.
        apply Hdef. lia. }
      exists b. split; [assumption|]. rewrite Hiff. split.
      * intros (k & Hk & Hhit). exists (k + 1). split; [lia|].
        replace (first + (k + 1)) with (first + 1 + k) by lia. assumption.
      * intros (k & Hk & Hhit).
        destruct (Z.eq_dec k 0) as [->|Hne].
        { rewrite Z.add_0_r in Hhit. congruence. }
        exists (k - 1). split; [lia|].
        replace (first + 1 + (k - 1)) with (first + k) by lia. assumption.
Qed.

Lemma GetSize_nonneg {A : Type} (a : list A) : 0 <= GetSize a.
Proof. unfold GetSize. lia. Qed.

Lemma GetSize_app {A : Type} (a b : list A) :
  GetSize (a ++ b) = GetSize a + GetSize b.
Proof. unfold GetSize. rewrite length_app. lia. Qed.

Lemma GetSize_fmap_seqZ (f : Z -> Z) (m n : Z) :
  0 <= n -> GetSize (f <$> seqZ m n) = n.
Proof.
  intros H. unfold GetSize. rewrite length_fmap, length_seqZ. lia.
Qed.

Lemma read_write_eq {A : Type} (a a' : list A) (i : Z) (x : A) :
  write a i x = Some a' -> read a' i = Some x.
Proof.
  unfold write, read.
  destruct (Z.leb_spec 0 i); [|discriminate].
  destruct (Z.ltb_spec i (Z.of_nat (length a))); [|discriminate].
  cbn. intros [= <-].
  destruct (Z.ltb_spec i 0); [lia|].
  apply list_lookup_insert_eq. lia.
Qed.

Lemma read_write_ne {A : Type} (a a' : list A) (i j : Z) (x : A) :
  write a i x = Some a' -> i <> j -> read a' j = read a j.
Proof.
  unfold write, read.
  destruct (Z.leb_spec 0 i); [|discriminate].
  destruct (Z.ltb_spec i (Z.of_nat (length a))); [|discriminate].
  cbn. intros [= <-] Hne.
  destruct (Z.ltb_spec j 0); [reflexivity|].
  apply list_lookup_insert_ne. lia.
Qed.

Lemma write_is_Some {A : Type} (a : list A) (i : Z) (x : A) :
  0 <= i < GetSize a -> is_Some (write a i x).
Proof.
  unfold write, GetSize. intros H.
  destruct (Z.leb_spec 0 i); [|lia].
  destruct (Z.ltb_spec i (Z.of_nat (length a))); [|lia].
  cbn. eauto.
Qed.

Lemma read_is_Some {A : Type} (a : list A) (i : Z) :
  0 <= i < GetSize a -> is_Some (read a i).
Proof.
  unfold read, GetSize. intros H.
  destruct (Z.ltb_spec i 0); [lia|].
  apply lookup_lt_is_Some. lia.
Qed.

Lemma GetSize_write {A : Type} (a a' : list A) (i : Z) (x : A) :
  write a i x = Some a' -> GetSize a' = GetSize a.
Proof.
  unfold write, GetSize.
  destruct ((0 <=? i) && (i <? Z.of_nat (length a))); [|discriminate].
  intros [= <-]. rewrite length_insert. reflexivity.
Qed.

Lemma wrap_id (z : Z) : in_range z -> wrap z = z.
Proof.
  unfold in_range, INT_MIN, INT_MAX, wrap. intros H.
  rewrite Z.mod_small by lia. lia.
Qed.

Lemma any_index_iff (hit : Z -> option bool) (P : Z -> Prop)
      (first : Z) (n : nat) :
  (forall k, 0 <= k < Z.of_nat n ->
     exists b, hit (first + k) = Some b /\ (b = true <-> P (first + k))) ->
  exists b, any_index hit first n = Some b
    /\ (b = true <-> exists k, 0 <= k < Z.of_nat n /\ P (first + k)).
Proof.
  intros Hhit.
  destruct (any_index_spec hit n first) as (b & Hb & Hiff).
  { intros k Hk. destruct (Hhit k Hk) as (b & -> & _). eauto. }
  exists b. split; [assumption|]. rewrite Hiff. split.
  - intros (k & Hk & Hk'). exists k. split; [assumption|].
    destruct (Hhit k Hk) as (b' & Hb' & <-). congruence.
  - intros (k & Hk & HP). exists k. split; [assumption|].
    destruct (Hhit k Hk) as (b' & Hb' & Hiff'). rewrite Hb'. f_equal.
    apply Hiff'. assumption.
Qed.

Lemma read_lookup {A : Type} (a : list A) (i : Z) :
  0 <= i -> read a i = a !! Z.to_nat i.
Proof. unfold read. intros H. destruct (Z.ltb_spec i 0); [lia|reflexivity]. Qed.

Lemma read_Forall {A : Type} (P : A -> Prop) (a : list A) (i : Z) (x : A) :
  Forall P a -> read a i = Some x -> P x.
Proof.
  intros HP Hr. apply read_Some in Hr as [_ Hr].
  eapply Forall_lookup_1; eassumption.
Qed.

Lemma read_of_nat {A : Type} (a : list A) (i : nat) :
  read a (Z.of_nat i) = a !! i.
Proof. rewrite read_lookup by lia. rewrite Nat2Z.id. reflexivity. Qed.

Lemma read_in_range {A : Type} (a : list A) (i : Z) (x : A) :
  read a i = Some x -> 0 <= i < GetSize a.
Proof.
  intros H. apply read_Some in H as [? Hl]. apply lookup_lt_Some in Hl.
  unfold GetSize. lia.
Qed.

Lemma GetSize_take {A : Type} (a : list A) (n : Z) :
  0 <= n <= GetSize a -> GetSize (take (Z.to_nat n) a) = n.
Proof. unfold GetSize. intros H. rewrite length_take. lia. Qed.

Lemma GetSize_drop {A : Type} (a : list A) (n : Z) :
  0 <= n <= GetSize a -> GetSize (drop (Z.to_nat n) a) = GetSize a - n.
Proof. unfold GetSize. intros H. rewrite length_drop. lia. Qed.

Lemma take_GetSize_app {A : Type} (a b : list A) :
  take (Z.to_nat (GetSize a)) (a ++ b) = a.
Proof. unfold GetSize. rewrite Nat2Z.id. apply take_app_length. Qed.

Lemma write_Some {A : Type} (a : list A) (i : Z) (x : A) :
  0 <= i < GetSize a -> write a i x = Some (<[Z.to_nat i := x]> a).
Proof.
  unfold write, GetSize. intros H.
  destruct (Z.leb_spec 0 i); [|lia].
  destruct (Z.ltb_spec i (Z.of_nat (length a))); [reflexivity|lia].
Qed.

Lemma mapM_Some_fmap {A B : Type} (f : A -> option B) (g : A -> B)
      (l : list A) :
  (forall x, x ∈ l -> f x = Some (g x)) -> mapM f l = Some (g <$> l).
Proof.
  intros H. apply mapM_Some. induction l as [|x l IH]; cbn; constructor.
  - apply H. left.
  - apply IH. intros y Hy. apply H. right. assumption.
Qed.

Lemma read_fmap_seqZ {A : Type} (g : Z -> A) (n k : Z) :
  0 <= k < n -> read (g <$> seqZ 0 n) k = Some (g k).
Proof.
  intros Hk. unfold read. destruct (Z.ltb_spec k 0); [lia|].
  rewrite list_lookup_fmap, lookup_seqZ_lt by lia. cbn. f_equal. f_equal. lia.
Qed.

Lemma fmap_bind_list {A B C : Type} (f : B -> C) (g : A -> list B)
      (l : list A) :
  f <$> (l ≫= g) = l ≫= fun x => f <$> g x.
Proof.
  induction l as [|x l IH]; [reflexivity|].
  cbn [mbind list_bind]. rewrite fmap_app. f_equal. exact IH.
Qed.

Lemma bind_concat {A B : Type} (h : A -> list B) (l : list A) :
  l ≫= h = concat (h <$> l).
Proof. induction l as [|x l IH]; [reflexivity|]. cbn. f_equal. exact IH. Qed.

(** ** Threads *)

Lemma run_threads_app {St : Type} (body : Z -> St -> option St) (n m : nat) :
  forall first s,
    run_threads body first (n + m) s
    = run_threads body first n s
        ≫= run_threads body (first + Z.of_nat n) m.
Proof.
  induction n as [|n IH]; intros first s.
  - cbn. rewrite Z.add_0_r. reflexivity.
  - cbn [run_threads Nat.add].
    destruct (body first s) as [s'|]; [|reflexivity].
    rewrite IH.
    replace (first + 1 + Z.of_nat n) with (first + Z.of_nat (S n)) by lia.
    reflexivity.
Qed.

(** Threads that return at once. *)
Lemma run_threads_idle {St : Type} (body : Z -> St -> option St) (s : St)
      (n : nat) : forall first,
    (forall i, first <= i < first + Z.of_nat n -> body i s = Some s) ->
    run_threads body first n s = Some s.
Proof.
  induction n as [|n IH]; intros first Hidle; [reflexivity|].
  cbn. rewrite Hidle by lia. apply IH. intros i Hi. apply Hidle. lia.
Qed.

(** Threads that each store into the entry of their own index. *)
Lemma run_threads_writes {A : Type} (body : Z -> list A -> option (list A))
      (val : Z -> A) (size : Z) (n : nat) : forall first a,
    0 <= first -> first + Z.of_nat n <= size -> GetSize a = size ->
    (forall i a', first <= i < first + Z.of_nat n -> GetSize a' = size ->
                  body i a' = write a' i (val i)) ->
    exists a',
      run_threads body first n a = Some a'
      /\ GetSize a' = size
      /\ (forall i, first <= i < first + Z.of_nat n ->
                    read a' i = Some (val i))
      /\ (forall i, ~ first <= i < first + Z.of_nat n ->
                    read a' i = read a i).
Proof.
  induction n as [|n IH]; intros first a Hfirst Hfit Hsize Hbody.
  - exists a. split; [reflexivity|]. split; [assumption|].
    split; [lia|reflexivity].
  - cbn [run_threads]. rewrite Hbody by (assumption || lia).
    destruct (write_is_Some a first (val first)) as [a1 Ha1]; [lia|].
    rewrite Ha1.
    destruct (IH (first + 1) a1) as (a' & Hrun & Hsize' & Hin & Hout).
    + lia.
    + lia.
    + rewrite (GetSize_write _ _ _ _ Ha1). assumption.
    + intros i b Hi Hb. apply Hbody; [lia|assumption].
    + exists a'. split; [assumption|]. split; [assumption|]. split.
      * intros i Hi. destruct (Z.eq_dec i first) as [->|Hne].
        -- rewrite Hout by lia. eapply read_write_eq; eassumption.
        -- apply Hin. lia.
      * intros i Hi. rewrite Hout by lia.
        eapply read_write_ne; [eassumption|lia].
Qed.

Import scenario.

(** ** Edge counts *)

(** For a vertex of a graph whose offsets do not decrease and end at the
    number of edges, the length is the difference of the offsets of the
    vertex and of its successor. *)
Lemma GetNeighborListLength_csr
      (d_row_offsets : list Z) (nodes edges v first second : Z) :
  0 <= v < nodes -> nodes <= INT_MAX ->
  read d_row_offsets nodes = Some edges ->
  read d_row_offsets v = Some first ->
  read d_row_offsets (v + 1) = Some second ->
  0 <= first <= second -> second <= INT_MAX ->
  GetNeighborListLength d_row_offsets v nodes edges = Some (second - first).
Proof.
  intros Hv Hnodes Hedges Hfirst Hsecond Hord Hmax.
  unfold GetNeighborListLength.
  destruct (Z.leb_spec nodes v); [lia|].
  rewrite Hfirst. cbn [mbind option_bind].
  rewrite (wrap_id (v + 1)) by (unfold in_range, INT_MIN, INT_MAX in *; lia).
  assert ((if nodes <=? v + 1 then Some edges
           else read d_row_offsets (v + 1)) = Some second) as ->.
  { destruct (Z.leb_spec nodes (v + 1)); [|assumption].
    assert (v + 1 = nodes) as Heq by lia. rewrite Heq in Hsecond. congruence. }
  cbn [mbind option_bind].
  destruct (Z.ltb_spec first second).
  - rewrite wrap_id; [reflexivity|].
    unfold in_range, INT_MIN, INT_MAX in *. lia.
  - f_equal. lia.
Qed.

Section GetEdgeCounts_below_max_edge.

Variables d_row_offsets d_column_indices : list Z.
Variables d_column_offsets d_row_indices : list Z.
Variable d_queue : list Z.
Variables num_elements max_vertex max_edge : Z.
Variable ADVANCE_TYPE : TYPE.
Variables in_inv out_inv : bool.

Hypothesis vertex_input : is_vertex_input ADVANCE_TYPE = true.
Hypothesis below_max_edge : 0 <= num_elements < max_edge.
Hypothesis edges_fit :
  max_edge <= GetSize (if in_inv then d_row_indices else d_column_indices).
Hypothesis frontier_ok :
  forall i, 0 <= i < num_elements ->
    exists v n,
      read d_queue i = Some v /\ 0 <= v <= max_vertex
      /\ GetNeighborListLength
           (if negb out_inv then d_row_offsets else d_column_offsets)
           v max_vertex max_edge = Some n.

Lemma GetEdgeCounts_thread (my_id : Z) (d_scanned_edges : list Z) :
  0 <= my_id <= num_elements ->
  GetEdgeCounts d_row_offsets d_column_indices d_column_offsets d_row_indices
                d_queue num_elements max_vertex max_edge ADVANCE_TYPE
                in_inv out_inv my_id d_scanned_edges
  = write d_scanned_edges my_id
          (spec.edge_count
             (if negb out_inv then d_row_offsets else d_column_offsets)
             d_queue num_elements max_vertex max_edge my_id).
Proof.
  intros Hid. unfold GetEdgeCounts, spec.edge_count.
  destruct (Z.ltb_spec num_elements my_id); [lia|].
  destruct (Z.leb_spec max_edge my_id); [lia|]. cbn [orb].
  destruct (read_is_Some (if in_inv then d_row_indices else d_column_indices)
                         my_id) as [c Hc]; [lia|].
  rewrite Hc, vertex_input. cbn [mbind option_bind].
  destruct (Z.leb_spec num_elements my_id) as [Hlast|Hin].
  - assert (my_id = num_elements) as -> by lia.
    rewrite Z.eqb_refl. reflexivity.
  - destruct (frontier_ok my_id) as (v & n & Hv & Hrange & Hn); [lia|].
    rewrite Hv. cbn [mbind option_bind].
    destruct (Z.ltb_spec v 0); [lia|].
    destruct (Z.ltb_spec max_vertex v); [lia|]. cbn [orb].
    destruct (Z.eqb_spec my_id num_elements); [lia|].
    rewrite Hn. destruct out_inv; cbn [negb] in Hn |- *;
      rewrite Hn; reflexivity.
Qed.

(** With fewer frontier elements than [max_edge], the kernel stores the
    neighbor-list length of every frontier element at its position and 0
    at the sentinel position, and touches nothing behind it. *)
Lemma GetEdgeCounts_kernel_below_max_edge
      (num_threads : nat) (d_scanned_edges : list Z) :
  num_elements < Z.of_nat num_threads ->
  num_elements < GetSize d_scanned_edges ->
  exists counts,
    GetEdgeCounts_kernel d_row_offsets d_column_indices d_column_offsets
                         d_row_indices d_queue num_elements max_vertex
                         max_edge ADVANCE_TYPE in_inv out_inv
                         num_threads d_scanned_edges
    = Some counts
    /\ (forall i v, 0 <= i < num_elements -> read d_queue i = Some v ->
          GetNeighborListLength
            (if negb out_inv then d_row_offsets else d_column_offsets)
            v max_vertex max_edge
          = read counts i)
    /\ read counts num_elements = Some 0
    /\ (forall i, num_elements < i -> read counts i = read d_scanned_edges i).
Proof.
  intros Hthreads Hroom. unfold GetEdgeCounts_kernel.
  replace num_threads
    with (Z.to_nat (num_elements + 1)
          + (num_threads - Z.to_nat (num_elements + 1)))%nat by lia.
  rewrite run_threads_app.
  destruct (run_threads_writes
              (GetEdgeCounts d_row_offsets d_column_indices d_column_offsets
                             d_row_indices d_queue num_elements max_vertex
                             max_edge ADVANCE_TYPE in_inv out_inv)
              (spec.edge_count
                 (if negb out_inv then d_row_offsets else d_column_offsets)
                 d_queue num_elements max_vertex max_edge)
              (GetSize d_scanned_edges)
              (Z.to_nat (num_elements + 1)) 0 d_scanned_edges)
    as (counts & Hrun & Hsize & Hin & Hout); [lia|lia|reflexivity| |].
  { intros i a' Hi _. apply GetEdgeCounts_thread. lia. }
  rewrite Hrun. cbn [mbind option_bind].
  rewrite run_threads_idle.
  2:{ intros i Hi. unfold GetEdgeCounts.
      destruct (Z.ltb_spec num_elements i); [reflexivity|lia]. }
  exists counts. split; [reflexivity|]. split; [|split].
  - intros i v Hi Hv. rewrite Hin by lia. unfold spec.edge_count.
    destruct (Z.eqb_spec i num_elements); [lia|].
    rewrite Hv. cbn [mbind option_bind].
    destruct (frontier_ok i) as (v' & len & Hv' & _ & Hn); [lia|].
    assert (v' = v) as -> by congruence.
    rewrite Hn. reflexivity.
  - rewrite Hin by lia. unfold spec.edge_count.
    rewrite Z.eqb_refl. reflexivity.
  - intros i Hi. apply Hout. lia.
Qed.

(** The same for any number of threads: the entries the threads of the
    frontier positions and of the sentinel position store. *)
Lemma GetEdgeCounts_kernel_counts
      (num_threads : nat) (d_scanned_edges : list Z) :
  let written := Z.min (num_elements + 1) (Z.of_nat num_threads) in
  written <= GetSize d_scanned_edges ->
  exists counts,
    GetEdgeCounts_kernel d_row_offsets d_column_indices d_column_offsets
                         d_row_indices d_queue num_elements max_vertex
                         max_edge ADVANCE_TYPE in_inv out_inv
                         num_threads d_scanned_edges
    = Some counts
    /\ GetSize counts = GetSize d_scanned_edges
    /\ (forall i, 0 <= i < written ->
          read counts i
          = Some (spec.edge_count
                    (if negb out_inv then d_row_offsets else d_column_offsets)
                    d_queue num_elements max_vertex max_edge i))
    /\ (forall i, ~ 0 <= i < written ->
          read counts i = read d_scanned_edges i).
Proof.
  intros written Hroom. unfold GetEdgeCounts_kernel.
  replace num_threads
    with (Z.to_nat written + (num_threads - Z.to_nat written))%nat by lia.
  rewrite run_threads_app.
  destruct (run_threads_writes
              (GetEdgeCounts d_row_offsets d_column_indices d_column_offsets
                             d_row_indices d_queue num_elements max_vertex
                             max_edge ADVANCE_TYPE in_inv out_inv)
              (spec.edge_count
                 (if negb out_inv then d_row_offsets else d_column_offsets)
                 d_queue num_elements max_vertex max_edge)
              (GetSize d_scanned_edges)
              (Z.to_nat written) 0 d_scanned_edges)
    as (counts & Hrun & Hsize & Hin & Hout); [lia|lia|reflexivity| |].
  { intros i a' Hi _.
    apply GetEdgeCounts_thread. lia. }
  rewrite Hrun. cbn [mbind option_bind].
  rewrite run_threads_idle.
  2:{ intros i Hi. unfold GetEdgeCounts.
      destruct (Z.ltb_spec num_elements i); [reflexivity|lia]. }
  exists counts. split; [reflexivity|]. split; [assumption|]. split.
  - intros i Hi. apply Hin. lia.
  - intros i Hi. apply Hout. lia.
Qed.

End GetEdgeCounts_below_max_edge.

(** C3 (the code falls short of it).  On the graph with three vertices
    and the single edge 2 -> 0, with the frontier of all three vertices,
    [GetEdgeCounts] writes position 0 only: the threads of positions 1, 2
    and of the sentinel position 3 return at [my_id >= max_edge], so
    those entries keep what the buffer held, whatever that is, although
    the neighbor list of the frontier element at position 2 has length 1
    and the sentinel position is owed a 0. *)
Theorem GetEdgeCounts_leaves_positions_from_max_edge_on (stale : Z) :
  GetEdgeCounts_kernel sparse_row_offsets sparse_column_indices [] []
                       all_vertices 3 3 1 V2V false false 4
                       [stale; stale; stale; stale]
  = Some [0; stale; stale; stale]
  /\ GetNeighborListLength sparse_row_offsets 2 3 1 = Some 1
  /\ spec.edge_count sparse_row_offsets all_vertices 3 3 1 <$> [0; 1; 2; 3]
     = [0; 0; 1; 0].
Proof. repeat split; reflexivity. Qed.

(** ** The edges an advance relaxes *)

(** The two kernels on frontiers they handle as specified: a vertex
    frontier of the graph with four vertices through
    [RelaxPartitionedEdges2], and the whole step on the graph with the
    edges 0 -> 1, 0 -> 2, 1 -> 2, which has as many edges as vertices in
    its frontier, through two blocks of [RelaxLightEdges]. *)
Lemma RelaxPartitionedEdges2_on_vertex_frontier :
  spec.outgoing_edges V2E square_row_offsets square_column_indices [1; 2]
  = Some [2; 3; 4]
  /\ advance_outcome
       <$> RelaxPartitionedEdges2
             nat count_CondEdge count_ApplyEdge 1 false 0
             square_row_offsets square_column_indices []
             [1; 3] [0; 2] [1; 2] 2 3 3 5 V2E false EMPTY NONE None
             1 (fresh_state 3 9)
     = Some ([2; 4; 3], Some [2; 3; 4], 3%nat).
Proof. split; reflexivity. Qed.

Lemma LaunchKernel_light_on_wedge :
  spec.outgoing_edges V2V wedge_row_offsets wedge_column_indices
                      all_vertices
  = Some [0; 1; 2]
  /\ advance_outcome
       <$> LaunchKernel_light
             nat count_CondEdge count_ApplyEdge 1 true 0
             wedge_row_offsets wedge_column_indices [] []
             all_vertices 3 3 3 V2V false false EMPTY NONE None
             2 [0; 0; 0; 0] (fresh_state 3 9)
     = Some ([0; 2; 1], Some [1; 2; 2], 3%nat).
Proof. split; reflexivity. Qed.

(** C2 (the code falls short of it).  First, [RelaxPartitionedEdges2] on
    an edge frontier.  The graph has the edges 0 -> 1, 0 -> 2, 1 -> 0,
    2 -> 3, 2 -> 0, numbered 0 to 4; the frontier holds the edges 0 and
    1, whose destinations 1 and 2 have the outgoing edges 2, 3 and 4; the
    scanned lengths are 1 and 3; one block of two threads, a functor
    that accepts every edge.  Thread 0 relaxes edge 2 and then passes to
    the second frontier slot inside its loop, where it takes the vertex
    stored for the slot for an edge id: it relaxes edge 1, which leaves
    vertex 0, and stores 1 at output position 2; edge 4 is never
    relaxed.  Second, the whole step on a vertex frontier, light path:
    on the graph with the single edge 2 -> 0 and the frontier of all
    three vertices, the scanned lengths [GetEdgeCounts] leaves behind
    make [RelaxLightEdges] issue no functor call at all, although the
    frontier element 2 has the outgoing edge 0. *)
Theorem advance_misses_an_outgoing_edge :
  spec.outgoing_edges E2E square_row_offsets square_column_indices [0; 1]
  = Some [2; 3; 4]
  /\ advance_outcome
       <$> RelaxPartitionedEdges2
             nat count_CondEdge count_ApplyEdge 1 false 0
             square_row_offsets square_column_indices []
             [1; 3] [0; 2] [0; 1] 2 3 3 5 E2E false EMPTY NONE None
             1 (fresh_state 3 9)
     = Some ([2; 1; 3], Some [2; 3; 1], 3%nat)
  /\ spec.outgoing_edges V2V sparse_row_offsets sparse_column_indices
                         all_vertices
     = Some [0]
  /\ advance_outcome
       <$> LaunchKernel_light
             nat count_CondEdge count_ApplyEdge 2 true 0
             sparse_row_offsets sparse_column_indices [] []
             all_vertices 3 3 1 V2V false false EMPTY NONE None
             1 [0; 0; 0; 0] (fresh_state 1 9)
     = Some ([], Some [9], O).
Proof. repeat split; reflexivity. Qed.

(** ** The light path on the scanned lengths of the frontier *)

(** *** Scanned lengths and the search in them *)

Lemma edges_before_0 (len : Z -> Z) : spec.edges_before len 0 = 0.
Proof. reflexivity. Qed.

(** The edges in front of a slot are those in front of its predecessor
    and the edges of the predecessor. *)
Lemma edges_before_succ (len : Z -> Z) (j : Z) :
  0 <= j -> spec.edges_before len (j + 1) = spec.edges_before len j + len j.
Proof.
  intros Hj. unfold spec.edges_before.
  rewrite seqZ_app by lia. rewrite fmap_app, foldr_app.
  change (seqZ (0 + j) 1) with [0 + j]. cbn [fmap list_fmap foldr].
  rewrite Z.add_0_l, Z.add_0_r.
  generalize (len <$> seqZ 0 j). intros l.
  induction l as [|x l IH]; cbn [foldr]; lia.
Qed.

(** Slots further back have no fewer edges in front of them. *)
Lemma edges_before_mono (len : Z -> Z) (a b : Z) :
  0 <= a <= b -> (forall j, a <= j < b -> 0 <= len j) ->
  spec.edges_before len a <= spec.edges_before len b.
Proof.
  intros Hab Hlen.
  replace b with (a + Z.of_nat (Z.to_nat (b - a))) by lia.
  assert (a + Z.of_nat (Z.to_nat (b - a)) <= b) as Hfit by lia.
  induction (Z.to_nat (b - a)) as [|d IH]; [rewrite Z.add_0_r; lia|].
  rewrite Nat2Z.inj_succ, <- Z.add_1_r, Z.add_assoc, edges_before_succ by lia.
  specialize (Hlen (a + Z.of_nat d)). lia.
Qed.

(** [BinarySearch] finds the first entry that is greater than [i]. *)
Lemma BinarySearch_from_first (i : Z) (l : list Z) : forall m mid,
  0 <= m ->
  (forall k, 0 <= k < m -> exists x, read l k = Some x /\ x <= i) ->
  (exists x, read l m = Some x /\ i < x) ->
  BinarySearch_from i l mid = mid + m.
Proof.
  induction l as [|y l IH]; intros m mid Hm Hlow [x [Hx Hlt]].
  - apply read_Some in Hx as [_ Hx]. discriminate.
  - cbn [BinarySearch_from].
    destruct (Z.eq_dec m 0) as [->|Hne].
    + assert (y = x) as ->.
      { apply read_Some in Hx as [_ Hx].
        change (Z.to_nat 0) with O in Hx. cbn in Hx. congruence. }
      destruct (Z.ltb_spec i x); lia.
    + destruct (Hlow 0) as (y' & Hy' & Hle); [lia|].
      assert (y' = y) as ->.
      { apply read_Some in Hy' as [_ Hy'].
        change (Z.to_nat 0) with O in Hy'. cbn in Hy'. congruence. }
      destruct (Z.ltb_spec i y); [lia|].
      rewrite (IH (m - 1)); [lia|lia| |].
      * intros k Hk. destruct (Hlow (k + 1)) as (z & Hz & Hzi); [lia|].
        exists z. split; [|assumption].
        apply read_Some in Hz as [_ Hz]. apply read_Some. split; [lia|].
        replace (Z.to_nat (k + 1)) with (S (Z.to_nat k)) in Hz by lia.
        exact Hz.
      * exists x. split; [|assumption].
        apply read_Some in Hx as [_ Hx]. apply read_Some. split; [lia|].
        replace (Z.to_nat m) with (S (Z.to_nat (m - 1))) in Hx by lia.
        exact Hx.
Qed.

Lemma BinarySearch_first (i : Z) (l : list Z) (m : Z) :
  0 <= m ->
  (forall k, 0 <= k < m -> exists x, read l k = Some x /\ x <= i) ->
  (exists x, read l m = Some x /\ i < x) ->
  BinarySearch i l = m.
Proof.
  intros. unfold BinarySearch. rewrite (BinarySearch_from_first i l m 0); auto.
Qed.

(** Every position below the number of edges of [w] slots falls among
    the edges of one of them. *)
Lemma edges_before_cover (len : Z -> Z) (base : Z) (w : nat) : forall i,
  0 <= base ->
  (forall j, base <= j < base + Z.of_nat w -> 0 <= len j) ->
  0 <= i < spec.edges_before len (base + Z.of_nat w)
           - spec.edges_before len base ->
  exists m,
    0 <= m < Z.of_nat w
    /\ spec.edges_before len (base + m) - spec.edges_before len base <= i
       < spec.edges_before len (base + m + 1) - spec.edges_before len base.
Proof.
  induction w as [|w IH]; intros i Hbase Hlen Hi.
  - rewrite Z.add_0_r in Hi. lia.
  - rewrite Nat2Z.inj_succ, <- Z.add_1_r, Z.add_assoc, edges_before_succ in Hi
      by lia.
    destruct (Z.lt_ge_cases
                i (spec.edges_before len (base + Z.of_nat w)
                   - spec.edges_before len base)) as [Hlt|Hge].
    + destruct (IH i Hbase) as (m & Hm & Hin); [intros; apply Hlen; lia|lia|].
      exists m. split; [lia|assumption].
    + exists (Z.of_nat w). split; [lia|].
      rewrite edges_before_succ by lia. lia.
Qed.

(** The search ends inside the array or at its length. *)
Lemma BinarySearch_from_range (i : Z) (l : list Z) : forall mid,
  mid <= BinarySearch_from i l mid <= mid + GetSize l.
Proof.
  unfold GetSize.
  induction l as [|x l IH]; intros mid; cbn [BinarySearch_from length].
  - lia.
  - destruct (i <? x); [lia|]. specialize (IH (mid + 1)). lia.
Qed.

Lemma BinarySearch_range (i : Z) (l : list Z) :
  0 <= BinarySearch i l <= GetSize l.
Proof. apply (BinarySearch_from_range i l 0). Qed.

(** *** Edges relaxed one after the other *)

Section RelaxAll.

Variable Problem : Type.
Variable CondEdge : Z -> Z -> Problem -> Z -> Z -> bool.
Variable ApplyEdge : Z -> Z -> Problem -> Z -> Z -> Problem.
Variable k : KERNEL.
Variable MARK_PREDECESSORS : bool.
Variable ADVANCE_TYPE : TYPE.
Variable R_TYPE : REDUCE_TYPE.
Variable R_OP : REDUCE_OP.
Variable d_value_to_reduce : option (list Z).

#[local] Abbreviation relax :=
  (relax_edge Problem CondEdge ApplyEdge k MARK_PREDECESSORS ADVANCE_TYPE
              R_TYPE R_OP d_value_to_reduce).
#[local] Abbreviation relax_calls :=
  (relax_all Problem CondEdge ApplyEdge k MARK_PREDECESSORS ADVANCE_TYPE
             R_TYPE R_OP d_value_to_reduce).
#[local] Abbreviation replay := (spec.replay Problem ApplyEdge).
#[local] Abbreviation answered := (spec.answered Problem CondEdge ApplyEdge).
#[local] Abbreviation stored := (spec.stored ADVANCE_TYPE).

Lemma relax_all_app (a b : list Relaxation) (st : AdvanceState Problem) :
  relax_calls (a ++ b) st = relax_calls a st ≫= relax_calls b.
Proof.
  revert st. induction a as [|c a IH]; intros st; [reflexivity|].
  cbn [relax_all app].
  destruct (relax _ _ _ _ _ st) as [st'|]; [|reflexivity].
  cbn [mbind option_bind]. apply IH.
Qed.

(** What relaxing one edge leaves behind, when no value is reduced and
    the output frontier has room for the position. *)
Lemma relax_edge_spec (c : Relaxation) (st : AdvanceState Problem)
      (out : list Z) :
  d_value_to_reduce = None ->
  d_out Problem st = Some out ->
  0 <= r_out c < GetSize out ->
  exists st' vis out',
    relax (r_src c) (r_dst c) (r_edge c) (r_slot c) (r_out c) st = Some st'
    /\ visits Problem st' = vis :: visits Problem st
    /\ relaxation_of vis = c
    /\ visit_cond vis
       = CondEdge (r_src c) (r_dst c) (problem Problem st) (r_edge c) (r_slot c)
    /\ problem Problem st' = replay (problem Problem st) [vis]
    /\ d_reduce_frontier Problem st' = d_reduce_frontier Problem st
    /\ d_out Problem st' = Some out'
    /\ GetSize out' = GetSize out
    /\ (forall x, stored vis = Some x -> read out' (r_out c) = Some x)
    /\ (forall i, i <> r_out c -> read out' i = read out i).
Proof.
  intros Hred Hout Hroom. unfold relax_edge. rewrite Hred, Hout.
  destruct (write_is_Some out (r_out c) (r_dst c)) as [o1 Ho1]; [assumption|].
  destruct (write_is_Some out (r_out c) (r_edge c)) as [o2 Ho2]; [assumption|].
  destruct (write_is_Some out (r_out c) (-1)) as [o3 Ho3]; [assumption|].
  destruct (CondEdge (r_src c) (r_dst c) (problem Problem st) (r_edge c)
                     (r_slot c)) eqn:Hcond.
  - destruct ADVANCE_TYPE eqn:Hty.
    + rewrite Ho1. cbn. eexists _, _, o1. split; [reflexivity|].
      cbn. repeat split; try (destruct c; reflexivity).
      * eapply GetSize_write; eassumption.
      * unfold spec.stored. cbn. intros x [= <-].
        eapply read_write_eq; eassumption.
      * intros i Hi. eapply read_write_ne; [eassumption|congruence].
    + rewrite Ho2. cbn. eexists _, _, o2. split; [reflexivity|].
      cbn. repeat split; try (destruct c; reflexivity).
      * eapply GetSize_write; eassumption.
      * unfold spec.stored. cbn. intros x [= <-].
        eapply read_write_eq; eassumption.
      * intros i Hi. eapply read_write_ne; [eassumption|congruence].
    + cbn. eexists _, _, out. split; [reflexivity|].
      cbn. repeat split; try (destruct c; reflexivity).
      unfold spec.stored. cbn. discriminate.
    + rewrite Ho2. cbn. eexists _, _, o2. split; [reflexivity|].
      cbn. repeat split; try (destruct c; reflexivity).
      * eapply GetSize_write; eassumption.
      * unfold spec.stored. cbn. intros x [= <-].
        eapply read_write_eq; eassumption.
      * intros i Hi. eapply read_write_ne; [eassumption|congruence].
  - rewrite Ho3. cbn. eexists _, _, o3. split; [reflexivity|].
    cbn. repeat split; try (destruct c; reflexivity).
    * eapply GetSize_write; eassumption.
    * unfold spec.stored. cbn. intros x [= <-].
      eapply read_write_eq; eassumption.
    * intros i Hi. eapply read_write_ne; [eassumption|congruence].
Qed.

Lemma replay_app (p : Problem) (a b : list EdgeVisit) :
  replay p (a ++ b) = replay (replay p b) a.
Proof.
  induction a as [|vis a IH]; [reflexivity|].
  cbn [spec.replay app]. rewrite IH. reflexivity.
Qed.

Lemma answered_app (p : Problem) (a b : list EdgeVisit) :
  answered p (a ++ b) <-> answered p b /\ answered (replay p b) a.
Proof.
  induction a as [|vis a IH]; cbn [spec.answered app]; [tauto|].
  rewrite IH, replay_app. tauto.
Qed.

(** Edges relaxed one after the other at positions that are all
    different: every call is recorded and answered by [CondEdge] on the
    problem of its time, and every position holds what its call asks
    for. *)
Lemma relax_all_spec (calls : list Relaxation) :
  forall (st : AdvanceState Problem) out,
  d_value_to_reduce = None ->
  d_out Problem st = Some out ->
  Forall (fun c => 0 <= r_out c < GetSize out) calls ->
  NoDup (r_out <$> calls) ->
  exists st' new out',
    relax_calls calls st = Some st'
    /\ visits Problem st' = new ++ visits Problem st
    /\ relaxation_of <$> new = rev calls
    /\ answered (problem Problem st) new
    /\ problem Problem st' = replay (problem Problem st) new
    /\ d_reduce_frontier Problem st' = d_reduce_frontier Problem st
    /\ d_out Problem st' = Some out'
    /\ GetSize out' = GetSize out
    /\ (forall vis x, vis ∈ new -> stored vis = Some x ->
                      read out' (visit_out vis) = Some x)
    /\ (forall i, i ∉ r_out <$> calls -> read out' i = read out i).
Proof.
  induction calls as [|c calls IH]; intros st out Hred Hout Hroom Hdup.
  - exists st, [], out. cbn. repeat split; try assumption.
    intros vis x Hin. inversion Hin.
  - apply list.Forall_cons in Hroom as [Hc Hroom].
    rewrite fmap_cons in Hdup. apply list.NoDup_cons in Hdup as [Hfresh Hdup].
    destruct (relax_edge_spec c st out Hred Hout Hc)
      as (st1 & vis & out1 & Hstep & Hvis & Hkey & Hcond & Hprob & Hfr
          & Hout1 & Hsize1 & Hstored1 & Hother1).
    destruct (IH st1 out1 Hred Hout1) as
        (st' & new & out' & Hrun & Hvisits & Hkeys & Hans & Hprob' & Hfr'
         & Hout' & Hsize' & Hstored' & Hother'); [|assumption|].
    { rewrite Hsize1. assumption. }
    exists st', (new ++ [vis]), out'.
    cbn [relax_all]. rewrite Hstep. cbn [mbind option_bind].
    split; [assumption|]. split.
    { rewrite Hvisits, Hvis, <- app_assoc. reflexivity. }
    split.
    { rewrite fmap_app, Hkeys. cbn. rewrite Hkey. reflexivity. }
    split.
    { apply answered_app. split.
      - cbn. split; [|exact I].
        rewrite Hcond, <- Hkey. destruct vis; reflexivity.
      - rewrite <- Hprob. assumption. }
    split.
    { rewrite Hprob', Hprob, replay_app. reflexivity. }
    split; [congruence|]. split; [assumption|]. split; [congruence|].
    split.
    + intros vis' x Hin Hx. apply elem_of_app in Hin as [Hin|Hin].
      * apply Hstored'; assumption.
      * apply list_elem_of_singleton in Hin as ->.
        assert (visit_out vis = r_out c) as Hpos
          by (rewrite <- Hkey; reflexivity).
        rewrite Hpos, Hother' by assumption.
        apply Hstored1. assumption.
    + intros i Hi. rewrite Hother'.
      * apply Hother1. intros ->. apply Hi. cbn. left.
      * intros Hin. apply Hi. cbn. right. assumption.
Qed.

End RelaxAll.

(** *** The calls of a block and of the kernel *)

Import light_block.

Lemma THREADS_pos (LOG_THREADS : nat) : 1 <= THREADS LOG_THREADS.
Proof.
  unfold THREADS.
  pose proof (Z.pow_pos_nonneg 2 (Z.of_nat LOG_THREADS)). lia.
Qed.

Lemma THREADS_two (LOG_THREADS : nat) :
  (1 <= LOG_THREADS)%nat -> 2 <= THREADS LOG_THREADS.
Proof.
  intros H. unfold THREADS.
  replace (Z.of_nat LOG_THREADS) with (1 + Z.of_nat (LOG_THREADS - 1)) by lia.
  rewrite Z.pow_add_r by lia.
  pose proof (Z.pow_pos_nonneg 2 (Z.of_nat (LOG_THREADS - 1))). lia.
Qed.

(** The positions a thread goes through. *)
Lemma elem_of_stride (LOG_THREADS : nat) (size : Z) (fuel : nat) :
  forall i x,
    x ∈ stride LOG_THREADS size fuel i
    <-> exists k : nat,
          (k < fuel)%nat /\ x = i + Z.of_nat k * THREADS LOG_THREADS
          /\ x < size.
Proof.
  pose proof (THREADS_pos LOG_THREADS) as HT.
  induction fuel as [|fuel IH]; intros i x; cbn [stride].
  - split; [intros H; inversion H|intros (k & Hk & _); lia].
  - destruct (Z.leb_spec size i) as [Hge|Hlt].
    + split; [intros H; inversion H|intros (k & Hk & -> & Hx); nia].
    + rewrite elem_of_cons, IH. split.
      * intros [->|(k & Hk & -> & Hx)].
        -- exists O. split; [lia|]. split; [lia|assumption].
        -- exists (S k). split; [lia|]. split; [lia|assumption].
      * intros (k & Hk & -> & Hx). destruct k as [|k]; [left; lia|].
        right. exists k. split; [lia|]. split; [lia|assumption].
Qed.

Lemma NoDup_stride (LOG_THREADS : nat) (size : Z) (fuel : nat) :
  forall i, NoDup (stride LOG_THREADS size fuel i).
Proof.
  pose proof (THREADS_pos LOG_THREADS) as HT.
  induction fuel as [|fuel IH]; intros i; cbn [stride]; [constructor|].
  destruct (size <=? i); [constructor|].
  apply list.NoDup_cons. split; [|apply IH].
  rewrite elem_of_stride. intros (k & _ & Hk & _). nia.
Qed.

(** The threads of a block share out the positions below [size]. *)
Lemma strides_Permutation (LOG_THREADS : nat) (size : Z) :
  seqZ 0 (THREADS LOG_THREADS)
    ≫= stride LOG_THREADS size (Z.to_nat size)
  ≡ₚ seqZ 0 size.
Proof.
  pose proof (THREADS_pos LOG_THREADS) as HT.
  apply NoDup_Permutation.
  - apply NoDup_bind; [|intros; apply NoDup_stride|apply NoDup_seqZ].
    intros t1 t2 x Ht1 Ht2 Hx1 Hx2.
    apply elem_of_seqZ in Ht1, Ht2.
    apply elem_of_stride in Hx1 as (k1 & _ & Hx1 & _).
    apply elem_of_stride in Hx2 as (k2 & _ & Hx2 & _).
    assert (t1 = x mod THREADS LOG_THREADS) as ->
      by (rewrite Hx1, Z.mod_add, Z.mod_small; lia).
    rewrite Hx2, Z.mod_add, Z.mod_small; lia.
  - apply NoDup_seqZ.
  - intros x. rewrite list_elem_of_bind, elem_of_seqZ. split.
    + intros (t & Hx & Ht). apply elem_of_seqZ in Ht.
      apply elem_of_stride in Hx as (k & _ & -> & Hx). nia.
    + intros Hx. exists (x mod THREADS LOG_THREADS).
      pose proof (Z.mod_pos_bound x (THREADS LOG_THREADS)).
      pose proof (Z.div_mod x (THREADS LOG_THREADS)).
      pose proof (Z.div_pos x (THREADS LOG_THREADS)).
      rewrite elem_of_seqZ, elem_of_stride. split; [|lia].
      exists (Z.to_nat (x / THREADS LOG_THREADS)).
      assert (x / THREADS LOG_THREADS <= x)
        by (apply Z.div_le_upper_bound; nia).
      split; [lia|]. split; [|lia].
      rewrite Z2Nat.id by lia. lia.
Qed.

Section LightBlock.

Variable Problem : Type.
Variable CondEdge : Z -> Z -> Problem -> Z -> Z -> bool.
Variable ApplyEdge : Z -> Z -> Problem -> Z -> Z -> Problem.
Variable LOG_THREADS : nat.
Variable MARK_PREDECESSORS : bool.
Variable label : Z.
Variables d_row_offsets d_inverse_row_offsets : list Z.
Variables d_column_indices d_inverse_column_indices : list Z.
Variable d_scanned_edges : list Z.
Variable d_queue : list Z.
Variable input_queue_len : Z.
Variables max_vertices max_edges : Z.
Variable ADVANCE_TYPE : TYPE.
Variable R_TYPE : REDUCE_TYPE.
Variable R_OP : REDUCE_OP.
Variable d_value_to_reduce : option (list Z).
Variables element vert first len : Z -> Z.

Hypothesis threads : (1 <= LOG_THREADS)%nat.
Hypothesis length_fits : input_queue_len + THREADS LOG_THREADS <= INT_MAX.
Hypothesis queue_ok :
  forall j, 0 <= j < input_queue_len -> read d_queue j = Some (element j).
Hypothesis vert_ok :
  forall j, 0 <= j < input_queue_len ->
    spec.frontier_vertex ADVANCE_TYPE d_column_indices (element j)
    = Some (vert j).
Hypothesis first_ok :
  forall j, 0 <= j < input_queue_len ->
    read d_row_offsets (vert j) = Some (first j).
Hypothesis len_ok :
  forall j, 0 <= j < input_queue_len ->
    0 <= len j /\ 0 <= first j
    /\ first j + len j <= GetSize d_column_indices.
Hypothesis edges_fit : GetSize d_column_indices <= INT_MAX.
Hypothesis scanned_ok :
  forall j, 0 <= j < input_queue_len ->
    read d_scanned_edges j = Some (spec.edges_before len (j + 1)).
Hypothesis total_fits : spec.edges_before len input_queue_len <= INT_MAX.

#[local] Abbreviation T := (THREADS LOG_THREADS).
#[local] Abbreviation n := input_queue_len.
#[local] Abbreviation P := (spec.edges_before len).

Lemma P_mono (a b : Z) : 0 <= a <= b -> b <= n -> P a <= P b.
Proof.
  intros Hab Hb. apply edges_before_mono; [assumption|].
  intros j Hj. apply len_ok. lia.
Qed.

Lemma P_nonneg (a : Z) : 0 <= a <= n -> 0 <= P a.
Proof.
  intros Ha. change 0 with (P 0) at 1. apply P_mono; lia.
Qed.

Lemma P_in_range (a : Z) : 0 <= a <= n -> 0 <= P a <= INT_MAX.
Proof.
  intros Ha. split; [apply P_nonneg; assumption|].
  etransitivity; [apply (P_mono a n); lia|assumption].
Qed.


#[local] Abbreviation load :=
  (load_smem LOG_THREADS d_column_indices d_inverse_column_indices
             d_scanned_edges d_queue n max_vertices max_edges
             ADVANCE_TYPE false).
#[local] Abbreviation seek' := (seek LOG_THREADS max_vertices).
#[local] Abbreviation loop :=
  (light_loop Problem CondEdge ApplyEdge LOG_THREADS MARK_PREDECESSORS label
              d_row_offsets d_inverse_row_offsets d_column_indices
              d_inverse_column_indices max_vertices ADVANCE_TYPE false
              R_TYPE R_OP d_value_to_reduce).
#[local] Abbreviation thread :=
  (RelaxLightEdges_thread
     Problem CondEdge ApplyEdge LOG_THREADS MARK_PREDECESSORS label
     d_row_offsets d_inverse_row_offsets d_column_indices
     d_inverse_column_indices max_vertices ADVANCE_TYPE false
     R_TYPE R_OP d_value_to_reduce).
#[local] Abbreviation block :=
  (RelaxLightEdges_block
     Problem CondEdge ApplyEdge LOG_THREADS MARK_PREDECESSORS label
     d_row_offsets d_inverse_row_offsets d_column_indices
     d_inverse_column_indices d_scanned_edges d_queue n max_vertices
     max_edges ADVANCE_TYPE false false R_TYPE R_OP d_value_to_reduce).
#[local] Abbreviation relax_calls :=
  (relax_all Problem CondEdge ApplyEdge LightEdges MARK_PREDECESSORS
             ADVANCE_TYPE R_TYPE R_OP d_value_to_reduce).
#[local] Abbreviation edges_of := (window_edges LOG_THREADS n max_edges len).
#[local] Abbreviation size_of := (block_size LOG_THREADS n len).
#[local] Abbreviation call_at :=
  (relaxation_at LOG_THREADS MARK_PREDECESSORS label d_column_indices n
                 max_edges ADVANCE_TYPE element vert first len).
#[local] Abbreviation call :=
  (spec.relaxation LOG_THREADS MARK_PREDECESSORS label d_column_indices
                   ADVANCE_TYPE element vert first len).
#[local] Abbreviation vertices_in :=
  (vertices_of LOG_THREADS n max_vertices vert).
#[local] Abbreviation ids_in :=
  (ids_of LOG_THREADS n max_vertices ADVANCE_TYPE element).
#[local] Abbreviation cursor_in :=
  (cursor_of LOG_THREADS ADVANCE_TYPE element vert len).

Lemma window_bounds (bid : Z) :
  0 <= bid -> bid * T < n ->
  1 <= window LOG_THREADS n bid <= T
  /\ bid * T + window LOG_THREADS n bid <= n /\ 0 <= bid * T.
Proof.
  intros Hb Hin. unfold window. pose proof (THREADS_pos LOG_THREADS).
  split; [lia|]. split; [lia|nia].
Qed.

(** What the threads of block [bid] put into shared memory ahead of the
    barrier. *)
Lemma load_smem_spec (bid : Z) :
  0 <= bid -> bid * T < n ->
  exists sm,
    load bid = Some sm
    /\ s_edges sm = edges_of bid
    /\ s_vertices sm = vertices_in bid
    /\ s_edge_ids sm = ids_in bid
    /\ offset sm = P (bid * T)
    /\ size sm = size_of bid.
Proof.
  intros Hb Hin.
  pose proof (THREADS_two LOG_THREADS threads) as HT.
  pose proof (window_bounds bid Hb Hin) as (Hw & Hwn & Hbase).
  unfold INT_MAX in *.
  assert (Hoff : (if 0 <? wrap (T * bid - 1)
                  then read d_scanned_edges (wrap (T * bid - 1))
                  else Some 0) = Some (P (bid * T))).
  { destruct (Z.eq_dec bid 0) as [->|Hne].
    - rewrite Z.mul_0_r, Z.mul_0_l. reflexivity.
    - rewrite wrap_id by (unfold in_range, INT_MIN, INT_MAX; nia).
      destruct (Z.ltb_spec 0 (T * bid - 1)); [|nia].
      rewrite scanned_ok by nia. f_equal. f_equal. lia. }
  assert (Hid : forall tid, 0 <= tid < T ->
                  wrap (bid * T + tid) = bid * T + tid).
  { intros tid Htid. apply wrap_id.
    unfold in_range, INT_MIN, INT_MAX. nia. }
  unfold load_smem. cbv zeta. rewrite Hoff. cbn [mbind option_bind].
  rewrite (mapM_Some_fmap
            (fun tid => if wrap (bid * T + tid) <? n
                        then x ← read d_scanned_edges (wrap (bid * T + tid));
                             Some (wrap (x - P (bid * T)))
                        else Some max_edges)
            (fun tid => if bid * T + tid <? n
                        then P (bid * T + tid + 1) - P (bid * T)
                        else max_edges)).
  2:{ intros tid Htid. apply elem_of_seqZ in Htid. rewrite Hid by lia.
      destruct (Z.ltb_spec (bid * T + tid) n); [|reflexivity].
      rewrite scanned_ok by nia. cbn [mbind option_bind].
      pose proof (P_in_range (bid * T + tid + 1)).
      pose proof (P_in_range (bid * T)).
      pose proof (P_mono (bid * T) (bid * T + tid + 1)).
      rewrite wrap_id; [reflexivity|].
      unfold in_range, INT_MIN, INT_MAX in *. lia. }
  cbn [mbind option_bind].
  rewrite (mapM_Some_fmap
            (fun tid => if wrap (bid * T + tid) <? n
                        then q ← read d_queue (wrap (bid * T + tid));
                             if is_vertex_input ADVANCE_TYPE then Some q
                             else if false
                                  then read d_inverse_column_indices q
                                  else read d_column_indices q
                        else Some max_vertices)
            (fun tid => if bid * T + tid <? n then vert (bid * T + tid)
                        else max_vertices)).
  2:{ intros tid Htid. apply elem_of_seqZ in Htid. rewrite Hid by lia.
      destruct (Z.ltb_spec (bid * T + tid) n); [|reflexivity].
      rewrite queue_ok by nia. cbn [mbind option_bind].
      specialize (vert_ok (bid * T + tid)).
      unfold spec.frontier_vertex in vert_ok.
      destruct (is_vertex_input ADVANCE_TYPE); apply vert_ok; nia. }
  cbn [mbind option_bind].
  rewrite (mapM_Some_fmap
            (fun tid => if is_vertex_input ADVANCE_TYPE then Some 0
                        else if wrap (bid * T + tid) <? n
                             then read d_queue (wrap (bid * T + tid))
                             else Some max_vertices)
            (fun tid => if is_vertex_input ADVANCE_TYPE then 0
                        else if bid * T + tid <? n
                             then element (bid * T + tid)
                             else max_vertices)).
  2:{ intros tid Htid. apply elem_of_seqZ in Htid. rewrite Hid by lia.
      destruct (is_vertex_input ADVANCE_TYPE); [reflexivity|].
      destruct (Z.ltb_spec (bid * T + tid) n); [|reflexivity].
      apply queue_ok. nia. }
  cbn [mbind option_bind].
  assert (Hend : Z.rem (if n <=? T * (bid + 1) then n - 1
                        else T * (bid + 1) - 1) T
                 = window LOG_THREADS n bid - 1).
  { unfold window.
    destruct (Z.leb_spec n (T * (bid + 1))).
    - rewrite Z.min_r by lia.
      replace (n - 1) with (n - bid * T - 1 + bid * T) by lia.
      rewrite Z.rem_add by nia. apply Z.rem_small. lia.
    - rewrite Z.min_l by lia.
      replace (T * (bid + 1) - 1) with (T - 1 + bid * T) by lia.
      rewrite Z.rem_add by nia. apply Z.rem_small. lia. }
  rewrite Hend, read_fmap_seqZ by lia.
  destruct (Z.ltb_spec (bid * T + (window LOG_THREADS n bid - 1)) n); [|lia].
  cbn [mbind option_bind]. eexists. split; [reflexivity|].
  cbn [s_edges s_vertices s_edge_ids offset size].
  repeat split; try reflexivity.
  unfold block_size. f_equal. f_equal. lia.
Qed.


Section Block.

Variable bid : Z.
Variable sm : SmemStorage.
Hypothesis bid_nonneg : 0 <= bid.
Hypothesis bid_inside : bid * T < n.
Hypothesis sm_edges : s_edges sm = edges_of bid.
Hypothesis sm_vertices : s_vertices sm = vertices_in bid.
Hypothesis sm_ids : s_edge_ids sm = ids_in bid.
Hypothesis sm_offset : offset sm = P (bid * T).
Hypothesis sm_size : size sm = size_of bid.

#[local] Abbreviation w := (window LOG_THREADS n bid).
#[local] Abbreviation base := (bid * T).

Lemma read_edges_of (m : Z) :
  0 <= m < w ->
  read (edges_of bid) m = Some (P (base + m + 1) - P base).
Proof.
  intros Hm. pose proof (window_bounds bid bid_nonneg bid_inside)
    as (Hw & Hwn & Hbase).
  unfold window_edges. rewrite read_fmap_seqZ by lia.
  destruct (Z.ltb_spec (base + m) n); [reflexivity|lia].
Qed.

(** The slot of the window that holds the position [i] of the block. *)
Lemma slot_of (i : Z) :
  0 <= i < size sm ->
  exists m, 0 <= m < w
            /\ P (base + m) - P base <= i < P (base + m + 1) - P base
            /\ BinarySearch i (edges_of bid) = m.
Proof.
  intros Hi.
  pose proof (window_bounds bid bid_nonneg bid_inside) as (Hw & Hwn & Hbase).
  rewrite sm_size in Hi. unfold block_size in Hi.
  destruct (edges_before_cover len base (Z.to_nat w) i) as (m & Hm & Hbounds).
  - lia.
  - intros j Hj. apply len_ok. lia.
  - rewrite Z2Nat.id by lia. assumption.
  - exists m. split; [lia|]. split; [assumption|].
    apply BinarySearch_first; [lia| |].
    + intros k Hk. eexists. split; [apply read_edges_of; lia|].
      pose proof (P_mono (base + k + 1) (base + m)). lia.
    + eexists. split; [apply read_edges_of; lia|]. lia.
Qed.

Lemma slot_unique (i m m' : Z) :
  0 <= m < w -> 0 <= m' < w ->
  P (base + m) - P base <= i < P (base + m + 1) - P base ->
  P (base + m') - P base <= i < P (base + m' + 1) - P base ->
  m = m'.
Proof.
  intros Hm Hm' Hi Hi'.
  pose proof (window_bounds bid bid_nonneg bid_inside) as (Hw & Hwn & Hbase).
  destruct (Z.lt_trichotomy m m') as [Hlt|[Heq|Hgt]]; [|assumption|].
  - pose proof (P_mono (base + m + 1) (base + m')). lia.
  - pose proof (P_mono (base + m' + 1) (base + m)). lia.
Qed.

(** The search of a thread at a position of the block finds the slot
    that holds it. *)
Lemma seek_spec (i : Z) :
  0 <= i < size sm ->
  exists m, 0 <= m < w
            /\ P (base + m) - P base <= i < P (base + m + 1) - P base
            /\ BinarySearch i (edges_of bid) = m
            /\ seek' sm i = Some (cursor_in bid m).
Proof.
  intros Hi. destruct (slot_of i Hi) as (m & Hm & Hbounds & Hsearch).
  pose proof (window_bounds bid bid_nonneg bid_inside) as (Hw & Hwn & Hbase).
  exists m. split; [assumption|]. split; [assumption|].
  split; [assumption|].
  unfold seek. rewrite sm_edges, sm_vertices, sm_ids, Hsearch.
  destruct (Z.ltb_spec m T); [|lia].
  rewrite read_edges_of by lia. cbn [mbind option_bind].
  unfold cursor_of, vertices_of, ids_of. rewrite !read_fmap_seqZ by lia.
  destruct (Z.ltb_spec (base + m) n); [|lia].
  destruct (is_vertex_input ADVANCE_TYPE); reflexivity.
Qed.

(** The loop of a thread relaxes the edges at the positions of its
    stride, one after the other; the slot it holds from an earlier
    position is looked up again only where it has run out. *)
Lemma light_loop_spec (fuel : nat) : forall i c st,
  0 <= i ->
  (exists i0, 0 <= i0 <= i /\ seek' sm i0 = Some c) ->
  loop sm fuel i c st
  = relax_calls (call_at bid <$> stride LOG_THREADS (size sm) fuel i) st.
Proof.
  pose proof (window_bounds bid bid_nonneg bid_inside) as (Hw & Hwn & Hbase).
  pose proof (THREADS_pos LOG_THREADS) as HT.
  induction fuel as [|fuel IH]; intros i c st Hi (i0 & Hi0 & Hc);
    [reflexivity|].
  cbn [light_loop stride].
  destruct (Z.leb_spec (size sm) i) as [|Hlt]; [reflexivity|].
  destruct (seek_spec i0) as (m0 & Hm0 & Hb0 & _ & Hseek0); [lia|].
  destruct (seek_spec i) as (m & Hm & Hb & Hsearch & Hseek); [lia|].
  assert (Hcur : (if end_last c <=? i then seek' sm i else Some c)
                 = Some (cursor_in bid m)).
  { destruct (Z.leb_spec (end_last c) i) as [|Hin]; [assumption|].
    assert (c = cursor_in bid m0) as -> by congruence.
    cbn [end_last cursor_of] in Hin.
    rewrite (slot_unique i m m0); [reflexivity|assumption|assumption|lia|lia]. }
  rewrite Hcur. cbn [mbind option_bind v_index v e_id cursor_of].
  assert (Hio : (if 0 <? m then read (s_edges sm) (m - 1) else Some 0)
                = Some (P (base + m) - P base)).
  { destruct (Z.ltb_spec 0 m).
    - rewrite sm_edges, read_edges_of by lia. f_equal. f_equal. f_equal. lia.
    - assert (m = 0) as -> by lia. rewrite Z.add_0_r. f_equal. lia. }
  rewrite Hio. cbn [mbind option_bind].
  destruct (len_ok (base + m)) as (Hlen & Hfirst & Hfit); [lia|].
  assert (HP : P (base + m + 1) = P (base + m) + len (base + m))
    by (apply edges_before_succ; lia).
  pose proof (P_in_range base) as HPb.
  pose proof (P_in_range (base + m)) as HPm.
  pose proof (P_in_range (base + m + 1)) as HPm1.
  pose proof (P_mono base (base + m)) as HPle.
  unfold INT_MAX in *.
  rewrite (wrap_id (i - _)) by (unfold in_range, INT_MIN, INT_MAX; lia).
  rewrite first_ok by lia. cbn [mbind option_bind].
  rewrite (wrap_id (first _ + _))
    by (unfold in_range, INT_MIN, INT_MAX; lia).
  destruct (read_is_Some d_column_indices
              (first (base + m) + (i - (P (base + m) - P base))))
    as [u Hu]; [lia|].
  rewrite Hu. cbn [mbind option_bind].
  rewrite sm_offset.
  rewrite (wrap_id (P base + i)) by (unfold in_range, INT_MIN, INT_MAX; lia).
  cbn [fmap list_fmap relax_all].
  assert (Hcall : call_at bid i
                  = call (base + m) (i - (P (base + m) - P base))).
  { unfold relaxation_at. rewrite Hsearch. reflexivity. }
  rewrite Hcall. unfold spec.relaxation.
  cbn [r_src r_dst r_edge r_slot r_out]. rewrite Hu. cbn [default].
  replace ((base + m) mod T) with m
    by (rewrite Z.add_comm, Z.mod_add, Z.mod_small; lia).
  replace (P (base + m) + (i - (P (base + m) - P base))) with (P base + i)
    by lia.
  match goal with
  | |- (?a ≫= _) = (?b ≫= _) =>
      replace b with a by (destruct MARK_PREDECESSORS; reflexivity);
      destruct a as [st'|]; [|reflexivity]
  end.
  cbn [mbind option_bind].
  apply IH; [lia|]. exists i. split; [lia|assumption].
Qed.


Lemma seek_is_Some (i : Z) : is_Some (seek' sm i).
Proof.
  unfold seek.
  pose proof (BinarySearch_range i (s_edges sm)) as Hrange.
  destruct (Z.ltb_spec (BinarySearch i (s_edges sm)) T) as [Hlt|];
    [|cbn; eauto].
  destruct (read_is_Some (s_edges sm) (BinarySearch i (s_edges sm)))
    as [x Hx].
  - rewrite sm_edges in *. unfold window_edges in *.
    rewrite GetSize_fmap_seqZ in *;
      pose proof (THREADS_pos LOG_THREADS); lia.
  - rewrite Hx. cbn. eauto.
Qed.

Lemma RelaxLightEdges_thread_spec (tid : Z) (st : AdvanceState Problem) :
  0 <= tid ->
  thread sm tid st
  = relax_calls
      (call_at bid
         <$> stride LOG_THREADS (size sm) (Z.to_nat (size sm)) tid) st.
Proof.
  intros Htid. unfold RelaxLightEdges_thread.
  destruct (seek_is_Some tid) as [c Hc]. rewrite Hc.
  cbn [mbind option_bind].
  apply light_loop_spec; [assumption|].
  exists tid. split; [lia|assumption].
Qed.

End Block.

Lemma run_threads_relax_all
      (body : Z -> AdvanceState Problem -> option (AdvanceState Problem))
      (calls : Z -> list Relaxation) (k : nat) : forall first' st,
  (forall t st', first' <= t < first' + Z.of_nat k ->
                 body t st' = relax_calls (calls t) st') ->
  run_threads body first' k st
  = relax_calls (seqZ first' (Z.of_nat k) ≫= calls) st.
Proof.
  induction k as [|k IH]; intros first' st Hbody; [reflexivity|].
  cbn [run_threads].
  rewrite Nat2Z.inj_succ, <- Z.add_1_l, seqZ_app by lia.
  change (seqZ first' 1) with [first'].
  rewrite bind_app, relax_all_app.
  change ([first'] ≫= calls) with (calls first' ++ []).
  rewrite app_nil_r, <- Hbody by lia.
  destruct (body first' st) as [st'|]; [|reflexivity].
  cbn [mbind option_bind]. apply IH. intros t st0 Ht. apply Hbody. lia.
Qed.

(** A block relaxes the edges at its positions in the order of its
    threads. *)
Lemma RelaxLightEdges_block_spec (bid : Z) (st : AdvanceState Problem) :
  0 <= bid -> bid * T < n ->
  block bid st
  = relax_calls (call_at bid <$> block_order LOG_THREADS n len bid) st.
Proof.
  intros Hb Hin.
  destruct (load_smem_spec bid Hb Hin)
    as (sm & Hload & Hedges & Hvertices & Hids & Hoffset & Hsize).
  unfold RelaxLightEdges_block. rewrite Hload. cbn [mbind option_bind].
  pose proof (THREADS_pos LOG_THREADS).
  rewrite (run_threads_relax_all _
             (fun tid => call_at bid
                <$> stride LOG_THREADS (size sm) (Z.to_nat (size sm)) tid)).
  - rewrite Z2Nat.id by lia. unfold block_order.
    rewrite fmap_bind_list, Hsize. reflexivity.
  - intros tid st' Htid.
    apply (RelaxLightEdges_thread_spec bid sm); (assumption || lia).
Qed.


(** The calls of a block, in the order of the positions of the block, are
    the calls the slots of its window are owed. *)
Lemma relaxations_app (from a b : Z) :
  0 <= a -> 0 <= b ->
  spec.relaxations LOG_THREADS MARK_PREDECESSORS label d_column_indices
              ADVANCE_TYPE element vert first len from (a + b)
  = spec.relaxations LOG_THREADS MARK_PREDECESSORS label d_column_indices
                ADVANCE_TYPE element vert first len from a
    ++ spec.relaxations LOG_THREADS MARK_PREDECESSORS label d_column_indices
                   ADVANCE_TYPE element vert first len (from + a) b.
Proof.
  intros Ha Hb. unfold spec.relaxations. rewrite seqZ_app, bind_app by lia.
  reflexivity.
Qed.

Lemma relaxation_at_window (bid : Z) (k : nat) :
  0 <= bid -> bid * T < n -> Z.of_nat k <= window LOG_THREADS n bid ->
  call_at bid <$> seqZ 0 (P (bid * T + Z.of_nat k) - P (bid * T))
  = spec.relaxations LOG_THREADS MARK_PREDECESSORS label d_column_indices
                ADVANCE_TYPE element vert first len (bid * T) (Z.of_nat k).
Proof.
  intros Hb Hin.
  pose proof (window_bounds bid Hb Hin) as (Hw & Hwn & Hbase).
  destruct (load_smem_spec bid Hb Hin)
    as (sm & Hload & Hedges & Hvertices & Hids & Hoffset & Hsize).
  induction k as [|k IH]; intros Hk.
  - rewrite Z.add_0_r, Z.sub_diag. reflexivity.
  - rewrite Nat2Z.inj_succ, <- Z.add_1_r.
    rewrite relaxations_app by lia. rewrite <- IH by lia.
    destruct (len_ok (bid * T + Z.of_nat k)) as (Hlen & _); [lia|].
    pose proof (P_mono (bid * T) (bid * T + Z.of_nat k)) as Hmono.
    rewrite Z.add_assoc, edges_before_succ by lia.
    replace (P (bid * T + Z.of_nat k) + len (bid * T + Z.of_nat k)
             - P (bid * T))
      with (P (bid * T + Z.of_nat k) - P (bid * T)
            + len (bid * T + Z.of_nat k)) by lia.
    rewrite seqZ_app, fmap_app by lia. f_equal.
    unfold spec.relaxations at 1. change (seqZ (bid * T + Z.of_nat k) 1)
      with [bid * T + Z.of_nat k].
    cbn [mbind list_bind]. rewrite app_nil_r.
    rewrite Z.add_0_l.
    rewrite <- (Z.add_0_r (P (bid * T + Z.of_nat k) - P (bid * T))) at 1.
    rewrite <- fmap_add_seqZ, <- list_fmap_compose.
    apply list_fmap_ext. intros idx e He.
    apply lookup_seqZ in He as [-> He]. cbn [compose].
    pose proof (P_mono (bid * T + Z.of_nat k + 1)
                       (bid * T + window LOG_THREADS n bid)) as Hmono'.
    assert (HP : P (bid * T + Z.of_nat k + 1)
                 = P (bid * T + Z.of_nat k) + len (bid * T + Z.of_nat k))
      by (apply edges_before_succ; lia).
    destruct (slot_of bid sm Hb Hin Hsize
                (P (bid * T + Z.of_nat k) - P (bid * T) + (0 + Z.of_nat idx)))
      as (m & Hm & Hbounds & Hsearch).
    { rewrite Hsize. unfold block_size. lia. }
    assert (m = Z.of_nat k) as ->.
    { apply (slot_unique bid Hb Hin
               (P (bid * T + Z.of_nat k) - P (bid * T) + (0 + Z.of_nat idx)));
        [assumption|lia|assumption|lia]. }
    unfold relaxation_at. rewrite Hsearch. f_equal. lia.
Qed.

Lemma relaxation_at_block (bid : Z) :
  0 <= bid -> bid * T < n ->
  call_at bid <$> seqZ 0 (size_of bid)
  = spec.relaxations LOG_THREADS MARK_PREDECESSORS label d_column_indices
                ADVANCE_TYPE element vert first len
                (bid * T) (window LOG_THREADS n bid).
Proof.
  intros Hb Hin.
  pose proof (window_bounds bid Hb Hin) as (Hw & Hwn & Hbase).
  pose proof (relaxation_at_window bid (Z.to_nat (window LOG_THREADS n bid))
                                   Hb Hin) as H.
  rewrite Z2Nat.id in H by lia. apply H. lia.
Qed.


#[local] Abbreviation kernel :=
  (RelaxLightEdges
     Problem CondEdge ApplyEdge LOG_THREADS MARK_PREDECESSORS label
     d_row_offsets d_inverse_row_offsets d_column_indices
     d_inverse_column_indices d_scanned_edges d_queue n max_vertices
     max_edges ADVANCE_TYPE false false R_TYPE R_OP d_value_to_reduce).
#[local] Abbreviation owed :=
  (spec.relaxations LOG_THREADS MARK_PREDECESSORS label d_column_indices
               ADVANCE_TYPE element vert first len).

Variable num_blocks : nat.
Hypothesis blocks :
  (Z.of_nat num_blocks - 1) * T < n <= Z.of_nat num_blocks * T.
Hypothesis frontier_nonempty : 0 < n.

(** The kernel relaxes the edges of its blocks one block after the
    other. *)
Lemma RelaxLightEdges_calls (st : AdvanceState Problem) :
  kernel num_blocks st
  = relax_calls
      (seqZ 0 (Z.of_nat num_blocks)
         ≫= fun bid => call_at bid <$> block_order LOG_THREADS n len bid) st.
Proof.
  unfold RelaxLightEdges. apply run_threads_relax_all.
  intros bid st' Hbid. apply RelaxLightEdges_block_spec; [lia|].
  pose proof (THREADS_pos LOG_THREADS). nia.
Qed.

(** The calls of the first [k] blocks are, in another order, the calls
    owed to the frontier slots of their windows. *)
Lemma block_calls_Permutation (k : nat) :
  (k <= num_blocks)%nat ->
  seqZ 0 (Z.of_nat k)
    ≫= (fun bid => call_at bid <$> block_order LOG_THREADS n len bid)
  ≡ₚ owed 0 (Z.min (Z.of_nat k * T) n).
Proof.
  pose proof (THREADS_pos LOG_THREADS) as HT.
  induction k as [|k IH]; intros Hk.
  - rewrite Z.mul_0_l, Z.min_l by lia. reflexivity.
  - assert (Hin : Z.of_nat k * T < n) by nia.
    pose proof (window_bounds (Z.of_nat k) ltac:(lia) Hin)
      as (Hw & Hwn & Hbase).
    rewrite Nat2Z.inj_succ, <- Z.add_1_r, seqZ_app, bind_app by lia.
    change (seqZ (0 + Z.of_nat k) 1) with [0 + Z.of_nat k].
    cbn [mbind list_bind]. rewrite app_nil_r, Z.add_0_l.
    rewrite IH by lia. rewrite Z.min_l by lia.
    unfold block_order. rewrite strides_Permutation.
    rewrite relaxation_at_block by lia.
    replace (Z.min ((Z.of_nat k + 1) * T) n)
      with (Z.of_nat k * T + window LOG_THREADS n (Z.of_nat k))
      by (unfold window; lia).
    rewrite relaxations_app by lia. reflexivity.
Qed.

(** The output positions of the calls owed to the first [k] slots are
    the positions in front of slot [k], each once. *)
Lemma owed_positions (k : nat) :
  Z.of_nat k <= n ->
  r_out <$> owed 0 (Z.of_nat k) = seqZ 0 (P (Z.of_nat k)).
Proof.
  induction k as [|k IH]; intros Hk; [reflexivity|].
  rewrite Nat2Z.inj_succ, <- Z.add_1_r, relaxations_app by lia.
  destruct (len_ok (Z.of_nat k)) as (Hlen & _); [lia|].
  pose proof (P_nonneg (Z.of_nat k)).
  rewrite fmap_app, IH, edges_before_succ, seqZ_app by lia. f_equal.
  unfold spec.relaxations.
  change (seqZ (0 + Z.of_nat k) 1) with [0 + Z.of_nat k].
  cbn [mbind list_bind]. rewrite app_nil_r, <- list_fmap_compose.
  rewrite <- (Z.add_0_r (0 + P (Z.of_nat k))), <- fmap_add_seqZ.
  apply list_fmap_ext. intros idx e _. cbn. rewrite !Z.add_0_l. reflexivity.
Qed.

(** With the scanned lengths of the frontier in [d_scanned_edges], one
    block for every [THREADS] frontier slots and blocks of two threads
    or more, [RelaxLightEdges] calls the functor once for every edge of
    every frontier slot, with the output position the edge is owed, and
    leaves at that position what the outcome of [CondEdge] asks for. *)
Theorem RelaxLightEdges_relaxes_every_edge_once
        (st : AdvanceState Problem) (out : list Z) :
  d_value_to_reduce = None ->
  d_out Problem st = Some out ->
  P n <= GetSize out ->
  exists st' new out',
    kernel num_blocks st = Some st'
    /\ visits Problem st' = new ++ visits Problem st
    /\ relaxation_of <$> new ≡ₚ owed 0 n
    /\ spec.answered Problem CondEdge ApplyEdge (problem Problem st) new
    /\ problem Problem st'
       = spec.replay Problem ApplyEdge (problem Problem st) new
    /\ d_out Problem st' = Some out'
    /\ (forall vis x, vis ∈ new -> spec.stored ADVANCE_TYPE vis = Some x ->
                      read out' (visit_out vis) = Some x)
    /\ (forall i, ~ 0 <= i < P n -> read out' i = read out i).
Proof.
  intros Hred Hout Hroom.
  pose proof (block_calls_Permutation num_blocks ltac:(lia)) as Hperm.
  rewrite Z.min_r in Hperm by lia.
  pose proof (owed_positions (Z.to_nat n)) as Hpos.
  rewrite Z2Nat.id in Hpos by lia. specialize (Hpos ltac:(lia)).
  rewrite RelaxLightEdges_calls.
  destruct (relax_all_spec Problem CondEdge ApplyEdge LightEdges
              MARK_PREDECESSORS ADVANCE_TYPE R_TYPE R_OP d_value_to_reduce
              (seqZ 0 (Z.of_nat num_blocks)
                 ≫= fun bid => call_at bid
                                 <$> block_order LOG_THREADS n len bid)
              st out Hred Hout)
    as (st' & new & out' & Hrun & Hvisits & Hkeys & Hans & Hprob & _
        & Hout' & _ & Hstored & Hother).
  - rewrite Hperm. apply list.Forall_forall. intros c Hc.
    assert (r_out c ∈ r_out <$> owed 0 n) as Hin
      by (apply list_elem_of_fmap_2; assumption).
    rewrite Hpos in Hin. apply elem_of_seqZ in Hin. lia.
  - rewrite Hperm, Hpos. apply NoDup_seqZ.
  - exists st', new, out'. split; [assumption|]. split; [assumption|].
    split.
    { rewrite Hkeys, <- Hperm. symmetry. apply Permutation_rev. }
    split; [assumption|]. split; [assumption|]. split; [assumption|].
    split; [assumption|].
    intros i Hi. apply Hother. rewrite Hperm, Hpos, elem_of_seqZ. lia.
Qed.

End LightBlock.

(** *** The whole step on a vertex frontier *)

(** The scan of the lengths of the slots yields, for every slot, the
    number of edges up to and with its own. *)
Lemma scan_from_edges_before (len : Z -> Z) (k : nat) : forall a,
  0 <= a ->
  (forall j, a <= j < a + Z.of_nat k -> 0 <= len j) ->
  0 <= spec.edges_before len a ->
  spec.edges_before len (a + Z.of_nat k) <= INT_MAX ->
  scan_from (spec.edges_before len a) (len <$> seqZ a (Z.of_nat k))
  = (fun j => spec.edges_before len (j + 1)) <$> seqZ a (Z.of_nat k).
Proof.
  induction k as [|k IH]; intros a Ha Hlen Hsum Hmax; [reflexivity|].
  rewrite Nat2Z.inj_succ, <- Z.add_1_l in Hmax, Hlen |- *.
  rewrite seqZ_app by lia.
  change (seqZ a 1) with [a]. cbn [app fmap list_fmap scan_from].
  assert (Hnext : spec.edges_before len (a + 1)
                  = spec.edges_before len a + len a)
    by (apply edges_before_succ; assumption).
  pose proof (Hlen a ltac:(lia)) as Hla.
  assert (Hle : spec.edges_before len (a + 1)
                <= spec.edges_before len (a + (1 + Z.of_nat k))).
  { apply edges_before_mono; [lia|]. intros j Hj. apply Hlen. lia. }
  rewrite wrap_id by (unfold in_range, INT_MIN, INT_MAX in *; lia).
  rewrite <- Hnext. f_equal.
  apply IH; [lia| |lia|].
  - intros j Hj. apply Hlen. lia.
  - replace (a + 1 + Z.of_nat k) with (a + (1 + Z.of_nat k)) by lia.
    assumption.
Qed.

Lemma Scan_edges_before (counts : list Z) (n : Z) (len : Z -> Z) :
  0 <= n ->
  (forall j, 0 <= j < n -> read counts j = Some (len j) /\ 0 <= len j) ->
  spec.edges_before len n <= INT_MAX ->
  forall j, 0 <= j < n ->
    read (Scan n counts) j = Some (spec.edges_before len (j + 1)).
Proof.
  intros Hn Hcounts Hmax j Hj.
  assert (Htake : take (Z.to_nat n) counts = len <$> seqZ 0 n).
  { apply list_eq. intros i. rewrite list_lookup_fmap.
    destruct (Nat.lt_ge_cases i (Z.to_nat n)) as [Hlt|Hge].
    - rewrite lookup_take_lt, lookup_seqZ_lt by lia. cbn.
      destruct (Hcounts (Z.of_nat i)) as [Hread _]; [lia|].
      apply read_Some in Hread as [_ Hread].
      rewrite Nat2Z.id in Hread. assumption.
    - rewrite lookup_take_ge, lookup_seqZ_ge by lia. reflexivity. }
  unfold Scan. rewrite Htake.
  pose proof (scan_from_edges_before len (Z.to_nat n) 0) as Hscan.
  rewrite Z2Nat.id, Z.add_0_l in Hscan by lia.
  change (spec.edges_before len 0) with 0 in Hscan.
  rewrite Hscan; [|lia| |lia|assumption].
  - apply read_Some. split; [lia|]. apply lookup_app_l_Some.
    rewrite list_lookup_fmap, lookup_seqZ_lt by lia. cbn.
    rewrite Z2Nat.id by lia. reflexivity.
  - intros i Hi. apply Hcounts. lia.
Qed.

Section Step.

Variable Problem : Type.
Variable CondEdge : Z -> Z -> Problem -> Z -> Z -> bool.
Variable ApplyEdge : Z -> Z -> Problem -> Z -> Z -> Problem.
Variable LOG_THREADS : nat.
Variable MARK_PREDECESSORS : bool.
Variable label : Z.
Variables d_row_offsets d_column_indices : list Z.
Variables d_column_offsets d_row_indices : list Z.
Variable d_in_key_queue : list Z.
Variable queue_length : Z.
Variables nodes edges : Z.
Variable ADVANCE_TYPE : TYPE.
Variable R_TYPE : REDUCE_TYPE.
Variable R_OP : REDUCE_OP.
Variable num_blocks : nat.

Hypothesis graph : spec.csr d_row_offsets d_column_indices nodes edges.
Hypothesis vertex_input : is_vertex_input ADVANCE_TYPE = true.
Hypothesis threads : (1 <= LOG_THREADS)%nat.
Hypothesis frontier_ok :
  forall j, 0 <= j < queue_length ->
    exists v, read d_in_key_queue j = Some v /\ 0 <= v < nodes.
Hypothesis frontier_short : 0 < queue_length < edges.
Hypothesis length_fits : queue_length + THREADS LOG_THREADS <= INT_MAX.
Hypothesis blocks :
  (Z.of_nat num_blocks - 1) * THREADS LOG_THREADS < queue_length
  <= Z.of_nat num_blocks * THREADS LOG_THREADS.

#[local] Abbreviation element := (spec.element d_in_key_queue).
#[local] Abbreviation first := (spec.first_edge d_row_offsets d_in_key_queue).
#[local] Abbreviation len :=
  (spec.edge_count d_row_offsets d_in_key_queue queue_length nodes edges).

(** A frontier slot of a graph in CSR form: its vertex, its offsets and
    the length [GetNeighborListLength] returns for it. *)
Lemma frontier_slot (j : Z) :
  0 <= j < queue_length ->
  exists second,
    read d_in_key_queue j = Some (element j)
    /\ 0 <= element j < nodes
    /\ read d_row_offsets (element j) = Some (first j)
    /\ read d_row_offsets (element j + 1) = Some second
    /\ 0 <= first j <= second /\ second <= edges
    /\ GetNeighborListLength d_row_offsets (element j) nodes edges
       = Some (len j)
    /\ len j = second - first j.
Proof.
  intros Hj.
  destruct graph as (Hnodes & Hrows & Hcols & Hedges & Hlast & Hpos & Hmono).
  destruct (frontier_ok j Hj) as (v & Hv & Hrange).
  assert (Hel : element j = v)
    by (unfold spec.element; rewrite Hv; reflexivity).
  destruct (read_is_Some d_row_offsets v) as [f Hf]; [lia|].
  destruct (read_is_Some d_row_offsets (v + 1)) as [s Hs]; [lia|].
  assert (Hfirst : first j = f)
    by (unfold spec.first_edge; rewrite Hel, Hf; reflexivity).
  pose proof (Hpos _ _ Hf). pose proof (Hmono v (v + 1) f s ltac:(lia) Hf Hs).
  pose proof (Hmono (v + 1) nodes s edges ltac:(lia) Hs Hlast).
  assert (Hlen : GetNeighborListLength d_row_offsets v nodes edges
                 = Some (s - f)).
  { apply GetNeighborListLength_csr; (assumption || lia). }
  exists s. rewrite Hel, Hfirst. repeat split; try (assumption || lia).
  - unfold spec.edge_count.
    destruct (Z.eqb_spec j queue_length); [lia|].
    rewrite Hv. cbn [mbind option_bind]. rewrite Hlen. reflexivity.
  - unfold spec.edge_count.
    destruct (Z.eqb_spec j queue_length); [lia|].
    rewrite Hv. cbn [mbind option_bind]. rewrite Hlen. reflexivity.
Qed.

#[local] Abbreviation owed :=
  (spec.relaxations LOG_THREADS MARK_PREDECESSORS label d_column_indices
               ADVANCE_TYPE element element first len).

Lemma frontier_take :
  take (Z.to_nat queue_length) d_in_key_queue
  = element <$> seqZ 0 queue_length.
Proof.
  apply list_eq. intros i. rewrite list_lookup_fmap.
  destruct (Nat.lt_ge_cases i (Z.to_nat queue_length)) as [Hlt|Hge].
  - rewrite lookup_take_lt, lookup_seqZ_lt by lia. cbn.
    destruct (frontier_slot (Z.of_nat i)) as (_ & Hread & _); [lia|].
    apply read_Some in Hread as [_ Hread].
    rewrite Nat2Z.id in Hread. assumption.
  - rewrite lookup_take_ge, lookup_seqZ_ge by lia. reflexivity.
Qed.

(** The edges of the calls owed to the frontier are its outgoing
    edges. *)
Lemma outgoing_edges_owed :
  spec.outgoing_edges ADVANCE_TYPE d_row_offsets d_column_indices
                      (take (Z.to_nat queue_length) d_in_key_queue)
  = Some (r_edge <$> owed 0 queue_length).
Proof.
  unfold spec.outgoing_edges. rewrite frontier_take.
  rewrite (proj2 (mapM_Some _ _
             ((fun j => seqZ (first j) (len j)) <$> seqZ 0 queue_length))).
  - cbn [mbind option_bind]. f_equal. unfold spec.relaxations.
    rewrite fmap_bind_list, bind_concat. f_equal.
    apply list_fmap_ext. intros i j Hj.
    rewrite <- list_fmap_compose.
    rewrite <- (Z.add_0_r (first j)) at 1. rewrite <- fmap_add_seqZ.
    apply list_fmap_ext. intros. reflexivity.
  - apply Forall2_fmap, Forall_Forall2_diag, list.Forall_forall.
    intros j Hj. apply elem_of_seqZ in Hj.
    destruct (frontier_slot j) as (second & _ & _ & Hf & Hs & _ & _ & _ & Hlen);
      [lia|].
    unfold spec.frontier_vertex. rewrite vertex_input.
    cbn [mbind option_bind]. rewrite Hf. cbn [mbind option_bind].
    rewrite Hs. cbn [mbind option_bind]. rewrite Hlen. reflexivity.
Qed.

(** On a vertex frontier that is shorter than the number of edges of
    the graph, one step on the light path calls the functor once for
    every outgoing edge of every frontier element and leaves in the
    output frontier what the outcome of [CondEdge] asks for. *)
Theorem LaunchKernel_light_relaxes_every_edge_once
        (partitioned_scanned_edges : list Z)
        (st : AdvanceState Problem) (out : list Z) :
  queue_length < GetSize partitioned_scanned_edges ->
  spec.edges_before len queue_length <= INT_MAX ->
  d_out Problem st = Some out ->
  spec.edges_before len queue_length <= GetSize out ->
  exists st' new out' outgoing,
    LaunchKernel_light Problem CondEdge ApplyEdge LOG_THREADS
                       MARK_PREDECESSORS label
                       d_row_offsets d_column_indices
                       d_column_offsets d_row_indices
                       d_in_key_queue queue_length nodes edges
                       ADVANCE_TYPE false false R_TYPE R_OP None
                       num_blocks partitioned_scanned_edges st
    = Some st'
    /\ visits Problem st' = new ++ visits Problem st
    /\ spec.outgoing_edges ADVANCE_TYPE d_row_offsets d_column_indices
                           (take (Z.to_nat queue_length) d_in_key_queue)
       = Some outgoing
    /\ visit_edge <$> new ≡ₚ outgoing
    /\ relaxation_of <$> new ≡ₚ owed 0 queue_length
    /\ spec.answered Problem CondEdge ApplyEdge (problem Problem st) new
    /\ problem Problem st'
       = spec.replay Problem ApplyEdge (problem Problem st) new
    /\ d_out Problem st' = Some out'
    /\ (forall vis x, vis ∈ new -> spec.stored ADVANCE_TYPE vis = Some x ->
                      read out' (visit_out vis) = Some x)
    /\ (forall i, ~ 0 <= i < spec.edges_before len queue_length ->
                  read out' i = read out i).
Proof.
  intros Hroom Hmax Hout Hcap.
  pose proof (THREADS_pos LOG_THREADS) as HT.
  destruct graph as (Hnodes & Hrows & Hcols & Hedges & Hlast & Hpos & Hmono).
  unfold LaunchKernel_light.
  destruct (GetEdgeCounts_kernel_counts
              d_row_offsets d_column_indices d_column_offsets d_row_indices
              d_in_key_queue queue_length nodes edges ADVANCE_TYPE
              false false vertex_input ltac:(lia) ltac:(cbn; lia)
              ltac:(intros i Hi;
                    destruct (frontier_slot i Hi)
                      as (s & Hq & Hv & _ & _ & _ & _ & Hl & _);
                    exists (element i), (len i);
                    split; [assumption|]; split; [lia|exact Hl])
              (num_blocks * Z.to_nat (THREADS LOG_THREADS))
              partitioned_scanned_edges)
    as (counts & Hcounts & Hsize & Hwritten & _).
  { lia. }
  rewrite Hcounts. cbn [mbind option_bind].
  destruct (RelaxLightEdges_relaxes_every_edge_once
              Problem CondEdge ApplyEdge LOG_THREADS MARK_PREDECESSORS label
              d_row_offsets d_column_offsets d_column_indices d_row_indices
              (Scan queue_length counts) d_in_key_queue queue_length
              nodes edges ADVANCE_TYPE R_TYPE R_OP None
              element element first len)
    with (num_blocks := num_blocks) (st := st) (out := out)
    as (st' & new & out' & Hrun & Hvisits & Hperm & Hans & Hprob & Hout'
        & Hstored & Hother); try (assumption || lia || reflexivity).
  - intros j Hj. destruct (frontier_slot j Hj) as (s & Hq & _). assumption.
  - intros j Hj. unfold spec.frontier_vertex. rewrite vertex_input.
    reflexivity.
  - intros j Hj. destruct (frontier_slot j Hj) as (s & _ & _ & Hf & _).
    assumption.
  - intros j Hj.
    destruct (frontier_slot j Hj) as (s & _ & _ & _ & _ & Hord & Hs & _ & Hl).
    lia.
  - apply Scan_edges_before; [lia| |assumption].
    intros j Hj. split.
    + apply Hwritten. nia.
    + destruct (frontier_slot j Hj)
        as (s & _ & _ & _ & _ & Hord & Hs & _ & Hl). lia.
  - exists st', new, out', (r_edge <$> owed 0 queue_length).
    split; [assumption|]. split; [assumption|].
    split; [apply outgoing_edges_owed|]. split.
    { rewrite <- Hperm, <- list_fmap_compose. reflexivity. }
    repeat (split; [assumption|]). assumption.
Qed.

End Step.

(** ** Reduce values of rejected edges *)

(** C4 (the code falls short of it).  On the graph with the edges
    0 -> 1, 0 -> 2, 1 -> 2, the frontier of the vertices 0 and 1, a
    functor that rejects every edge and the operator [BIT_AND]:
    [RelaxPartitionedEdges2] with [MARK_PREDECESSORS] stores 0 at the
    three output positions of the reduce frontier; the same kernel
    without [MARK_PREDECESSORS] and [RelaxLightEdges] with and without it
    store all ones. *)
Theorem RelaxPartitionedEdges2_bit_and_stores_zero :
  d_reduce_frontier nat
    <$> RelaxPartitionedEdges2
          nat reject_CondEdge count_ApplyEdge 1 true 0
          wedge_row_offsets wedge_column_indices []
          [2; 3] [0; 2] [0; 1] 2 3 3 3 V2V false VERTEX BIT_AND
          (Some [5; 5; 5]) 1 (fresh_state 3 9)
  = Some [0; 0; 0]
  /\ d_reduce_frontier nat
       <$> RelaxPartitionedEdges2
             nat reject_CondEdge count_ApplyEdge 1 false 0
             wedge_row_offsets wedge_column_indices []
             [2; 3] [0; 2] [0; 1] 2 3 3 3 V2V false VERTEX BIT_AND
             (Some [5; 5; 5]) 1 (fresh_state 3 9)
     = Some [-1; -1; -1]
  /\ d_reduce_frontier nat
       <$> RelaxLightEdges
             nat reject_CondEdge count_ApplyEdge 1 true 0
             wedge_row_offsets [] wedge_column_indices []
             [2; 3] [0; 1] 2 3 3 V2V false false VERTEX BIT_AND
             (Some [5; 5; 5]) 1 (fresh_state 3 9)
     = Some [-1; -1; -1]
  /\ d_reduce_frontier nat
       <$> RelaxLightEdges
             nat reject_CondEdge count_ApplyEdge 1 false 0
             wedge_row_offsets [] wedge_column_indices []
             [2; 3] [0; 1] 2 3 3 V2V false false VERTEX BIT_AND
             (Some [5; 5; 5]) 1 (fresh_state 3 9)
     = Some [-1; -1; -1]
  /\ spec.reduce_identity BIT_AND = -1
  /\ wrap 4294967295 = -1.
Proof. repeat split; reflexivity. Qed.

(** Every other switch and operator stores the identity element. *)
Lemma absent_reduce_value_identity (k : KERNEL) (mark : bool)
      (R_OP : REDUCE_OP) :
  (k, mark, R_OP) <> (PartitionedEdges2, true, BIT_AND) ->
  absent_reduce_value k mark R_OP = spec.reduce_identity R_OP.
Proof. destruct k, mark, R_OP; intros H; try reflexivity; congruence. Qed.

(** All ones is the identity of bitwise and. *)
Lemma bit_and_identity (x : Z) : Z.land (spec.reduce_identity BIT_AND) x = x.
Proof. apply Z.land_m1_l. Qed.

(** ** Faults *)

(** C6 (the code falls short of it).  With two devices and a failure
    recorded by the second one, both stop conditions return true, but
    [EnactCC] and [EnactBC] look at the first two slots only, which
    belong to the first device, and return [cudaSuccess]. *)
Theorem Enact_overlooks_failure_of_second_device :
  cc.Stop_Condition second_device_failed
                    [idle_slice 2; idle_slice 2] 2 = Some true
  /\ bc.Backward_Stop_Condition false second_device_failed 2 = Some true
  /\ cc.EnactCC second_device_failed 2 = Some cudaSuccess
  /\ bc.EnactBC second_device_failed 2 = Some cudaSuccess
  /\ spec.first_failure second_device_failed = 77.
Proof. repeat split; reflexivity. Qed.

(** ** The entry point [cc] *)

(** C9 (the code falls short of it).  Whatever the problem computes,
    [runCC] hands out the address of its local [num_components]; the
    address leads to the count until [runCC] returns, and to nothing when
    [cc] reads the count through it. *)
Theorem cc_reads_count_of_returned_runCC
        (Extract : Z -> Z -> list Z -> list Z -> list Z)
        (problem_num_components : Z -> Z -> list Z -> list Z -> Z)
        (num_nodes num_edges : Z) (row_offsets col_indices : list Z)
        (grapho graphi : cc_app.GRGraph) :
  snd (cc_app.cc Extract problem_num_components
                 num_nodes num_edges row_offsets col_indices) = None
  /\ (let r := cc_app.runCC_body Extract problem_num_components
                                 graphi grapho cc_app.empty_memory in
      cc_app.load (snd r) (cc_app.aggregation (fst r))
      = Some (problem_num_components
                (cc_app.num_nodes graphi) (cc_app.num_edges graphi)
                (cc_app.row_offsets graphi) (cc_app.col_indices graphi))).
Proof. split; reflexivity. Qed.

(** ** Queue sizes *)

Lemma Check_Size_room (device_alloc : Z -> option (Z -> Z))
      (target_length : Z) (array : list Z) (keep_content : bool) :
  fst (Check_Size device_alloc true target_length array keep_content)
  = cudaSuccess ->
  target_length
  <= GetSize (snd (Check_Size device_alloc true target_length array
                              keep_content)).
Proof.
  unfold Check_Size.
  destruct (Z.ltb_spec (GetSize array) target_length) as [Hlt|Hge];
    [|intros _; exact Hge].
  pose proof (GetSize_nonneg array).
  destruct (device_alloc target_length) as [content|]; [|discriminate].
  intros _. destruct keep_content; cbn [snd].
  - rewrite GetSize_app, GetSize_fmap_seqZ by lia. lia.
  - rewrite GetSize_fmap_seqZ by lia. lia.
Qed.

(** What one [Check_Size] on a slot of a buffer pair leaves behind. *)
Lemma Check_Size_slot_spec (device_alloc : Z -> option (Z -> Z))
      (target : Z) (arrays : list (list Z)) (slot : Z) (keep : bool) :
  0 <= slot < GetSize arrays ->
  exists r arrays',
    Check_Size_slot device_alloc true target arrays slot keep
    = Some (r, arrays')
    /\ GetSize arrays' = GetSize arrays
    /\ (forall j, j <> slot -> read arrays' j = read arrays j)
    /\ (exists a, read arrays' slot = Some a
                  /\ (r = cudaSuccess -> target <= GetSize a)).
Proof.
  intros Hslot. unfold Check_Size_slot.
  destruct (read_is_Some arrays slot Hslot) as [a Ha]. rewrite Ha. cbn.
  destruct (write_is_Some arrays slot
              (snd (Check_Size device_alloc true target a keep)) Hslot)
    as [arrays' Hw].
  rewrite Hw. cbn. eexists _, _. split; [reflexivity|].
  split; [eapply GetSize_write; eassumption|].
  split; [intros j Hj; eapply read_write_ne; eauto|].
  eexists. split; [eapply read_write_eq; eassumption|].
  apply Check_Size_room.
Qed.

(** C5 (as amended).  [Forward_Iteration::Check_Queue_Size] returns, and
    when it leaves [cudaSuccess] behind the slot to be written has room
    for the requested length and the slot to be read for [nodes + 2], for
    the keys and, with [USE_DOUBLE_BUFFER], for the values;
    [Backward_Iteration::Check_Queue_Size] and
    [CCIteration::Check_Queue_Size] change nothing. *)
Theorem Check_Queue_Size_room
        (device_alloc : Z -> option (Z -> Z)) (USE_DOUBLE_BUFFER : bool)
        (request_length nodes : Z) (s : bc.IterationState) :
  selector (bc.frontier_attribute s) = 0
  \/ selector (bc.frontier_attribute s) = 1 ->
  GetSize (keys (bc.frontier_queue s)) = 2 ->
  GetSize (values (bc.frontier_queue s)) = 2 ->
  0 <= nodes <= INT_MAX - 2 ->
  (exists s',
      bc.Forward_Check_Queue_Size device_alloc USE_DOUBLE_BUFFER
                                  request_length nodes s = Some s'
      /\ bc.frontier_attribute s' = bc.frontier_attribute s
      /\ (retval (bc.enactor_stats s') = cudaSuccess ->
          spec.room_for request_length nodes
                        (keys (bc.frontier_queue s'))
                        (selector (bc.frontier_attribute s))
          /\ (USE_DOUBLE_BUFFER = true ->
              spec.room_for request_length nodes
                            (values (bc.frontier_queue s'))
                            (selector (bc.frontier_attribute s)))))
  /\ bc.Backward_Check_Queue_Size request_length nodes s = Some s
  /\ cc.Check_Queue_Size request_length (bc.frontier_queue s)
                         (bc.frontier_attribute s) (bc.enactor_stats s) nodes
     = (bc.frontier_queue s, bc.enactor_stats s).
Proof.
  intros Hsel Hk Hv Hn.
  split; [|split; reflexivity].
  set (sel := selector (bc.frontier_attribute s)) in *.
  assert (Hother : 0 <= Z.lxor sel 1 < 2 /\ Z.lxor sel 1 <> sel)
    by (destruct Hsel as [Hs | Hs]; rewrite Hs;
        [change (Z.lxor 0 1) with 1 | change (Z.lxor 1 1) with 0]; lia).
  assert (Hin : 0 <= sel < 2) by (destruct Hsel as [Hs | Hs]; rewrite Hs; lia).
  assert (Hw : wrap (nodes + 2) = nodes + 2)
    by (apply wrap_id; unfold in_range, INT_MIN, INT_MAX in *; lia).
  unfold bc.Forward_Check_Queue_Size. fold sel. rewrite Hw.
  destruct (Check_Size_slot_spec device_alloc request_length
              (keys (bc.frontier_queue s)) (Z.lxor sel 1) false)
    as (r1 & k1 & -> & Hk1 & Hk1o & (o1 & Ho1 & Hr1)); [lia|].
  cbn.
  destruct (Z.eqb_spec r1 cudaSuccess) as [->|Hf1]; cbn.
  2:{ eexists. split; [reflexivity|]. split; [reflexivity|].
      cbn. intros; contradiction. }
  destruct (Check_Size_slot_spec device_alloc (nodes + 2) k1 sel true)
    as (r2 & k2 & -> & Hk2 & Hk2o & (i2 & Hi2 & Hr2)); [lia|].
  cbn.
  destruct (Z.eqb_spec r2 cudaSuccess) as [->|Hf2]; cbn.
  2:{ eexists. split; [reflexivity|]. split; [reflexivity|].
      cbn. intros; contradiction. }
  assert (Hroom : spec.room_for request_length nodes k2 sel).
  { exists o1, i2. rewrite Hk2o by lia. auto. }
  destruct USE_DOUBLE_BUFFER.
  2:{ eexists. split; [reflexivity|]. split; [reflexivity|].
      cbn. intros _. split; [exact Hroom|discriminate]. }
  destruct (Check_Size_slot_spec device_alloc request_length
              (values (bc.frontier_queue s)) (Z.lxor sel 1) false)
    as (r3 & v3 & -> & Hv3 & Hv3o & (o3 & Ho3 & Hr3)); [lia|].
  cbn.
  destruct (Z.eqb_spec r3 cudaSuccess) as [->|Hf3]; cbn.
  2:{ eexists. split; [reflexivity|]. split; [reflexivity|].
      cbn. intros; contradiction. }
  destruct (Check_Size_slot_spec device_alloc (nodes + 2) v3 sel true)
    as (r4 & v4 & -> & Hv4 & Hv4o & (i4 & Hi4 & Hr4)); [lia|].
  cbn. eexists. split; [reflexivity|]. split; [reflexivity|].
  cbn. intros ->. split; [exact Hroom|]. intros _.
  exists o3, i4. rewrite Hv4o by lia. auto.
Qed.

Lemma Check_Queue_Size_room_witness :
  exists s',
    bc.Forward_Check_Queue_Size zeroed true 5 3
      {| bc.enactor_stats := ok; bc.frontier_attribute := attribute 1;
         bc.frontier_queue := empty_queue;
         bc.forward_queue_offsets := [0]; bc.forward_output := [] |}
    = Some s'
    /\ spec.room_for 5 3 (keys (bc.frontier_queue s')) 0.
Proof.
  destruct (Check_Queue_Size_room zeroed true 5 3
              {| bc.enactor_stats := ok; bc.frontier_attribute := attribute 1;
                 bc.frontier_queue := empty_queue;
                 bc.forward_queue_offsets := [0]; bc.forward_output := [] |})
    as [(s' & Hs' & _ & Hroom) _].
  - left; reflexivity.
  - reflexivity.
  - reflexivity.
  - unfold INT_MAX; lia.
  - exists s'. split; [exact Hs'|].
    apply Hroom. vm_compute in Hs'. injection Hs' as <-. reflexivity.
Defined.

(** C5 (as stated, refuted).  After [CCIteration::Check_Queue_Size] and
    after [Backward_Iteration::Check_Queue_Size] for a request of five
    elements on empty slots, no slot has room for anything. *)
Lemma Check_Queue_Size_of_CC_and_Backward_grow_nothing :
  ~ spec.room_for 5 3
      (keys (fst (cc.Check_Queue_Size 5 empty_queue (attribute 1) ok 3))) 0
  /\ (forall s',
        bc.Backward_Check_Queue_Size 5 3
          {| bc.enactor_stats := ok; bc.frontier_attribute := attribute 1;
             bc.frontier_queue := empty_queue;
             bc.forward_queue_offsets := [0]; bc.forward_output := [] |}
        = Some s' ->
        ~ spec.room_for 5 3 (keys (bc.frontier_queue s')) 0).
Proof.
  split.
  - intros (o & i & Ho & Hsz & _). vm_compute in Ho.
    injection Ho as <-. vm_compute in Hsz. apply Hsz. reflexivity.
  - intros s' [= <-] (o & i & Ho & Hsz & _). vm_compute in Ho.
    injection Ho as <-. vm_compute in Hsz. apply Hsz. reflexivity.
Qed.

(** ** Stop conditions *)

(** Without a recorded fault the opening loop falls through. *)
Lemma any_fault_none (enactor_stats : list EnactorStats) (num_gpus : Z) :
  GetSize enactor_stats = num_gpus * num_gpus ->
  Forall (fun s => retval s = cudaSuccess) enactor_stats ->
  any_fault enactor_stats num_gpus = Some false.
Proof.
  intros Hsize Hok. unfold any_fault.
  destruct (any_index_iff
              (fun gpu => s ← read enactor_stats gpu;
                          Some (negb (retval s =? cudaSuccess)))
              (fun _ => False) 0 (Z.to_nat (num_gpus * num_gpus)))
    as (b & -> & Hiff).
  - intros k Hk. destruct (read_is_Some enactor_stats (0 + k)) as [s Hs];
      [lia|].
    rewrite Hs. cbn. rewrite (read_Forall _ _ _ _ Hok Hs).
    exists false. split; [reflexivity|]. split; [discriminate|tauto].
  - destruct b; [|reflexivity].
    destruct Hiff as [Hiff _]. destruct (Hiff eq_refl) as (_ & _ & []).
Qed.

(** A recorded fault makes the opening loop return true. *)
Lemma any_fault_some (enactor_stats : list EnactorStats) (num_gpus : Z)
      (gpu : Z) (s : EnactorStats) :
  GetSize enactor_stats = num_gpus * num_gpus ->
  read enactor_stats gpu = Some s -> retval s <> cudaSuccess ->
  any_fault enactor_stats num_gpus = Some true.
Proof.
  intros Hsize Hs Hbad. unfold any_fault.
  destruct (any_index_iff
              (fun gpu => s ← read enactor_stats gpu;
                          Some (negb (retval s =? cudaSuccess)))
              (fun gpu => exists s, read enactor_stats gpu = Some s
                                    /\ retval s <> cudaSuccess)
              0 (Z.to_nat (num_gpus * num_gpus)))
    as (b & -> & Hiff).
  - intros k Hk. destruct (read_is_Some enactor_stats (0 + k)) as [s' Hs'];
      [lia|].
    rewrite Hs'. cbn. eexists. split; [reflexivity|].
    destruct (Z.eqb_spec (retval s') cudaSuccess) as [He|He]; cbn.
    + split; [discriminate|]. intros (s'' & Hs'' & Hne). congruence.
    + split; [|reflexivity]. intros _. eauto.
  - f_equal. apply Hiff.
    assert (0 <= gpu < GetSize enactor_stats).
    { apply read_Some in Hs as [? Hl]. apply lookup_lt_Some in Hl.
      unfold GetSize. lia. }
    exists gpu. split; [lia|]. rewrite Z.add_0_l. eauto.
Qed.

(** C1 (as amended).  Without a recorded fault, [Stop_Condition] of
    connected components returns; for two devices or more it returns
    true exactly when every device has completed a turn and no incoming
    length of a peer and no outgoing length is left; for a single device
    it returns true exactly when the device has completed a turn. *)
Theorem Stop_Condition_without_fault
        (enactor_stats : list EnactorStats) (data_slice : list DataSlice)
        (num_gpus : Z) :
  1 <= num_gpus ->
  GetSize enactor_stats = num_gpus * num_gpus ->
  Forall (fun s => retval s = cudaSuccess) enactor_stats ->
  slices_of num_gpus data_slice ->
  exists b,
    cc.Stop_Condition enactor_stats data_slice num_gpus = Some b
    /\ (b = true <->
        if num_gpus <? 2
        then forall d, data_slice !! O = Some d -> 0 < turn d
        else spec.quiescent data_slice).
Proof.
  intros Hn Hsize Hok (Hds & Hwf).
  unfold cc.Stop_Condition.
  rewrite (any_fault_none _ _ Hsize Hok). cbn [mbind option_bind].
  destruct (any_index_iff
              (fun gpu => d ← read data_slice gpu; Some (turn d =? 0))
              (fun gpu => exists d, read data_slice gpu = Some d
                                    /\ turn d = 0)
              0 (Z.to_nat num_gpus))
    as (idle & Hidle & Hidle_iff).
  { intros k Hk. destruct (read_is_Some data_slice (0 + k)) as [d Hd]; [lia|].
    rewrite Hd. cbn. eexists. split; [reflexivity|].
    destruct (Z.eqb_spec (turn d) 0) as [He|He].
    - split; [|reflexivity]. intros _. eauto.
    - split; [discriminate|]. intros (d' & Hd' & H0). congruence. }
  destruct (any_index_iff
              (fun gpu =>
                 any_index (fun peer =>
                   any_index (fun i =>
                     d ← read data_slice gpu;
                     row ← read (in_length d) i;
                     len ← read row peer;
                     Some (negb (len =? 0)))
                     0 2)
                   1 (Z.to_nat (num_gpus - 1)))
              (fun gpu => exists peer i d row len,
                   1 <= peer < num_gpus /\ 0 <= i < 2
                   /\ read data_slice gpu = Some d
                   /\ read (in_length d) i = Some row
                   /\ read row peer = Some len /\ len <> 0)
              0 (Z.to_nat num_gpus))
    as (incoming & Hincoming & Hincoming_iff).
  { intros g Hg. destruct (read_is_Some data_slice (0 + g)) as [d Hd]; [lia|].
    pose proof (read_Forall _ _ _ _ Hwf Hd) as (_ & Hin2 & Hrows & _).
    destruct (any_index_iff
                (fun peer =>
                   any_index (fun i =>
                     d ← read data_slice (0 + g);
                     row ← read (in_length d) i;
                     len ← read row peer;
                     Some (negb (len =? 0)))
                     0 2)
                (fun peer => exists i row len,
                     0 <= i < 2 /\ read (in_length d) i = Some row
                     /\ read row peer = Some len /\ len <> 0)
                1 (Z.to_nat (num_gpus - 1)))
      as (b & Hb & Hb_iff).
    { intros p Hp.
      destruct (any_index_iff
                  (fun i =>
                     d ← read data_slice (0 + g);
                     row ← read (in_length d) i;
                     len ← read row (1 + p);
                     Some (negb (len =? 0)))
                  (fun i => exists row len,
                       read (in_length d) i = Some row
                       /\ read row (1 + p) = Some len /\ len <> 0)
                  0 2)
        as (b & Hb & Hb_iff).
      { intros i Hi. rewrite Hd. cbn.
        destruct (read_is_Some (in_length d) (0 + i)) as [row Hrow]; [lia|].
        rewrite Hrow. cbn.
        pose proof (read_Forall _ _ _ _ Hrows Hrow) as Hlen. cbn in Hlen.
        destruct (read_is_Some row (1 + p)) as [len Hl]; [lia|].
        rewrite Hl. cbn. eexists. split; [reflexivity|].
        destruct (Z.eqb_spec len 0) as [He|He]; cbn.
        - split; [discriminate|]. intros (r' & l' & Hr' & Hl' & Hne).
          congruence.
        - split; [|reflexivity]. intros _. eauto. }
      exists b. split; [exact Hb|]. rewrite Hb_iff. split.
      - intros (i & Hi & row & len & Hrow & Hl & Hne).
        exists (0 + i), row, len. repeat split; try assumption; lia.
      - intros (i & row & len & Hi & Hrow & Hl & Hne).
        exists i. split; [lia|]. rewrite Z.add_0_l. eauto. }
    exists b. split; [exact Hb|]. rewrite Hb_iff. split.
    - intros (p & Hp & i & row & len & Hi & Hrow & Hl & Hne).
      exists (1 + p), i, d, row, len. repeat split; try assumption; lia.
    - intros (p & i & d' & row & len & Hp & Hi & Hd' & Hrow & Hl & Hne).
      assert (d' = d) as -> by congruence.
      exists (p - 1). split; [lia|].
      replace (1 + (p - 1)) with p by lia. eauto 10. }
  destruct (any_index_iff
              (fun gpu =>
                 any_index (fun peer =>
                   d ← read data_slice gpu;
                   len ← read (out_length d) peer;
                   Some (negb (len =? 0)))
                   0 (Z.to_nat num_gpus))
              (fun gpu => exists peer d len,
                   read data_slice gpu = Some d
                   /\ read (out_length d) peer = Some len /\ len <> 0)
              0 (Z.to_nat num_gpus))
    as (outgoing & Houtgoing & Houtgoing_iff).
  { intros g Hg. destruct (read_is_Some data_slice (0 + g)) as [d Hd]; [lia|].
    pose proof (read_Forall _ _ _ _ Hwf Hd) as (_ & _ & _ & Hout).
    destruct (any_index_iff
                (fun peer =>
                   d ← read data_slice (0 + g);
                   len ← read (out_length d) peer;
                   Some (negb (len =? 0)))
                (fun peer => exists len,
                     read (out_length d) peer = Some len /\ len <> 0)
                0 (Z.to_nat num_gpus))
      as (b & Hb & Hb_iff).
    { intros p Hp. rewrite Hd. cbn.
      destruct (read_is_Some (out_length d) (0 + p)) as [len Hl]; [lia|].
      rewrite Hl. cbn. eexists. split; [reflexivity|].
      destruct (Z.eqb_spec len 0) as [He|He]; cbn.
      - split; [discriminate|]. intros (l' & Hl' & Hne). congruence.
      - split; [|reflexivity]. intros _. eauto. }
    exists b. split; [exact Hb|]. rewrite Hb_iff. split.
    - intros (p & Hp & len & Hl & Hne). eauto 10.
    - intros (p & d' & len & Hd' & Hl & Hne).
      assert (d' = d) as -> by congruence.
      pose proof (read_in_range _ _ _ Hl).
      exists p. split; [lia|]. rewrite Z.add_0_l. eauto. }
  rewrite Hidle, Hincoming, Houtgoing. cbn [mbind option_bind].
  destruct (read_is_Some data_slice 0) as [d0 Hd0]; [lia|].
  assert (Hd0' : data_slice !! O = Some d0)
    by (rewrite <- (read_of_nat data_slice O); exact Hd0).
  pose proof (read_Forall _ _ _ _ Hwf Hd0) as (Ht0 & _).
  (* the three loops, read on the component ids of the devices *)
  assert (Hq : spec.quiescent data_slice <->
               idle = false /\ incoming = false /\ outgoing = false).
  { split.
    - intros Hq. repeat split.
      + destruct idle; [|reflexivity].
        destruct Hidle_iff as [H _].
        destruct (H eq_refl) as (g & Hg & d & Hd & Hz).
        rewrite read_lookup in Hd by lia.
        destruct (Hq _ _ Hd) as (Hpos & _). lia.
      + destruct incoming; [|reflexivity].
        destruct Hincoming_iff as [H _].
        destruct (H eq_refl)
          as (g & Hg & p & i & d & row & len & Hp & Hi & Hd & Hrow & Hl & Hne).
        rewrite read_lookup in Hd by lia. rewrite read_lookup in Hrow by lia.
        rewrite read_lookup in Hl by lia.
        destruct (Hq _ _ Hd) as (_ & Hall & _).
        exfalso. apply Hne. eapply (Hall _ _ (Z.to_nat p)); eauto. lia.
      + destruct outgoing; [|reflexivity].
        destruct Houtgoing_iff as [H _].
        destruct (H eq_refl) as (g & Hg & p & d & len & Hd & Hl & Hne).
        pose proof (read_in_range _ _ _ Hl).
        rewrite read_lookup in Hd by lia. rewrite read_lookup in Hl by lia.
        destruct (Hq _ _ Hd) as (_ & _ & Hall).
        exfalso. apply Hne. eapply Hall; eauto.
    - intros (Hi & Hinc & Ho) g d Hd.
      rewrite <- read_of_nat in Hd.
      pose proof (read_in_range _ _ _ Hd) as Hg.
      pose proof (read_Forall _ _ _ _ Hwf Hd) as (Ht & Hin2 & Hrows & Hout).
      repeat split.
      + destruct (Z.eq_dec (turn d) 0) as [Hz|Hz]; [|lia].
        subst idle. destruct Hidle_iff as [_ H]. discriminate H.
        exists (Z.of_nat g). split; [lia|]. rewrite Z.add_0_l. eauto.
      + intros i row p len Hrow Hp Hl.
        destruct (Z.eq_dec len 0) as [|Hne]; [assumption|].
        subst incoming. destruct Hincoming_iff as [_ H]. discriminate H.
        rewrite <- read_of_nat in Hrow. rewrite <- read_of_nat in Hl.
        pose proof (read_in_range _ _ _ Hrow).
        pose proof (read_Forall _ _ _ _ Hrows Hrow) as Hlen. cbn in Hlen.
        pose proof (read_in_range _ _ _ Hl).
        exists (Z.of_nat g). split; [lia|]. rewrite Z.add_0_l.
        exists (Z.of_nat p), (Z.of_nat i), d, row, len.
        repeat split; try assumption; lia.
      + intros p len Hl.
        destruct (Z.eq_dec len 0) as [|Hne]; [assumption|].
        subst outgoing. destruct Houtgoing_iff as [_ H]. discriminate H.
        rewrite <- read_of_nat in Hl.
        exists (Z.of_nat g). split; [lia|]. rewrite Z.add_0_l.
        exists (Z.of_nat p), d, len. auto. }
  destruct (Z.ltb_spec num_gpus 2) as [Hone|Hmany].
  - rewrite Hd0. cbn [mbind option_bind].
    destruct (Z.ltb_spec 0 (turn d0)) as [Hpos|Hzero]; cbn [mbind option_bind].
    + exists true. split; [reflexivity|]. split; [|reflexivity].
      intros _ d Hd. congruence.
    + assert (idle = true) as ->.
      { apply Hidle_iff. exists 0. split; [lia|]. exists d0.
        split; [exact Hd0|lia]. }
      exists false. split; [reflexivity|]. split; [discriminate|].
      intros H. specialize (H d0 Hd0'). lia.
  - cbn [mbind option_bind]. destruct idle.
    { exists false. split; [reflexivity|]. split; [discriminate|].
      intros H. apply Hq in H as (H & _). discriminate. }
    destruct incoming.
    { exists false. split; [reflexivity|]. split; [discriminate|].
      intros H. apply Hq in H as (_ & H & _). discriminate. }
    exists (negb outgoing). split; [reflexivity|].
    rewrite Hq. destruct outgoing; cbn; intuition congruence.
Qed.

Lemma Stop_Condition_without_fault_witness :
  exists b,
    cc.Stop_Condition [ok; ok; ok; ok] [idle_slice 2; idle_slice 2] 2 = Some b
    /\ (b = true <-> spec.quiescent [idle_slice 2; idle_slice 2]).
Proof.
  apply (Stop_Condition_without_fault
           [ok; ok; ok; ok] [idle_slice 2; idle_slice 2] 2).
  - lia.
  - reflexivity.
  - repeat constructor.
  - split; [reflexivity|]. repeat constructor; cbn; lia.
Defined.

(** C1 (as stated, refuted).  A single device that has completed a turn
    and still has an outgoing length set: [Stop_Condition] returns true
    although the lengths are not all zero. *)
Lemma Stop_Condition_single_device_ignores_lengths :
  cc.Stop_Condition [ok] busy_single 1 = Some true
  /\ ~ spec.quiescent busy_single.
Proof.
  split; [reflexivity|].
  intros H. destruct (H O _ eq_refl) as (_ & _ & Hout).
  specialize (Hout O 1 eq_refl). discriminate.
Qed.

(** ** Neighbor-list lengths *)

(** C10 (as amended).  For a vertex id [v] from 0 to [INT_MAX - 1],
    offsets and a [max_edge] that lie between 0 and [INT_MAX],
    [GetNeighborListLength] returns whenever the offsets it selects
    below [max_vertex] lie inside the array: an id (or successor) at or
    beyond [max_vertex] selects the [max_edge] sentinel, and the result
    is the difference of the two selected offsets clamped below at 0,
    never negative.  For a vertex frontier ([V2V], [V2E]) and
    [max_vertex < INT_MAX], at a position [my_id] from 0 to
    [num_elements] that is below [max_edge] and inside
    [d_scanned_edges] and the column indices (the row indices with
    [in_inv]), which the thread reads, [GetEdgeCounts] writes 0 for the
    sentinel position [num_elements] and for a frontier entry that is
    negative or at or beyond [max_vertex], whatever the arrays of
    offsets are. *)
Theorem GetNeighborListLength_clamped
        (offsets : list Z) (v max_vertex max_edge : Z)
        (d_row_offsets d_column_indices d_column_offsets d_row_indices : list Z)
        (d_queue d_scanned_edges : list Z) (num_elements : Z)
        (ADVANCE_TYPE : TYPE) (in_inv out_inv : bool) (my_id entry : Z) :
  (0 <= v < INT_MAX ->
   Forall (fun o => 0 <= o <= INT_MAX) offsets ->
   0 <= max_edge <= INT_MAX ->
   (v < max_vertex -> v < GetSize offsets) ->
   (v + 1 < max_vertex -> v + 1 < GetSize offsets) ->
   exists first second,
     (if max_vertex <=? v then Some max_edge else read offsets v)
     = Some first
     /\ (if max_vertex <=? v + 1 then Some max_edge
         else read offsets (v + 1)) = Some second
     /\ GetNeighborListLength offsets v max_vertex max_edge
        = Some (Z.max 0 (second - first))
     /\ 0 <= Z.max 0 (second - first))
  /\ (is_vertex_input ADVANCE_TYPE = true ->
      max_vertex < INT_MAX ->
      0 <= my_id <= num_elements ->
      my_id < max_edge ->
      my_id < GetSize d_scanned_edges ->
      my_id < GetSize (if in_inv then d_row_indices else d_column_indices) ->
      (my_id < num_elements ->
       read d_queue my_id = Some entry
       /\ (entry < 0 \/ max_vertex <= entry)) ->
      GetEdgeCounts d_row_offsets d_column_indices d_column_offsets
                    d_row_indices d_queue num_elements max_vertex max_edge
                    ADVANCE_TYPE in_inv out_inv my_id d_scanned_edges
      = Some (<[Z.to_nat my_id := 0]> d_scanned_edges)).
Proof.
  split.
  - intros Hv Hoff Hme Hlo Hhi.
    assert (Hw1 : wrap (v + 1) = v + 1)
      by (apply wrap_id; unfold in_range, INT_MIN, INT_MAX in *; lia).
    unfold GetNeighborListLength. rewrite Hw1.
    assert (Hfirst : exists first,
               (if max_vertex <=? v then Some max_edge else read offsets v)
               = Some first /\ 0 <= first <= INT_MAX).
    { destruct (Z.leb_spec max_vertex v); [eauto|].
      destruct (read_is_Some offsets v) as [o Ho]; [lia|].
      exists o. split; [exact Ho|]. exact (read_Forall _ _ _ _ Hoff Ho). }
    assert (Hsecond : exists second,
               (if max_vertex <=? v + 1 then Some max_edge
                else read offsets (v + 1))
               = Some second /\ 0 <= second <= INT_MAX).
    { destruct (Z.leb_spec max_vertex (v + 1)); [eauto|].
      destruct (read_is_Some offsets (v + 1)) as [o Ho]; [lia|].
      exists o. split; [exact Ho|]. exact (read_Forall _ _ _ _ Hoff Ho). }
    destruct Hfirst as (first & -> & Hf), Hsecond as (second & -> & Hs).
    exists first, second. cbn [mbind option_bind].
    repeat split; [|lia]. f_equal.
    destruct (Z.ltb_spec first second).
    + rewrite wrap_id by (unfold in_range, INT_MIN, INT_MAX in *; lia). lia.
    + lia.
  - intros Hty Hmv Hid Hedge Hsc Hcol Hentry.
    assert (Hwrite : write d_scanned_edges my_id 0
                     = Some (<[Z.to_nat my_id := 0]> d_scanned_edges)).
    { unfold write. unfold GetSize in Hsc.
      destruct (Z.leb_spec 0 my_id); [|lia].
      destruct (Z.ltb_spec my_id (Z.of_nat (length d_scanned_edges))); [|lia].
      reflexivity. }
    unfold GetEdgeCounts. rewrite Hty.
    destruct (Z.ltb_spec num_elements my_id); [lia|].
    destruct (Z.leb_spec max_edge my_id); [lia|]. cbn [orb].
    destruct (read_is_Some
                (if in_inv then d_row_indices else d_column_indices) my_id)
      as [column_index ->]; [lia|].
    cbn [mbind option_bind].
    destruct (Z.leb_spec num_elements my_id) as [Hlast|Hinside].
    + cbn [mbind option_bind]. exact Hwrite.
    + destruct (Hentry Hinside) as (-> & Hout). cbn [mbind option_bind].
      destruct (Z.ltb_spec entry 0) as [|Hnn]; [exact Hwrite|].
      destruct (Z.ltb_spec max_vertex entry) as [|Hle]; [exact Hwrite|].
      cbn [orb]. assert (entry = max_vertex) as -> by lia.
      assert (Hlen : forall a, GetNeighborListLength a max_vertex
                                                     max_vertex max_edge
                               = Some 0).
      { intros a. unfold GetNeighborListLength.
        rewrite wrap_id
          by (unfold in_range, INT_MIN, INT_MAX in *; lia).
        destruct (Z.leb_spec max_vertex max_vertex); [|lia].
        destruct (Z.leb_spec max_vertex (max_vertex + 1)); [|lia].
        cbn [mbind option_bind]. rewrite Z.ltb_irrefl. reflexivity. }
      destruct out_inv; cbn [negb]; rewrite Hlen; cbn [mbind option_bind];
        destruct (my_id =? num_elements); exact Hwrite.
Qed.

Lemma GetNeighborListLength_clamped_witness :
  GetNeighborListLength [0; 2; 3; 3] 1 3 3 = Some 1
  /\ GetEdgeCounts [] [1; 2; 2] [] [] [0; -1] 2 3 3 V2V false false 1
                   [9; 9; 9]
     = Some [9; 0; 9].
Proof.
  destruct (GetNeighborListLength_clamped
              [0; 2; 3; 3] 1 3 3 [] [1; 2; 2] [] [] [0; -1] [9; 9; 9]
              2 V2V false false 1 (-1))
    as [Hlength Hcount].
  split.
  - destruct Hlength as (first & second & Hf & Hs & Hlen & _).
    + unfold INT_MAX; lia.
    + repeat constructor; unfold INT_MAX; lia.
    + unfold INT_MAX; lia.
    + intros _; reflexivity.
    + intros _; reflexivity.
    + cbn in Hf, Hs. injection Hf as <-. injection Hs as <-. exact Hlen.
  - apply Hcount.
    + reflexivity.
    + unfold INT_MAX; lia.
    + lia.
    + lia.
    + reflexivity.
    + reflexivity.
    + intros _. split; [reflexivity|lia].
Defined.

(** C10 (as stated, refuted).  For the vertex id -1 the first offset is
    read in front of the array, and for the largest vertex id the
    successor wraps around and the second offset is read in front of the
    array as well: [GetNeighborListLength] has no result there. *)
Lemma GetNeighborListLength_undefined_for_negative_vertex :
  GetNeighborListLength [0; 2; 3; 3] (-1) 3 3 = None
  /\ GetNeighborListLength [0; 2; 3; 3] INT_MAX 3 3 = None.
Proof. split; reflexivity. Qed.

(** ** Merging incoming component ids *)






Section ExpandIncoming.

Variables (keys_in vertex_associate_in org : list Z).
Hypothesis sizes : GetSize vertex_associate_in = GetSize keys_in.
Hypothesis in_range : Forall (fun key => 0 <= key < GetSize org) keys_in.
Hypothesis distinct : NoDup keys_in.



End ExpandIncoming.














(** ** The log of the forward phase *)

(** An array that has room is left alone, with or without size
    checking. *)
Lemma Check_Size_enough (device_alloc : Z -> option (Z -> Z))
      (SIZE_CHECK : bool) (target : Z) (array : list Z) (keep : bool) :
  target <= GetSize array ->
  Check_Size device_alloc SIZE_CHECK target array keep = (cudaSuccess, array).
Proof.
  intros H. unfold Check_Size.
  destruct (Z.ltb_spec (GetSize array) target); [lia|reflexivity].
Qed.

Lemma MemsetCopyVectorKernel_spec (dst : list Z) (dst_offset : Z)
      (d_src : list Z) (length : Z) :
  0 <= dst_offset -> 0 <= length ->
  dst_offset + length <= GetSize dst -> length <= GetSize d_src ->
  MemsetCopyVectorKernel dst dst_offset d_src length
  = Some (take (Z.to_nat dst_offset) dst ++ take (Z.to_nat length) d_src
          ++ drop (Z.to_nat (dst_offset + length)) dst).
Proof.
  intros Ho Hl Hd Hs. unfold MemsetCopyVectorKernel.
  destruct (Z.leb_spec length 0).
  - assert (length = 0) as -> by lia. change (Z.to_nat 0) with O.
    rewrite take_0, Z.add_0_r. cbn [app]. rewrite take_drop. reflexivity.
  - destruct (Z.leb_spec 0 dst_offset); [|lia].
    destruct (Z.leb_spec (dst_offset + length) (GetSize dst)); [|lia].
    destruct (Z.leb_spec length (GetSize d_src)); [|lia].
    reflexivity.
Qed.

(** Projections of the states the gathers build. *)
Ltac bc_simpl :=
  cbn [bc.enactor_stats bc.frontier_attribute bc.frontier_queue
       bc.forward_queue_offsets bc.forward_output
       bc.set_frontier bc.set_keys bc.set_values bc.set_retval bc.set_log
       bc.set_iteration
       iteration retval keys values buffer_selector
       selector queue_length queue_index queue_reset
       mbind option_bind fst snd negb andb].

(** One iteration of the forward phase whose counter is positive appends
    its frontier to the log. *)
Lemma Forward_FullQueue_Gather_appends
      (device_alloc : Z -> option (Z -> Z)) (SIZE_CHECK : bool)
      (frontier : list Z) (s : bc.IterationState) (cur_offset : Z)
      (slot : list Z) :
  1 <= iteration (bc.enactor_stats s) ->
  bc.back (bc.forward_queue_offsets s) = Some cur_offset ->
  0 <= cur_offset ->
  cur_offset + GetSize frontier <= GetSize (bc.forward_output s) ->
  GetSize (bc.forward_output s) <= INT_MAX ->
  read (keys (bc.frontier_queue s)) (selector (bc.frontier_attribute s))
  = Some slot ->
  GetSize frontier <= GetSize slot ->
  exists s',
    (bc.load_frontier frontier s
     ≫= bc.Forward_FullQueue_Gather device_alloc SIZE_CHECK) = Some s'
    /\ bc.forward_queue_offsets s'
       = bc.forward_queue_offsets s ++ [cur_offset + GetSize frontier]
    /\ bc.forward_output s'
       = take (Z.to_nat cur_offset) (bc.forward_output s) ++ frontier
         ++ drop (Z.to_nat (cur_offset + GetSize frontier))
                 (bc.forward_output s)
    /\ bc.enactor_stats s'
       = {| retval := cudaSuccess;
            iteration := iteration (bc.enactor_stats s) |}
    /\ selector (bc.frontier_attribute s')
       = selector (bc.frontier_attribute s)
    /\ buffer_selector (bc.frontier_queue s')
       = buffer_selector (bc.frontier_queue s)
    /\ keys (bc.frontier_queue s')
       = <[Z.to_nat (selector (bc.frontier_attribute s)) :=
             frontier ++ drop (length frontier) slot]>
           (keys (bc.frontier_queue s)).
Proof.
  intros Hit Hback Hcur Hroom Hmax Hslot Hfit.
  pose proof (GetSize_nonneg frontier) as Hf.
  pose proof (read_in_range _ _ _ Hslot) as Hsel.
  unfold bc.load_frontier. rewrite Hslot. cbn [mbind option_bind].
  destruct (Z.leb_spec (GetSize frontier) (GetSize slot)); [|lia].
  rewrite (write_Some _ _ _ Hsel). cbn [mbind option_bind].
  unfold bc.Forward_FullQueue_Gather. bc_simpl.
  destruct (Z.leb_spec (iteration (bc.enactor_stats s)) 0); [lia|].
  rewrite Hback. bc_simpl.
  rewrite wrap_id
    by (unfold in_range, INT_MIN, INT_MAX in *; lia).
  rewrite Check_Size_enough by lia. bc_simpl.
  change (cudaSuccess =? cudaSuccess) with true. bc_simpl.
  rewrite (read_write_eq _ _ _ _ (write_Some _ _ _ Hsel)).
  bc_simpl.
  rewrite MemsetCopyVectorKernel_spec; try lia.
  2:{ rewrite GetSize_app.
      pose proof (GetSize_nonneg (drop (length frontier) slot)). lia. }
  cbn [mbind option_bind]. rewrite take_GetSize_app.
  rewrite wrap_id
    by (unfold in_range, INT_MIN, INT_MAX in *; lia).
  eexists. split; [reflexivity|]. bc_simpl.
  replace (GetSize frontier + cur_offset) with (cur_offset + GetSize frontier)
    by lia.
  repeat split.
Qed.

Lemma back_snoc (l : list Z) (x : Z) : bc.back (l ++ [x]) = Some x.
Proof. unfold bc.back. apply last_snoc. Qed.

Lemma pop_back_snoc (l : list Z) (x : Z) : bc.pop_back (l ++ [x]) = l.
Proof. unfold bc.pop_back. apply removelast_last. Qed.

(** One iteration of the backward phase whose counter is positive takes
    the last frontier off the log and issues it. *)
Lemma Backward_FullQueue_Gather_reissues
      (device_alloc : Z -> option (Z -> Z)) (SIZE_CHECK : bool)
      (s : bc.IterationState) (older : list Z) (pre_pos : Z)
      (frontier tail slot : list Z) :
  0 < iteration (bc.enactor_stats s) ->
  retval (bc.enactor_stats s) = cudaSuccess ->
  bc.forward_queue_offsets s
  = (older ++ [pre_pos]) ++ [pre_pos + GetSize frontier] ->
  0 <= pre_pos ->
  drop (Z.to_nat pre_pos) (bc.forward_output s) = frontier ++ tail ->
  GetSize (bc.forward_output s) <= INT_MAX ->
  buffer_selector (bc.frontier_queue s) = 0 ->
  read (keys (bc.frontier_queue s)) 0 = Some slot ->
  GetSize frontier <= GetSize slot ->
  exists s' slot',
    bc.Backward_FullQueue_Gather device_alloc SIZE_CHECK s = Some s'
    /\ bc.forward_queue_offsets s' = older ++ [pre_pos]
    /\ bc.forward_output s' = bc.forward_output s
    /\ bc.enactor_stats s' = bc.enactor_stats s
    /\ buffer_selector (bc.frontier_queue s') = 0
    /\ read (keys (bc.frontier_queue s')) 0 = Some slot'
    /\ GetSize slot' = GetSize slot
    /\ bc.issued_queue s' = Some frontier.
Proof.
  intros Hit Hret Hlog Hpre Hrec Hmax Hbuf Hslot Hfit.
  pose proof (GetSize_nonneg frontier) as Hf.
  pose proof (read_in_range _ _ _ Hslot) as Hsel.
  assert (Hlen : GetSize frontier <= GetSize (bc.forward_output s)).
  { pose proof (f_equal GetSize Hrec) as H. rewrite GetSize_app in H.
    pose proof (GetSize_nonneg tail). unfold GetSize in *.
    rewrite length_drop in H. lia. }
  assert (Hsrc : GetSize frontier
                 <= GetSize (drop (Z.to_nat pre_pos) (bc.forward_output s))).
  { rewrite Hrec, GetSize_app. pose proof (GetSize_nonneg tail). lia. }
  unfold bc.Backward_FullQueue_Gather. rewrite Hlog.
  rewrite back_snoc. bc_simpl. rewrite pop_back_snoc, back_snoc. bc_simpl.
  replace (pre_pos + GetSize frontier - pre_pos) with (GetSize frontier)
    by lia.
  rewrite wrap_id by (unfold in_range, INT_MIN, INT_MAX in *; lia).
  destruct (Z.ltb_spec 0 (iteration (bc.enactor_stats s))); [|lia].
  destruct (Z.ltb_spec 0 (GetSize frontier)) as [Hpos|Hempty]; bc_simpl.
  - unfold Check_Size_slot. rewrite Hbuf, Hslot. bc_simpl.
    rewrite Check_Size_enough by lia. bc_simpl.
    rewrite (write_Some _ _ _ Hsel). bc_simpl.
    change (cudaSuccess =? cudaSuccess) with true. bc_simpl.
    rewrite (read_write_eq _ _ _ _ (write_Some _ _ _ Hsel)). bc_simpl.
    rewrite MemsetCopyVectorKernel_spec by lia.
    rewrite Hrec, take_GetSize_app. bc_simpl.
    change (Z.to_nat 0) with O. rewrite take_0. cbn [app].
    assert (Hsel' : 0 <= 0 < GetSize (<[Z.to_nat 0 := slot]>
                                        (keys (bc.frontier_queue s))))
      by (unfold GetSize in *; rewrite length_insert; lia).
    rewrite (write_Some _ _ _ Hsel'). bc_simpl.
    eexists _, _. split; [reflexivity|]. bc_simpl.
    split; [reflexivity|]. split; [reflexivity|].
    split.
    { destruct (bc.enactor_stats s) as [r it]. cbn in Hret |- *.
      rewrite Hret. reflexivity. }
    split; [exact Hbuf|].
    split; [apply (read_write_eq _ _ _ _ (write_Some _ _ _ Hsel'))|].
    split.
    { rewrite GetSize_app. rewrite Z.add_0_l.
      rewrite GetSize_drop by lia. lia. }
    unfold bc.issued_queue. bc_simpl.
    rewrite (read_write_eq _ _ _ _ (write_Some _ _ _ Hsel')). bc_simpl.
    rewrite take_GetSize_app. reflexivity.
  - eexists _, _. split; [reflexivity|]. bc_simpl.
    split; [reflexivity|]. split; [reflexivity|]. split; [reflexivity|].
    split; [exact Hbuf|]. split; [exact Hslot|]. split; [reflexivity|].
    unfold bc.issued_queue. bc_simpl. rewrite Hslot. bc_simpl.
    assert (GetSize frontier = 0) as Hz by lia.
    destruct frontier; [reflexivity|]. unfold GetSize in Hz. cbn in Hz. lia.
Qed.

Lemma to_nat_add_size {A : Type} (n : Z) (a : list A) :
  0 <= n -> Z.to_nat (n + GetSize a) = (Z.to_nat n + length a)%nat.
Proof. unfold GetSize. lia. Qed.

(** A frontier written into the log at [cur]: the size of the log array
    and what lies in front of and behind the frontier stay. *)
Lemma splice_size (out f : list Z) (cur : Z) :
  0 <= cur -> cur + GetSize f <= GetSize out ->
  GetSize (take (Z.to_nat cur) out ++ f
           ++ drop (Z.to_nat (cur + GetSize f)) out) = GetSize out.
Proof.
  intros Hc Hr. pose proof (GetSize_nonneg f).
  rewrite !GetSize_app, GetSize_take, GetSize_drop by lia. lia.
Qed.

Lemma splice_splice (out f rest : list Z) (cur t : Z) :
  0 <= cur -> 0 <= t -> cur + GetSize f + t <= GetSize out ->
  let out1 := take (Z.to_nat cur) out ++ f
              ++ drop (Z.to_nat (cur + GetSize f)) out in
  take (Z.to_nat (cur + GetSize f)) out1 ++ rest
  ++ drop (Z.to_nat (cur + GetSize f + t)) out1
  = take (Z.to_nat cur) out ++ (f ++ rest)
    ++ drop (Z.to_nat (cur + (GetSize f + t))) out.
Proof.
  intros Hc Ht Hr out1. subst out1.
  pose proof (GetSize_nonneg f) as Hf.
  assert (Hlen : length (take (Z.to_nat cur) out) = Z.to_nat cur).
  { rewrite length_take. unfold GetSize in *. lia. }
  rewrite (to_nat_add_size cur f Hc).
  replace (Z.to_nat (cur + GetSize f + t))
    with ((Z.to_nat cur + length f) + Z.to_nat t)%nat
    by (unfold GetSize; lia).
  replace (Z.to_nat (cur + (GetSize f + t)))
    with ((Z.to_nat cur + length f) + Z.to_nat t)%nat
    by (unfold GetSize; lia).
  rewrite (app_assoc (take (Z.to_nat cur) out) f).
  rewrite take_app_length'
    by (rewrite length_app, Hlen; reflexivity).
  rewrite drop_app_add'
    by (rewrite length_app, Hlen; reflexivity).
  rewrite drop_drop. rewrite <- !app_assoc. reflexivity.
Qed.

(** The forward phase from a positive iteration counter on appends every
    frontier to the log, in the order of the iterations. *)
Lemma forward_phase_logs
      (device_alloc : Z -> option (Z -> Z)) (SIZE_CHECK : bool)
      (frontiers : list (list Z)) :
  forall (s : bc.IterationState) (cur_offset : Z),
    1 <= iteration (bc.enactor_stats s) ->
    bc.back (bc.forward_queue_offsets s) = Some cur_offset ->
    0 <= cur_offset ->
    cur_offset + GetSize (concat frontiers)
    <= GetSize (bc.forward_output s) ->
    GetSize (bc.forward_output s) <= INT_MAX ->
    0 <= selector (bc.frontier_attribute s)
         < GetSize (keys (bc.frontier_queue s)) ->
    Forall (fun capacity =>
              Forall (fun f => GetSize f <= capacity) frontiers)
           (GetSize <$> keys (bc.frontier_queue s)) ->
    exists s',
      bc.forward_phase device_alloc SIZE_CHECK frontiers s = Some s'
      /\ bc.forward_queue_offsets s'
         = bc.forward_queue_offsets s
           ++ bc.offsets_behind cur_offset frontiers
      /\ bc.forward_output s'
         = take (Z.to_nat cur_offset) (bc.forward_output s)
           ++ concat frontiers
           ++ drop (Z.to_nat (cur_offset + GetSize (concat frontiers)))
                   (bc.forward_output s)
      /\ iteration (bc.enactor_stats s')
         = iteration (bc.enactor_stats s) + Z.of_nat (length frontiers)
      /\ (retval (bc.enactor_stats s) = cudaSuccess ->
          retval (bc.enactor_stats s') = cudaSuccess)
      /\ buffer_selector (bc.frontier_queue s')
         = buffer_selector (bc.frontier_queue s)
      /\ GetSize <$> keys (bc.frontier_queue s')
         = GetSize <$> keys (bc.frontier_queue s).
Proof.
  induction frontiers as [|f rest IH];
    intros s cur Hit Hback Hcur Hroom Hmax Hsel Hcap.
  - exists s. cbn [bc.forward_phase bc.offsets_behind concat length].
    rewrite app_nil_r. change (GetSize []) with 0. rewrite Z.add_0_r.
    cbn [app]. rewrite take_drop, Z.add_0_r. repeat split. tauto.
  - cbn [concat] in Hroom. rewrite GetSize_app in Hroom.
    pose proof (GetSize_nonneg f) as Hf.
    pose proof (GetSize_nonneg (concat rest)) as Hrest.
    destruct (read_is_Some _ _ Hsel) as [slot Hslot].
    assert (Hfit : GetSize f <= GetSize slot).
    { pose proof (proj1 (read_Some _ _ _) Hslot) as [_ Hl].
      assert (Hc : (GetSize <$> keys (bc.frontier_queue s))
                     !! Z.to_nat (selector (bc.frontier_attribute s))
                   = Some (GetSize slot))
        by (rewrite list_lookup_fmap, Hl; reflexivity).
      exact (Forall_inv (Forall_lookup_1 _ _ _ _ Hcap Hc)). }
    destruct (Forward_FullQueue_Gather_appends
                device_alloc SIZE_CHECK f s cur slot)
      as (s1 & Hs1 & Hoff1 & Hout1 & Hst1 & Hsel1 & Hbuf1 & Hkeys1);
      try assumption; try lia.
    apply bind_Some in Hs1 as (s0 & Hs0 & Hs1).
    cbn [bc.forward_phase]. rewrite Hs0. cbn [mbind option_bind].
    rewrite Hs1. cbn [mbind option_bind].
    assert (Hcaps : GetSize <$> keys (bc.frontier_queue s1)
                    = GetSize <$> keys (bc.frontier_queue s)).
    { rewrite Hkeys1, list_fmap_insert. apply list_insert_id'.
      intros _. rewrite list_lookup_fmap.
      pose proof (proj1 (read_Some _ _ _) Hslot) as [_ ->].
      change (Some (GetSize slot)
              = Some (GetSize (f ++ drop (length f) slot))).
      f_equal. unfold GetSize in *.
      rewrite length_app, length_drop. lia. }
    destruct (IH (bc.set_iteration (iteration (bc.enactor_stats s1) + 1) s1)
                 (cur + GetSize f))
      as (s' & Hs' & Hoff & Hout & Hit' & Hret' & Hbuf & Hkeys).
    + bc_simpl. rewrite Hst1. bc_simpl. lia.
    + bc_simpl. rewrite Hoff1. apply back_snoc.
    + lia.
    + bc_simpl. rewrite Hout1, splice_size by lia. lia.
    + bc_simpl. rewrite Hout1, splice_size by lia. lia.
    + bc_simpl. rewrite Hsel1.
      assert (GetSize (keys (bc.frontier_queue s1))
              = GetSize (keys (bc.frontier_queue s))) as ->.
      { rewrite Hkeys1. unfold GetSize. rewrite length_insert. reflexivity. }
      exact Hsel.
    + bc_simpl. rewrite Hcaps.
      eapply Forall_impl; [|exact Hcap]. cbn. intros c Hc.
      exact (Forall_inv_tail Hc).
    + exists s'. split; [exact Hs'|].
      revert Hoff Hout Hit' Hret' Hbuf Hkeys. bc_simpl.
      intros Hoff Hout Hit' Hret' Hbuf Hkeys.
      split.
      { rewrite Hoff, Hoff1, <- app_assoc. reflexivity. }
      split.
      { rewrite Hout, Hout1. cbn [concat]. rewrite GetSize_app.
        apply splice_splice; lia. }
      split.
      { rewrite Hit', Hst1. bc_simpl. cbn [length]. lia. }
      split.
      { intros _. apply Hret'. rewrite Hst1. reflexivity. }
      split; [congruence|congruence].
Qed.

Lemma offsets_behind_app (cur : Z) (a b : list (list Z)) :
  bc.offsets_behind cur (a ++ b)
  = bc.offsets_behind cur a
    ++ bc.offsets_behind (cur + GetSize (concat a)) b.
Proof.
  revert cur. induction a as [|f a IH]; intros cur.
  - cbn [app bc.offsets_behind concat]. change (GetSize []) with 0.
    rewrite Z.add_0_r. reflexivity.
  - cbn [app bc.offsets_behind concat]. rewrite IH, GetSize_app, Z.add_assoc.
    reflexivity.
Qed.

Lemma offsets_behind_last (fs : list (list Z)) : forall older pre_pos,
  exists older',
    (older ++ [pre_pos]) ++ bc.offsets_behind pre_pos fs
    = older' ++ [pre_pos + GetSize (concat fs)].
Proof.
  induction fs as [|f fs IH]; intros older pre.
  - exists older. cbn [bc.offsets_behind concat]. change (GetSize []) with 0.
    rewrite app_nil_r, Z.add_0_r. reflexivity.
  - destruct (IH (older ++ [pre]) (pre + GetSize f)) as (older' & Hl).
    exists older'. cbn [bc.offsets_behind concat].
    rewrite GetSize_app, Z.add_assoc, <- Hl, <- !app_assoc. reflexivity.
Qed.

Lemma Backward_Iteration_Change_spec (iterations : Z) :
  0 < iterations <= 9223372036854775807 ->
  bc.Backward_Iteration_Change iterations = iterations - 1.
Proof.
  intros H. unfold bc.Backward_Iteration_Change.
  rewrite Z.mod_small by lia. lia.
Qed.

(** The backward phase takes the frontiers off the log, last one first,
    and issues each of them, as long as its counter stays positive. *)
Lemma backward_phase_replays
      (device_alloc : Z -> option (Z -> Z)) (SIZE_CHECK : bool)
      (fs : list (list Z)) :
  forall (s : bc.IterationState) (older : list Z) (pre_pos : Z)
         (tail slot : list Z),
    Z.of_nat (length fs) < iteration (bc.enactor_stats s) ->
    iteration (bc.enactor_stats s) <= 9223372036854775807 ->
    retval (bc.enactor_stats s) = cudaSuccess ->
    bc.forward_queue_offsets s
    = (older ++ [pre_pos]) ++ bc.offsets_behind pre_pos fs ->
    0 <= pre_pos ->
    drop (Z.to_nat pre_pos) (bc.forward_output s) = concat fs ++ tail ->
    GetSize (bc.forward_output s) <= INT_MAX ->
    buffer_selector (bc.frontier_queue s) = 0 ->
    read (keys (bc.frontier_queue s)) 0 = Some slot ->
    Forall (fun f => GetSize f <= GetSize slot) fs ->
    exists s' slot',
      bc.backward_phase device_alloc SIZE_CHECK (length fs) s
      = Some (rev fs, s')
      /\ bc.forward_queue_offsets s' = older ++ [pre_pos]
      /\ bc.forward_output s' = bc.forward_output s
      /\ bc.enactor_stats s'
         = {| retval := cudaSuccess;
              iteration := iteration (bc.enactor_stats s)
                           - Z.of_nat (length fs) |}
      /\ buffer_selector (bc.frontier_queue s') = 0
      /\ read (keys (bc.frontier_queue s')) 0 = Some slot'
      /\ GetSize slot' = GetSize slot.
Proof.
  induction fs as [|f fs IH] using rev_ind;
    intros s older pre tail slot Hit Hbig Hret Hlog Hpre Hrec Hmax Hbuf
           Hslot Hfit.
  - exists s, slot. cbn [length bc.backward_phase rev].
    cbn [bc.offsets_behind] in Hlog. rewrite app_nil_r in Hlog.
    repeat split; try assumption.
    destruct (bc.enactor_stats s) as [r it]. cbn in Hret |- *.
    rewrite Hret. f_equal. lia.
  - rewrite length_app in Hit |- *. cbn [length] in Hit |- *.
    rewrite Nat.add_1_r in Hit |- *.
    apply Forall_app in Hfit as [Hfits Hfitf].
    apply Forall_inv in Hfitf.
    rewrite offsets_behind_app in Hlog.
    cbn [bc.offsets_behind] in Hlog. rewrite app_assoc in Hlog.
    destruct (offsets_behind_last fs older pre) as (older' & Holder).
    rewrite Holder in Hlog.
    rewrite concat_app in Hrec. cbn [concat] in Hrec.
    rewrite app_nil_r, <- app_assoc in Hrec.
    pose proof (GetSize_nonneg (concat fs)) as Hsum.
    assert (Hrecf : drop (Z.to_nat (pre + GetSize (concat fs)))
                         (bc.forward_output s) = f ++ tail).
    { rewrite (to_nat_add_size pre (concat fs) Hpre).
      rewrite <- drop_drop, Hrec. apply drop_app_length. }
    destruct (Backward_FullQueue_Gather_reissues
                device_alloc SIZE_CHECK s older'
                (pre + GetSize (concat fs)) f tail slot)
      as (s1 & slot1 & Hs1 & Hoff1 & Hout1 & Hst1 & Hbuf1 & Hslot1
          & Hsz1 & Hissued);
      try assumption; try lia.
    cbn [bc.backward_phase]. rewrite Hs1. cbn [mbind option_bind].
    rewrite Hissued. cbn [mbind option_bind].
    rewrite Hst1, Backward_Iteration_Change_spec by lia.
    destruct (IH (bc.set_iteration (iteration (bc.enactor_stats s) - 1) s1)
                 older pre (f ++ tail) slot1)
      as (s' & slot' & Hs' & Hoff & Hout & Hst & Hbuf' & Hslot' & Hsz).
    + bc_simpl. lia.
    + bc_simpl. lia.
    + bc_simpl. rewrite Hst1. exact Hret.
    + bc_simpl. rewrite Hoff1. symmetry. exact Holder.
    + exact Hpre.
    + bc_simpl. rewrite Hout1. exact Hrec.
    + bc_simpl. rewrite Hout1. exact Hmax.
    + bc_simpl. exact Hbuf1.
    + bc_simpl. exact Hslot1.
    + rewrite Hsz1. exact Hfits.
    + exists s', slot'. rewrite Hs'. cbn [mbind option_bind].
      rewrite rev_unit. split; [reflexivity|].
      revert Hoff Hout Hst. bc_simpl. intros Hoff Hout Hst.
      split; [exact Hoff|]. split; [congruence|].
      split.
      { rewrite Hst. f_equal. lia. }
      split; [exact Hbuf'|]. split; [exact Hslot'|]. congruence.
Qed.

Lemma Backward_Stop_Condition_single (All_Done : bool) (st : EnactorStats) :
  retval st = cudaSuccess ->
  bc.Backward_Stop_Condition All_Done [st] 1
  = Some (All_Done && negb (1 <? iteration st)).
Proof.
  destruct st as [r it]. cbn [retval iteration]. intros ->.
  unfold bc.Backward_Stop_Condition, any_fault.
  change (Z.to_nat (1 * 1)) with 1%nat. cbn [any_index].
  change (read [{| retval := cudaSuccess; iteration := it |}] 0)
    with (Some {| retval := cudaSuccess; iteration := it |}).
  cbn [mbind option_bind retval iteration].
  change (cudaSuccess =? cudaSuccess) with true. cbn [negb].
  destruct All_Done; [|reflexivity].
  destruct (1 <? it); reflexivity.
Qed.

(** C7 (as amended).  An iteration of the forward phase whose counter
    is 0 or less appends nothing.  Started at a counter of 1 or more
    with a successful status and a log array that has room, with two
    key buffers that both have room for every frontier, the forward
    phase appends the frontier of every iteration (its keys and the new
    cumulative offset) to [forward_queue_offsets] / [forward_output].
    The backward phase that follows takes the frontiers off the log
    last one first and moves its counter down by one per round; when
    the selector of the frontier queue itself is 0, which is the buffer
    the gather issues, it issues each of them as its input queue.  When
    [done] are the frontiers it has replayed, the log and the counter
    are what the forward phase had after [remaining], and
    [Stop_Condition], for a single device, returns true exactly when
    [All_Done] holds and that counter is 1 or less. *)
Theorem backward_phase_replays_forward_log
        (device_alloc : Z -> option (Z -> Z)) (SIZE_CHECK : bool)
        (remaining done : list (list Z)) (s : bc.IterationState)
        (cur_offset : Z) (All_Done : bool) :
  1 <= iteration (bc.enactor_stats s) ->
  retval (bc.enactor_stats s) = cudaSuccess ->
  bc.back (bc.forward_queue_offsets s) = Some cur_offset ->
  0 <= cur_offset ->
  cur_offset + GetSize (concat (remaining ++ done))
  <= GetSize (bc.forward_output s) ->
  GetSize (bc.forward_output s) <= INT_MAX ->
  iteration (bc.enactor_stats s) + Z.of_nat (length (remaining ++ done))
  <= 9223372036854775807 ->
  0 <= selector (bc.frontier_attribute s) < 2 ->
  GetSize (keys (bc.frontier_queue s)) = 2 ->
  buffer_selector (bc.frontier_queue s) = 0 ->
  Forall (fun capacity =>
            Forall (fun f => GetSize f <= capacity) (remaining ++ done))
         (GetSize <$> keys (bc.frontier_queue s)) ->
  (forall s0,
     iteration (bc.enactor_stats s0) <= 0 ->
     bc.Forward_FullQueue_Gather device_alloc SIZE_CHECK s0 = Some s0)
  /\ exists logged replayed,
    bc.forward_phase device_alloc SIZE_CHECK (remaining ++ done) s
    = Some logged
    /\ bc.forward_queue_offsets logged
       = bc.forward_queue_offsets s
         ++ bc.offsets_behind cur_offset (remaining ++ done)
    /\ bc.forward_output logged
       = take (Z.to_nat cur_offset) (bc.forward_output s)
         ++ concat (remaining ++ done)
         ++ drop (Z.to_nat (cur_offset
                            + GetSize (concat (remaining ++ done))))
                 (bc.forward_output s)
    /\ iteration (bc.enactor_stats logged)
       = iteration (bc.enactor_stats s)
         + Z.of_nat (length (remaining ++ done))
    /\ bc.backward_phase device_alloc SIZE_CHECK (length done) logged
       = Some (rev done, replayed)
    /\ bc.forward_queue_offsets replayed
       = bc.forward_queue_offsets s
         ++ bc.offsets_behind cur_offset remaining
    /\ bc.forward_output replayed = bc.forward_output logged
    /\ iteration (bc.enactor_stats replayed)
       = iteration (bc.enactor_stats s) + Z.of_nat (length remaining)
    /\ bc.Backward_Stop_Condition All_Done [bc.enactor_stats replayed] 1
       = Some (All_Done
               && negb (1 <? iteration (bc.enactor_stats s)
                             + Z.of_nat (length remaining))).
Proof.
  intros Hit Hret Hback Hcur Hroom Hmax Hmany Hsel Hkeys Hbuf Hcap.
  split.
  { intros s0 H0. unfold bc.Forward_FullQueue_Gather.
    destruct (Z.leb_spec (iteration (bc.enactor_stats s0)) 0);
      [reflexivity|lia]. }
  destruct (forward_phase_logs device_alloc SIZE_CHECK (remaining ++ done)
                               s cur_offset)
    as (logged & Hlogged & Hoff & Hout & Hitl & Hretl & Hbufl & Hcaps);
    try assumption; try lia.
  exists logged.
  (* the log, split where the replay stops *)
  apply last_Some in Hback as (older & Holder).
  destruct (offsets_behind_last remaining older cur_offset)
    as (older' & Holder').
  pose proof (GetSize_nonneg (concat remaining)) as Hsum.
  pose proof (GetSize_nonneg (concat done)) as Hsum'.
  rewrite concat_app, GetSize_app in Hroom.
  assert (Hlog : bc.forward_queue_offsets logged
                 = (older' ++ [cur_offset + GetSize (concat remaining)])
                   ++ bc.offsets_behind
                        (cur_offset + GetSize (concat remaining)) done).
  { rewrite Hoff, Holder, offsets_behind_app, app_assoc, Holder'.
    reflexivity. }
  assert (Hrec : drop (Z.to_nat (cur_offset + GetSize (concat remaining)))
                      (bc.forward_output logged)
                 = concat done
                   ++ drop (Z.to_nat (cur_offset
                              + GetSize (concat (remaining ++ done))))
                           (bc.forward_output s)).
  { rewrite Hout, concat_app, <- !app_assoc.
    rewrite (to_nat_add_size cur_offset (concat remaining) Hcur).
    rewrite (app_assoc (take _ _)).
    apply drop_app_length'. rewrite length_app, length_take.
    unfold GetSize in *. lia. }
  assert (Hsize : GetSize (bc.forward_output logged)
                  = GetSize (bc.forward_output s)).
  { rewrite Hout. rewrite !GetSize_app, GetSize_take, GetSize_drop;
      rewrite ?concat_app, ?GetSize_app; lia. }
  destruct (read_is_Some (keys (bc.frontier_queue logged)) 0)
    as [slot Hslot].
  { assert (GetSize (keys (bc.frontier_queue logged))
            = GetSize (keys (bc.frontier_queue s))) as ->; [|lia].
    pose proof (f_equal length Hcaps) as Hl.
    rewrite !length_fmap in Hl. unfold GetSize. lia. }
  assert (Hfit : Forall (fun f => GetSize f <= GetSize slot) done).
  { pose proof (proj1 (read_Some _ _ _) Hslot) as [_ Hl].
    assert (Hc : (GetSize <$> keys (bc.frontier_queue s)) !! Z.to_nat 0
                 = Some (GetSize slot))
      by (rewrite <- Hcaps, list_lookup_fmap, Hl; reflexivity).
    pose proof (Forall_lookup_1 _ _ _ _ Hcap Hc) as HF.
    apply Forall_app in HF as [_ HF]. exact HF. }
  rewrite length_app in Hitl, Hmany.
  assert (H1 : Z.of_nat (length done) < iteration (bc.enactor_stats logged))
    by lia.
  assert (H2 : iteration (bc.enactor_stats logged) <= 9223372036854775807)
    by lia.
  assert (H3 : retval (bc.enactor_stats logged) = cudaSuccess)
    by (apply Hretl; exact Hret).
  assert (H4 : 0 <= cur_offset + GetSize (concat remaining)) by lia.
  assert (H5 : GetSize (bc.forward_output logged) <= INT_MAX) by lia.
  assert (H6 : buffer_selector (bc.frontier_queue logged) = 0) by congruence.
  destruct (backward_phase_replays
              device_alloc SIZE_CHECK done logged older'
              (cur_offset + GetSize (concat remaining))
              (drop (Z.to_nat (cur_offset
                        + GetSize (concat (remaining ++ done))))
                    (bc.forward_output s)) slot
              H1 H2 H3 Hlog H4 Hrec H5 H6 Hslot Hfit)
    as (replayed & slot' & Hrep & Hoffr & Houtr & Hstr & _).
  exists replayed. rewrite length_app.
  split; [exact Hlogged|]. split; [exact Hoff|]. split; [exact Hout|].
  split; [lia|]. split; [exact Hrep|].
  split.
  { rewrite Hoffr, <- Holder', Holder. reflexivity. }
  split; [exact Houtr|].
  split.
  { rewrite Hstr. bc_simpl. lia. }
  rewrite Backward_Stop_Condition_single by (rewrite Hstr; reflexivity).
  f_equal. f_equal. rewrite Hstr. bc_simpl. rewrite Hitl.
  f_equal. f_equal. lia.
Qed.

Lemma backward_phase_replays_forward_log_witness :
  exists logged replayed,
    bc.forward_phase zeroed true [[4]; [5; 6]]
      {| bc.enactor_stats := {| retval := cudaSuccess; iteration := 1 |};
         bc.frontier_attribute := attribute 0;
         bc.frontier_queue :=
           {| keys := [[0; 0]; [0; 0]]; values := [[]; []];
              buffer_selector := 0 |};
         bc.forward_queue_offsets := [0];
         bc.forward_output := [0; 0; 0] |} = Some logged
    /\ bc.forward_queue_offsets logged = [0; 1; 3]
    /\ bc.forward_output logged = [4; 5; 6]
    /\ bc.backward_phase zeroed true 1 logged = Some ([[5; 6]], replayed)
    /\ bc.forward_queue_offsets replayed = [0; 1]
    /\ bc.Backward_Stop_Condition true [bc.enactor_stats replayed] 1
       = Some false.
Proof.
  destruct (backward_phase_replays_forward_log
              zeroed true [[4]] [[5; 6]]
              {| bc.enactor_stats := {| retval := cudaSuccess;
                                        iteration := 1 |};
                 bc.frontier_attribute := attribute 0;
                 bc.frontier_queue :=
                   {| keys := [[0; 0]; [0; 0]]; values := [[]; []];
                      buffer_selector := 0 |};
                 bc.forward_queue_offsets := [0];
                 bc.forward_output := [0; 0; 0] |} 0 true)
    as (_ & logged & replayed & Hl & Hoff & Hout & _ & Hr & Hoffr & _ & _
        & Hstop).
  - cbn. lia.
  - reflexivity.
  - reflexivity.
  - lia.
  - vm_compute; discriminate.
  - vm_compute; discriminate.
  - vm_compute; discriminate.
  - cbn; lia.
  - reflexivity.
  - reflexivity.
  - repeat constructor; vm_compute; discriminate.
  - exists logged, replayed. repeat split; assumption.
Defined.

(** With the selector of the frontier queue at 1 the gather of the
    backward phase copies the recorded frontier into the key buffer 1
    and issues the key buffer 0, which holds something else. *)
Lemma Backward_FullQueue_Gather_issues_buffer_0 :
  (bc.Backward_FullQueue_Gather zeroed true
     {| bc.enactor_stats := {| retval := cudaSuccess; iteration := 2 |};
        bc.frontier_attribute := attribute 0;
        bc.frontier_queue :=
          {| keys := [[8; 8]; [0; 0]]; values := [[]; []];
             buffer_selector := 1 |};
        bc.forward_queue_offsets := [0; 1; 3];
        bc.forward_output := [4; 5; 6] |}
   ≫= fun s' => issued ← bc.issued_queue s';
                Some (issued, keys (bc.frontier_queue s')))
  = Some ([8; 8], [[8; 8]; [5; 6]]).
Proof. reflexivity. Qed.

(** C7 (as stated, refuted).  In the iteration whose counter is 0 the
    forward phase appends nothing: the gather returns at once, the log
    keeps its single offset and [forward_output] its content, although
    the frontier of that iteration holds a vertex. *)
Lemma Forward_FullQueue_Gather_skips_iteration_0 :
  bc.Forward_FullQueue_Gather zeroed true
    {| bc.enactor_stats := {| retval := cudaSuccess; iteration := 0 |};
       bc.frontier_attribute := attribute 1;
       bc.frontier_queue :=
         {| keys := [[7]; [0]]; values := [[]; []]; buffer_selector := 0 |};
       bc.forward_queue_offsets := [0];
       bc.forward_output := [0; 0; 0] |}
  = Some
      {| bc.enactor_stats := {| retval := cudaSuccess; iteration := 0 |};
         bc.frontier_attribute := attribute 1;
         bc.frontier_queue :=
           {| keys := [[7]; [0]]; values := [[]; []];
              buffer_selector := 0 |};
         bc.forward_queue_offsets := [0];
         bc.forward_output := [0; 0; 0] |}.
Proof. reflexivity. Qed.

(** ** Kernels that stride over their elements *)

Import grid.

Lemma run_all_app {St : Type} (body : Z -> St -> option St)
      (a b : list Z) (s : St) :
  run_all body (a ++ b) s = run_all body a s ≫= run_all body b.
Proof.
  revert s. induction a as [|x a IH]; intros s; [reflexivity|].
  cbn [run_all app]. destruct (body x s) as [s'|]; [|reflexivity].
  cbn [mbind option_bind]. apply IH.
Qed.

Lemma stride_loop_thread_elements {St : Type}
      (body : Z -> St -> option St) (STRIDE n : Z) (fuel : nat) :
  forall x s,
    1 <= STRIDE -> n + STRIDE <= INT_MAX -> 0 <= x ->
    n - x <= Z.of_nat fuel ->
    stride_loop body STRIDE n fuel x s
    = run_all body (thread_elements STRIDE n fuel x) s.
Proof.
  induction fuel as [|fuel IH]; intros x s HS Hmax Hx Hfuel;
    cbn [stride_loop thread_elements].
  - destruct (Z.ltb_spec x n); [lia|reflexivity].
  - destruct (Z.ltb_spec x n); [|reflexivity].
    cbn [run_all]. destruct (body x s) as [s'|]; [|reflexivity].
    cbn [mbind option_bind].
    rewrite wrap_id by (unfold in_range, INT_MIN, INT_MAX in *; lia).
    apply IH; lia.
Qed.

Lemma run_threads_thread_elements {St : Type}
      (body : Z -> St -> option St) (STRIDE n : Z) (k : nat) :
  forall first s,
    1 <= STRIDE -> n + STRIDE <= INT_MAX -> 0 <= n -> 0 <= first ->
    run_threads (stride_loop body STRIDE n (Z.to_nat n)) first k s
    = run_all body
        (seqZ first (Z.of_nat k) ≫= thread_elements STRIDE n (Z.to_nat n))
        s.
Proof.
  induction k as [|k IH]; intros first s HS Hmax Hn Hfirst; [reflexivity|].
  rewrite Nat2Z.inj_succ, <- Z.add_1_l, seqZ_app by lia.
  change (seqZ first 1) with [first].
  cbn [run_threads app mbind list_bind]. rewrite run_all_app.
  rewrite stride_loop_thread_elements by lia.
  destruct (run_all body _ s) as [s'|]; [|reflexivity].
  cbn [mbind option_bind]. apply IH; lia.
Qed.

(** A launch with at least one thread runs the bodies of its elements
    in the order of its threads. *)
Lemma launch_schedule {St : Type} (body : Z -> St -> option St)
      (grid_size block_size n : Z) (s : St) :
  1 <= grid_size * block_size -> 0 <= n ->
  n + grid_size * block_size <= INT_MAX ->
  launch body grid_size block_size n s
  = run_all body (schedule (grid_size * block_size) n) s.
Proof.
  intros HS Hn Hmax. unfold launch, schedule.
  rewrite wrap_id by (unfold in_range, INT_MIN, INT_MAX in *; lia).
  rewrite run_threads_thread_elements by lia.
  rewrite Z2Nat.id by lia. reflexivity.
Qed.

Lemma elem_of_thread_elements (STRIDE n : Z) (fuel : nat) :
  1 <= STRIDE ->
  forall i x,
    x ∈ thread_elements STRIDE n fuel i
    <-> exists k : nat,
          (k < fuel)%nat /\ x = i + Z.of_nat k * STRIDE /\ x < n.
Proof.
  intros HS.
  induction fuel as [|fuel IH]; intros i x; cbn [thread_elements].
  - split; [intros H; inversion H|intros (k & Hk & _); lia].
  - destruct (Z.ltb_spec i n) as [Hlt|Hge].
    + rewrite elem_of_cons, IH. split.
      * intros [->|(k & Hk & -> & Hx)].
        -- exists O. split; [lia|]. split; [lia|assumption].
        -- exists (S k). split; [lia|]. split; [lia|assumption].
      * intros (k & Hk & -> & Hx). destruct k as [|k]; [left; lia|].
        right. exists k. split; [lia|]. split; [lia|assumption].
    + split; [intros H; inversion H|intros (k & Hk & -> & Hx); nia].
Qed.

Lemma NoDup_thread_elements (STRIDE n : Z) (fuel : nat) :
  1 <= STRIDE -> forall i, NoDup (thread_elements STRIDE n fuel i).
Proof.
  intros HS.
  induction fuel as [|fuel IH]; intros i; cbn [thread_elements];
    [constructor|].
  destruct (i <? n); [|constructor].
  apply list.NoDup_cons. split; [|apply IH].
  rewrite elem_of_thread_elements by assumption.
  intros (k & _ & Hk & _). nia.
Qed.

(** The threads of a launch share out the elements, each to one thread
    and one round. *)
Lemma schedule_Permutation (STRIDE n : Z) :
  1 <= STRIDE -> schedule STRIDE n ≡ₚ seqZ 0 n.
Proof.
  intros HS. unfold schedule.
  apply NoDup_Permutation.
  - apply NoDup_bind; [|intros; apply NoDup_thread_elements; assumption
                       |apply NoDup_seqZ].
    intros t1 t2 x Ht1 Ht2 Hx1 Hx2.
    apply elem_of_seqZ in Ht1, Ht2.
    apply elem_of_thread_elements in Hx1 as (k1 & _ & Hx1 & _);
      [|assumption].
    apply elem_of_thread_elements in Hx2 as (k2 & _ & Hx2 & _);
      [|assumption].
    assert (t1 = x mod STRIDE) as ->
      by (rewrite Hx1, Z.mod_add, Z.mod_small; lia).
    rewrite Hx2, Z.mod_add, Z.mod_small; lia.
  - apply NoDup_seqZ.
  - intros x. rewrite list_elem_of_bind, elem_of_seqZ. split.
    + intros (t & Hx & Ht). apply elem_of_seqZ in Ht.
      apply elem_of_thread_elements in Hx as (k & _ & -> & Hx);
        [|assumption].
      nia.
    + intros Hx. exists (x mod STRIDE).
      pose proof (Z.mod_pos_bound x STRIDE).
      pose proof (Z.div_mod x STRIDE).
      pose proof (Z.div_pos x STRIDE).
      rewrite elem_of_seqZ, elem_of_thread_elements by assumption.
      split; [|lia].
      exists (Z.to_nat (x / STRIDE)).
      assert (x / STRIDE <= x) by (apply Z.div_le_upper_bound; nia).
      split; [lia|]. split; [|lia].
      rewrite Z2Nat.id by lia. lia.
Qed.

(** Elements that each store into the entry of their own index. *)
Lemma run_all_writes {A : Type} (body : Z -> list A -> option (list A))
      (val : Z -> A) (l : list Z) : forall a,
  Forall (fun i => 0 <= i < GetSize a) l ->
  (forall i a', i ∈ l -> body i a' = write a' i (val i)) ->
  exists a',
    run_all body l a = Some a'
    /\ GetSize a' = GetSize a
    /\ (forall i, i ∈ l -> read a' i = Some (val i))
    /\ (forall i, i ∉ l -> read a' i = read a i).
Proof.
  induction l as [|x l IH]; intros a Hin Hbody.
  - exists a. split; [reflexivity|]. split; [reflexivity|].
    split; [intros i Hi; inversion Hi|reflexivity].
  - apply list.Forall_cons in Hin as [Hx Hin].
    cbn [run_all]. rewrite Hbody by left.
    destruct (write_is_Some a x (val x)) as [a1 Ha1]; [assumption|].
    rewrite Ha1. cbn [mbind option_bind].
    pose proof (GetSize_write _ _ _ _ Ha1) as Hsize.
    destruct (IH a1) as (a' & Hrun & Hsize' & Hval & Hother).
    { rewrite Hsize. assumption. }
    { intros i b Hi. apply Hbody. right. assumption. }
    exists a'. split; [assumption|]. split; [congruence|]. split.
    + intros i Hi. destruct (decide (i ∈ l)) as [Hl|Hl]; [auto|].
      apply elem_of_cons in Hi as [->|Hi]; [|contradiction].
      rewrite Hother by assumption. eapply read_write_eq; eassumption.
    + intros i Hi. apply not_elem_of_cons in Hi as [Hne Hi].
      rewrite Hother by assumption.
      eapply read_write_ne; [eassumption|congruence].
Qed.

(** An array known entry by entry. *)
Lemma array_of_reads {A : Type} (g : Z -> A) (n : Z) (a a' : list A) :
  0 <= n <= GetSize a -> GetSize a' = GetSize a ->
  (forall i, 0 <= i < n -> read a' i = Some (g i)) ->
  (forall i, ~ 0 <= i < n -> read a' i = read a i) ->
  a' = (g <$> seqZ 0 n) ++ drop (Z.to_nat n) a.
Proof.
  unfold GetSize. intros Hn Hsize Hin Hout. apply list_eq. intros i.
  destruct (Nat.lt_ge_cases i (Z.to_nat n)) as [Hlt|Hge].
  - rewrite lookup_app_l by (rewrite length_fmap, length_seqZ; lia).
    rewrite list_lookup_fmap, lookup_seqZ_lt by lia. cbn.
    rewrite <- read_of_nat. apply Hin. lia.
  - rewrite lookup_app_r by (rewrite length_fmap, length_seqZ; lia).
    rewrite length_fmap, length_seqZ, lookup_drop.
    replace (Z.to_nat n + (i - Z.to_nat n))%nat with i by lia.
    rewrite <- !read_of_nat. apply Hout. lia.
Qed.

(** ** The output of a turn of connected components *)

Lemma Mark_Difference_Queue_element_spec (old_CID new_CID : list Z)
      (n x : Z) (marker : list Z) :
  n <= GetSize old_CID -> n <= GetSize new_CID -> 0 <= x < n ->
  cc_output.Mark_Difference_Queue_element old_CID new_CID x marker
  = write marker x (cc_output.mark_of old_CID new_CID x).
Proof.
  intros Hold Hnew Hx.
  unfold cc_output.Mark_Difference_Queue_element, cc_output.mark_of.
  destruct (read_is_Some old_CID x) as [o Ho]; [lia|].
  destruct (read_is_Some new_CID x) as [c Hc]; [lia|].
  rewrite Ho, Hc. cbn [mbind option_bind]. f_equal.
  destruct (Z.eqb_spec o c) as [->|Hne]; cbn [negb].
  - rewrite decide_True by reflexivity. reflexivity.
  - rewrite decide_False by congruence. reflexivity.
Qed.

(** The marker after [Mark_Difference_Queue], entry by entry. *)
Lemma Mark_Difference_Queue_reads
      (grid_size block_size num_elements : Z)
      (old_CID new_CID marker : list Z) :
  1 <= grid_size * block_size -> 0 <= num_elements ->
  num_elements + grid_size * block_size <= INT_MAX ->
  num_elements <= GetSize old_CID -> num_elements <= GetSize new_CID ->
  num_elements <= GetSize marker ->
  exists marker',
    cc_output.Mark_Difference_Queue grid_size block_size num_elements
                                    old_CID new_CID marker
    = Some marker'
    /\ GetSize marker' = GetSize marker
    /\ (forall x, 0 <= x < num_elements ->
          read marker' x = Some (cc_output.mark_of old_CID new_CID x))
    /\ (forall x, ~ 0 <= x < num_elements -> read marker' x = read marker x).
Proof.
  intros HS Hn Hmax Hold Hnew Hmarker.
  unfold cc_output.Mark_Difference_Queue.
  rewrite launch_schedule by assumption.
  pose proof (schedule_Permutation (grid_size * block_size) num_elements HS)
    as Hperm.
  destruct (run_all_writes
              (cc_output.Mark_Difference_Queue_element old_CID new_CID)
              (cc_output.mark_of old_CID new_CID)
              (schedule (grid_size * block_size) num_elements) marker)
    as (marker' & Hrun & Hsize & Hval & Hother).
  - apply list.Forall_forall. intros x Hx. rewrite Hperm in Hx.
    apply elem_of_seqZ in Hx. lia.
  - intros x a Hx. rewrite Hperm in Hx. apply elem_of_seqZ in Hx.
    apply Mark_Difference_Queue_element_spec with (n := num_elements); lia.
  - exists marker'. split; [assumption|]. split; [assumption|]. split.
    + intros i Hi. apply Hval. rewrite Hperm. apply elem_of_seqZ. lia.
    + intros i Hi. apply Hother. rewrite Hperm, elem_of_seqZ. lia.
Qed.

(** X1.  Whatever the grid it is launched on, as long as there is a
    thread and the stride stays within 32 bits, [Mark_Difference_Queue]
    leaves in every entry of [marker] below [num_elements] a 1 where the
    two component ids differ and a 0 where they agree, and leaves the
    entries from [num_elements] on as they were. *)
Theorem Mark_Difference_Queue_marks_changed
        (grid_size block_size num_elements : Z)
        (old_CID new_CID marker : list Z) :
  1 <= grid_size * block_size -> 0 <= num_elements ->
  num_elements + grid_size * block_size <= INT_MAX ->
  num_elements <= GetSize old_CID -> num_elements <= GetSize new_CID ->
  num_elements <= GetSize marker ->
  cc_output.Mark_Difference_Queue grid_size block_size num_elements
                                  old_CID new_CID marker
  = Some (((fun x => if decide (read old_CID x = read new_CID x)
                     then 0 else 1) <$> seqZ 0 num_elements)
          ++ drop (Z.to_nat num_elements) marker).
Proof.
  intros HS Hn Hmax Hold Hnew Hmarker.
  destruct (Mark_Difference_Queue_reads grid_size block_size num_elements
              old_CID new_CID marker HS Hn Hmax Hold Hnew Hmarker)
    as (marker' & Hrun & Hsize & Hin & Hout).
  rewrite Hrun. f_equal.
  apply (array_of_reads (cc_output.mark_of old_CID new_CID));
    [lia|assumption|assumption|assumption].
Qed.

Lemma Mark_Difference_Queue_marks_changed_witness :
  cc_output.Mark_Difference_Queue 2 2 5 [0; 1; 2; 3; 4; 9] [0; 0; 2; 2; 2]
                                  [7; 7; 7; 7; 7; 7]
  = Some [0; 1; 0; 1; 1; 7].
Proof.
  apply (Mark_Difference_Queue_marks_changed
           2 2 5 [0; 1; 2; 3; 4; 9] [0; 0; 2; 2; 2] [7; 7; 7; 7; 7; 7]);
    unfold INT_MAX, GetSize; cbn [length]; lia.
Defined.

Section Marks.

Variable mark : Z -> Z.
Variable n : Z.
Hypothesis marks : forall j, 0 <= j < n -> mark j = 0 \/ mark j = 1.

#[local] Abbreviation before := (spec.edges_before mark).

Lemma marks_before_bounds (j : Z) : 0 <= j <= n -> 0 <= before j <= j.
Proof.
  intros Hj. replace j with (Z.of_nat (Z.to_nat j)) by lia.
  assert (Z.of_nat (Z.to_nat j) <= n) as Hfit by lia.
  revert Hfit. clear Hj.
  induction (Z.to_nat j) as [|k IH]; intros Hfit.
  - change (before (Z.of_nat 0)) with 0. lia.
  - rewrite Nat2Z.inj_succ, <- Z.add_1_r in Hfit |- *.
    rewrite edges_before_succ by lia.
    destruct (marks (Z.of_nat k)); lia.
Qed.

Lemma marks_before_le (a b : Z) :
  0 <= a <= b -> b <= n -> before a <= before b.
Proof.
  intros Hab Hb. apply edges_before_mono; [lia|].
  intros j Hj. destruct (marks j); lia.
Qed.

Lemma marks_before_lt (x y : Z) :
  0 <= x < y -> y <= n -> mark x = 1 -> before x < before y.
Proof.
  intros Hxy Hy Hx.
  pose proof (marks_before_le (x + 1) y ltac:(lia) Hy) as H.
  rewrite edges_before_succ in H by lia. lia.
Qed.

Lemma marks_before_inj (x y : Z) :
  0 <= x < n -> 0 <= y < n -> mark x = 1 -> mark y = 1 ->
  before x = before y -> x = y.
Proof.
  intros Hx Hy Hmx Hmy Heq.
  destruct (Z.lt_trichotomy x y) as [Hlt|[Heq'|Hgt]]; [|assumption|].
  - pose proof (marks_before_lt x y ltac:(lia) ltac:(lia) Hmx). lia.
  - pose proof (marks_before_lt y x ltac:(lia) ltac:(lia) Hmy). lia.
Qed.

(** The marked elements in front of [k]: how many there are, and where
    each of them stands among them. *)
Lemma marked_upto (k : nat) :
  Z.of_nat k <= n ->
  GetSize (cc_output.marked mark (Z.of_nat k)) = before (Z.of_nat k)
  /\ forall x, 0 <= x < Z.of_nat k -> mark x = 1 ->
       cc_output.marked mark (Z.of_nat k) !! Z.to_nat (before x) = Some x.
Proof.
  unfold GetSize, cc_output.marked.
  induction k as [|k IH]; intros Hk; [split; [reflexivity|lia]|].
  destruct IH as [Hlen Hlook]; [lia|].
  rewrite Nat2Z.inj_succ, <- Z.add_1_r, seqZ_app, list.filter_app by lia.
  change (seqZ (0 + Z.of_nat k) 1) with [0 + Z.of_nat k].
  rewrite Z.add_0_l, edges_before_succ by lia.
  pose proof (marks_before_bounds (Z.of_nat k) ltac:(lia)) as Hb.
  split.
  - rewrite length_app, Nat2Z.inj_add, Hlen.
    rewrite filter_cons, filter_nil.
    destruct (decide (mark (Z.of_nat k) = 1)) as [Hm|Hm]; cbn [length].
    + lia.
    + destruct (marks (Z.of_nat k)); lia.
  - intros x Hx Hm. destruct (Z.eq_dec x (Z.of_nat k)) as [->|Hne].
    + rewrite lookup_app_r by lia.
      replace (Z.to_nat (before (Z.of_nat k)) - _)%nat with O by lia.
      rewrite filter_cons, decide_True by assumption. reflexivity.
    + apply lookup_app_l_Some. apply Hlook; [lia|assumption].
Qed.

Lemma marked_size : 0 <= n -> GetSize (cc_output.marked mark n) = before n.
Proof.
  intros Hn. pose proof (marked_upto (Z.to_nat n)) as H.
  rewrite Z2Nat.id in H by lia. apply H. lia.
Qed.

Lemma marked_lookup (x : Z) :
  0 <= x < n -> mark x = 1 ->
  cc_output.marked mark n !! Z.to_nat (before x) = Some x.
Proof.
  intros Hx Hm. pose proof (marked_upto (Z.to_nat n)) as H.
  rewrite Z2Nat.id in H by lia. apply H; (assumption || lia).
Qed.

Lemma marked_slot (i : nat) (x : Z) :
  cc_output.marked mark n !! i = Some x ->
  0 <= x < n /\ mark x = 1 /\ i = Z.to_nat (before x).
Proof.
  intros Hi.
  assert (x ∈ cc_output.marked mark n) as Hin
    by (eapply list_elem_of_lookup_2; eassumption).
  apply list_elem_of_filter in Hin as [Hm Hx]. apply elem_of_seqZ in Hx.
  split; [lia|]. split; [assumption|].
  eapply NoDup_lookup; [|eassumption|apply marked_lookup; (assumption||lia)].
  apply list.NoDup_filter, NoDup_seqZ.
Qed.

(** An output array whose slots in front of [before n] hold what the
    marked elements are owed, and whose other slots are as they were. *)
Lemma array_of_marked {A : Type} (g : Z -> option A) (a a' : list A)
      (vals : list A) :
  0 <= n -> before n <= GetSize a -> GetSize a' = GetSize a ->
  mapM g (cc_output.marked mark n) = Some vals ->
  (forall x, 0 <= x < n -> mark x = 1 -> read a' (before x) = g x) ->
  (forall k, ~ 0 <= k < before n -> read a' k = read a k) ->
  a' = vals ++ drop (length (cc_output.marked mark n)) a.
Proof.
  intros Hn Hroom Hsize Hvals Hin Hout.
  pose proof (marked_size Hn) as Hlen. unfold GetSize in *.
  apply mapM_Some in Hvals.
  pose proof (Forall2_length Hvals) as Hlv.
  apply list_eq. intros i.
  destruct (Nat.lt_ge_cases i (length (cc_output.marked mark n)))
    as [Hlt|Hge].
  - rewrite lookup_app_l by lia.
    destruct (lookup_lt_is_Some_2 (cc_output.marked mark n) i Hlt)
      as [x Hx].
    destruct (marked_slot i x Hx) as (Hxn & Hm & ->).
    destruct (Forall2_lookup_l _ _ _ _ _ Hvals Hx) as (v & Hv & Hg).
    rewrite Hv, <- Hg, <- Hin by assumption.
    pose proof (marks_before_bounds x ltac:(lia)).
    rewrite read_lookup by lia. reflexivity.
  - rewrite lookup_app_r by lia. rewrite lookup_drop.
    replace (length (cc_output.marked mark n) + (i - length vals))%nat
      with i by lia.
    rewrite <- !read_of_nat. apply Hout. lia.
Qed.

Lemma mapM_marked_id :
  mapM (fun x : Z => Some x) (cc_output.marked mark n)
  = Some (cc_output.marked mark n).
Proof.
  apply mapM_Some, Forall2_same_length_lookup. split; [reflexivity|].
  intros i x y Hx Hy. exact (eq_trans (eq_sym Hx) Hy).
Qed.

Variables marker c_ids : list Z.
Hypothesis marker_scanned :
  forall j, 0 <= j < n -> read marker j = Some (before (j + 1)).
Hypothesis c_ids_size : n <= GetSize c_ids.
Hypothesis n_fits : n <= INT_MAX.

Lemma Make_Difference_Queue_element_spec (x : Z) (keys ids : list Z) :
  0 <= x < n ->
  cc_output.Make_Difference_Queue_element marker c_ids x (keys, ids)
  = if decide (mark x = 1)
    then keys' ← write keys (before x) x;
         c_id ← read c_ids x;
         ids' ← write ids (before x) c_id;
         Some (keys', ids')
    else Some (keys, ids).
Proof.
  intros Hx. unfold cc_output.Make_Difference_Queue_element.
  rewrite (marker_scanned x) by lia. cbn [mbind option_bind fst snd].
  pose proof (marks_before_bounds x ltac:(lia)) as Hb.
  rewrite edges_before_succ by lia.
  assert (Hslot : wrap (before x + mark x - 1) = before x + mark x - 1).
  { apply wrap_id. unfold in_range, INT_MIN, INT_MAX in *.
    destruct (marks x); lia. }
  destruct (Z.eqb_spec x 0) as [->|Hne]; cbn [negb].
  - change (before 0) with 0 in *. cbn [mbind option_bind].
    destruct (decide (mark 0 = 1)) as [Hm|Hm].
    + rewrite Hm. cbn. reflexivity.
    + destruct (Z.eqb_spec (0 + mark 0) 1); [lia|reflexivity].
  - rewrite (wrap_id (x - 1))
      by (unfold in_range, INT_MIN, INT_MAX in *; lia).
    rewrite (marker_scanned (x - 1)) by lia. cbn [mbind option_bind].
    replace (x - 1 + 1) with x by lia.
    destruct (decide (mark x = 1)) as [Hm|Hm].
    + destruct (Z.eqb_spec (before x) (before x + mark x)); [lia|].
      cbn [negb].
      rewrite Hslot, Hm. replace (before x + 1 - 1) with (before x) by lia.
      reflexivity.
    + destruct (Z.eqb_spec (before x) (before x + mark x)); [reflexivity|].
      destruct (marks x); lia.
Qed.

Lemma run_all_Make_Difference_Queue (l : list Z) : forall keys ids,
  Forall (fun x => 0 <= x < n) l ->
  before n <= GetSize keys -> before n <= GetSize ids ->
  exists keys' ids',
    run_all (cc_output.Make_Difference_Queue_element marker c_ids) l
            (keys, ids)
    = Some (keys', ids')
    /\ GetSize keys' = GetSize keys /\ GetSize ids' = GetSize ids
    /\ (forall x, x ∈ l -> mark x = 1 ->
          read keys' (before x) = Some x
          /\ read ids' (before x) = read c_ids x)
    /\ (forall k, (forall x, x ∈ l -> mark x = 1 -> before x <> k) ->
          read keys' k = read keys k /\ read ids' k = read ids k).
Proof.
  induction l as [|x l IH]; intros keys ids Hl Hkeys Hids.
  - exists keys, ids. split; [reflexivity|]. split; [reflexivity|].
    split; [reflexivity|]. split; [|split; reflexivity].
    intros x Hx. inversion Hx.
  - apply list.Forall_cons in Hl as [Hx Hl].
    cbn [run_all]. rewrite Make_Difference_Queue_element_spec by assumption.
    destruct (decide (mark x = 1)) as [Hm|Hm].
    + pose proof (marks_before_bounds x ltac:(lia)) as Hb.
      pose proof (marks_before_lt x n ltac:(lia) ltac:(lia) Hm) as Hlt.
      destruct (write_is_Some keys (before x) x) as [keys1 Hk1]; [lia|].
      destruct (read_is_Some c_ids x) as [c Hc]; [lia|].
      destruct (write_is_Some ids (before x) c) as [ids1 Hi1]; [lia|].
      rewrite Hk1. cbn [mbind option_bind]. rewrite Hc.
      cbn [mbind option_bind]. rewrite Hi1. cbn [mbind option_bind].
      pose proof (GetSize_write _ _ _ _ Hk1) as Hsk.
      pose proof (GetSize_write _ _ _ _ Hi1) as Hsi.
      destruct (IH keys1 ids1 Hl ltac:(lia) ltac:(lia))
        as (keys' & ids' & Hrun & Hsk' & Hsi' & Hval & Hother).
      exists keys', ids'. split; [assumption|].
      split; [congruence|]. split; [congruence|]. split.
      * intros y Hy Hmy.
        destruct (decide (y ∈ l)) as [Hin|Hin]; [auto|].
        apply elem_of_cons in Hy as [->|Hy]; [|contradiction].
        destruct (Hother (before x)) as [Hk Hi].
        { intros z Hz Hmz Heq. apply Hin.
          assert (z = x) as ->; [|assumption].
          rewrite list.Forall_forall in Hl.
          apply marks_before_inj; auto. }
        rewrite Hk, Hi, Hc. split; eapply read_write_eq; eassumption.
      * intros k Hk. destruct (Hother k) as [Hk' Hi'].
        { intros z Hz. apply Hk. right. assumption. }
        assert (before x <> k) as Hne by (apply Hk; [left|assumption]).
        rewrite Hk', Hi'.
        split; (eapply read_write_ne; [eassumption|assumption]).
    + cbn [mbind option_bind].
      destruct (IH keys ids Hl Hkeys Hids)
        as (keys' & ids' & Hrun & Hsk' & Hsi' & Hval & Hother).
      exists keys', ids'. split; [assumption|].
      split; [assumption|]. split; [assumption|]. split.
      * intros y Hy Hmy.
        apply elem_of_cons in Hy as [->|Hy]; [contradiction|auto].
      * intros k Hk. apply Hother. intros z Hz. apply Hk. right. assumption.
Qed.

(** The two output arrays after [Make_Difference_Queue], slot by slot. *)
Lemma Make_Difference_Queue_slots (grid_size block_size : Z)
      (keys ids : list Z) :
  1 <= grid_size * block_size -> 0 <= n ->
  n + grid_size * block_size <= INT_MAX ->
  before n <= GetSize keys -> before n <= GetSize ids ->
  exists keys' ids',
    cc_output.Make_Difference_Queue grid_size block_size n
                                    marker c_ids keys ids
    = Some (keys', ids')
    /\ GetSize keys' = GetSize keys /\ GetSize ids' = GetSize ids
    /\ (forall x, 0 <= x < n -> mark x = 1 ->
          read keys' (before x) = Some x
          /\ read ids' (before x) = read c_ids x)
    /\ (forall k, ~ 0 <= k < before n ->
          read keys' k = read keys k /\ read ids' k = read ids k).
Proof.
  intros HS Hn Hmax Hkeys Hids.
  unfold cc_output.Make_Difference_Queue.
  rewrite launch_schedule by assumption.
  pose proof (schedule_Permutation (grid_size * block_size) n HS) as Hperm.
  destruct (run_all_Make_Difference_Queue
              (schedule (grid_size * block_size) n) keys ids)
    as (keys' & ids' & Hrun & Hsk & Hsi & Hval & Hother);
    [|assumption|assumption|].
  { apply list.Forall_forall. intros x Hx. rewrite Hperm in Hx.
    apply elem_of_seqZ in Hx. lia. }
  exists keys', ids'. split; [assumption|].
  split; [assumption|]. split; [assumption|]. split.
  - intros x Hx Hm. apply Hval; [|assumption].
    rewrite Hperm. apply elem_of_seqZ. lia.
  - intros k Hk. apply Hother. intros x Hx Hm <-.
    rewrite Hperm in Hx. apply elem_of_seqZ in Hx.
    pose proof (marks_before_bounds x ltac:(lia)).
    pose proof (marks_before_lt x n ltac:(lia) ltac:(lia) Hm). lia.
Qed.

End Marks.

(** X2.  When [marker] holds the running count of marks that are 0 or 1
    (entry [j] the number of marks 1 among the elements 0 to [j]),
    [Make_Difference_Queue] packs the elements with the mark 1 to the
    front of [keys_out], in increasing order, and their component ids
    to the front of [c_ids_out] in the same order; the slots behind
    them are left as they were. *)
Theorem Make_Difference_Queue_compacts
        (grid_size block_size num_elements : Z) (mark : Z -> Z)
        (marker c_ids keys_out c_ids_out ids : list Z) :
  1 <= grid_size * block_size -> 0 <= num_elements ->
  num_elements + grid_size * block_size <= INT_MAX ->
  (forall j, 0 <= j < num_elements -> mark j = 0 \/ mark j = 1) ->
  (forall j, 0 <= j < num_elements ->
     read marker j = Some (spec.edges_before mark (j + 1))) ->
  mapM (read c_ids) (cc_output.marked mark num_elements) = Some ids ->
  num_elements <= GetSize c_ids ->
  GetSize (cc_output.marked mark num_elements) <= GetSize keys_out ->
  GetSize (cc_output.marked mark num_elements) <= GetSize c_ids_out ->
  cc_output.Make_Difference_Queue grid_size block_size num_elements
                                  marker c_ids keys_out c_ids_out
  = Some (cc_output.marked mark num_elements
          ++ drop (length (cc_output.marked mark num_elements)) keys_out,
          ids
          ++ drop (length (cc_output.marked mark num_elements)) c_ids_out).
Proof.
  intros HS Hn Hmax Hmarks Hmarker Hids Hc Hkeys Hout.
  pose proof (marked_size mark num_elements Hmarks Hn) as Hlen.
  destruct (Make_Difference_Queue_slots mark num_elements Hmarks
              marker c_ids Hmarker Hc ltac:(unfold INT_MAX in *; lia)
              grid_size block_size keys_out c_ids_out)
    as (keys' & ids' & Hrun & Hsk & Hsi & Hval & Hother);
    [assumption|assumption|assumption|lia|lia|].
  rewrite Hrun. f_equal. f_equal.
  - apply (array_of_marked mark num_elements Hmarks (fun x => Some x));
      [assumption|lia|assumption|apply mapM_marked_id| |].
    + intros x Hx Hm. apply Hval; assumption.
    + intros k Hk. apply Hother. assumption.
  - apply (array_of_marked mark num_elements Hmarks (read c_ids));
      [assumption|lia|assumption|assumption| |].
    + intros x Hx Hm. apply Hval; assumption.
    + intros k Hk. apply Hother. assumption.
Qed.

Lemma Make_Difference_Queue_compacts_witness :
  cc_output.Make_Difference_Queue 1 2 5 [0; 1; 1; 2; 3] [0; 0; 2; 2; 2]
                                  [7; 7; 7; 7] [8; 8; 8; 8]
  = Some ([1; 3; 4; 7], [0; 2; 2; 8]).
Proof.
  apply (Make_Difference_Queue_compacts
           1 2 5 (cc_output.mark_of [0; 1; 2; 3; 4] [0; 0; 2; 2; 2])
           [0; 1; 1; 2; 3] [0; 0; 2; 2; 2] [7; 7; 7; 7] [8; 8; 8; 8]
           [0; 2; 2]).
  - lia.
  - lia.
  - unfold INT_MAX. lia.
  - intros j _. unfold cc_output.mark_of. destruct (decide _); auto.
  - intros j Hj.
    assert (j = 0 \/ j = 1 \/ j = 2 \/ j = 3 \/ j = 4) as Hcase by lia.
    destruct Hcase as [->|[->|[->|[->| ->]]]]; reflexivity.
  - reflexivity.
  - unfold GetSize. cbn [length]. lia.
  - vm_compute. discriminate.
  - vm_compute. discriminate.
Defined.

Lemma fill_out_length_spec (num_gpus x : Z) (out_length : list Z) :
  0 <= num_gpus <= GetSize out_length ->
  cc_output.fill_out_length num_gpus x out_length
  = Some (replicate (Z.to_nat num_gpus) x
          ++ drop (Z.to_nat num_gpus) out_length).
Proof.
  intros Hn. unfold cc_output.fill_out_length.
  destruct (run_threads_writes (fun peer_ a => write a peer_ x)
              (fun _ => x) (GetSize out_length) (Z.to_nat num_gpus)
              0 out_length)
    as (a' & Hrun & Hsize & Hin & Hout); [lia|lia|reflexivity|reflexivity|].
  rewrite Hrun. f_equal.
  rewrite (array_of_reads (fun _ => x) num_gpus out_length a');
    [|lia|assumption| |].
  - f_equal. apply list_eq. intros i.
    rewrite list_lookup_fmap.
    destruct (Nat.lt_ge_cases i (Z.to_nat num_gpus)) as [Hlt|Hge].
    + rewrite lookup_seqZ_lt, lookup_replicate_2 by lia. reflexivity.
    + rewrite lookup_seqZ_ge by lia. symmetry.
      apply lookup_replicate_None. lia.
  - intros i Hi. apply Hin. lia.
  - intros i Hi. apply Hout. lia.
Qed.

(** The grid [Make_Output] launches its kernels on. *)
Lemma Make_Output_grid (nodes : Z) :
  0 < nodes ->
  let grid_size := Z.quot nodes 256 in
  let grid_size := if negb (Z.rem nodes 256 =? 0)
                   then grid_size + 1 else grid_size in
  let grid_size := if 512 <? grid_size then 512 else grid_size in
  1 <= grid_size * 256 <= 131072.
Proof.
  intros Hn. cbv zeta.
  rewrite Z.quot_div_nonneg, Z.rem_mod_nonneg by lia.
  pose proof (Z.div_mod nodes 256 ltac:(lia)).
  pose proof (Z.mod_pos_bound nodes 256 ltac:(lia)).
  destruct (Z.eqb_spec (nodes mod 256) 0); cbn [negb];
    match goal with |- context [512 <? ?g] => destruct (Z.ltb_spec 512 g) end;
    lia.
Qed.

(** X3.  On a graph slice with at least one vertex, [Make_Output] puts
    the vertices whose component id changed since the last turn, in
    increasing order, at the front of the outgoing keys and their new
    component ids at the front of the outgoing associates, sets the
    queue length to their number, raises [has_change] exactly when
    there is one, and leaves in [out_length] a 1 for the device itself
    and the queue length for every peer (all zero when nothing
    changed). *)
Theorem Make_Output_queues_changed_vertices
        (num_gpus nodes : Z) (frontier_attribute : FrontierAttribute)
        (d : cc_output.DataSlice) (queue ids : list Z) :
  queue = cc_output.changed (cc_output.old_c_ids d)
                            (cc_output.component_ids d) nodes ->
  0 < nodes -> nodes + 131072 <= INT_MAX ->
  nodes <= GetSize (cc_output.old_c_ids d) ->
  nodes <= GetSize (cc_output.component_ids d) ->
  nodes <= GetSize (cc_output.CID_markers d) ->
  mapM (read (cc_output.component_ids d)) queue = Some ids ->
  GetSize queue <= GetSize (cc_output.keys_out d) ->
  GetSize queue <= GetSize (cc_output.vertex_associate_out d) ->
  1 <= num_gpus <= GetSize (cc_output.out_length d) ->
  exists d',
    cc_output.Make_Output num_gpus nodes frontier_attribute d
    = Some ({| queue_index := queue_index frontier_attribute;
               queue_length := GetSize queue;
               selector := 0;
               queue_reset := true |}, d')
    /\ cc_output.keys_out d'
       = queue ++ drop (length queue) (cc_output.keys_out d)
    /\ cc_output.vertex_associate_out d'
       = ids ++ drop (length queue) (cc_output.vertex_associate_out d)
    /\ cc_output.has_change d' = negb (bool_decide (queue = []))
    /\ cc_output.out_length d'
       = (if decide (queue = []) then replicate (Z.to_nat num_gpus) 0
          else 1 :: replicate (Z.to_nat num_gpus - 1) (GetSize queue))
         ++ drop (Z.to_nat num_gpus) (cc_output.out_length d)
    /\ cc_output.old_c_ids d' = cc_output.old_c_ids d
    /\ cc_output.component_ids d' = cc_output.component_ids d.
Proof.
  intros Hqueue Hn Hmax Hold Hnew Hmarker Hids Hkeys Hassoc Hgpus.
  pose proof (Make_Output_grid nodes Hn) as Hgrid. cbv zeta in Hgrid.
  unfold cc_output.Make_Output. cbv zeta.
  set (grid_size := if 512 <? _ then 512 else _) in *.
  set (mark := cc_output.mark_of (cc_output.old_c_ids d)
                                 (cc_output.component_ids d)).
  assert (Hmarks : forall j, 0 <= j < nodes -> mark j = 0 \/ mark j = 1).
  { intros j _. unfold mark, cc_output.mark_of. destruct (decide _); auto. }
  assert (Hmarked : queue = cc_output.marked mark nodes).
  { rewrite Hqueue. unfold cc_output.changed, cc_output.marked.
    apply list_filter_iff. intros x.
    unfold mark, cc_output.mark_of.
    destruct (decide _); split; (congruence || lia). }
  pose proof (marked_size mark nodes Hmarks ltac:(lia)) as Hsize.
  rewrite <- Hmarked in Hsize.
  pose proof (marks_before_bounds mark nodes Hmarks nodes ltac:(lia)) as Hb.
  rewrite fill_out_length_spec by lia. cbn [mbind option_bind].
  destruct (Mark_Difference_Queue_reads grid_size 256 nodes
              (cc_output.old_c_ids d) (cc_output.component_ids d)
              (cc_output.CID_markers d))
    as (marker' & Hmark & Hsize' & Hin & _);
    try (assumption || unfold INT_MAX in *; lia).
  rewrite Hmark. cbn [mbind option_bind].
  set (marker := Scan nodes marker').
  assert (Hscan : forall j, 0 <= j < nodes ->
            read marker j = Some (spec.edges_before mark (j + 1))).
  { apply Scan_edges_before; [lia| |unfold INT_MAX in *; lia].
    intros j Hj. split; [apply Hin; assumption|].
    destruct (Hmarks j Hj); lia. }
  destruct (Make_Difference_Queue_slots mark nodes Hmarks
              marker (cc_output.component_ids d) Hscan Hnew
              ltac:(unfold INT_MAX in *; lia)
              grid_size 256 (cc_output.keys_out d)
              (cc_output.vertex_associate_out d))
    as (keys' & ids' & Hrun & Hsk & Hsi & Hval & Hother);
    try (assumption || unfold INT_MAX in *; lia).
  rewrite Hrun. cbn [mbind option_bind].
  assert (Hkeys' : keys' = queue ++ drop (length queue)
                                      (cc_output.keys_out d)).
  { rewrite Hmarked.
    apply (array_of_marked mark nodes Hmarks (fun x => Some x));
      [lia|lia|assumption|apply mapM_marked_id| |].
    - intros x Hx Hm. apply Hval; assumption.
    - intros k Hk. apply Hother. assumption. }
  assert (Hids' : ids' = ids ++ drop (length queue)
                                    (cc_output.vertex_associate_out d)).
  { rewrite Hmarked.
    apply (array_of_marked mark nodes Hmarks
             (read (cc_output.component_ids d)));
      [lia|lia|assumption|rewrite <- Hmarked; assumption| |].
    - intros x Hx Hm. apply Hval; assumption.
    - intros k Hk. apply Hother. assumption. }
  rewrite Hscan by lia. replace (nodes - 1 + 1) with nodes by lia.
  cbn [mbind option_bind]. rewrite <- Hsize.
  rewrite fill_out_length_spec.
  2: { unfold GetSize in *. rewrite length_app, length_replicate, length_drop.
       lia. }
  cbn [mbind option_bind].
  assert (Hdrop : forall x : Z,
            drop (Z.to_nat num_gpus)
                 (replicate (Z.to_nat num_gpus) x
                  ++ drop (Z.to_nat num_gpus) (cc_output.out_length d))
            = drop (Z.to_nat num_gpus) (cc_output.out_length d)).
  { intros x. rewrite drop_app_length'; [reflexivity|].
    symmetry. apply length_replicate. }
  rewrite Hdrop.
  destruct (decide (queue = [])) as [Hempty|Hfull].
  - rewrite Hempty in *. change (GetSize []) with 0. cbn [Z.eqb negb].
    cbn [mbind option_bind].
    eexists. split; [reflexivity|]. cbn.
    split; [exact Hkeys'|]. split; [exact Hids'|].
    repeat split; reflexivity.
  - assert (0 < GetSize queue) as Hpos.
    { unfold GetSize. destruct queue; [contradiction|]. cbn [length]. lia. }
    destruct (Z.eqb_spec (GetSize queue) 0); [lia|]. cbn [negb].
    rewrite write_Some.
    2: { unfold GetSize in *.
         rewrite length_app, length_replicate, length_drop. lia. }
    cbn [mbind option_bind].
    eexists. split; [reflexivity|]. cbn.
    split; [exact Hkeys'|]. split; [exact Hids'|]. split.
    { rewrite bool_decide_false by assumption.
      destruct (Z.ltb_spec 0 (GetSize queue)); [reflexivity|lia]. }
    split; [|split; reflexivity].
    change (Z.to_nat 0) with O.
    replace (Z.to_nat num_gpus) with (S (Z.to_nat num_gpus - 1)) at 1 by lia.
    cbn [replicate app]. reflexivity.
Qed.

Lemma Make_Output_queues_changed_vertices_witness :
  exists d',
    cc_output.Make_Output 2 5 (attribute 9) examples.after_turn
    = Some ({| queue_index := 0; queue_length := 3;
               selector := 0; queue_reset := true |}, d')
    /\ cc_output.keys_out d' = [1; 3; 4; 7]
    /\ cc_output.vertex_associate_out d' = [0; 2; 2; 8]
    /\ cc_output.has_change d' = true
    /\ cc_output.out_length d' = [1; 3; 6].
Proof.
  destruct (Make_Output_queues_changed_vertices
              2 5 (attribute 9) examples.after_turn [1; 3; 4] [0; 2; 2])
    as (d' & Hrun & Hkeys & Hids & Hchange & Hlen & _);
    try (unfold INT_MAX, GetSize; cbn; lia); try reflexivity.
  exists d'. split; [exact Hrun|]. split; [exact Hkeys|].
  split; [exact Hids|]. split; [exact Hchange|exact Hlen].
Defined.

(** ** The needles of the partitions *)

(** X4.  While the products [split_val * my_id] fit into 32 bits, the
    kernel stores at every position below [num_elements] the smaller of
    [split_val * my_id] and [output_queue_len]: the needles start at 0,
    never decrease and never pass the end of the output queue; the
    entries from [num_elements] on are left as they were. *)
Theorem MarkPartitionSizes_needles
        (split_val num_elements output_queue_len : Z)
        (threads : nat) (d_needles : list Z) :
  0 <= num_elements <= Z.of_nat threads ->
  num_elements <= GetSize d_needles ->
  0 <= output_queue_len <= INT_MAX ->
  0 <= split_val ->
  split_val * (num_elements - 1) < 4294967296 ->
  partition_sizes.MarkPartitionSizes_kernel
    split_val num_elements output_queue_len threads d_needles
  = Some (((fun my_id => Z.min (split_val * my_id) output_queue_len)
             <$> seqZ 0 num_elements)
          ++ drop (Z.to_nat num_elements) d_needles).
Proof.
  intros Hn Hsize Hlen Hsplit Hfits.
  unfold partition_sizes.MarkPartitionSizes_kernel.
  replace threads
    with (Z.to_nat num_elements + (threads - Z.to_nat num_elements))%nat
    by lia.
  rewrite run_threads_app.
  destruct (run_threads_writes
              (partition_sizes.MarkPartitionSizes split_val num_elements
                                                  output_queue_len)
              (fun my_id => Z.min (split_val * my_id) output_queue_len)
              (GetSize d_needles) (Z.to_nat num_elements) 0 d_needles)
    as (a' & Hrun & Hsize' & Hin & Hout); [lia|lia|reflexivity| |].
  - intros i a Hi _. unfold partition_sizes.MarkPartitionSizes.
    destruct (Z.leb_spec num_elements i); [lia|]. f_equal.
    unfold partition_sizes.unsigned.
    assert (0 <= split_val * i <= split_val * (num_elements - 1)) by nia.
    rewrite !Z.mod_small by (unfold INT_MAX in *; lia).
    destruct (Z.ltb_spec output_queue_len (split_val * i)); lia.
  - rewrite Hrun. cbn [mbind option_bind].
    rewrite run_threads_idle.
    + f_equal. apply array_of_reads; [lia|assumption| |].
      * intros i Hi. apply Hin. lia.
      * intros i Hi. apply Hout. lia.
    + intros i Hi. unfold partition_sizes.MarkPartitionSizes.
      destruct (Z.leb_spec num_elements i); [reflexivity|lia].
Qed.

Lemma MarkPartitionSizes_needles_witness :
  partition_sizes.MarkPartitionSizes_kernel 3 4 8 6 [9; 9; 9; 9; 9]
  = Some [0; 3; 6; 8; 9].
Proof.
  apply (MarkPartitionSizes_needles 3 4 8 6 [9; 9; 9; 9; 9]);
    unfold INT_MAX, GetSize; cbn [length]; lia.
Defined.

(** ** Edge counts of an edge frontier *)

(** X5.  For an edge frontier ([E2V], [E2E]) the thread of position
    [my_id] takes its vertex from entry [my_id] of the column indices:
    with fewer elements than [max_edge], the kernel stores at position
    [i] the neighbor-list length of the destination of edge number [i]
    and 0 at the sentinel position, whatever [d_queue] holds. *)
Theorem GetEdgeCounts_edge_frontier_counts_by_position
        (d_row_offsets d_column_indices d_column_offsets d_row_indices : list Z)
        (d_queue : list Z) (num_elements max_vertex max_edge : Z)
        (ADVANCE_TYPE : TYPE) (in_inv out_inv : bool)
        (num_threads : nat) (d_scanned_edges : list Z) (len : Z -> Z) :
  is_vertex_input ADVANCE_TYPE = false ->
  0 <= num_elements < max_edge ->
  max_edge <= GetSize (if in_inv then d_row_indices else d_column_indices) ->
  (forall i, 0 <= i < num_elements ->
     exists v,
       read (if in_inv then d_row_indices else d_column_indices) i = Some v
       /\ 0 <= v <= max_vertex
       /\ GetNeighborListLength
            (if negb out_inv then d_row_offsets else d_column_offsets)
            v max_vertex max_edge = Some (len i)) ->
  num_elements < Z.of_nat num_threads ->
  num_elements < GetSize d_scanned_edges ->
  GetEdgeCounts_kernel d_row_offsets d_column_indices d_column_offsets
                       d_row_indices d_queue num_elements max_vertex
                       max_edge ADVANCE_TYPE in_inv out_inv
                       num_threads d_scanned_edges
  = Some ((len <$> seqZ 0 num_elements) ++ [0]
          ++ drop (Z.to_nat (num_elements + 1)) d_scanned_edges).
Proof.
  intros Hedge Hbelow Hfit Hlen Hthreads Hroom.
  set (val := fun i => if i =? num_elements then 0 else len i).
  unfold GetEdgeCounts_kernel.
  replace num_threads
    with (Z.to_nat (num_elements + 1)
          + (num_threads - Z.to_nat (num_elements + 1)))%nat by lia.
  rewrite run_threads_app.
  destruct (run_threads_writes
              (GetEdgeCounts d_row_offsets d_column_indices d_column_offsets
                             d_row_indices d_queue num_elements max_vertex
                             max_edge ADVANCE_TYPE in_inv out_inv)
              val (GetSize d_scanned_edges)
              (Z.to_nat (num_elements + 1)) 0 d_scanned_edges)
    as (counts & Hrun & Hsize & Hin & Hout); [lia|lia|reflexivity| |].
  { intros i a Hi _. unfold GetEdgeCounts, val.
    destruct (Z.ltb_spec num_elements i); [lia|].
    destruct (Z.leb_spec max_edge i); [lia|]. cbn [orb].
    rewrite Hedge.
    destruct (Z.leb_spec num_elements i) as [Hlast|Hinside].
    - assert (i = num_elements) as -> by lia.
      destruct (read_is_Some
                  (if in_inv then d_row_indices else d_column_indices)
                  num_elements) as [c Hc]; [lia|].
      rewrite Hc, Z.eqb_refl. reflexivity.
    - destruct (Hlen i) as (v & Hv & Hrange & Hcount); [lia|].
      rewrite Hv. cbn [mbind option_bind].
      destruct (Z.ltb_spec v 0); [lia|].
      destruct (Z.ltb_spec max_vertex v); [lia|]. cbn [orb].
      destruct (Z.eqb_spec i num_elements); [lia|].
      destruct out_inv; cbn [negb] in Hcount |- *; rewrite Hcount;
        reflexivity. }
  rewrite Hrun. cbn [mbind option_bind].
  rewrite run_threads_idle.
  2:{ intros i Hi. unfold GetEdgeCounts.
      destruct (Z.ltb_spec num_elements i); [reflexivity|lia]. }
  f_equal.
  rewrite (array_of_reads val (num_elements + 1) d_scanned_edges counts);
    [|lia|assumption| |].
  - rewrite seqZ_app, fmap_app, <- app_assoc by lia. f_equal.
    + apply list_fmap_ext. intros k i Hi.
      apply lookup_seqZ in Hi as [-> Hk]. unfold val.
      destruct (Z.eqb_spec (0 + Z.of_nat k) num_elements); [lia|reflexivity].
    + change (seqZ (0 + num_elements) 1) with [0 + num_elements].
      cbn [fmap list_fmap app]. unfold val.
      rewrite Z.add_0_l, Z.eqb_refl. reflexivity.
  - intros i Hi. apply Hin. lia.
  - intros i Hi. apply Hout. lia.
Qed.

(** On the graph with the edges 0 -> 1, 0 -> 2, 1 -> 0, 2 -> 3, 2 -> 0
    and the edge frontier of the edges 3 and 4, whose destinations 3
    and 0 have no and two outgoing edges, the kernel stores the lengths
    1 and 2 of the destinations of the edges 0 and 1. *)
Lemma GetEdgeCounts_edge_frontier_counts_by_position_witness :
  GetEdgeCounts_kernel square_row_offsets square_column_indices [] []
                       [3; 4] 2 4 5 E2V false false 4 [9; 9; 9; 9]
  = Some [1; 2; 0; 9].
Proof.
  apply (GetEdgeCounts_edge_frontier_counts_by_position
           square_row_offsets square_column_indices [] [] [3; 4] 2 4 5
           E2V false false 4 [9; 9; 9; 9]
           (fun i => if i =? 0 then 1 else 2)).
  - reflexivity.
  - lia.
  - unfold GetSize. cbn. lia.
  - intros i Hi. assert (i = 0 \/ i = 1) as [-> | ->] by lia.
    + exists 1. split; [reflexivity|]. split; [lia|reflexivity].
    + exists 2. split; [reflexivity|]. split; [lia|reflexivity].
  - lia.
  - unfold GetSize. cbn. lia.
Defined.

(** ** The output frontier of the light path *)

Lemma answered_accepted (Problem : Type)
      (ApplyEdge : Z -> Z -> Problem -> Z -> Z -> Problem)
      (p : Problem) (calls : list EdgeVisit) :
  spec.answered Problem light_output.accept_CondEdge ApplyEdge p calls ->
  Forall (fun vis => visit_cond vis = true) calls.
Proof.
  induction calls as [|vis calls IH]; cbn [spec.answered]; [constructor|].
  intros [Hcond Hrest]. constructor; [exact Hcond|auto].
Qed.

(** X6.  With the inclusive prefix sums of the neighbor-list lengths in
    [d_scanned_edges], [RelaxLightEdges] in [V2V] mode under a functor
    that accepts every edge writes the neighbor lists of the frontier
    vertices, one after the other in the order of the frontier, to the
    front of the output frontier and leaves the rest of it as it was.
    ([BinarySearch] is not part of the sources; it is the search for the
    first scanned entry that is greater than the position.) *)
Theorem RelaxLightEdges_emits_neighbor_lists
        (Problem : Type)
        (ApplyEdge : Z -> Z -> Problem -> Z -> Z -> Problem)
        (LOG_THREADS : nat) (MARK_PREDECESSORS : bool) (label : Z)
        (d_row_offsets d_inverse_row_offsets : list Z)
        (d_column_indices d_inverse_column_indices : list Z)
        (d_scanned_edges d_queue : list Z)
        (input_queue_len max_vertices max_edges : Z)
        (R_TYPE : REDUCE_TYPE) (R_OP : REDUCE_OP)
        (element first len : Z -> Z) (num_blocks : nat)
        (st : AdvanceState Problem) (out : list Z) :
  (1 <= LOG_THREADS)%nat ->
  0 < input_queue_len ->
  input_queue_len + THREADS LOG_THREADS <= INT_MAX ->
  (Z.of_nat num_blocks - 1) * THREADS LOG_THREADS < input_queue_len
  <= Z.of_nat num_blocks * THREADS LOG_THREADS ->
  (forall j, 0 <= j < input_queue_len ->
     read d_queue j = Some (element j)
     /\ read d_row_offsets (element j) = Some (first j)
     /\ 0 <= len j /\ 0 <= first j
     /\ first j + len j <= GetSize d_column_indices
     /\ read d_scanned_edges j = Some (spec.edges_before len (j + 1))) ->
  GetSize d_column_indices <= INT_MAX ->
  spec.edges_before len input_queue_len <= INT_MAX ->
  d_out Problem st = Some out ->
  spec.edges_before len input_queue_len <= GetSize out ->
  exists st',
    RelaxLightEdges Problem light_output.accept_CondEdge ApplyEdge
                    LOG_THREADS MARK_PREDECESSORS label
                    d_row_offsets d_inverse_row_offsets
                    d_column_indices d_inverse_column_indices
                    d_scanned_edges d_queue input_queue_len
                    max_vertices max_edges V2V false false R_TYPE R_OP None
                    num_blocks st
    = Some st'
    /\ d_out Problem st'
       = Some (light_output.neighbor_lists d_column_indices first len
                                           input_queue_len
               ++ drop (Z.to_nat (spec.edges_before len input_queue_len))
                       out)
    /\ GetSize (light_output.neighbor_lists d_column_indices first len
                                            input_queue_len)
       = spec.edges_before len input_queue_len.
Proof.
  intros Hthreads Hn Hfits Hblocks Hslots Hedges Htotal Hout Hroom.
  assert (Hlen : forall j, 0 <= j < input_queue_len ->
            0 <= len j /\ 0 <= first j
            /\ first j + len j <= GetSize d_column_indices).
  { intros j Hj. destruct (Hslots j Hj) as (_ & _ & H1 & H2 & H3 & _).
    auto. }
  destruct (RelaxLightEdges_relaxes_every_edge_once
              Problem light_output.accept_CondEdge ApplyEdge
              LOG_THREADS MARK_PREDECESSORS label
              d_row_offsets d_inverse_row_offsets
              d_column_indices d_inverse_column_indices
              d_scanned_edges d_queue input_queue_len max_vertices max_edges
              V2V R_TYPE R_OP None element element first len
              Hthreads Hfits)
    with (num_blocks := num_blocks) (st := st) (out := out)
    as (st' & new & out' & Hrun & _ & Hperm & Hans & _ & Hout' & Hstored
        & Hother); try (assumption || reflexivity).
  { intros j Hj. apply Hslots. assumption. }
  { intros j Hj. apply Hslots. assumption. }
  { intros j Hj. apply Hslots. assumption. }
  set (owed := spec.relaxations LOG_THREADS MARK_PREDECESSORS label
                 d_column_indices V2V element element first len
                 0 input_queue_len) in *.
  pose proof (owed_positions LOG_THREADS MARK_PREDECESSORS label
                d_column_indices input_queue_len V2V element element
                first len Hthreads Hlen O (Z.to_nat input_queue_len))
    as Hpos.
  rewrite Z2Nat.id in Hpos by lia. specialize (Hpos ltac:(lia)).
  fold owed in Hpos.
  assert (Hdst : r_dst <$> owed
                 = light_output.neighbor_lists d_column_indices first len
                                               input_queue_len).
  { unfold owed, spec.relaxations, light_output.neighbor_lists.
    rewrite fmap_bind_list. apply list_bind_ext; [|reflexivity].
    intros j. rewrite <- list_fmap_compose.
    replace (seqZ (first j) (len j))
      with (Z.add (first j) <$> seqZ 0 (len j))
      by (rewrite fmap_add_seqZ, Z.add_0_r; reflexivity).
    rewrite <- list_fmap_compose. apply list_fmap_ext.
    intros i e _. reflexivity. }
  assert (Hsize : GetSize (r_dst <$> owed)
                  = spec.edges_before len input_queue_len).
  { pose proof (f_equal length Hpos) as Hl.
    rewrite !length_fmap, length_seqZ in Hl.
    unfold GetSize. rewrite length_fmap, Hl.
    pose proof (edges_before_mono len 0 input_queue_len ltac:(lia)) as Hm.
    change (spec.edges_before len 0) with 0 in Hm.
    specialize (Hm ltac:(intros j Hj; apply Hlen; lia)). lia. }
  assert (Hall : Forall (fun vis => visit_cond vis = true) new)
    by (eapply answered_accepted; eassumption).
  assert (Hslot : forall (i : nat) c, owed !! i = Some c ->
            read out' (Z.of_nat i) = Some (r_dst c)).
  { intros i c Hc.
    assert (r_out c = Z.of_nat i) as Hi.
    { assert ((r_out <$> owed) !! i = Some (r_out c)) as H
        by (rewrite list_lookup_fmap, Hc; reflexivity).
      rewrite Hpos in H. apply lookup_seqZ in H. lia. }
    assert (c ∈ relaxation_of <$> new) as Hin.
    { rewrite Hperm. eapply list_elem_of_lookup_2. eassumption. }
    apply list_elem_of_fmap in Hin as (vis & -> & Hvis).
    rewrite list.Forall_forall in Hall. specialize (Hall vis Hvis).
    rewrite <- Hi. apply (Hstored vis); [assumption|].
    unfold spec.stored. rewrite Hall. reflexivity. }
  exists st'. split; [exact Hrun|]. rewrite <- Hdst. split; [|exact Hsize].
  rewrite Hout'. f_equal. unfold GetSize in Hsize.
  apply list_eq. intros i.
  destruct (Nat.lt_ge_cases i (length (r_dst <$> owed))) as [Hlt|Hge].
  - rewrite lookup_app_l by assumption.
    rewrite length_fmap in Hlt.
    destruct (lookup_lt_is_Some_2 owed i Hlt) as [c Hc].
    rewrite list_lookup_fmap, Hc. cbn. rewrite <- read_of_nat.
    apply Hslot. assumption.
  - rewrite lookup_app_r by assumption. rewrite lookup_drop.
    replace (Z.to_nat (spec.edges_before len input_queue_len)
             + (i - length (r_dst <$> owed)))%nat with i by lia.
    rewrite <- !read_of_nat. apply Hother. lia.
Qed.

(** The frontier of the vertices 2 and 0 of the graph with the edges
    0 -> 1, 0 -> 2, 1 -> 0, 2 -> 3, 2 -> 0: the output frontier starts
    with the neighbors 3, 0 of vertex 2 and 1, 2 of vertex 0. *)
Lemma RelaxLightEdges_emits_neighbor_lists_witness :
  exists st',
    RelaxLightEdges nat light_output.accept_CondEdge count_ApplyEdge
                    1 false 0 square_row_offsets [] square_column_indices []
                    [2; 4] [2; 0] 2 4 5 V2V false false EMPTY NONE None
                    1 (fresh_state 5 9)
    = Some st'
    /\ d_out nat st' = Some [3; 0; 1; 2; 9].
Proof.
  destruct (RelaxLightEdges_emits_neighbor_lists
              nat count_ApplyEdge 1 false 0
              square_row_offsets [] square_column_indices []
              [2; 4] [2; 0] 2 4 5 EMPTY NONE
              (fun j => if j =? 0 then 2 else 0)
              (fun j => if j =? 0 then 3 else 0)
              (fun j => 2) 1 (fresh_state 5 9) [9; 9; 9; 9; 9])
    as (st' & Hrun & Hout & _).
  - lia.
  - lia.
  - vm_compute. discriminate.
  - split; vm_compute; [reflexivity|discriminate].
  - intros j Hj. assert (j = 0 \/ j = 1) as [-> | ->] by lia;
      repeat split; try reflexivity; vm_compute; discriminate.
  - vm_compute. discriminate.
  - vm_compute. discriminate.
  - reflexivity.
  - vm_compute. discriminate.
  - exists st'. split; [exact Hrun|exact Hout].
Defined.

(** ** Command-line arguments *)

Section CommandLine.

Import Ascii String.
Import test_utils.

Lemma substring_all (s : string) (m : nat) :
  (String.length s <= m)%nat -> substring 0 m s = s.
Proof.
  revert m. induction s as [|c s IH]; intros m Hm.
  - destruct m; reflexivity.
  - cbn [String.length] in Hm. destruct m as [|m]; [lia|].
    cbn [substring]. rewrite IH by lia. reflexivity.
Qed.

Lemma substring_prefix (a b : string) :
  substring 0 (String.length a) (a ++ b) = a.
Proof.
  induction a as [|c a IH]; cbn [String.length String.append substring].
  - destruct b; reflexivity.
  - rewrite IH. reflexivity.
Qed.

Lemma substring_behind (a b : string) (c : ascii) (m : nat) :
  substring (S (String.length a)) m (a ++ String c b) = substring 0 m b.
Proof.
  induction a as [|x a IH]; cbn [String.length String.append substring].
  - reflexivity.
  - exact IH.
Qed.

Lemma length_append (a b : string) :
  String.length (a ++ b) = (String.length a + String.length b)%nat.
Proof.
  induction a as [|c a IH]; cbn [String.length String.append]; [reflexivity|].
  rewrite IH. reflexivity.
Qed.

Lemma find_char_first (c : ascii) (a b : string) :
  without c a ->
  find_char c (a ++ String c b) = Some (String.length a).
Proof.
  induction a as [|x a IH];
    cbn [without String.append find_char String.length].
  - intros _. rewrite Ascii.eqb_refl. reflexivity.
  - intros [Hx Ha]. destruct (Ascii.eqb_spec x c); [contradiction|].
    rewrite IH by assumption. reflexivity.
Qed.

Lemma find_char_none (c : ascii) (a : string) :
  without c a -> find_char c a = None.
Proof.
  induction a as [|x a IH]; cbn [without find_char]; [reflexivity|].
  intros [Hx Ha]. destruct (Ascii.eqb_spec x c); [contradiction|].
  rewrite IH by assumption. reflexivity.
Qed.

(** The constructor takes a spelled flag apart again. *)
Lemma key_value_spelled (key : string) (val : option string) :
  without "=" key ->
  key_value (spelled key val) = Some (key, default EmptyString val).
Proof.
  intros Hkey. destruct val as [v|]; unfold spelled, key_value.
  - change ("--" ++ key ++ "=" ++ v)%string
      with (String "-" (String "-" (key ++ String "=" v))).
    cbn [find_char]. cbn [Ascii.eqb Bool.eqb].
    cbn [fmap option_fmap option_map].
    rewrite find_char_first by assumption.
    cbn [fmap option_fmap option_map].
    f_equal. f_equal.
    + cbn [substring]. replace (S (S (String.length key)) - 2)%nat
        with (String.length key) by lia.
      apply substring_prefix.
    + replace (S (S (String.length key)) + 1)%nat
        with (S (S (S (String.length key)))) by lia.
      cbn [substring]. rewrite substring_behind.
      cbn [String.length]. rewrite length_append. cbn [String.length].
      apply substring_all. change (default EmptyString (Some v)) with v.
      lia.
  - change ("--" ++ key)%string with (String "-" (String "-" key)).
    cbn [find_char]. cbn [Ascii.eqb Bool.eqb].
    rewrite find_char_none by assumption.
    cbn [fmap option_fmap option_map].
    cbn [String.length substring]. f_equal. f_equal.
    apply substring_all. lia.
Qed.

Lemma find_assign_eq (key val : string) (pairs : std_map.map) :
  std_map.find key (std_map.assign key val pairs) = Some val.
Proof.
  induction pairs as [|[k v] rest IH]; cbn [std_map.assign std_map.find].
  - rewrite String.eqb_refl. reflexivity.
  - destruct (String.eqb_spec k key) as [->|Hne]; cbn [std_map.find].
    + rewrite String.eqb_refl. reflexivity.
    + destruct (String.eqb_spec k key); [contradiction|exact IH].
Qed.

Lemma find_assign_ne (key val other : string) (pairs : std_map.map) :
  key <> other ->
  std_map.find other (std_map.assign key val pairs)
  = std_map.find other pairs.
Proof.
  intros Hne.
  induction pairs as [|[k v] rest IH]; cbn [std_map.assign std_map.find].
  - destruct (String.eqb_spec key other); [contradiction|reflexivity].
  - destruct (String.eqb_spec k key) as [->|Hk]; cbn [std_map.find].
    + destruct (String.eqb_spec key other); [contradiction|reflexivity].
    + rewrite IH. reflexivity.
Qed.

Lemma size_assign (key val : string) (pairs : std_map.map) :
  std_map.size (std_map.assign key val pairs)
  = if std_map.find key pairs is Some _ then std_map.size pairs
    else std_map.size pairs + 1.
Proof.
  unfold std_map.size.
  induction pairs as [|[k v] rest IH];
    cbn [std_map.assign std_map.find List.length].
  - reflexivity.
  - destruct (String.eqb_spec k key) as [->|Hk]; cbn [List.length].
    + reflexivity.
    + rewrite Nat2Z.inj_succ, IH. destruct (std_map.find key rest); lia.
Qed.

(** Arguments that do not spell the key leave its value alone. *)
Lemma find_other_flags (key : string) (args : list string) :
  forall pairs,
    Forall (fun arg => forall kv, key_value arg = Some kv -> fst kv <> key)
           args ->
    std_map.find key (foldl take_argument pairs args)
    = std_map.find key pairs.
Proof.
  induction args as [|arg args IH]; intros pairs Hargs; [reflexivity|].
  apply list.Forall_cons in Hargs as [Harg Hargs].
  cbn [foldl]. rewrite IH by assumption. unfold take_argument.
  destruct (key_value arg) as [[k v]|] eqn:Hkv; [|reflexivity].
  apply find_assign_ne. exact (Harg (k, v) eq_refl).
Qed.

(** Flags add a pair each exactly when their keys are new and differ
    from one another. *)
Lemma size_flags (flags : list string) : forall keys pairs,
  Forall2 (fun arg k => exists v, key_value arg = Some (k, v)) flags keys ->
  std_map.size (foldl take_argument pairs flags)
  <= std_map.size pairs + Z.of_nat (List.length flags)
  /\ (std_map.size (foldl take_argument pairs flags)
      = std_map.size pairs + Z.of_nat (List.length flags)
      <-> NoDup keys /\ forall k, k ∈ keys -> std_map.find k pairs = None).
Proof.
  induction flags as [|arg flags IH]; intros keys pairs Hkeys.
  - apply Forall2_nil_inv_l in Hkeys as ->. cbn [foldl List.length].
    split; [lia|]. split; [|lia]. intros _. split; [constructor|].
    intros k Hk. inversion Hk.
  - apply Forall2_cons_inv_l in Hkeys
      as (k & keys' & (v & Hkv) & Hkeys & ->).
    cbn [foldl List.length]. unfold take_argument at 2 4. rewrite Hkv.
    destruct (IH keys' (std_map.assign k v pairs) Hkeys) as [Hle Hiff].
    rewrite size_assign in Hle, Hiff.
    rewrite Nat2Z.inj_succ, list.NoDup_cons.
    destruct (std_map.find k pairs) as [old|] eqn:Hfind.
    + split; [lia|]. split; [lia|].
      intros [_ Hnone]. specialize (Hnone k ltac:(left)). congruence.
    + split; [lia|].
      replace (std_map.size pairs + Z.succ (Z.of_nat (List.length flags)))
        with (std_map.size pairs + 1 + Z.of_nat (List.length flags)) by lia.
      rewrite Hiff. split.
      * intros [Hdup Hnone]. split; [split; [|assumption]|].
        -- intros Hin. specialize (Hnone k Hin).
           rewrite find_assign_eq in Hnone. discriminate.
        -- intros k' Hk'. apply elem_of_cons in Hk' as [->|Hk'];
             [assumption|].
           specialize (Hnone k' Hk').
           destruct (String.string_dec k k') as [->|Hne].
           ++ rewrite find_assign_eq in Hnone. discriminate.
           ++ rewrite find_assign_ne in Hnone by assumption. assumption.
      * intros [[Hfresh Hdup] Hnone]. split; [assumption|].
        intros k' Hk'. rewrite find_assign_ne.
        -- apply Hnone. right. assumption.
        -- intros ->. contradiction.
Qed.

(** X7.  A flag spelled [--key=value] or [--key] (without a value) is
    present after the constructor with the value of its last spelling,
    the empty string for a spelling without value, however many
    arguments, flags of other keys or earlier spellings of the same key,
    stand around it; the key must not contain [=]. *)
Theorem CommandLineArgs_holds_last_value
        (prog key : string) (val : option string)
        (before after : list string) :
  without "=" key ->
  Forall (fun arg => forall kv, key_value arg = Some kv -> fst kv <> key)
         after ->
  std_map.find key
    (pairs (construct (prog :: before ++ spelled key val :: after)))
  = Some (default EmptyString val)
  /\ CheckCmdLineFlag
       (construct (prog :: before ++ spelled key val :: after)) key
     = true.
Proof.
  intros Hkey Hafter.
  assert (Hfind : std_map.find key
                    (pairs (construct
                              (prog :: before ++ spelled key val :: after)))
                  = Some (default EmptyString val)).
  { unfold construct. cbn [pairs drop]. rewrite drop_0, foldl_app.
    cbn [foldl]. rewrite find_other_flags by assumption.
    unfold take_argument at 1.
    rewrite key_value_spelled by assumption. apply find_assign_eq. }
  split; [assumption|].
  unfold CheckCmdLineFlag. rewrite Hfind. apply bool_decide_true. eauto.
Qed.

Lemma CommandLineArgs_holds_last_value_witness :
  std_map.find "device"
    (pairs (construct ["test_bc"; "market"; "--device=1"; "--quick";
                       "--device=2"; "--src=0"]))%string
  = Some "2"%string
  /\ CheckCmdLineFlag
       (construct ["test_bc"; "market"; "--device=1"; "--quick";
                   "--device=2"; "--src=0"])%string "device"
     = true.
Proof.
  apply (CommandLineArgs_holds_last_value
           "test_bc" "device" (Some "2")
           ["market"; "--device=1"; "--quick"] ["--src=0"])%string.
  - cbn. repeat split; discriminate.
  - repeat constructor. intros kv [= <-]. cbn. discriminate.
Defined.

(** X8.  On a command line of the shape [prog type file flags...], with
    flags that all start with two dashes, [GetCmdLineArgvGraphType]
    returns [type], and [GetCmdLineArgvDataset] returns [file] when the
    keys of the flags are all different and [NULL] as soon as one key
    is spelled twice. *)
Theorem GetCmdLineArgvDataset_needs_distinct_flags
        (prog type file : string) (flags keys : list string) :
  key_value type = None -> key_value file = None ->
  Forall2 (fun arg k => exists v, key_value arg = Some (k, v)) flags keys ->
  Z.of_nat (List.length flags) + 3 <= INT_MAX ->
  GetCmdLineArgvGraphType (construct (prog :: type :: file :: flags))
  = Some type
  /\ (NoDup keys ->
      GetCmdLineArgvDataset (construct (prog :: type :: file :: flags))
      = Some file)
  /\ (~ NoDup keys ->
      GetCmdLineArgvDataset (construct (prog :: type :: file :: flags))
      = None).
Proof.
  intros Htype Hfile Hflags Hfits.
  split; [reflexivity|].
  unfold GetCmdLineArgvDataset, construct. cbn [argc argv pairs drop foldl].
  unfold take_argument at 2 3 5 6. rewrite Htype, Hfile.
  destruct (size_flags flags keys [] Hflags) as [Hle Hiff].
  change (std_map.size []) with 0 in Hle, Hiff.
  pose proof (Nat2Z.is_nonneg
                (List.length (foldl take_argument [] flags))) as H0.
  fold (std_map.size (foldl take_argument [] flags)) in H0.
  cbn [List.length]. rewrite !Nat2Z.inj_succ.
  rewrite Z.mod_small by (unfold INT_MAX in *; lia).
  split.
  - intros Hdup.
    destruct (Z.eqb_spec
                (Z.succ (Z.succ (Z.succ (Z.of_nat (List.length flags))))
                 - std_map.size (foldl take_argument [] flags) - 1) 2)
      as [_|Hne]; [reflexivity|].
    exfalso. apply Hne.
    assert (std_map.size (foldl take_argument [] flags)
            = 0 + Z.of_nat (List.length flags)) as ->; [|lia].
    apply Hiff. split; [assumption|]. intros; reflexivity.
  - intros Hdup.
    destruct (Z.eqb_spec
                (Z.succ (Z.succ (Z.succ (Z.of_nat (List.length flags))))
                 - std_map.size (foldl take_argument [] flags) - 1) 2)
      as [Heq|_]; [|reflexivity].
    exfalso. apply Hdup. apply Hiff. lia.
Qed.

Lemma GetCmdLineArgvDataset_needs_distinct_flags_witness :
  GetCmdLineArgvDataset
    (construct ["test_bc"; "market"; "graph.mtx"; "--quick";
                "--device=1"])%string
  = Some "graph.mtx"%string.
Proof.
  refine (proj1 (proj2 (GetCmdLineArgvDataset_needs_distinct_flags
                          "test_bc" "market" "graph.mtx"
                          ["--quick"; "--device=1"] ["quick"; "device"]
                          _ _ _ _))%string _).
  - reflexivity.
  - reflexivity.
  - repeat constructor; eexists; reflexivity.
  - unfold INT_MAX. cbn. lia.
  - repeat constructor; rewrite ?elem_of_cons, ?elem_of_nil;
      intros H; repeat destruct H as [H|H]; discriminate || exact H.
Defined.

End CommandLine.

(** ** The entries [Enact] and [Init] *)

Lemma min_sm_version_from (l : list Z) : forall m,
  0 <= m -> Forall (fun v => 0 <= v) l ->
  0 <= foldl enactor_entry.lower m l
  /\ (300 <= foldl enactor_entry.lower m l
      <-> 300 <= m /\ Forall (fun v => 300 <= v) l).
Proof.
  induction l as [|v l IH]; intros m Hm Hl; cbn [foldl].
  - split; [assumption|]. split; [intros; split; [assumption|constructor]|].
    intros [H _]. exact H.
  - apply list.Forall_cons in Hl as [Hv Hl].
    unfold enactor_entry.lower at 2 4.
    destruct (Z.eqb_spec m (-1)); [lia|]. cbn [orb].
    destruct (Z.ltb_spec v m).
    + destruct (IH v Hv Hl) as [H0 Hiff]. split; [exact H0|].
      rewrite Hiff, list.Forall_cons. split; [|tauto].
      intros [H1 H2]. split; [lia|split; assumption].
    + destruct (IH m Hm Hl) as [H0 Hiff]. split; [exact H0|].
      rewrite Hiff, list.Forall_cons. split; [|tauto].
      intros [H1 H2]. split; [assumption|split; [lia|assumption]].
Qed.

(** X9.  [Enact] and [Init] of both enactors go on to the enactor
    proper exactly when there is a device and every device has an SM
    version of 300 or more; with no device at all, or with one device
    below 300, they return the error without calling it.  (The
    versions are not negative: -1 is what the loop starts from.) *)
Theorem Enact_needs_sm_300_on_every_device
        {R : Type} (device_sm_version : list Z) (enact refuse : R) :
  Forall (fun v => 0 <= v) device_sm_version ->
  (device_sm_version <> []
   /\ Forall (fun v => 300 <= v) device_sm_version ->
   enactor_entry.Enact device_sm_version enact refuse = enact)
  /\ (device_sm_version = []
      \/ Exists (fun v => v < 300) device_sm_version ->
      enactor_entry.Enact device_sm_version enact refuse = refuse).
Proof.
  intros Hpos. unfold enactor_entry.Enact, enactor_entry.min_sm_version.
  destruct device_sm_version as [|v l].
  - split; [intros [H _]; contradiction|]. intros _. reflexivity.
  - apply list.Forall_cons in Hpos as [Hv Hl].
    cbn [foldl]. unfold enactor_entry.lower at 2 4.
    change (-1 =? -1) with true. cbn [orb].
    destruct (min_sm_version_from l v Hv Hl) as [_ Hiff].
    split.
    + intros [_ Hall]. apply list.Forall_cons in Hall as [H1 H2].
      destruct (Z.leb_spec 300 (foldl enactor_entry.lower v l))
        as [_|Hlt]; [reflexivity|].
      exfalso. pose proof (proj2 Hiff (conj H1 H2)). lia.
    + intros [Hnil|Hex]; [discriminate|].
      destruct (Z.leb_spec 300 (foldl enactor_entry.lower v l))
        as [Hge|_]; [|reflexivity].
      exfalso. apply Hiff in Hge as [H1 H2].
      apply list.Exists_exists in Hex as (x & Hx & Hlt).
      apply elem_of_cons in Hx as [->|Hx]; [lia|].
      rewrite list.Forall_forall in H2. specialize (H2 x Hx). lia.
Qed.

Lemma Enact_needs_sm_300_on_every_device_witness :
  enactor_entry.cc_Enact [350; 300] [ok; ok; ok; ok] 2 = Some cudaSuccess
  /\ enactor_entry.cc_Enact [350; 200] [ok; ok; ok; ok] 2
     = Some enactor_entry.cudaErrorInvalidDeviceFunction.
Proof.
  split.
  - refine (proj1 (Enact_needs_sm_300_on_every_device
                     [350; 300] (cc.EnactCC [ok; ok; ok; ok] 2)
                     (Some enactor_entry.cudaErrorInvalidDeviceFunction) _)
                  _).
    + repeat constructor; lia.
    + split; [discriminate|]. repeat constructor; lia.
  - refine (proj2 (Enact_needs_sm_300_on_every_device
                     [350; 200] (cc.EnactCC [ok; ok; ok; ok] 2)
                     (Some enactor_entry.cudaErrorInvalidDeviceFunction) _)
                  _).
    + repeat constructor; lia.
    + right. apply Exists_cons_tl, Exists_cons_hd. lia.
Defined.

(** ** The start of betweenness centrality *)

(** A loop that keeps an invariant. *)
Lemma run_threads_invariant {St : Type} (body : Z -> St -> option St)
      (I : Z -> St -> Prop) (n : nat) : forall first s,
  I first s ->
  (forall i st, first <= i < first + Z.of_nat n -> I i st ->
     exists st', body i st = Some st' /\ I (i + 1) st') ->
  exists s', run_threads body first n s = Some s'
             /\ I (first + Z.of_nat n) s'.
Proof.
  induction n as [|n IH]; intros first s Hs Hstep.
  - exists s. rewrite Z.add_0_r. split; [reflexivity|assumption].
  - destruct (Hstep first s ltac:(lia) Hs) as (s1 & Hbody & Hs1).
    cbn [run_threads]. rewrite Hbody.
    destruct (IH (first + 1) s1 Hs1) as (s' & Hrun & Hs').
    { intros i st Hi. apply Hstep. lia. }
    exists s'. split; [assumption|].
    replace (first + Z.of_nat (S n)) with (first + 1 + Z.of_nat n) by lia.
    assumption.
Qed.

Section Start.

Variable num_gpus : Z.
Variables thread_num init_size : Z.
Variable st0 : list FrontierAttribute * list EnactorStats.

Hypothesis devices : 0 <= thread_num < num_gpus.
Hypothesis attributes : GetSize (fst st0) = num_gpus * num_gpus.
Hypothesis stats : GetSize (snd st0) = num_gpus * num_gpus.

Lemma reset_peer_step (peer_ : Z)
      (st : list FrontierAttribute * list EnactorStats) :
  0 <= peer_ < num_gpus ->
  bc_start.reset_upto num_gpus thread_num init_size st0 peer_ st ->
  exists st',
    bc_start.reset_peer num_gpus thread_num init_size peer_ st = Some st'
    /\ bc_start.reset_upto num_gpus thread_num init_size st0 (peer_ + 1) st'.
Proof.
  intros Hpeer (Hsa & Hss & Hdone & Hrest).
  assert (0 <= thread_num * num_gpus + peer_ < num_gpus * num_gpus)
    as Hslot by nia.
  unfold bc_start.reset_peer.
  destruct (write_is_Some (fst st) (thread_num * num_gpus + peer_)
              (bc_start.initial (if peer_ =? 0 then init_size else 0)))
    as [fa' Hfa]; [lia|].
  unfold bc_start.initial in Hfa. rewrite Hfa. cbn [mbind option_bind].
  destruct (read_is_Some (snd st) (thread_num * num_gpus + peer_))
    as [s Hs]; [lia|].
  rewrite Hs. cbn [mbind option_bind].
  destruct (write_is_Some (snd st) (thread_num * num_gpus + peer_)
              {| retval := retval s; iteration := 0 |})
    as [es' Hes]; [lia|].
  rewrite Hes. cbn [mbind option_bind].
  eexists. split; [reflexivity|].
  destruct (Hrest (thread_num * num_gpus + peer_) ltac:(lia)) as [_ Hold].
  split; [|split; [|split]]; cbn [fst snd].
  - rewrite (GetSize_write _ _ _ _ Hfa). assumption.
  - rewrite (GetSize_write _ _ _ _ Hes). assumption.
  - intros p Hp.
    destruct (Z.eq_dec p peer_) as [->|Hne].
    + split; [apply (read_write_eq _ _ _ _ Hfa)|].
      exists s. split; [congruence|].
      apply (read_write_eq _ _ _ _ Hes).
    + rewrite (read_write_ne _ _ _ _ _ Hfa) by lia.
      rewrite (read_write_ne _ _ _ _ _ Hes) by lia.
      apply Hdone. lia.
  - intros slot Hslot'.
    rewrite (read_write_ne _ _ _ _ _ Hfa) by lia.
    rewrite (read_write_ne _ _ _ _ _ Hes) by lia.
    apply Hrest. lia.
Qed.

Lemma reset_every_peer :
  exists st',
    run_threads (bc_start.reset_peer num_gpus thread_num init_size)
                0 (Z.to_nat num_gpus) st0 = Some st'
    /\ bc_start.reset_upto num_gpus thread_num init_size st0 num_gpus st'.
Proof.
  destruct (run_threads_invariant
              (bc_start.reset_peer num_gpus thread_num init_size)
              (bc_start.reset_upto num_gpus thread_num init_size st0)
              (Z.to_nat num_gpus) 0 st0) as (st' & Hrun & Hinv).
  - split; [reflexivity|]. split; [reflexivity|].
    split; [intros; lia|]. intros; split; reflexivity.
  - intros peer_ st Hpeer Hst. apply reset_peer_step; [lia|assumption].
  - exists st'. split; [assumption|].
    replace (0 + Z.of_nat (Z.to_nat num_gpus)) with num_gpus in Hinv by lia.
    assumption.
Qed.

End Start.

(** The thread of [gpu] resets its slots exactly when [SetDevice]
    succeeded on every device up to [gpu]. *)
Lemma resets_spec (SetDevice : Z -> cudaError_t) (gpu : Z) :
  0 <= gpu ->
  bc_start.resets SetDevice gpu = true
  <-> forall g, 0 <= g <= gpu -> SetDevice g = cudaSuccess.
Proof.
  intros Hgpu. unfold bc_start.resets, bc_start.released.
  rewrite andb_true_iff, forallb_forall. split.
  - intros [Hown Hbefore] g Hg.
    destruct (Z.eq_dec g gpu) as [->|Hne]; [apply Z.eqb_eq, Hown|].
    apply Z.eqb_eq, Hbefore. apply list_elem_of_In, elem_of_seqZ. lia.
  - intros Hall. split; [apply Z.eqb_eq, Hall; lia|].
    intros g Hg%list_elem_of_In%elem_of_seqZ. apply Z.eqb_eq, Hall. lia.
Qed.

(** X10.  When [EnactBC] has handed out the initial sizes and the
    thread of every device has got as far as it gets before the forward
    phase, the slots of a device are reset exactly when [SetDevice]
    succeeded in its thread and in the threads of all devices before
    it, since [EnactBC] lets the threads go in order and waits for a
    thread whose [SetDevice] failed for ever.  Reset means: iteration 0,
    queue index 0, and a queue of one vertex with selector 1 in slot 0
    of the device that owns the source according to the partition table
    (of the only device when there is one, without a look at the
    table), a queue of no vertex with selector 0 in every other slot.
    The slots of the other devices are as they were.  In both cases the
    first slot of the device holds what [SetDevice] returned as its
    status, and the other slots keep theirs. *)
Theorem BC_starts_from_one_queued_source
        (num_gpus : Z) (partition_table : list Z) (src owner : Z)
        (SetDevice : Z -> cudaError_t)
        (frontier_attribute : list FrontierAttribute)
        (enactor_stats : list EnactorStats) :
  1 <= num_gpus ->
  GetSize frontier_attribute = num_gpus * num_gpus ->
  GetSize enactor_stats = num_gpus * num_gpus ->
  (if num_gpus =? 1 then owner = 0
   else read partition_table src = Some owner) ->
  exists attributes stats,
    bc_start.start num_gpus partition_table src SetDevice
                   (frontier_attribute, enactor_stats)
    = Some (attributes, stats)
    /\ forall gpu peer_, 0 <= gpu < num_gpus -> 0 <= peer_ < num_gpus ->
         (bc_start.resets SetDevice gpu = true
          <-> forall g, 0 <= g <= gpu -> SetDevice g = cudaSuccess)
         /\ exists a s,
           read frontier_attribute (gpu * num_gpus + peer_) = Some a
           /\ read enactor_stats (gpu * num_gpus + peer_) = Some s
           /\ read attributes (gpu * num_gpus + peer_)
              = Some (if bc_start.resets SetDevice gpu
                      then bc_start.initial
                             (if (gpu =? owner) && (peer_ =? 0)
                              then 1 else 0)
                      else a)
           /\ read stats (gpu * num_gpus + peer_)
              = Some {| retval := if peer_ =? 0 then SetDevice gpu
                                  else retval s;
                        iteration := if bc_start.resets SetDevice gpu
                                     then 0 else iteration s |}.
Proof.
  intros Hgpus Hsa Hss Howner.
  assert (Hslot : forall gpu peer_, 0 <= gpu -> 0 <= peer_ < num_gpus ->
            (gpu * num_gpus + peer_) / num_gpus = gpu
            /\ (gpu * num_gpus + peer_) mod num_gpus = peer_).
  { intros gpu peer_ Hgpu Hpeer. split.
    - rewrite Z.add_comm, Z.div_add by lia.
      rewrite Z.div_small by lia. lia.
    - rewrite Z.add_comm, Z.mod_add by lia. apply Z.mod_small. lia. }
  assert (Hsplit : forall slot, 0 <= slot ->
            slot = slot / num_gpus * num_gpus + slot mod num_gpus
            /\ 0 <= slot / num_gpus
            /\ 0 <= slot mod num_gpus < num_gpus).
  { intros slot Hs. pose proof (Z.div_mod slot num_gpus ltac:(lia)).
    pose proof (Z.mod_pos_bound slot num_gpus ltac:(lia)).
    pose proof (Z.div_pos slot num_gpus Hs ltac:(lia)). lia. }
  set (I := fun (gpu : Z)
                (st : list FrontierAttribute * list EnactorStats) =>
         GetSize (fst st) = num_gpus * num_gpus
         /\ GetSize (snd st) = num_gpus * num_gpus
         /\ (forall slot, 0 <= slot < gpu * num_gpus ->
               exists a s,
                 read frontier_attribute slot = Some a
                 /\ read enactor_stats slot = Some s
                 /\ read (fst st) slot
                    = Some (fst (bc_start.begun
                                   SetDevice owner (slot / num_gpus)
                                   (slot mod num_gpus) a s))
                 /\ read (snd st) slot
                    = Some (snd (bc_start.begun
                                   SetDevice owner (slot / num_gpus)
                                   (slot mod num_gpus) a s)))
         /\ (forall slot, gpu * num_gpus <= slot ->
               read (fst st) slot = read frontier_attribute slot
               /\ read (snd st) slot = read enactor_stats slot)).
  destruct (run_threads_invariant
              (fun gpu st =>
                 size ← bc_start.init_size num_gpus partition_table src gpu;
                 bc_start.BCThread_begin num_gpus gpu (SetDevice gpu)
                                         (bc_start.released SetDevice gpu)
                                         size st)
              I (Z.to_nat num_gpus) 0 (frontier_attribute, enactor_stats))
    as (st' & Hrun & Hinv).
  - split; [assumption|]. split; [assumption|]. split; [intros; lia|].
    intros; split; reflexivity.
  - intros gpu st Hgpu (Hfa & Hes & Hdone & Hrest).
    assert (Hsize : bc_start.init_size num_gpus partition_table src gpu
                    = Some (if gpu =? owner then 1 else 0)).
    { unfold bc_start.init_size.
      destruct (Z.eqb_spec num_gpus 1) as [Hone|Hmore].
      - subst owner. assert (gpu = 0) as -> by lia. reflexivity.
      - rewrite Howner. reflexivity. }
    rewrite Hsize. cbn [mbind option_bind].
    unfold bc_start.BCThread_begin.
    assert (0 <= gpu * num_gpus < num_gpus * num_gpus) as Hfirst by nia.
    destruct (read_is_Some enactor_stats (gpu * num_gpus)) as [s0 Hs0];
      [lia|].
    destruct (Hrest (gpu * num_gpus) ltac:(lia)) as [_ Hsame].
    rewrite Hsame, Hs0. cbn [mbind option_bind].
    destruct (write_is_Some (snd st) (gpu * num_gpus)
                {| retval := SetDevice gpu; iteration := iteration s0 |})
      as [es1 Hes1]; [lia|].
    rewrite Hes1. cbn [mbind option_bind].
    pose proof (GetSize_write _ _ _ _ Hes1) as Hsize1.
    assert (Hbefore : forall slot, 0 <= slot < gpu * num_gpus ->
              forall fa' es',
                read fa' slot = read (fst st) slot ->
                read es' slot = read es1 slot ->
                exists a s,
                  read frontier_attribute slot = Some a
                  /\ read enactor_stats slot = Some s
                  /\ read fa' slot
                     = Some (fst (bc_start.begun
                                    SetDevice owner (slot / num_gpus)
                                    (slot mod num_gpus) a s))
                  /\ read es' slot
                     = Some (snd (bc_start.begun
                                    SetDevice owner (slot / num_gpus)
                                    (slot mod num_gpus) a s))).
    { intros slot Hs fa' es' Hf He.
      destruct (Hdone slot Hs) as (a & s & Ha & Hs' & Hf' & He').
      exists a, s. split; [assumption|]. split; [assumption|].
      rewrite Hf, He, (read_write_ne _ _ _ _ _ Hes1) by lia.
      split; assumption. }
    fold (bc_start.resets SetDevice gpu).
    destruct (bc_start.resets SetDevice gpu) eqn:Hresets.
    + destruct (reset_every_peer num_gpus gpu
                  (if gpu =? owner then 1 else 0) (fst st, es1))
        as (st1 & Hrun1 & Hs1 & Hs2 & Hreset & Hother);
        cbn [fst snd] in *; [lia|assumption|lia|].
      exists st1. split; [assumption|].
      split; [lia|]. split; [lia|]. split.
      * intros slot Hs.
        destruct (Z.lt_ge_cases slot (gpu * num_gpus)) as [Hlt|Hge].
        -- apply Hbefore; [lia| |]; apply Hother; lia.
        -- destruct (Hsplit slot ltac:(lia)) as (Heq & Hq & Hr).
           assert (slot / num_gpus = gpu) as Hgpu' by nia.
           rewrite Hgpu' in *.
           destruct (Hreset (slot mod num_gpus) Hr)
             as (Hf & s1 & Hs1' & He).
           rewrite <- Heq in *.
           destruct (read_is_Some frontier_attribute slot) as [a Ha];
             [nia|].
           destruct (read_is_Some enactor_stats slot) as [s Hs'];
             [nia|].
           exists a, s. split; [assumption|]. split; [assumption|].
           unfold bc_start.begun. rewrite Hresets. cbn [fst snd].
           split.
           ++ rewrite Hf. f_equal. f_equal.
              destruct (gpu =? owner), (slot mod num_gpus =? 0);
                reflexivity.
           ++ rewrite He. f_equal. f_equal.
              destruct (Z.eqb_spec (slot mod num_gpus) 0) as [Hz|Hnz].
              ** assert (slot = gpu * num_gpus) as Hs0' by lia.
                 rewrite Hs0', (read_write_eq _ _ _ _ Hes1) in Hs1'.
                 injection Hs1' as <-. reflexivity.
              ** rewrite (read_write_ne _ _ _ _ _ Hes1) in Hs1' by lia.
                 destruct (Hrest slot ltac:(lia)) as [_ Hsame'].
                 congruence.
      * intros slot Hs.
        destruct (Hother slot ltac:(lia)) as [-> ->].
        rewrite (read_write_ne _ _ _ _ _ Hes1) by lia.
        apply Hrest. lia.
    + eexists. split; [reflexivity|]. unfold I. cbn [fst snd].
      split; [assumption|]. split; [lia|]. split.
      * intros slot Hs.
        destruct (Z.lt_ge_cases slot (gpu * num_gpus)) as [Hlt|Hge].
        -- apply Hbefore; [lia| |]; reflexivity.
        -- destruct (Hsplit slot ltac:(lia)) as (Heq & Hq & Hr).
           assert (slot / num_gpus = gpu) as Hgpu' by nia.
           rewrite Hgpu' in *.
           destruct (read_is_Some frontier_attribute slot) as [a Ha];
             [nia|].
           destruct (read_is_Some enactor_stats slot) as [s Hs'];
             [nia|].
           exists a, s. split; [assumption|]. split; [assumption|].
           unfold bc_start.begun. rewrite Hresets. cbn [fst snd].
           destruct (Hrest slot ltac:(lia)) as [Hf He].
           split; [congruence|].
           destruct (Z.eqb_spec (slot mod num_gpus) 0) as [Hz|Hnz].
           ++ assert (slot = gpu * num_gpus) as Hs0' by lia.
              rewrite Hs0', (read_write_eq _ _ _ _ Hes1).
              do 3 f_equal. congruence.
           ++ rewrite (read_write_ne _ _ _ _ _ Hes1) by lia.
              rewrite He, Hs'. destruct s; reflexivity.
      * intros slot Hs.
        rewrite (read_write_ne _ _ _ _ _ Hes1) by lia.
        apply Hrest. lia.
  - destruct st' as [attributes stats'].
    exists attributes, stats'. split; [exact Hrun|].
    destruct Hinv as (_ & _ & Hdone & _). cbn [fst snd] in Hdone.
    intros gpu peer_ Hgpu Hpeer. split; [apply resets_spec; lia|].
    destruct (Hdone (gpu * num_gpus + peer_)) as (a & s & Ha & Hs & Hf & He);
      [nia|].
    exists a, s. split; [assumption|]. split; [assumption|].
    destruct (Hslot gpu peer_ ltac:(lia) ltac:(lia)) as [Hq Hr].
    rewrite Hq, Hr in Hf, He. split; assumption.
Qed.

(** Two devices, a source that the second device owns; [SetDevice]
    succeeds on both. *)
Lemma BC_starts_from_one_queued_source_witness :
  bc_start.start 2 [0; 1; 1] 1 (fun _ => cudaSuccess)
                 (replicate 4 (attribute 7), [failed; ok; ok; ok])
  = Some ([bc_start.initial 0; bc_start.initial 0;
           bc_start.initial 1; bc_start.initial 0],
          [ok; ok; ok; ok]).
Proof.
  destruct (BC_starts_from_one_queued_source
              2 [0; 1; 1] 1 1 (fun _ => cudaSuccess)
              (replicate 4 (attribute 7)) [failed; ok; ok; ok])
    as (attributes & stats & Hrun & _).
  - lia.
  - reflexivity.
  - reflexivity.
  - reflexivity.
  - rewrite Hrun. vm_compute in Hrun. symmetry. exact Hrun.
Defined.

(** Two devices, the first of which cannot be set: its thread ends, and
    [EnactBC] waits for it and never lets the thread of the second
    device go, whose slots stay as they are. *)
Lemma BCThread_behind_failed_device_waits :
  bc_start.start 2 [0; 1; 1] 1 (fun gpu => if gpu =? 0 then 77 else 0)
                 (replicate 4 (attribute 7), [ok; ok; failed; ok])
  = Some (replicate 4 (attribute 7),
          [failed; ok; ok; ok]).
Proof. reflexivity. Qed.

(** ** Between the phases of betweenness centrality *)

Lemma max_iteration_from (stats : list EnactorStats) (num_gpus : Z)
      (k : nat) : forall first m,
  0 <= first -> 0 <= num_gpus ->
  (first + Z.of_nat k) * num_gpus <= GetSize stats + num_gpus - 1 ->
  0 < num_gpus \/ k = O ->
  exists m',
    run_threads (bc_thread.raise stats num_gpus) first k m = Some m'
    /\ m <= m'
    /\ (forall gpu s, first <= gpu < first + Z.of_nat k ->
          read stats (gpu * num_gpus) = Some s -> iteration s <= m')
    /\ (m' = m
        \/ exists gpu s, first <= gpu < first + Z.of_nat k
                         /\ read stats (gpu * num_gpus) = Some s
                         /\ iteration s = m').
Proof.
  induction k as [|k IH]; intros first m Hfirst Hn Hfit Hpos.
  - exists m. split; [reflexivity|]. split; [lia|].
    split; [intros; lia|]. left. reflexivity.
  - destruct Hpos as [Hpos|Hpos]; [|discriminate].
    cbn [run_threads]. unfold bc_thread.raise at 1.
    destruct (read_is_Some stats (first * num_gpus)) as [s Hs]; [nia|].
    rewrite Hs. cbn [mbind option_bind].
    destruct (IH (first + 1)
                 (if m <? iteration s then iteration s else m))
      as (m' & Hrun & Hle & Hall & Hmet); [lia|lia|lia|left; lia|].
    exists m'. split; [assumption|]. split; [|split].
    + destruct (Z.ltb_spec m (iteration s)); lia.
    + intros gpu s' Hgpu Hs'.
      destruct (Z.eq_dec gpu first) as [->|Hne].
      * assert (s' = s) as -> by congruence.
        destruct (Z.ltb_spec m (iteration s)); lia.
      * apply (Hall gpu); [lia|assumption].
    + destruct Hmet as [Hsame|(gpu & s' & Hgpu & Hs' & Hit)].
      * destruct (Z.ltb_spec m (iteration s)); [|left; assumption].
        right. exists first, s. split; [lia|]. split; [assumption|lia].
      * right. exists gpu, s'. split; [lia|]. split; assumption.
Qed.

Lemma pad_spec (max_iteration last : Z) (fuel : nat) :
  forall offsets,
    bc.back offsets = Some last ->
    max_iteration - GetSize offsets <= Z.of_nat fuel ->
    bc_thread.pad max_iteration fuel offsets
    = Some (offsets
            ++ replicate (Z.to_nat (max_iteration - GetSize offsets)) last).
Proof.
  induction fuel as [|fuel IH]; intros offsets Hlast Hfuel;
    cbn [bc_thread.pad].
  - destruct (Z.ltb_spec (GetSize offsets) max_iteration); [lia|].
    replace (Z.to_nat (max_iteration - GetSize offsets)) with O by lia.
    rewrite app_nil_r. reflexivity.
  - destruct (Z.ltb_spec (GetSize offsets) max_iteration) as [Hlt|Hge].
    + rewrite Hlast. cbn [mbind option_bind].
      rewrite IH.
      * rewrite GetSize_app. change (GetSize [last]) with 1.
        replace (Z.to_nat (max_iteration - GetSize offsets))
          with (S (Z.to_nat (max_iteration - (GetSize offsets + 1))))
          by lia.
        cbn [replicate]. rewrite <- app_assoc. reflexivity.
      * apply back_snoc.
      * rewrite GetSize_app. change (GetSize [last]) with 1. lia.
    + replace (Z.to_nat (max_iteration - GetSize offsets)) with O by lia.
      rewrite app_nil_r. reflexivity.
Qed.

(** X11.  Between the phases, with more than one device, [BCThread]
    sets the iteration counter of its device to the largest counter
    [m] that the first slot of any device holds (0 when none is
    positive) and pads the log of offsets up to [m] entries with copies
    of its last offset; each padded entry is a frontier of no element:
    the gather of the backward phase takes it off the log again with a
    queue length of 0 and touches neither the frontier queues nor the
    recorded output. *)
Theorem BCThread_pads_log_with_empty_frontiers
        (device_alloc : Z -> option (Z -> Z)) (SIZE_CHECK : bool)
        (num_gpus : Z) (s_enactor_stats : list EnactorStats)
        (s : bc.IterationState) (older : list Z) (last : Z) :
  1 < num_gpus ->
  GetSize s_enactor_stats = num_gpus * num_gpus ->
  bc.forward_queue_offsets s = older ++ [last] ->
  exists m,
    bc_thread.max_iteration s_enactor_stats num_gpus = Some m
    /\ (forall gpu st, 0 <= gpu < num_gpus ->
          read s_enactor_stats (gpu * num_gpus) = Some st ->
          iteration st <= m)
    /\ (m = 0
        \/ exists gpu st, 0 <= gpu < num_gpus
                          /\ read s_enactor_stats (gpu * num_gpus) = Some st
                          /\ iteration st = m)
    /\ bc_thread.between_phases num_gpus s_enactor_stats s
       = Some (bc.set_iteration m
                 (bc.set_log
                    (older ++ [last]
                     ++ replicate (Z.to_nat (m - GetSize (older ++ [last])))
                                  last)
                    (bc.forward_output s) s))
    /\ forall (j : nat) (s1 : bc.IterationState),
         bc.forward_queue_offsets s1
         = (older ++ [last]) ++ replicate (S j) last ->
         exists s2,
           bc.Backward_FullQueue_Gather device_alloc SIZE_CHECK s1 = Some s2
           /\ bc.forward_queue_offsets s2
              = (older ++ [last]) ++ replicate j last
           /\ queue_length (bc.frontier_attribute s2) = 0
           /\ bc.frontier_queue s2 = bc.frontier_queue s1
           /\ bc.forward_output s2 = bc.forward_output s1
           /\ bc.enactor_stats s2 = bc.enactor_stats s1.
Proof.
  intros Hgpus Hsize Hlog.
  destruct (max_iteration_from s_enactor_stats num_gpus (Z.to_nat num_gpus)
              0 0) as (m & Hmax & Hpos & Hall & Hmet);
    [lia|lia|nia|left; lia|].
  change (bc_thread.max_iteration s_enactor_stats num_gpus = Some m) in Hmax.
  exists m. split; [exact Hmax|]. split.
  { intros gpu st Hgpu Hst. apply (Hall gpu); [lia|assumption]. }
  split.
  { destruct Hmet as [->|(gpu & st & Hgpu & Hst & Hit)];
      [left; reflexivity|].
    right. exists gpu, st. split; [lia|]. split; assumption. }
  split.
  { unfold bc_thread.between_phases.
    destruct (Z.ltb_spec 1 num_gpus); [|lia].
    rewrite Hmax. cbn [mbind option_bind].
    rewrite (pad_spec m last); [|rewrite Hlog; apply back_snoc|].
    - cbn [mbind option_bind]. rewrite Hlog, <- app_assoc. reflexivity.
    - pose proof (GetSize_nonneg (bc.forward_queue_offsets s)). lia. }
  intros j s1 Hlog1.
  unfold bc.Backward_FullQueue_Gather. rewrite Hlog1.
  assert (Hsplit : (older ++ [last]) ++ replicate (S j) last
                   = ((older ++ [last]) ++ replicate j last) ++ [last]).
  { rewrite <- (app_assoc (older ++ [last])). f_equal.
    cbn [replicate]. apply replicate_cons_app. }
  rewrite Hsplit, back_snoc. cbn [mbind option_bind].
  rewrite pop_back_snoc.
  assert (Hback : bc.back ((older ++ [last]) ++ replicate j last)
                  = Some last).
  { destruct j as [|j].
    - cbn [replicate]. rewrite app_nil_r. apply back_snoc.
    - cbn [replicate]. rewrite replicate_cons_app, app_assoc.
      apply back_snoc. }
  rewrite Hback. cbn [mbind option_bind].
  rewrite Z.sub_diag. change (wrap 0) with 0. change (0 <? 0) with false.
  rewrite andb_false_r.
  eexists. split; [reflexivity|]. cbn.
  repeat split; reflexivity.
Qed.

(** Two devices: the first made two iterations and logged the offsets
    0 and 3, the second made four. *)
Lemma BCThread_pads_log_with_empty_frontiers_witness :
  bc.forward_queue_offsets
    <$> bc_thread.between_phases 2 examples.two_devices
                                 examples.after_forward
  = Some [0; 3; 3; 3].
Proof.
  destruct (BCThread_pads_log_with_empty_frontiers
              zeroed true 2 examples.two_devices examples.after_forward
              [0] 3)
    as (m & Hmax & _ & _ & Hrun & _).
  - lia.
  - reflexivity.
  - reflexivity.
  - rewrite Hrun. vm_compute in Hmax. injection Hmax as <-. reflexivity.
Defined.

(** ** Values that come in during the backward phase *)

Section ExpandBackward.

Variable Value : Type.
Variables keys_in : list Z.
Variables value_in_0 value_in_1 : list Value.
Variable n : Z.
Variable key : Z -> Z.
Variables size_0 size_1 : Z.

Hypothesis keys_ok :
  forall x, 0 <= x < n -> read keys_in x = Some (key x).
Hypothesis keys_in_range :
  forall x, 0 <= x < n -> 0 <= key x < size_0 /\ 0 <= key x < size_1.
Hypothesis keys_differ :
  forall x y, 0 <= x < n -> 0 <= y < n -> key x = key y -> x = y.
Hypothesis values_0 : n <= GetSize value_in_0.
Hypothesis values_1 : n <= GetSize value_in_1.

#[local] Abbreviation element :=
  (bc_expand.Expand_Incoming_Backward_element
     Value keys_in value_in_0 value_in_1).

Lemma run_all_Expand_Incoming_Backward (l : list Z) :
  forall r : bc_expand.Received Value,
    Forall (fun x => 0 <= x < n) l ->
    n <= GetSize (bc_expand.keys_out Value r) ->
    GetSize (bc_expand.value_org_0 Value r) = size_0 ->
    GetSize (bc_expand.value_org_1 Value r) = size_1 ->
    exists r',
      run_all element l r = Some r'
      /\ GetSize (bc_expand.keys_out Value r')
         = GetSize (bc_expand.keys_out Value r)
      /\ GetSize (bc_expand.value_org_0 Value r') = size_0
      /\ GetSize (bc_expand.value_org_1 Value r') = size_1
      /\ (forall x, x ∈ l ->
            read (bc_expand.keys_out Value r') x = Some (key x)
            /\ read (bc_expand.value_org_0 Value r') (key x)
               = read value_in_0 x
            /\ read (bc_expand.value_org_1 Value r') (key x)
               = read value_in_1 x)
      /\ (forall x, x ∉ l ->
            read (bc_expand.keys_out Value r') x
            = read (bc_expand.keys_out Value r) x)
      /\ (forall k, (forall x, x ∈ l -> key x <> k) ->
            read (bc_expand.value_org_0 Value r') k
            = read (bc_expand.value_org_0 Value r) k
            /\ read (bc_expand.value_org_1 Value r') k
               = read (bc_expand.value_org_1 Value r) k).
Proof.
  induction l as [|x l IH]; intros r Hl Hkeys H0 H1.
  - exists r. split; [reflexivity|]. split; [reflexivity|].
    split; [assumption|]. split; [assumption|]. split.
    + intros x Hx. inversion Hx.
    + split; [reflexivity|]. intros; split; reflexivity.
  - apply list.Forall_cons in Hl as [Hx Hl].
    destruct (keys_in_range x Hx) as [Hk0 Hk1].
    destruct (write_is_Some (bc_expand.keys_out Value r) x (key x))
      as [keys1 Hw]; [lia|].
    destruct (read_is_Some value_in_0 x) as [v0 Hv0]; [lia|].
    destruct (read_is_Some value_in_1 x) as [v1 Hv1]; [lia|].
    destruct (write_is_Some (bc_expand.value_org_0 Value r) (key x) v0)
      as [org0 Hw0]; [lia|].
    destruct (write_is_Some (bc_expand.value_org_1 Value r) (key x) v1)
      as [org1 Hw1]; [lia|].
    assert (Hstep : element x r
                    = Some {| bc_expand.keys_out := keys1;
                              bc_expand.value_org_0 := org0;
                              bc_expand.value_org_1 := org1 |}).
    { unfold bc_expand.Expand_Incoming_Backward_element.
      rewrite (keys_ok x Hx). cbn [mbind option_bind].
      rewrite Hw. cbn [mbind option_bind]. rewrite Hv0.
      cbn [mbind option_bind]. rewrite Hw0. cbn [mbind option_bind].
      rewrite Hv1. cbn [mbind option_bind]. rewrite Hw1. reflexivity. }
    cbn [run_all]. rewrite Hstep. cbn [mbind option_bind].
    pose proof (GetSize_write _ _ _ _ Hw) as Hs.
    pose proof (GetSize_write _ _ _ _ Hw0) as Hs0.
    pose proof (GetSize_write _ _ _ _ Hw1) as Hs1.
    destruct (IH {| bc_expand.keys_out := keys1;
                    bc_expand.value_org_0 := org0;
                    bc_expand.value_org_1 := org1 |} Hl)
      as (r' & Hrun & Hsk & Hs0' & Hs1' & Hval & Hkeep & Hother);
      cbn [bc_expand.keys_out bc_expand.value_org_0 bc_expand.value_org_1]
        in *; [lia|lia|lia|].
    exists r'. split; [assumption|]. split; [lia|].
    split; [assumption|]. split; [assumption|]. split; [|split].
    + intros y Hy. destruct (decide (y ∈ l)) as [Hin|Hin]; [auto|].
      apply elem_of_cons in Hy as [->|Hy]; [|contradiction].
      rewrite Hkeep by assumption.
      destruct (Hother (key x)) as [H0' H1'].
      { intros z Hz Heq. apply Hin.
        rewrite list.Forall_forall in Hl.
        rewrite <- (keys_differ z x (Hl z Hz) Hx Heq). assumption. }
      rewrite H0', H1', Hv0, Hv1.
      split; [eapply read_write_eq; eassumption|].
      split; eapply read_write_eq; eassumption.
    + intros y Hy. apply not_elem_of_cons in Hy as [Hne Hy].
      rewrite Hkeep by assumption.
      eapply read_write_ne; [eassumption|congruence].
    + intros k Hk. destruct (Hother k) as [H0' H1'].
      { intros z Hz. apply Hk. right. assumption. }
      assert (key x <> k) as Hne by (apply Hk; left).
      rewrite H0', H1'.
      split; (eapply read_write_ne; [eassumption|assumption]).
Qed.

End ExpandBackward.

(** X12.  In blocks of as many threads as the table of addresses has
    bytes, or more, and for incoming keys that are all different and
    lie inside the arrays of the device, [Expand_Incoming_Backward]
    copies the keys to the front of [keys_out] and stores, for every
    incoming element, its two values at its key in the two value arrays
    of the device; the values of the vertices that did not come in are
    left as they were. *)
Theorem Expand_Incoming_Backward_scatters
        (Value : Type) (grid_size block_size num_elements array_size : Z)
        (keys_in : list Z) (value_in_0 value_in_1 : list Value)
        (r : bc_expand.Received Value) (keys : list Z) :
  array_size <= block_size ->
  1 <= grid_size * block_size -> 0 <= num_elements ->
  num_elements + grid_size * block_size <= INT_MAX ->
  keys = take (Z.to_nat num_elements) keys_in ->
  num_elements <= GetSize keys_in -> NoDup keys ->
  Forall (fun k => 0 <= k < GetSize (bc_expand.value_org_0 Value r)
                   /\ 0 <= k < GetSize (bc_expand.value_org_1 Value r))
         keys ->
  num_elements <= GetSize value_in_0 ->
  num_elements <= GetSize value_in_1 ->
  num_elements <= GetSize (bc_expand.keys_out Value r) ->
  exists r',
    bc_expand.Expand_Incoming_Backward Value grid_size block_size
                                       num_elements array_size keys_in
                                       value_in_0 value_in_1 r
    = Some r'
    /\ bc_expand.keys_out Value r'
       = keys ++ drop (Z.to_nat num_elements) (bc_expand.keys_out Value r)
    /\ (forall x k, 0 <= x < num_elements -> read keys_in x = Some k ->
          read (bc_expand.value_org_0 Value r') k = read value_in_0 x
          /\ read (bc_expand.value_org_1 Value r') k = read value_in_1 x)
    /\ (forall k, k ∉ keys ->
          read (bc_expand.value_org_0 Value r') k
          = read (bc_expand.value_org_0 Value r) k
          /\ read (bc_expand.value_org_1 Value r') k
             = read (bc_expand.value_org_1 Value r) k).
Proof.
  intros Harray HS Hn Hmax Hkeys Hsize Hdup Hrange Hv0 Hv1 Hout.
  set (key := fun x => default 0 (read keys_in x)).
  assert (Hkey : forall x, 0 <= x < num_elements ->
            read keys_in x = Some (key x) /\ keys !! Z.to_nat x = Some (key x)).
  { intros x Hx. destruct (read_is_Some keys_in x) as [k Hk]; [lia|].
    unfold key. rewrite Hk. split; [reflexivity|].
    rewrite Hkeys, lookup_take_lt by lia.
    rewrite <- read_lookup by lia. assumption. }
  unfold bc_expand.Expand_Incoming_Backward.
  destruct (Z.leb_spec array_size block_size); [|lia].
  rewrite launch_schedule by assumption.
  pose proof (schedule_Permutation (grid_size * block_size) num_elements HS)
    as Hperm.
  destruct (run_all_Expand_Incoming_Backward
              Value keys_in value_in_0 value_in_1 num_elements key
              (GetSize (bc_expand.value_org_0 Value r))
              (GetSize (bc_expand.value_org_1 Value r))
              ltac:(intros x Hx; apply Hkey; assumption))
    with (l := schedule (grid_size * block_size) num_elements) (r := r)
    as (r' & Hrun & Hsk & _ & _ & Hval & Hkeep & Hother);
    try (assumption || reflexivity).
  - intros x Hx. destruct (Hkey x Hx) as [_ Hl].
    rewrite list.Forall_forall in Hrange. apply Hrange.
    eapply list_elem_of_lookup_2. eassumption.
  - intros x y Hx Hy Heq.
    destruct (Hkey x Hx) as [_ Hlx]. destruct (Hkey y Hy) as [_ Hly].
    rewrite Heq in Hlx.
    pose proof (NoDup_lookup _ _ _ _ Hdup Hlx Hly). lia.
  - apply list.Forall_forall. intros x Hx. rewrite Hperm in Hx.
    apply elem_of_seqZ in Hx. lia.
  - exists r'. split; [assumption|]. split; [|split].
    + rewrite (array_of_reads key num_elements
                 (bc_expand.keys_out Value r)
                 (bc_expand.keys_out Value r')); [|lia|assumption| |].
      * f_equal. rewrite Hkeys. apply list_eq. intros i.
        rewrite list_lookup_fmap.
        destruct (Nat.lt_ge_cases i (Z.to_nat num_elements)) as [Hlt|Hge].
        -- rewrite lookup_seqZ_lt by lia. cbn.
           destruct (Hkey (Z.of_nat i)) as [_ Hl]; [lia|].
           rewrite Hkeys, Nat2Z.id in Hl. rewrite Hl.
           rewrite Z.add_0_l. reflexivity.
        -- rewrite lookup_seqZ_ge, lookup_take_ge by lia. reflexivity.
      * intros i Hi. apply Hval. rewrite Hperm. apply elem_of_seqZ. lia.
      * intros i Hi. apply Hkeep. rewrite Hperm, elem_of_seqZ. lia.
    + intros x k Hx Hk. destruct (Hkey x Hx) as [Hk' _].
      assert (k = key x) as -> by congruence.
      destruct (Hval x) as (_ & H0 & H1); [|split; assumption].
      rewrite Hperm. apply elem_of_seqZ. lia.
    + intros k Hk. apply Hother. intros x Hx <-. apply Hk.
      rewrite Hperm in Hx. apply elem_of_seqZ in Hx.
      destruct (Hkey x) as [_ Hl]; [lia|].
      eapply list_elem_of_lookup_2. eassumption.
Qed.

(** The values of the vertices 2 and 0 come in; the table of the four
    addresses has 32 bytes. *)
Lemma Expand_Incoming_Backward_scatters_witness :
  bc_expand.Expand_Incoming_Backward Z 1 32 2 32 [2; 0; 1] [50; 60] [51; 61]
    {| bc_expand.keys_out := [9; 9; 9];
       bc_expand.value_org_0 := [1; 2; 3];
       bc_expand.value_org_1 := [4; 5; 6] |}
  = Some {| bc_expand.keys_out := [2; 0; 9];
            bc_expand.value_org_0 := [60; 2; 50];
            bc_expand.value_org_1 := [61; 5; 51] |}.
Proof.
  destruct (Expand_Incoming_Backward_scatters
              Z 1 32 2 32 [2; 0; 1] [50; 60] [51; 61]
              {| bc_expand.keys_out := [9; 9; 9];
                 bc_expand.value_org_0 := [1; 2; 3];
                 bc_expand.value_org_1 := [4; 5; 6] |} [2; 0])
    as (r' & Hrun & _).
  - lia.
  - lia.
  - lia.
  - unfold INT_MAX. lia.
  - reflexivity.
  - unfold GetSize. cbn. lia.
  - repeat constructor; rewrite ?elem_of_cons, ?elem_of_nil;
      intros H; repeat destruct H as [H|H]; discriminate || exact H.
  - repeat constructor; unfold GetSize; cbn; lia.
  - unfold GetSize. cbn. lia.
  - unfold GetSize. cbn. lia.
  - unfold GetSize. cbn. lia.
  - rewrite Hrun. vm_compute in Hrun. symmetry. exact Hrun.
Defined.

(** ** The hand-over between [Enact] and the threads *)

Section Handshake.

Import handshake.

Variable routine : Routine.
Variable num_gpus : Z.
Variable SetDevice : Z -> cudaError_t.

Lemma invariant_started :
  0 <= num_gpus -> invariant routine num_gpus SetDevice (started num_gpus).
Proof.
  intros Hn. unfold invariant, started, enter.
  cbn [stats threads barrier_0 barrier_1 main].
  unfold GetSize. rewrite !length_replicate.
  split; [lia|]. split; [lia|]. split.
  - destruct (Z.ltb_spec 0 num_gpus); cbn; [lia|exact Logic.I].
  - intros gpu Hgpu. exists at_SetDevice, (-1).
    unfold read. destruct (Z.ltb_spec gpu 0); [lia|].
    rewrite !lookup_replicate_2 by lia.
    split; [reflexivity|]. split; [reflexivity|]. split.
    + destruct (Z.ltb_spec 0 num_gpus); [|lia]. cbn.
      destruct (Z.ltb_spec gpu 0); [lia|]. split; reflexivity.
    + cbn [barrier_ok].
      rewrite bool_decide_eq_false_2 by apply not_elem_of_nil.
      split; reflexivity.
Qed.

(** A step that touches the slot of one device, counts its thread in at
    a barrier or not, and leaves [Enact] where it is. *)
Lemma invariant_update (gpu : Z) (pc' : thread_pc) (v' : Z)
      (stats' : list Z) (threads' : list thread_pc) (b0 b1 : list Z)
      (s : State) :
  invariant routine num_gpus SetDevice s ->
  stats' = stats s \/ write (stats s) gpu v' = Some stats' ->
  read stats' gpu = Some v' ->
  write (threads s) gpu pc' = Some threads' ->
  b0 = barrier_0 s \/ b0 = gpu :: barrier_0 s ->
  b1 = barrier_1 s \/ b1 = gpu :: barrier_1 s ->
  slot_ok (SetDevice gpu) (phase_of (main s) gpu) pc' v' ->
  barrier_ok (barriers routine num_gpus) (SetDevice gpu) pc'
             (bool_decide (gpu ∈ b0)) (bool_decide (gpu ∈ b1)) ->
  invariant routine num_gpus SetDevice
            {| stats := stats'; threads := threads';
               barrier_0 := b0; barrier_1 := b1; main := main s |}.
Proof.
  intros (Hs & Ht & Hm & Hslots) Hstats Hv Hthreads Hb0 Hb1 Hok Hbar.
  unfold invariant. cbn [stats threads barrier_0 barrier_1 main].
  split.
  { destruct Hstats as [->|Hw]; [assumption|].
    rewrite (GetSize_write _ _ _ _ Hw). assumption. }
  split; [rewrite (GetSize_write _ _ _ _ Hthreads); assumption|].
  split; [assumption|].
  intros g Hg. destruct (Z.eq_dec g gpu) as [->|Hne].
  - exists pc', v'. split; [apply (read_write_eq _ _ _ _ Hthreads)|].
    split; [assumption|]. split; assumption.
  - destruct (Hslots g Hg) as (pc & v & Hpc & Hv0 & Hok0 & Hbar0).
    exists pc, v. split.
    { rewrite (read_write_ne _ _ _ _ _ Hthreads); [assumption|congruence]. }
    split.
    { destruct Hstats as [->|Hw]; [assumption|].
      rewrite (read_write_ne _ _ _ _ _ Hw); [assumption|congruence]. }
    split; [assumption|].
    assert (Hsame : forall l l', l' = l \/ l' = gpu :: l ->
              bool_decide (g ∈ l') = bool_decide (g ∈ l)).
    { intros l l' [->| ->]; [reflexivity|]. apply bool_decide_ext.
      rewrite elem_of_cons. intuition congruence. }
    rewrite (Hsame _ _ Hb0), (Hsame _ _ Hb1). assumption.
Qed.

Lemma invariant_thread_step (gpu : Z) (s s' : State) :
  invariant routine num_gpus SetDevice s ->
  thread_step routine num_gpus SetDevice gpu s = Some s' ->
  invariant routine num_gpus SetDevice s'.
Proof.
  intros Hinv Hstep. pose proof Hinv as (Hs & Ht & Hm & Hslots).
  unfold thread_step in Hstep.
  destruct (read (threads s) gpu) as [pc|] eqn:Hpc; [|discriminate].
  cbn [mbind option_bind] in Hstep.
  assert (0 <= gpu < num_gpus) as Hgpu.
  { rewrite <- Ht. eapply read_in_range. eassumption. }
  destruct (Hslots gpu Hgpu) as (pc0 & v & Hpc0 & Hv & Hok & Hbar).
  assert (pc0 = pc) as -> by congruence.
  assert (Hhere : forall l, bool_decide (gpu ∈ gpu :: l) = true).
  { intros l. apply bool_decide_eq_true_2. apply list_elem_of_here. }
  unfold store, move, increment_0, increment_1 in Hstep.
  cbn [stats threads barrier_0 barrier_1 main] in Hstep.
  destruct pc; cbn [slot_ok barrier_ok] in Hok, Hbar.
  - (* at_SetDevice *)
    destruct (write (threads s) gpu _) as [th'|] eqn:Hw; [|discriminate].
    injection Hstep as <-.
    eapply (invariant_update gpu _ v _ _ _ _ s Hinv); eauto.
    + destruct (Z.eqb_spec (SetDevice gpu) cudaSuccess); cbn [slot_ok];
        [tauto|]. left. tauto.
    + destruct (Z.eqb_spec (SetDevice gpu) cudaSuccess) as [Hr|Hr];
        cbn [barrier_ok]; [tauto|].
      apply Z.eqb_neq in Hr. rewrite Hr, andb_false_r. tauto.
  - (* at_ready *)
    destruct (write (stats s) gpu 1) as [st'|] eqn:Hw1; [|discriminate].
    cbn [mbind option_bind stats threads barrier_0 barrier_1 main] in Hstep.
    destruct (write (threads s) gpu at_wait) as [th'|] eqn:Hw;
      [|discriminate].
    injection Hstep as <-.
    eapply (invariant_update gpu _ 1 _ _ _ _ s Hinv); eauto.
    + apply (read_write_eq _ _ _ _ Hw1).
    + cbn [slot_ok]. tauto.
  - (* at_wait *)
    rewrite Hv in Hstep. cbn [mbind option_bind] in Hstep.
    destruct (Z.eqb_spec v 2) as [Heq|Hne].
    + destruct (write (threads s) gpu at_running) as [th'|] eqn:Hw;
        [|discriminate].
      injection Hstep as <-.
      eapply (invariant_update gpu _ v _ _ _ _ s Hinv); eauto.
      cbn [slot_ok]. intuition lia.
    + injection Hstep as <-. assumption.
  - (* at_running *)
    destruct (write (stats s) gpu 3) as [st'|] eqn:Hw1; [|discriminate].
    cbn [mbind option_bind stats threads barrier_0 barrier_1 main] in Hstep.
    destruct (write (threads s) gpu at_loop) as [th'|] eqn:Hw;
      [|discriminate].
    injection Hstep as <-.
    eapply (invariant_update gpu _ 3 _ _ _ _ s Hinv); eauto.
    + apply (read_write_eq _ _ _ _ Hw1).
    + cbn [slot_ok]. tauto.
  - (* at_loop *)
    destruct (barriers routine num_gpus) eqn:Hb.
    + destruct (write (threads s) gpu at_barrier_0) as [th'|] eqn:Hw;
        [|discriminate].
      injection Hstep as <-.
      eapply (invariant_update gpu _ v _ _ _ _ s Hinv); eauto.
      rewrite Hb, Hhere. cbn [barrier_ok]. tauto.
    + destruct (write (threads s) gpu at_finish) as [th'|] eqn:Hw;
        [|discriminate].
      injection Hstep as <-.
      eapply (invariant_update gpu _ v _ _ _ _ s Hinv); eauto.
      * cbn [slot_ok]. tauto.
      * rewrite Hb. cbn [barrier_ok andb]. tauto.
  - (* at_barrier_0 *)
    destruct (open num_gpus (barrier_0 s)).
    + destruct (write (threads s) gpu at_between) as [th'|] eqn:Hw;
        [|discriminate].
      injection Hstep as <-.
      eapply (invariant_update gpu _ v _ _ _ _ s Hinv); eauto.
    + injection Hstep as <-. assumption.
  - (* at_between *)
    destruct (write (threads s) gpu at_barrier_1) as [th'|] eqn:Hw;
      [|discriminate].
    injection Hstep as <-.
    eapply (invariant_update gpu _ v _ _ _ _ s Hinv); eauto.
    rewrite Hhere. cbn [barrier_ok]. tauto.
  - (* at_barrier_1 *)
    destruct (open num_gpus (barrier_1 s)).
    + destruct (write (threads s) gpu at_backward) as [th'|] eqn:Hw;
        [|discriminate].
      injection Hstep as <-.
      eapply (invariant_update gpu _ v _ _ _ _ s Hinv); eauto.
    + injection Hstep as <-. assumption.
  - (* at_backward *)
    destruct (write (threads s) gpu at_finish) as [th'|] eqn:Hw;
      [|discriminate].
    injection Hstep as <-.
    eapply (invariant_update gpu _ v _ _ _ _ s Hinv); eauto.
    + cbn [slot_ok]. tauto.
    + cbn [barrier_ok]. destruct Hok as [-> _].
      destruct Hbar as (-> & -> & ->). split; reflexivity.
  - (* at_finish *)
    destruct (write (stats s) gpu 4) as [st'|] eqn:Hw1; [|discriminate].
    cbn [mbind option_bind stats threads barrier_0 barrier_1 main] in Hstep.
    destruct (write (threads s) gpu ended) as [th'|] eqn:Hw;
      [|discriminate].
    injection Hstep as <-.
    eapply (invariant_update gpu _ 4 _ _ _ _ s Hinv); eauto.
    + apply (read_write_eq _ _ _ _ Hw1).
    + cbn [slot_ok]. tauto.
  - (* ended *)
    injection Hstep as <-. assumption.
Qed.

(** A step of [Enact]. *)
Lemma invariant_main (s s' : State) :
  invariant routine num_gpus SetDevice s ->
  main_ok num_gpus (main s') ->
  threads s' = threads s ->
  barrier_0 s' = barrier_0 s ->
  barrier_1 s' = barrier_1 s ->
  GetSize (stats s') = GetSize (stats s) ->
  (forall gpu pc v,
     0 <= gpu < num_gpus ->
     read (threads s) gpu = Some pc -> read (stats s) gpu = Some v ->
     slot_ok (SetDevice gpu) (phase_of (main s) gpu) pc v ->
     exists v', read (stats s') gpu = Some v'
                /\ slot_ok (SetDevice gpu) (phase_of (main s') gpu) pc v') ->
  invariant routine num_gpus SetDevice s'.
Proof.
  intros (Hs & Ht & Hm & Hslots) Hmain Hthreads Hb0 Hb1 Hsize Hnew.
  unfold invariant. rewrite Hthreads, Hsize, Hb0, Hb1.
  split; [assumption|]. split; [assumption|]. split; [assumption|].
  intros gpu Hgpu.
  destruct (Hslots gpu Hgpu) as (pc & v & Hpc & Hv & Hok & Hbar).
  destruct (Hnew gpu pc v Hgpu Hpc Hv Hok) as (v' & Hv' & Hok').
  exists pc, v'. repeat split; assumption.
Qed.

Lemma store_spec (gpu v : Z) (s s' : State) :
  store gpu v s = Some s' ->
  threads s' = threads s /\ main s' = main s
  /\ barrier_0 s' = barrier_0 s /\ barrier_1 s' = barrier_1 s
  /\ write (stats s) gpu v = Some (stats s').
Proof.
  unfold store. destruct (write (stats s) gpu v); [|discriminate].
  cbn. intros [= <-]. repeat split; reflexivity.
Qed.

Lemma invariant_main_step (s s' : State) :
  invariant routine num_gpus SetDevice s ->
  main_step num_gpus s = Some s' ->
  invariant routine num_gpus SetDevice s'.
Proof.
  intros Hinv Hstep. pose proof Hinv as (Hs & Ht & Hm & Hslots).
  unfold main_step in Hstep.
  destruct (main s) as [g|g|g|] eqn:Hmain; cbn [main_ok] in Hm.
  - (* waits_ready *)
    destruct (read (stats s) g) as [v|] eqn:Hv; [|discriminate].
    cbn [mbind option_bind] in Hstep. injection Hstep as <-.
    destruct (Z.eqb_spec v 1) as [Hone|_]; [|assumption].
    apply (invariant_main s);
      cbn [goto main threads stats barrier_0 barrier_1];
      [assumption|assumption|reflexivity|reflexivity|reflexivity
      |reflexivity|].
    intros gpu pc w Hgpu Hpc Hw Hok. exists w. split; [assumption|].
    rewrite Hmain in Hok. cbn [phase_of] in *.
    destruct (Z.ltb_spec gpu g); [assumption|].
    destruct (Z.eqb_spec gpu g) as [->|]; [|assumption].
    assert (w = 1) as -> by congruence.
    destruct pc; cbn [slot_ok] in *; intuition (discriminate || lia).
  - (* releases *)
    destruct (store g 2 s) as [s1|] eqn:Hs1; [|discriminate].
    cbn [mbind option_bind] in Hstep. injection Hstep as <-.
    destruct (store_spec _ _ _ _ Hs1) as (H1 & H2 & H3 & H4 & Hw).
    apply (invariant_main s);
      cbn [goto main threads stats barrier_0 barrier_1].
    + assumption.
    + destruct (Z.ltb_spec (g + 1) num_gpus); cbn [main_ok]; lia.
    + assumption.
    + assumption.
    + assumption.
    + apply (GetSize_write _ _ _ _ Hw).
    + intros gpu pc w Hgpu Hpc Hw' Hok.
      rewrite Hmain in Hok. cbn [phase_of] in Hok.
      destruct (Z.eq_dec gpu g) as [->|Hne].
      * exists 2. split; [apply (read_write_eq _ _ _ _ Hw)|].
        destruct (Z.ltb_spec g g); [lia|].
        destruct (Z.eqb_spec g g); [|lia].
        assert (phase_of (if g + 1 <? num_gpus then waits_ready (g + 1)
                          else waits_end 0) g = released) as ->.
        { destruct (Z.ltb_spec (g + 1) num_gpus); cbn [phase_of].
          - destruct (Z.ltb_spec g (g + 1)); [reflexivity|lia].
          - destruct (Z.ltb_spec g 0); [lia|reflexivity]. }
        destruct pc; cbn [slot_ok] in *; intuition (discriminate || lia).
      * exists w.
        rewrite (read_write_ne _ _ _ _ _ Hw) by congruence.
        split; [assumption|].
        destruct (Z.eqb_spec gpu g); [contradiction|].
        destruct (Z.ltb_spec (g + 1) num_gpus); cbn [phase_of].
        -- destruct (Z.ltb_spec gpu g), (Z.ltb_spec gpu (g + 1));
             try lia; assumption.
        -- destruct (Z.ltb_spec gpu g), (Z.ltb_spec gpu 0);
             try lia; assumption.
  - (* waits_end *)
    destruct (read (stats s) g) as [v|] eqn:Hv; [|discriminate].
    cbn [mbind option_bind] in Hstep. injection Hstep as <-.
    destruct (Z.eqb_spec v 4) as [Hfour|_]; [|assumption].
    apply (invariant_main s);
      cbn [goto main threads stats barrier_0 barrier_1].
    + assumption.
    + destruct (Z.ltb_spec (g + 1) num_gpus); cbn [main_ok];
        [lia|exact Logic.I].
    + reflexivity.
    + reflexivity.
    + reflexivity.
    + reflexivity.
    + intros gpu pc w Hgpu Hpc Hw Hok. exists w. split; [assumption|].
      rewrite Hmain in Hok. cbn [phase_of] in Hok.
      destruct (Z.eq_dec gpu g) as [->|Hne].
      * assert (w = 4) as -> by congruence.
        destruct (Z.ltb_spec g g); [lia|].
        assert (phase_of (if g + 1 <? num_gpus then waits_end (g + 1)
                          else returned) g = joined) as ->.
        { destruct (Z.ltb_spec (g + 1) num_gpus); cbn [phase_of];
            [|reflexivity].
          destruct (Z.ltb_spec g (g + 1)); [reflexivity|lia]. }
        destruct pc; cbn [slot_ok] in *; intuition (discriminate || lia).
      * destruct (Z.ltb_spec (g + 1) num_gpus); cbn [phase_of].
        -- destruct (Z.ltb_spec gpu g), (Z.ltb_spec gpu (g + 1));
             try lia; assumption.
        -- destruct (Z.ltb_spec gpu g); [assumption|lia].
  - (* returned *)
    injection Hstep as <-. assumption.
Qed.

Lemma invariant_run (schedule : list Actor) : forall s s',
  invariant routine num_gpus SetDevice s ->
  run routine num_gpus SetDevice schedule s = Some s' ->
  invariant routine num_gpus SetDevice s'.
Proof.
  induction schedule as [|a rest IH]; intros s s' Hinv Hrun;
    cbn [run] in Hrun.
  - injection Hrun as <-. assumption.
  - destruct (step routine num_gpus SetDevice a s) as [s1|] eqn:Hstep;
      [|discriminate].
    cbn [mbind option_bind] in Hrun. apply (IH s1); [|assumption].
    destruct a as [|gpu]; cbn [step] in Hstep.
    + apply (invariant_main_step s); assumption.
    + apply (invariant_thread_step gpu s); assumption.
Qed.

Lemma stuck_run (schedule : list Actor) : forall s s',
  stuck num_gpus s ->
  run routine num_gpus SetDevice schedule s = Some s' ->
  s' = s.
Proof.
  induction schedule as [|a rest IH]; intros s s' Hstuck Hrun;
    cbn [run] in Hrun.
  - congruence.
  - destruct (step routine num_gpus SetDevice a s) as [s1|] eqn:Hstep;
      [|discriminate].
    cbn [mbind option_bind] in Hrun.
    assert (s1 = s) as ->; [|apply IH; assumption].
    destruct Hstuck as (Hs & Ht & Hmain & Hall).
    destruct a as [|gpu]; cbn [step] in Hstep.
    + unfold main_step in Hstep. rewrite Hmain in Hstep.
      destruct (read (stats s) 0) as [v|] eqn:Hv; [|discriminate].
      cbn [mbind option_bind] in Hstep.
      destruct (Hall 0) as [_ Hv'].
      { apply read_in_range in Hv. lia. }
      assert (v = 4) as -> by congruence.
      injection Hstep as <-. reflexivity.
    + unfold thread_step in Hstep.
      destruct (read (threads s) gpu) as [pc|] eqn:Hpc; [|discriminate].
      cbn [mbind option_bind] in Hstep.
      destruct (Hall gpu) as [Hpc' _].
      { apply read_in_range in Hpc. lia. }
      assert (pc = ended) as -> by congruence.
      injection Hstep as <-. reflexivity.
Qed.

(** A thread that [Enact] has let go stands behind devices that could
    all be set, and could be set itself. *)
Lemma let_go_behind_good_devices (s : State) (gpu : Z) (pc : thread_pc) :
  invariant routine num_gpus SetDevice s ->
  read (threads s) gpu = Some pc ->
  let_go pc = true ->
  bc_start.resets SetDevice gpu = true.
Proof.
  intros (Hs & Ht & Hm & Hslots) Hpc Hgo.
  pose proof (read_in_range _ _ _ Hpc) as Hgpu. rewrite Ht in Hgpu.
  assert (Hph : phase_of (main s) gpu = released).
  { destruct (Hslots gpu Hgpu) as (pc0 & v & Hpc0 & _ & Hok & _).
    assert (pc0 = pc) as -> by congruence.
    destruct pc; cbn [slot_ok let_go] in *; try discriminate; tauto. }
  unfold bc_start.resets, bc_start.released.
  apply andb_true_iff. rewrite forallb_forall.
  assert (Hall : forall g, 0 <= g <= gpu -> SetDevice g = cudaSuccess).
  { intros g Hg.
    destruct (Hslots g ltac:(lia)) as (pc' & v & _ & _ & Hok & _).
    assert (Hph' : phase_of (main s) g = released
                   \/ phase_of (main s) g = joined).
    { destruct (main s) as [g0|g0|g0|]; cbn [phase_of] in *;
        repeat match goal with
               | |- context [?a <? ?b] => destruct (Z.ltb_spec a b)
               | H : context [?a <? ?b] |- _ => destruct (Z.ltb_spec a b)
               | H : context [?a =? ?b] |- _ => destruct (Z.eqb_spec a b)
               end; try discriminate; try lia; auto. }
    destruct pc'; cbn [slot_ok] in Hok;
      destruct Hph' as [Hx|Hx]; rewrite Hx in Hok;
      intuition (discriminate || congruence). }
  split.
  - apply Z.eqb_eq, Hall. lia.
  - intros g Hg%list_elem_of_In%elem_of_seqZ. apply Z.eqb_eq, Hall. lia.
Qed.

Lemma total_write (l l' : list thread_pc) (i : Z) (x y : thread_pc) :
  read l i = Some y -> write l i x = Some l' ->
  total (steps_left <$> l')
  = total (steps_left <$> l) - steps_left y + steps_left x.
Proof.
  intros Hr Hw. apply read_Some in Hr as [Hi Hl].
  unfold write in Hw.
  destruct ((0 <=? i) && (i <? Z.of_nat (length l))); [|discriminate].
  injection Hw as <-. revert Hl. generalize (Z.to_nat i). clear Hi i.
  induction l as [|z l IH]; intros [|n] Hl; try discriminate.
  - cbn in Hl. injection Hl as ->.
    change (<[O := x]> (y :: l)) with (x :: l).
    rewrite !fmap_cons. unfold total. cbn [foldr]. lia.
  - cbn [lookup list_lookup] in Hl. specialize (IH n Hl).
    change (<[S n := x]> (z :: l)) with (z :: <[n := x]> l).
    rewrite !fmap_cons. unfold total in *. cbn [foldr]. lia.
Qed.

(** A thread that nothing holds back takes a step that counts. *)
Lemma thread_advances (gpu : Z) (pc : thread_pc) (v : Z) (s : State) :
  read (threads s) gpu = Some pc ->
  read (stats s) gpu = Some v ->
  free num_gpus pc v s = true ->
  exists s',
    thread_step routine num_gpus SetDevice gpu s = Some s'
    /\ all_steps_left num_gpus s' < all_steps_left num_gpus s.
Proof.
  intros Hpc Hv Hfree.
  pose proof (read_in_range _ _ _ Hpc) as Hin.
  pose proof (read_in_range _ _ _ Hv) as Hin'.
  assert (Hless : forall pc' st' th' b0 b1,
            write (threads s) gpu pc' = Some th' ->
            steps_left pc' < steps_left pc ->
            all_steps_left num_gpus
              {| stats := st'; threads := th'; barrier_0 := b0;
                 barrier_1 := b1; main := main s |}
            < all_steps_left num_gpus s).
  { intros pc' st' th' b0 b1 Hw Hlt. unfold all_steps_left.
    cbn [main threads]. rewrite (total_write _ _ _ _ _ Hpc Hw). lia. }
  assert (Hmove : forall pc', exists th',
            write (threads s) gpu pc' = Some th').
  { intros pc'. apply write_is_Some. assumption. }
  assert (Hstore : forall v', exists st',
            write (stats s) gpu v' = Some st').
  { intros v'. apply write_is_Some. assumption. }
  unfold thread_step, store, move, increment_0, increment_1.
  rewrite Hpc. cbn [mbind option_bind stats threads barrier_0 barrier_1 main].
  destruct pc; cbn [free] in Hfree; try discriminate.
  - destruct (Hmove (if SetDevice gpu =? cudaSuccess
                     then at_ready else at_finish)) as [th' Hw].
    rewrite Hw. eexists. split; [reflexivity|].
    apply (Hless _ _ _ _ _ Hw).
    destruct (SetDevice gpu =? cudaSuccess); cbn; lia.
  - destruct (Hstore 1) as [st' Hw1]. destruct (Hmove at_wait) as [th' Hw].
    rewrite Hw1.
    cbn [mbind option_bind stats threads barrier_0 barrier_1 main].
    rewrite Hw. eexists. split; [reflexivity|].
    apply (Hless _ _ _ _ _ Hw). cbn; lia.
  - rewrite Hv. cbn [mbind option_bind]. rewrite Hfree.
    destruct (Hmove at_running) as [th' Hw].
    rewrite Hw. eexists. split; [reflexivity|].
    apply (Hless _ _ _ _ _ Hw). cbn; lia.
  - destruct (Hstore 3) as [st' Hw1]. destruct (Hmove at_loop) as [th' Hw].
    rewrite Hw1.
    cbn [mbind option_bind stats threads barrier_0 barrier_1 main].
    rewrite Hw. eexists. split; [reflexivity|].
    apply (Hless _ _ _ _ _ Hw). cbn; lia.
  - destruct (barriers routine num_gpus).
    + destruct (Hmove at_barrier_0) as [th' Hw].
      rewrite Hw. eexists. split; [reflexivity|].
      apply (Hless _ _ _ _ _ Hw). cbn; lia.
    + destruct (Hmove at_finish) as [th' Hw].
      rewrite Hw. eexists. split; [reflexivity|].
      apply (Hless _ _ _ _ _ Hw). cbn; lia.
  - rewrite Hfree. destruct (Hmove at_between) as [th' Hw].
    rewrite Hw. eexists. split; [reflexivity|].
    apply (Hless _ _ _ _ _ Hw). cbn; lia.
  - destruct (Hmove at_barrier_1) as [th' Hw].
    rewrite Hw. eexists. split; [reflexivity|].
    apply (Hless _ _ _ _ _ Hw). cbn; lia.
  - rewrite Hfree. destruct (Hmove at_backward) as [th' Hw].
    rewrite Hw. eexists. split; [reflexivity|].
    apply (Hless _ _ _ _ _ Hw). cbn; lia.
  - destruct (Hmove at_finish) as [th' Hw].
    rewrite Hw. eexists. split; [reflexivity|].
    apply (Hless _ _ _ _ _ Hw). cbn; lia.
  - destruct (Hstore 4) as [st' Hw1]. destruct (Hmove ended) as [th' Hw].
    rewrite Hw1.
    cbn [mbind option_bind stats threads barrier_0 barrier_1 main].
    rewrite Hw. eexists. split; [reflexivity|].
    apply (Hless _ _ _ _ _ Hw). cbn; lia.
Qed.

(** A barrier that is not open misses a thread. *)
Lemma closed_barrier_misses (barrier : list Z) :
  open num_gpus barrier = false ->
  exists gpu, 0 <= gpu < num_gpus /\ gpu ∉ barrier.
Proof.
  unfold open, GetSize. intros Hclosed. apply Z.leb_gt in Hclosed.
  destruct (list.Forall_Exists_dec (fun g => g ∈ barrier) (fun g => g ∉ barrier)
              (fun g => decide (g ∈ barrier)) (seqZ 0 num_gpus))
    as [Hall|Hex].
  - exfalso.
    assert (seqZ 0 num_gpus ⊆+ barrier) as Hsub.
    { apply NoDup_submseteq; [apply NoDup_seqZ|].
      intros g Hg. eapply list.Forall_forall in Hall; eassumption. }
    apply submseteq_length in Hsub. rewrite length_seqZ in Hsub. lia.
  - apply list.Exists_exists in Hex as (g & Hg & Hmiss).
    apply elem_of_seqZ in Hg. exists g. split; [lia|assumption].
Qed.

Hypothesis devices_ok :
  forall gpu, 0 <= gpu < num_gpus -> SetDevice gpu = cudaSuccess.

(** Once [Enact] waits for the ends of the threads, a thread that has
    not counted itself in at the first barrier is on its way there. *)
Lemma before_barrier_0_steps (s : State) (g0 gpu : Z) :
  invariant routine num_gpus SetDevice s ->
  main s = waits_end g0 ->
  barriers routine num_gpus = true ->
  0 <= gpu < num_gpus ->
  gpu ∉ barrier_0 s ->
  exists a s',
    step routine num_gpus SetDevice a s = Some s'
    /\ all_steps_left num_gpus s' < all_steps_left num_gpus s.
Proof.
  intros (Hs & Ht & Hm & Hslots) Hmain Hb Hgpu Hmiss.
  destruct (Hslots gpu Hgpu) as (pc & v & Hpc & Hv & Hok & Hbar).
  rewrite Hmain in Hok. cbn [phase_of] in Hok.
  rewrite Hb, (devices_ok gpu Hgpu) in Hbar.
  rewrite (bool_decide_eq_false_2 _ Hmiss) in Hbar.
  assert (Hfree : free num_gpus pc v s = true).
  { destruct pc; cbn [slot_ok barrier_ok free] in *;
      destruct (Z.ltb_spec gpu g0);
      try reflexivity; try (exfalso; intuition discriminate).
    all: apply Z.eqb_eq; intuition (discriminate || lia). }
  destruct (thread_advances gpu pc v s Hpc Hv Hfree) as (s' & Hstep & Hless).
  exists (Thread gpu), s'. split; assumption.
Qed.

(** A thread that waits at the first barrier goes on, or another one
    is on its way there. *)
Lemma at_barrier_0_steps (s : State) (g0 gpu : Z) (v : Z) :
  invariant routine num_gpus SetDevice s ->
  main s = waits_end g0 ->
  barriers routine num_gpus = true ->
  read (threads s) gpu = Some at_barrier_0 ->
  read (stats s) gpu = Some v ->
  exists a s',
    step routine num_gpus SetDevice a s = Some s'
    /\ all_steps_left num_gpus s' < all_steps_left num_gpus s.
Proof.
  intros Hinv Hmain Hb Hpc Hv.
  destruct (open num_gpus (barrier_0 s)) eqn:Hopen.
  - destruct (thread_advances gpu at_barrier_0 v s Hpc Hv Hopen)
      as (s' & Hstep & Hless).
    exists (Thread gpu), s'. split; assumption.
  - destruct (closed_barrier_misses _ Hopen) as (g & Hg & Hmiss).
    apply (before_barrier_0_steps s g0 g); assumption.
Qed.

(** The same for the second barrier. *)
Lemma before_barrier_1_steps (s : State) (g0 gpu : Z) :
  invariant routine num_gpus SetDevice s ->
  main s = waits_end g0 ->
  barriers routine num_gpus = true ->
  0 <= gpu < num_gpus ->
  gpu ∉ barrier_1 s ->
  exists a s',
    step routine num_gpus SetDevice a s = Some s'
    /\ all_steps_left num_gpus s' < all_steps_left num_gpus s.
Proof.
  intros Hinv Hmain Hb Hgpu Hmiss.
  destruct (decide (gpu ∈ barrier_0 s)) as [Hin|Hout];
    [|apply (before_barrier_0_steps s g0 gpu); assumption].
  pose proof Hinv as (Hs & Ht & Hm & Hslots).
  destruct (Hslots gpu Hgpu) as (pc & v & Hpc & Hv & Hok & Hbar).
  rewrite Hb, (devices_ok gpu Hgpu) in Hbar.
  rewrite (bool_decide_eq_false_2 _ Hmiss) in Hbar.
  rewrite (bool_decide_eq_true_2 _ Hin) in Hbar.
  destruct pc; cbn [barrier_ok] in Hbar;
    try (exfalso; intuition discriminate).
  - apply (at_barrier_0_steps s g0 gpu v); assumption.
  - destruct (thread_advances gpu at_between v s Hpc Hv eq_refl)
      as (s' & Hstep & Hless).
    exists (Thread gpu), s'. split; assumption.
Qed.

Lemma at_barrier_1_steps (s : State) (g0 gpu : Z) (v : Z) :
  invariant routine num_gpus SetDevice s ->
  main s = waits_end g0 ->
  barriers routine num_gpus = true ->
  read (threads s) gpu = Some at_barrier_1 ->
  read (stats s) gpu = Some v ->
  exists a s',
    step routine num_gpus SetDevice a s = Some s'
    /\ all_steps_left num_gpus s' < all_steps_left num_gpus s.
Proof.
  intros Hinv Hmain Hb Hpc Hv.
  destruct (open num_gpus (barrier_1 s)) eqn:Hopen.
  - destruct (thread_advances gpu at_barrier_1 v s Hpc Hv Hopen)
      as (s' & Hstep & Hless).
    exists (Thread gpu), s'. split; assumption.
  - destruct (closed_barrier_misses _ Hopen) as (g & Hg & Hmiss).
    apply (before_barrier_1_steps s g0 g); assumption.
Qed.

(** While [Enact] has not returned, somebody can take a step that
    counts. *)
Lemma somebody_steps (s : State) :
  invariant routine num_gpus SetDevice s ->
  main s <> returned ->
  exists a s',
    step routine num_gpus SetDevice a s = Some s'
    /\ all_steps_left num_gpus s' < all_steps_left num_gpus s.
Proof.
  intros Hinv Hmain. pose proof Hinv as (Hs & Ht & Hm & Hslots).
  assert (Hthread : forall gpu pc v,
            read (threads s) gpu = Some pc ->
            read (stats s) gpu = Some v ->
            free num_gpus pc v s = true ->
            exists a s',
              step routine num_gpus SetDevice a s = Some s'
              /\ all_steps_left num_gpus s' < all_steps_left num_gpus s).
  { intros gpu pc v Hp Hv Hfree.
    destruct (thread_advances gpu pc v s Hp Hv Hfree) as (s' & Hstep & Hless).
    exists (Thread gpu), s'. split; assumption. }
  destruct (main s) as [g|g|g|] eqn:Hpc; cbn [main_ok] in Hm;
    [| | |contradiction].
  - (* waits_ready *)
    destruct (Hslots g Hm) as (pc & v & Hp & Hv & Hok & Hbar).
    cbn [phase_of] in Hok. destruct (Z.ltb_spec g g); [lia|].
    pose proof (devices_ok g Hm) as Hdev.
    destruct pc; cbn [slot_ok] in Hok;
      try (exfalso; intuition (discriminate || congruence)).
    + apply (Hthread g _ v Hp Hv). reflexivity.
    + apply (Hthread g _ v Hp Hv). reflexivity.
    + exists Main, (goto (releases g) s). split.
      * cbn [step]. unfold main_step. rewrite Hpc, Hv.
        cbn [mbind option_bind].
        destruct Hok as [_ [[-> _]|[_ ?]]]; [reflexivity|discriminate].
      * unfold all_steps_left. cbn [goto main threads main_steps_left].
        rewrite Hpc. cbn [main_steps_left]. lia.
  - (* releases *)
    destruct (write_is_Some (stats s) g 2) as [st' Hw]; [lia|].
    eexists Main, _. split.
    + cbn [step]. unfold main_step, store. rewrite Hpc, Hw.
      cbn [mbind option_bind]. reflexivity.
    + unfold all_steps_left. cbn [goto main threads]. rewrite Hpc.
      destruct (Z.ltb_spec (g + 1) num_gpus); cbn [main_steps_left]; lia.
  - (* waits_end *)
    destruct (Hslots g Hm) as (pc & v & Hp & Hv & Hok & Hbar).
    cbn [phase_of] in Hok. destruct (Z.ltb_spec g g); [lia|].
    destruct pc; cbn [slot_ok barrier_ok] in Hok, Hbar;
      try (exfalso; intuition discriminate).
    + apply (Hthread g _ v Hp Hv). cbn [free]. apply Z.eqb_eq.
      destruct Hok as [_ [[_ [?|?]]|[-> _]]]; try discriminate.
      reflexivity.
    + apply (Hthread g _ v Hp Hv). reflexivity.
    + apply (Hthread g _ v Hp Hv). reflexivity.
    + apply (at_barrier_0_steps s g g v); tauto.
    + apply (Hthread g _ v Hp Hv). reflexivity.
    + apply (at_barrier_1_steps s g g v); tauto.
    + apply (Hthread g _ v Hp Hv). reflexivity.
    + apply (Hthread g _ v Hp Hv). reflexivity.
    + exists Main, (goto (if g + 1 <? num_gpus then waits_end (g + 1)
                          else returned) s).
      split.
      * cbn [step]. unfold main_step. rewrite Hpc, Hv.
        cbn [mbind option_bind].
        destruct Hok as [-> _]. reflexivity.
      * unfold all_steps_left. cbn [goto main threads]. rewrite Hpc.
        destruct (Z.ltb_spec (g + 1) num_gpus); cbn [main_steps_left]; lia.
Qed.

Lemma total_nonneg (l : list thread_pc) : 0 <= total (steps_left <$> l).
Proof.
  induction l as [|pc l IH]; [cbn; lia|].
  rewrite fmap_cons. unfold total in *. cbn [foldr].
  destruct pc; cbn [steps_left]; lia.
Qed.

Lemma returns_within (fuel : nat) : forall s,
  invariant routine num_gpus SetDevice s ->
  all_steps_left num_gpus s <= Z.of_nat fuel ->
  exists rest s',
    run routine num_gpus SetDevice rest s = Some s' /\ main s' = returned.
Proof.
  induction fuel as [|fuel IH]; intros s Hinv Hfuel.
  - exists [], s. split; [reflexivity|].
    destruct Hinv as (_ & _ & Hm & _).
    pose proof (total_nonneg (threads s)).
    unfold all_steps_left in Hfuel.
    destruct (main s); cbn [main_ok main_steps_left] in *;
      [lia|lia|lia|reflexivity].
  - assert (main s = returned \/ main s <> returned) as [Hret|Hnot].
    { destruct (main s); (left; reflexivity) || (right; discriminate). }
    + exists [], s. split; [reflexivity|assumption].
    + destruct (somebody_steps s Hinv Hnot) as (a & s1 & Hstep & Hless).
      destruct (IH s1) as (rest & s' & Hrun & Hret).
      * destruct a as [|gpu]; cbn [step] in Hstep.
        -- apply (invariant_main_step s); assumption.
        -- apply (invariant_thread_step gpu s); assumption.
      * lia.
      * exists (a :: rest), s'. split; [|assumption].
        cbn [run]. rewrite Hstep. assumption.
Qed.

End Handshake.

(** X13.  [Enact] returns only when the thread of every device has
    come to its end, and only if [SetDevice] succeeded in every one of
    them: a thread whose [SetDevice] fails leaves with [stats = 4]
    without ever setting it to 1, which is what [Enact] waits for, so
    that [Enact] does not return, however the steps of the threads and
    of [Enact] fall in time.  This holds for [CCThread] and for
    [BCThread] with its two barriers. *)
Theorem Enact_returns_after_every_thread
        (routine : handshake.Routine)
        (num_gpus : Z) (SetDevice : Z -> cudaError_t)
        (schedule : list handshake.Actor) (s : handshake.State) :
  0 <= num_gpus ->
  handshake.run routine num_gpus SetDevice schedule
                (handshake.started num_gpus)
  = Some s ->
  handshake.main s = handshake.returned ->
  forall gpu, 0 <= gpu < num_gpus ->
    SetDevice gpu = cudaSuccess
    /\ read (handshake.threads s) gpu = Some handshake.ended
    /\ read (handshake.stats s) gpu = Some 4.
Proof.
  intros Hn Hrun Hmain gpu Hgpu.
  destruct (invariant_run routine num_gpus SetDevice schedule _ s
              (invariant_started routine num_gpus SetDevice Hn) Hrun)
    as (_ & _ & _ & Hslots).
  destruct (Hslots gpu Hgpu) as (pc & v & Hpc & Hv & Hok & _).
  rewrite Hmain in Hok. cbn [handshake.phase_of] in Hok.
  destruct pc; cbn [handshake.slot_ok] in Hok;
    try (exfalso; intuition discriminate).
  destruct Hok as [-> [[_ H]|[Hr _]]]; [discriminate|].
  repeat split; assumption.
Qed.

(** Two devices and [BCThread]: the threads get ready, [EnactBC] lets
    them go, they meet at the two barriers and run to their ends, and
    [EnactBC] returns. *)
Lemma Enact_returns_after_every_thread_witness :
  handshake.run handshake.BCThread 2 (fun _ => cudaSuccess)
                examples.through_barriers (handshake.started 2)
  = Some (examples.all_ended [1; 0])
  /\ read [handshake.ended; handshake.ended] 1 = Some handshake.ended
  /\ read [4; 4] 1 = Some 4.
Proof.
  split; [reflexivity|].
  refine (proj2 (Enact_returns_after_every_thread
                   handshake.BCThread 2 (fun _ => cudaSuccess)
                   examples.through_barriers
                   (examples.all_ended [1; 0])
                   _ _ _ 1 _)).
  - lia.
  - reflexivity.
  - reflexivity.
  - lia.
Defined.

(** X14.  When [SetDevice] succeeds on every device, the hand-over
    cannot get stuck: from wherever the threads and [Enact] have got
    to, there are steps that take [Enact] to its return (the iteration
    loops of the threads being taken to end).  With the barriers of
    [BCThread], a thread that waits at a barrier goes on once the
    others have counted themselves in, and until then one of the
    others can take a step towards the barrier. *)
Theorem Enact_can_always_return
        (routine : handshake.Routine)
        (num_gpus : Z) (SetDevice : Z -> cudaError_t)
        (schedule : list handshake.Actor) (s : handshake.State) :
  0 <= num_gpus ->
  (forall gpu, 0 <= gpu < num_gpus -> SetDevice gpu = cudaSuccess) ->
  handshake.run routine num_gpus SetDevice schedule
                (handshake.started num_gpus)
  = Some s ->
  exists rest s',
    handshake.run routine num_gpus SetDevice rest s = Some s'
    /\ handshake.main s' = handshake.returned.
Proof.
  intros Hn Hok Hrun.
  pose proof (invariant_run routine num_gpus SetDevice schedule _ s
                (invariant_started routine num_gpus SetDevice Hn) Hrun)
    as Hinv.
  apply (returns_within routine num_gpus SetDevice Hok
           (Z.to_nat (handshake.all_steps_left num_gpus s)) s Hinv).
  lia.
Qed.

(** Two devices and [BCThread], when both threads have been let go and
    the first one waits at the first barrier for the second one, which
    is still in its forward loop. *)
Lemma Enact_can_always_return_witness :
  exists rest s',
    handshake.run handshake.BCThread 2 (fun _ => cudaSuccess) rest
      {| handshake.stats := [3; 3];
         handshake.threads :=
           [handshake.at_barrier_0; handshake.at_loop];
         handshake.barrier_0 := [0];
         handshake.barrier_1 := [];
         handshake.main := handshake.waits_end 0 |}
    = Some s'
    /\ handshake.main s' = handshake.returned.
Proof.
  apply (Enact_can_always_return
           handshake.BCThread 2 (fun _ => cudaSuccess)
           (firstn 13 examples.through_barriers)).
  - lia.
  - reflexivity.
  - reflexivity.
Defined.

(** One thread cannot pass a barrier alone: as long as the other thread
    stays in its forward loop, the first one stays at the barrier and
    [EnactBC] waits, whatever number of steps the two take. *)
Lemma BCThread_waits_at_barrier_for_the_others (n : nat) :
  handshake.run handshake.BCThread 2 (fun _ => cudaSuccess)
    (concat (replicate n [handshake.Thread 0; handshake.Main]))
    {| handshake.stats := [3; 3];
       handshake.threads := [handshake.at_barrier_0; handshake.at_loop];
       handshake.barrier_0 := [0];
       handshake.barrier_1 := [];
       handshake.main := handshake.waits_end 0 |}
  = Some {| handshake.stats := [3; 3];
            handshake.threads :=
              [handshake.at_barrier_0; handshake.at_loop];
            handshake.barrier_0 := [0];
            handshake.barrier_1 := [];
            handshake.main := handshake.waits_end 0 |}.
Proof.
  induction n as [|n IH]; [reflexivity|].
  cbn [replicate concat app handshake.run]. exact IH.
Qed.

(** X15.  The threads are started by [Init] and run once: when [Enact]
    has returned and is entered again without a new [Init], it waits
    for the first device to set [stats] to 1 and never gets further,
    whatever steps are taken. *)
Theorem Enact_again_never_returns
        (routine : handshake.Routine)
        (num_gpus : Z) (SetDevice : Z -> cudaError_t)
        (first second : list handshake.Actor) (s s' : handshake.State) :
  0 < num_gpus ->
  handshake.run routine num_gpus SetDevice first
                (handshake.started num_gpus)
  = Some s ->
  handshake.main s = handshake.returned ->
  handshake.run routine num_gpus SetDevice second
                (handshake.again num_gpus s)
  = Some s' ->
  handshake.main s' = handshake.waits_ready 0.
Proof.
  intros Hn Hfirst Hmain Hsecond.
  pose proof (invariant_run routine num_gpus SetDevice first _ s
                (invariant_started routine num_gpus SetDevice ltac:(lia))
                Hfirst)
    as (Hs & Ht & _ & Hslots).
  assert (handshake.stuck num_gpus (handshake.again num_gpus s)) as Hstuck.
  { unfold handshake.stuck, handshake.again, handshake.enter.
    destruct (Z.ltb_spec 0 num_gpus); [|lia].
    cbn [handshake.goto handshake.stats handshake.threads handshake.main].
    split; [assumption|]. split; [assumption|]. split; [reflexivity|].
    intros gpu Hgpu.
    destruct (Hslots gpu Hgpu) as (pc & v & Hpc & Hv & Hok & _).
    rewrite Hmain in Hok. cbn [handshake.phase_of] in Hok.
    destruct pc; cbn [handshake.slot_ok] in Hok;
      try (exfalso; intuition discriminate).
    destruct Hok as [-> _]. split; assumption. }
  rewrite (stuck_run routine num_gpus SetDevice second _ s' Hstuck Hsecond).
  unfold handshake.again, handshake.enter.
  destruct (Z.ltb_spec 0 num_gpus); [reflexivity|lia].
Qed.

Lemma Enact_again_never_returns_witness :
  handshake.main
    <$> handshake.run handshake.CCThread 2 (fun _ => cudaSuccess)
          examples.in_turn
          (handshake.again 2 (examples.all_ended []))
  = Some (handshake.waits_ready 0).
Proof.
  destruct (handshake.run handshake.CCThread 2 (fun _ => cudaSuccess)
              examples.in_turn
              (handshake.again 2 (examples.all_ended [])))
    as [s'|] eqn:Hrun; [|discriminate Hrun].
  cbn [fmap option_fmap option_map]. f_equal.
  refine (Enact_again_never_returns
            handshake.CCThread 2 (fun _ => cudaSuccess)
            examples.in_turn examples.in_turn
            (examples.all_ended []) s' _ _ _ Hrun).
  - lia.
  - reflexivity.
  - reflexivity.
Defined.

(** ** Labels, predecessors and sigmas that come in *)

Section ExpandForward.

Import bc_forward.

Variable Value : Type.
Variable add : Value -> Value -> Value.
Variables keys_in vertex_in_0 vertex_in_1 : list Z.
Variable value_in_0 : list Value.

#[local] Abbreviation element :=
  (Expand_Incoming_Forward_element Value add keys_in vertex_in_0
                                   vertex_in_1 value_in_0).

(** One round. *)
Lemma Expand_Incoming_Forward_element_spec
      (x key in_0 in_1 old_0 old_1 : Z) (val old_val : Value)
      (r : Received Value) :
  read keys_in x = Some key ->
  read vertex_in_0 x = Some in_0 ->
  read vertex_in_1 x = Some in_1 ->
  read value_in_0 x = Some val ->
  read (vertex_org_0 Value r) key = Some old_0 ->
  read (vertex_org_1 Value r) key = Some old_1 ->
  read (value_org_0 Value r) key = Some old_val ->
  0 <= x < GetSize (keys_out Value r) ->
  exists r',
    element x r = Some r'
    /\ GetSize (keys_out Value r') = GetSize (keys_out Value r)
    /\ GetSize (vertex_org_0 Value r') = GetSize (vertex_org_0 Value r)
    /\ GetSize (vertex_org_1 Value r') = GetSize (vertex_org_1 Value r)
    /\ GetSize (value_org_0 Value r') = GetSize (value_org_0 Value r)
    /\ (read (keys_out Value r') x, read (vertex_org_0 Value r') key,
        read (vertex_org_1 Value r') key, read (value_org_0 Value r') key)
       = (let m := merged Value add key old_0 old_1 old_val in_0 in_1 val in
          (Some (fst (fst (fst m))), Some (snd (fst (fst m))),
           Some (snd (fst m)), Some (snd m)))
    /\ (forall y, y <> x ->
          read (keys_out Value r') y = read (keys_out Value r) y)
    /\ (forall k, k <> key ->
          read (vertex_org_0 Value r') k = read (vertex_org_0 Value r) k
          /\ read (vertex_org_1 Value r') k = read (vertex_org_1 Value r) k
          /\ read (value_org_0 Value r') k = read (value_org_0 Value r) k).
Proof.
  intros Hkey Hin0 Hin1 Hval H0 H1 Hv Hx.
  pose proof (read_in_range _ _ _ H0) as Hr0.
  pose proof (read_in_range _ _ _ H1) as Hr1.
  pose proof (read_in_range _ _ _ Hv) as Hrv.
  unfold Expand_Incoming_Forward_element, atomicCAS, atomicAdd, merged.
  rewrite Hkey. cbn [mbind option_bind]. rewrite Hin1.
  cbn [mbind option_bind]. rewrite H1. cbn [mbind option_bind].
  destruct (write_is_Some (vertex_org_1 Value r) key
              (if old_1 =? -2 then in_1 else old_1)) as [org1 Hw1];
    [assumption|].
  rewrite Hw1. cbn [mbind option_bind fst snd].
  destruct (Z.eqb_spec old_1 (-2)) as [Hfresh|Hseen].
  - rewrite Hin0. cbn [mbind option_bind].
    destruct (write_is_Some (vertex_org_0 Value r) key in_0)
      as [org0 Hw0]; [assumption|].
    destruct (write_is_Some (keys_out Value r) x key) as [keys Hwk];
      [assumption|].
    destruct (write_is_Some (value_org_0 Value r) key (add old_val val))
      as [values Hwv]; [assumption|].
    rewrite Hw0. cbn [mbind option_bind]. rewrite Hwk.
    cbn [mbind option_bind]. rewrite Hval. cbn [mbind option_bind].
    rewrite Hv. cbn [mbind option_bind]. rewrite Hwv.
    eexists. split; [reflexivity|].
    cbn [keys_out vertex_org_0 vertex_org_1 value_org_0 fst snd].
    rewrite (GetSize_write _ _ _ _ Hwk), (GetSize_write _ _ _ _ Hw0),
      (GetSize_write _ _ _ _ Hw1), (GetSize_write _ _ _ _ Hwv).
    repeat (split; [reflexivity|]).
    rewrite (read_write_eq _ _ _ _ Hwk), (read_write_eq _ _ _ _ Hw0),
      (read_write_eq _ _ _ _ Hw1), (read_write_eq _ _ _ _ Hwv).
    split; [reflexivity|]. split.
    + intros y Hy. apply (read_write_ne _ _ _ _ _ Hwk). congruence.
    + intros k Hk.
      rewrite (read_write_ne _ _ _ _ _ Hw0),
        (read_write_ne _ _ _ _ _ Hw1), (read_write_ne _ _ _ _ _ Hwv)
        by congruence.
      repeat split; reflexivity.
  - rewrite Hin0. cbn [mbind option_bind]. rewrite H0.
    cbn [mbind option_bind].
    destruct (write_is_Some (vertex_org_0 Value r) key
                (if old_0 =? -1 then in_0 else old_0)) as [org0 Hw0];
      [assumption|].
    rewrite Hw0. cbn [mbind option_bind fst snd].
    rewrite (read_write_eq _ _ _ _ Hw0). cbn [mbind option_bind].
    assert (Hsame : forall keys values v,
              write (keys_out Value r) x v = Some keys ->
              (values = value_org_0 Value r
               \/ write (value_org_0 Value r) key (add old_val val)
                  = Some values) ->
              GetSize keys = GetSize (keys_out Value r)
              /\ GetSize org0 = GetSize (vertex_org_0 Value r)
              /\ GetSize org1 = GetSize (vertex_org_1 Value r)
              /\ GetSize values = GetSize (value_org_0 Value r)
              /\ (forall y, y <> x ->
                    read keys y = read (keys_out Value r) y)
              /\ (forall k, k <> key ->
                    read org0 k = read (vertex_org_0 Value r) k
                    /\ read org1 k = read (vertex_org_1 Value r) k
                    /\ read values k = read (value_org_0 Value r) k)).
    { intros keys values v Hwk Hwv.
      rewrite (GetSize_write _ _ _ _ Hwk), (GetSize_write _ _ _ _ Hw0),
        (GetSize_write _ _ _ _ Hw1).
      repeat (split; [reflexivity|]). split; [|split].
      - destruct Hwv as [->|Hwv]; [reflexivity|].
        apply (GetSize_write _ _ _ _ Hwv).
      - intros y Hy. apply (read_write_ne _ _ _ _ _ Hwk). congruence.
      - intros k Hk.
        rewrite (read_write_ne _ _ _ _ _ Hw0),
          (read_write_ne _ _ _ _ _ Hw1) by congruence.
        repeat (split; [reflexivity|]).
        destruct Hwv as [->|Hwv]; [reflexivity|].
        apply (read_write_ne _ _ _ _ _ Hwv). congruence. }
    destruct (write_is_Some (value_org_0 Value r) key (add old_val val))
      as [values Hwv]; [assumption|].
    destruct (Z.eqb_spec old_0 (-1)) as [Hnone|Hlabel].
    + rewrite Z.eqb_refl. cbn [negb].
      destruct (write_is_Some (keys_out Value r) x key) as [keys Hwk];
        [assumption|].
      rewrite Hwk. cbn [mbind option_bind]. rewrite Hval.
      cbn [mbind option_bind]. rewrite Hv. cbn [mbind option_bind].
      rewrite Hwv.
      eexists. split; [reflexivity|].
      cbn [keys_out vertex_org_0 vertex_org_1 value_org_0 fst snd].
      destruct (Hsame keys values key Hwk (or_intror Hwv))
        as (S1 & S2 & S3 & S4 & S5 & S6).
      repeat (split; [assumption|]).
      rewrite (read_write_eq _ _ _ _ Hwk), (read_write_eq _ _ _ _ Hw0),
        (read_write_eq _ _ _ _ Hw1), (read_write_eq _ _ _ _ Hwv).
      split; [reflexivity|]. split; assumption.
    + destruct (Z.eqb_spec old_0 in_0) as [Heq|Hne]; cbn [negb].
      * destruct (write_is_Some (keys_out Value r) x (-1)) as [keys Hwk];
          [assumption|].
        rewrite Hwk. cbn [mbind option_bind]. rewrite Hval.
        cbn [mbind option_bind]. rewrite Hv. cbn [mbind option_bind].
        rewrite Hwv.
        eexists. split; [reflexivity|].
        cbn [keys_out vertex_org_0 vertex_org_1 value_org_0 fst snd].
        destruct (Hsame keys values (-1) Hwk (or_intror Hwv))
          as (S1 & S2 & S3 & S4 & S5 & S6).
        repeat (split; [assumption|]).
        rewrite (read_write_eq _ _ _ _ Hwk), (read_write_eq _ _ _ _ Hw0),
          (read_write_eq _ _ _ _ Hw1), (read_write_eq _ _ _ _ Hwv).
        split; [reflexivity|]. split; assumption.
      * destruct (write_is_Some (keys_out Value r) x (-1)) as [keys Hwk];
          [assumption|].
        rewrite Hwk. cbn [mbind option_bind].
        eexists. split; [reflexivity|].
        cbn [keys_out vertex_org_0 vertex_org_1 value_org_0 fst snd].
        destruct (Hsame keys (value_org_0 Value r) (-1) Hwk
                        (or_introl eq_refl))
          as (S1 & S2 & S3 & S4 & S5 & S6).
        repeat (split; [assumption|]).
        rewrite (read_write_eq _ _ _ _ Hwk), (read_write_eq _ _ _ _ Hw0),
          (read_write_eq _ _ _ _ Hw1), Hv.
        split; [reflexivity|]. split; assumption.
Qed.

Variable n : Z.
Variables size_0 size_1 size_v : Z.

Hypothesis keys_here : n <= GetSize keys_in.
Hypothesis vertex_0_here : n <= GetSize vertex_in_0.
Hypothesis vertex_1_here : n <= GetSize vertex_in_1.
Hypothesis value_0_here : n <= GetSize value_in_0.
Hypothesis keys_in_range :
  forall x k, 0 <= x < n -> read keys_in x = Some k ->
    0 <= k < size_0 /\ 0 <= k < size_1 /\ 0 <= k < size_v.
Hypothesis keys_differ :
  forall x y, 0 <= x < n -> 0 <= y < n ->
    read keys_in x = read keys_in y -> x = y.

(** The rounds for the elements [l], in that order. *)
Lemma run_all_Expand_Incoming_Forward (l : list Z) :
  forall r : Received Value,
    NoDup l -> Forall (fun x => 0 <= x < n) l ->
    n <= GetSize (keys_out Value r) ->
    GetSize (vertex_org_0 Value r) = size_0 ->
    GetSize (vertex_org_1 Value r) = size_1 ->
    GetSize (value_org_0 Value r) = size_v ->
    exists r',
      run_all element l r = Some r'
      /\ GetSize (keys_out Value r') = GetSize (keys_out Value r)
      /\ GetSize (vertex_org_0 Value r') = size_0
      /\ GetSize (vertex_org_1 Value r') = size_1
      /\ GetSize (value_org_0 Value r') = size_v
      /\ (forall x key in_0 in_1 old_0 old_1 val old_val,
            x ∈ l ->
            read keys_in x = Some key ->
            read vertex_in_0 x = Some in_0 ->
            read vertex_in_1 x = Some in_1 ->
            read value_in_0 x = Some val ->
            read (vertex_org_0 Value r) key = Some old_0 ->
            read (vertex_org_1 Value r) key = Some old_1 ->
            read (value_org_0 Value r) key = Some old_val ->
            (read (keys_out Value r') x, read (vertex_org_0 Value r') key,
             read (vertex_org_1 Value r') key,
             read (value_org_0 Value r') key)
            = (let m := merged Value add key old_0 old_1 old_val
                               in_0 in_1 val in
               (Some (fst (fst (fst m))), Some (snd (fst (fst m))),
                Some (snd (fst m)), Some (snd m))))
      /\ (forall y, y ∉ l ->
            read (keys_out Value r') y = read (keys_out Value r) y)
      /\ (forall k, (forall x, x ∈ l -> read keys_in x <> Some k) ->
            read (vertex_org_0 Value r') k = read (vertex_org_0 Value r) k
            /\ read (vertex_org_1 Value r') k
               = read (vertex_org_1 Value r) k
            /\ read (value_org_0 Value r') k
               = read (value_org_0 Value r) k).
Proof.
  induction l as [|x l IH]; intros r Hdup Hl Hkeys H0 H1 Hv.
  - exists r. split; [reflexivity|]. split; [reflexivity|].
    repeat (split; [assumption|]). split; [|split].
    + intros x ? ? ? ? ? ? ? Hx. inversion Hx.
    + reflexivity.
    + intros; repeat split; reflexivity.
  - apply list.NoDup_cons in Hdup as [Hnew Hdup].
    apply list.Forall_cons in Hl as [Hx Hl].
    destruct (read_is_Some keys_in x) as [key Hkey]; [lia|].
    destruct (read_is_Some vertex_in_0 x) as [in_0 Hin0]; [lia|].
    destruct (read_is_Some vertex_in_1 x) as [in_1 Hin1]; [lia|].
    destruct (read_is_Some value_in_0 x) as [val Hval]; [lia|].
    destruct (keys_in_range x key Hx Hkey) as (Hk0 & Hk1 & Hkv).
    destruct (read_is_Some (vertex_org_0 Value r) key) as [old_0 Ho0];
      [lia|].
    destruct (read_is_Some (vertex_org_1 Value r) key) as [old_1 Ho1];
      [lia|].
    destruct (read_is_Some (value_org_0 Value r) key) as [old_val Hov];
      [lia|].
    destruct (Expand_Incoming_Forward_element_spec
                x key in_0 in_1 old_0 old_1 val old_val r
                Hkey Hin0 Hin1 Hval Ho0 Ho1 Hov ltac:(lia))
      as (r1 & Hstep & S1 & S2 & S3 & S4 & Hnow & Hkeep & Hother).
    cbn [run_all]. rewrite Hstep. cbn [mbind option_bind].
    destruct (IH r1 Hdup Hl ltac:(lia) ltac:(lia) ltac:(lia) ltac:(lia))
      as (r' & Hrun & T1 & T2 & T3 & T4 & Hall & Hkeep' & Hother').
    assert (Hapart : forall y, y ∈ l -> read keys_in y <> Some key).
    { intros y Hy Heq. apply Hnew.
      rewrite list.Forall_forall in Hl.
      rewrite (keys_differ x y Hx (Hl y Hy)) by congruence.
      assumption. }
    exists r'. split; [assumption|]. split; [lia|].
    repeat (split; [assumption|]). split; [|split].
    + intros y k i0 i1 o0 o1 v ov Hy Hk Hi0 Hi1 Hv' Hr0 Hr1 Hrv.
      apply elem_of_cons in Hy as [->|Hy].
      * assert (k = key) as -> by congruence.
        assert (i0 = in_0) as -> by congruence.
        assert (i1 = in_1) as -> by congruence.
        assert (v = val) as -> by congruence.
        assert (o0 = old_0) as -> by congruence.
        assert (o1 = old_1) as -> by congruence.
        assert (ov = old_val) as -> by congruence.
        rewrite (Hkeep' x Hnew).
        destruct (Hother' key Hapart) as (-> & -> & ->).
        assumption.
      * assert (k <> key) as Hne.
        { intros ->. apply (Hapart y Hy). assumption. }
        destruct (Hother k Hne) as (E0 & E1 & Ev).
        apply (Hall y k i0 i1 o0 o1 v ov); try assumption; congruence.
    + intros y Hy. apply not_elem_of_cons in Hy as [Hne Hy].
      rewrite (Hkeep' y Hy). apply Hkeep. assumption.
    + intros k Hk.
      assert (k <> key) as Hne.
      { intros ->. apply (Hk x); [left|assumption]. }
      destruct (Hother' k) as (-> & -> & ->).
      { intros y Hy. apply Hk. right. assumption. }
      apply Hother. assumption.
Qed.

End ExpandForward.

(** X16.  For incoming keys that are all different and lie inside the
    arrays of the device, [Expand_Incoming_Forward] merges every
    incoming vertex into the state of the device: a vertex without a
    predecessor (-2) takes the incoming label and predecessor and is
    queued; a vertex that has a predecessor but no label (-1) takes
    the label and is queued; a vertex with the incoming label is not
    queued again (-1 in [keys_out]); in these three cases the incoming
    value is added to the value of the vertex.  A vertex with another
    label is left as it is and not queued.  The vertices that did not
    come in, and [keys_out] behind the incoming elements, stay as they
    were, whatever the grid. *)
Theorem Expand_Incoming_Forward_merges
        (Value : Type) (add : Value -> Value -> Value)
        (grid_size block_size num_elements : Z)
        (keys_in vertex_in_0 vertex_in_1 : list Z)
        (value_in_0 : list Value)
        (r : bc_forward.Received Value) (keys : list Z) :
  1 <= grid_size * block_size -> 0 <= num_elements ->
  num_elements + grid_size * block_size <= INT_MAX ->
  keys = take (Z.to_nat num_elements) keys_in ->
  num_elements <= GetSize keys_in -> NoDup keys ->
  Forall (fun k => 0 <= k < GetSize (bc_forward.vertex_org_0 Value r)
                   /\ 0 <= k < GetSize (bc_forward.vertex_org_1 Value r)
                   /\ 0 <= k < GetSize (bc_forward.value_org_0 Value r))
         keys ->
  num_elements <= GetSize vertex_in_0 ->
  num_elements <= GetSize vertex_in_1 ->
  num_elements <= GetSize value_in_0 ->
  num_elements <= GetSize (bc_forward.keys_out Value r) ->
  exists r',
    bc_forward.Expand_Incoming_Forward Value add grid_size block_size
                                       num_elements keys_in vertex_in_0
                                       vertex_in_1 value_in_0 r
    = Some r'
    /\ (forall x key in_0 in_1 old_0 old_1 val old_val,
          0 <= x < num_elements ->
          read keys_in x = Some key ->
          read vertex_in_0 x = Some in_0 ->
          read vertex_in_1 x = Some in_1 ->
          read value_in_0 x = Some val ->
          read (bc_forward.vertex_org_0 Value r) key = Some old_0 ->
          read (bc_forward.vertex_org_1 Value r) key = Some old_1 ->
          read (bc_forward.value_org_0 Value r) key = Some old_val ->
          (read (bc_forward.keys_out Value r') x,
           read (bc_forward.vertex_org_0 Value r') key,
           read (bc_forward.vertex_org_1 Value r') key,
           read (bc_forward.value_org_0 Value r') key)
          = (if old_1 =? -2
             then (Some key, Some in_0, Some in_1, Some (add old_val val))
             else if old_0 =? -1
             then (Some key, Some in_0, Some old_1, Some (add old_val val))
             else if old_0 =? in_0
             then (Some (-1), Some old_0, Some old_1,
                   Some (add old_val val))
             else (Some (-1), Some old_0, Some old_1, Some old_val)))
    /\ (forall y, ~ 0 <= y < num_elements ->
          read (bc_forward.keys_out Value r') y
          = read (bc_forward.keys_out Value r) y)
    /\ (forall k, k ∉ keys ->
          read (bc_forward.vertex_org_0 Value r') k
          = read (bc_forward.vertex_org_0 Value r) k
          /\ read (bc_forward.vertex_org_1 Value r') k
             = read (bc_forward.vertex_org_1 Value r) k
          /\ read (bc_forward.value_org_0 Value r') k
             = read (bc_forward.value_org_0 Value r) k).
Proof.
  intros HS Hn Hmax Hkeys Hsize Hdup Hrange Hv0 Hv1 Hvv Hout.
  assert (Hkey : forall x k, 0 <= x < num_elements ->
            read keys_in x = Some k -> keys !! Z.to_nat x = Some k).
  { intros x k Hx Hk. rewrite Hkeys, lookup_take_lt by lia.
    rewrite <- read_lookup by lia. assumption. }
  unfold bc_forward.Expand_Incoming_Forward.
  rewrite launch_schedule by assumption.
  pose proof (schedule_Permutation (grid_size * block_size) num_elements HS)
    as Hperm.
  destruct (run_all_Expand_Incoming_Forward
              Value add keys_in vertex_in_0 vertex_in_1 value_in_0
              num_elements
              (GetSize (bc_forward.vertex_org_0 Value r))
              (GetSize (bc_forward.vertex_org_1 Value r))
              (GetSize (bc_forward.value_org_0 Value r))
              Hsize Hv0 Hv1 Hvv)
    with (l := schedule (grid_size * block_size) num_elements) (r := r)
    as (r' & Hrun & _ & _ & _ & _ & Hall & Hkeep & Hother);
    try (assumption || reflexivity).
  - intros x k Hx Hk. rewrite list.Forall_forall in Hrange.
    apply Hrange. eapply list_elem_of_lookup_2. apply (Hkey x k Hx Hk).
  - intros x y Hx Hy Heq.
    destruct (read_is_Some keys_in x) as [k Hk]; [lia|].
    pose proof (Hkey x k Hx Hk) as Hlx.
    pose proof (Hkey y k Hy ltac:(congruence)) as Hly.
    pose proof (NoDup_lookup _ _ _ _ Hdup Hlx Hly). lia.
  - rewrite Hperm. apply NoDup_seqZ.
  - apply list.Forall_forall. intros x Hx. rewrite Hperm in Hx.
    apply elem_of_seqZ in Hx. lia.
  - exists r'. split; [assumption|]. split; [|split].
    + intros x key in_0 in_1 old_0 old_1 val old_val Hx Hk Hi0 Hi1 Hv
             Ho0 Ho1 Hov.
      rewrite (Hall x key in_0 in_1 old_0 old_1 val old_val);
        try assumption.
      * unfold bc_forward.merged.
        destruct (old_1 =? -2); [reflexivity|].
        destruct (old_0 =? -1); [reflexivity|].
        destruct (old_0 =? in_0); reflexivity.
      * rewrite Hperm. apply elem_of_seqZ. lia.
    + intros y Hy. apply Hkeep. rewrite Hperm, elem_of_seqZ. lia.
    + intros k Hk. apply Hother. intros x Hx Hread. apply Hk.
      rewrite Hperm in Hx. apply elem_of_seqZ in Hx.
      eapply list_elem_of_lookup_2. apply (Hkey x k); [lia|assumption].
Qed.

(** Three vertices come in: vertex 2 is new, vertex 0 has the incoming
    label already, vertex 3 has another one. *)
Lemma Expand_Incoming_Forward_merges_witness :
  bc_forward.Expand_Incoming_Forward
    Z Z.add 1 2 3 [2; 0; 3] [1; 1; 1] [7; 8; 9] [10; 20; 30]
    {| bc_forward.keys_out := [5; 5; 5; 5];
       bc_forward.vertex_org_0 := [1; 0; -1; 0];
       bc_forward.vertex_org_1 := [4; -1; -2; 4];
       bc_forward.value_org_0 := [100; 200; 0; 400] |}
  = Some {| bc_forward.keys_out := [2; -1; -1; 5];
            bc_forward.vertex_org_0 := [1; 0; 1; 0];
            bc_forward.vertex_org_1 := [4; -1; 7; 4];
            bc_forward.value_org_0 := [120; 200; 10; 400] |}.
Proof.
  destruct (Expand_Incoming_Forward_merges
              Z Z.add 1 2 3 [2; 0; 3] [1; 1; 1] [7; 8; 9] [10; 20; 30]
              {| bc_forward.keys_out := [5; 5; 5; 5];
                 bc_forward.vertex_org_0 := [1; 0; -1; 0];
                 bc_forward.vertex_org_1 := [4; -1; -2; 4];
                 bc_forward.value_org_0 := [100; 200; 0; 400] |}
              [2; 0; 3])
    as (r' & Hrun & _).
  - lia.
  - lia.
  - unfold INT_MAX. lia.
  - reflexivity.
  - unfold GetSize. cbn. lia.
  - repeat constructor; rewrite ?elem_of_cons, ?elem_of_nil;
      intros H; repeat destruct H as [H|H]; discriminate || exact H.
  - repeat constructor; unfold GetSize; cbn; lia.
  - unfold GetSize. cbn. lia.
  - unfold GetSize. cbn. lia.
  - unfold GetSize. cbn. lia.
  - unfold GetSize. cbn. lia.
  - rewrite Hrun. vm_compute in Hrun. symmetry. exact Hrun.
Defined.
